(** * EPUB Canonical Fragment Identifiers: a shallow embedding of
      [src/epub/epubcfi.ts] and the properties of its tokenizer, step
      parser, serializer, tree indexer and range builder, and of the
      reference counts of its loader, with the white-space
      normalisation, the keys and the font deobfuscation of
      [src/epub/encryption.ts].

    Conventions of the embedding.

    - A JavaScript string is a [string]; one [ascii] stands for one
      code unit (the Latin-1 range).
    - A number coming out of [parseInt], a child index or a character
      offset is a [number]: [NaN] or an exact integer.  Rounding of
      integers above 2^53 is outside the model.
    - A number coming out of [parseFloat] is a [float]: [FNaN] or the
      exact decimal the literal denotes.  IEEE rounding is outside the
      model.
    - A runtime [TypeError] is the [Throw] branch of [result].
    - A [Uint8Array] and the content of a [Blob] are lists of bytes; a
      [Map] with string keys is a list of entries. *)

From Stdlib Require Import String Ascii List ZArith NArith Bool Lia Arith.
From Stdlib Require Strings.Byte.
Import ListNotations.
Open Scope string_scope.
Open Scope list_scope.

Set Implicit Arguments.

(* ------------------------------------------------------------------ *)
(** ** Exceptions *)

Inductive error : Type := TypeError.

Inductive result (A : Type) : Type :=
| Ok (x : A)
| Throw (e : error).

Arguments Ok {A} x.
Arguments Throw {A} e.

Definition bind {A B} (m : result A) (k : A -> result B) : result B :=
  match m with
  | Ok x => k x
  | Throw e => Throw e
  end.

Notation "x <- m ;; k" := (bind m (fun x => k))
  (at level 61, m at next level, right associativity).

(** [arr.map(f)] for an [f] that may throw: left to right, the first
    exception aborts the whole map. *)
Fixpoint mapM {A B} (f : A -> result B) (l : list A) : result (list B) :=
  match l with
  | [] => Ok []
  | x :: r => y <- f x ;; ys <- mapM f r ;; Ok (y :: ys)
  end.

(* ------------------------------------------------------------------ *)
(** ** Numbers *)

Inductive number : Type :=
| NaN
| Num (z : Z).

Inductive float : Type :=
| FNaN
| Float (m : N) (e : nat).   (* the decimal m * 10^-e *)

(** [a === b] on numbers: [NaN] differs from itself. *)
Definition strictEq (a b : number) : bool :=
  match a, b with
  | Num x, Num y => Z.eqb x y
  | _, _ => false
  end.

(** Truthiness of a number: neither [NaN] nor zero. *)
Definition truthy (a : number) : bool :=
  match a with
  | Num z => negb (Z.eqb z 0)
  | NaN => false
  end.

Definition truthyF (a : float) : bool :=
  match a with
  | Float m _ => negb (N.eqb m 0)
  | FNaN => false
  end.

(** [index % 2] used as a condition: the remainder keeps the sign of
    the dividend, so the test holds exactly for odd integers. *)
Definition oddIndex (a : number) : bool :=
  match a with
  | Num z => negb (Z.eqb (Z.rem z 2) 0)
  | NaN => false
  end.

(* ------------------------------------------------------------------ *)
(** ** Characters and strings *)

Definition isNumber (c : ascii) : bool :=
  let n := nat_of_ascii c in (48 <=? n)%nat && (n <=? 57)%nat.

Definition digitVal (c : ascii) : N := N.of_nat (nat_of_ascii c - 48).

Definition digitChar (d : N) : ascii := ascii_of_nat (48 + N.to_nat d).

(** White space and line terminators removed by [String.prototype.trim]
    (those below U+0100). *)
Definition isSpace (c : ascii) : bool :=
  let n := nat_of_ascii c in
  ((9 <=? n)%nat && (n <=? 13)%nat) || (n =? 32)%nat || (n =? 160)%nat.

Fixpoint trimStart (s : string) : string :=
  match s with
  | String c r => if isSpace c then trimStart r else s
  | EmptyString => EmptyString
  end.

Fixpoint trimEnd (s : string) : string :=
  match s with
  | String c r =>
      match trimEnd r with
      | EmptyString => if isSpace c then EmptyString else String c EmptyString
      | r' => String c r'
      end
  | EmptyString => EmptyString
  end.

Definition trim (s : string) : string := trimEnd (trimStart s).

(** [xs.join(sep)] *)
Fixpoint join (sep : string) (xs : list string) : string :=
  match xs with
  | [] => ""
  | [x] => x
  | x :: r => x ++ sep ++ join sep r
  end.

(** Decimal digits of a natural number, most significant first.  The
    fuel bounds the number of digits. *)
Fixpoint digitsFuel (fuel : nat) (n : N) (acc : string) : string :=
  match fuel with
  | O => acc
  | S f =>
      let acc' := String (digitChar (n mod 10)) acc in
      if (n <? 10)%N then acc' else digitsFuel f (n / 10) acc'
  end.

Definition natToString (n : N) : string :=
  digitsFuel (S (N.to_nat (N.log2 n))) n "".

(** [`${x}`] for a [number]. *)
Definition numberToString (a : number) : string :=
  match a with
  | NaN => "NaN"
  | Num (Zneg p) => "-" ++ natToString (Npos p)
  | Num z => natToString (Z.to_N z)
  end.

(** Value of a run of decimal digits read after [acc]; stops at the
    first character that is not a digit. *)
Fixpoint digitsVal (acc : N) (s : string) : N :=
  match s with
  | String c r => if isNumber c then digitsVal (10 * acc + digitVal c) r else acc
  | EmptyString => acc
  end.

(** [parseInt(value)] on the accumulator of the tokenizer, which holds
    decimal digits only: [NaN] when there is no leading digit. *)
Definition parseInt (s : string) : number :=
  match s with
  | String c _ => if isNumber c then Num (Z.of_N (digitsVal 0 s)) else NaN
  | EmptyString => NaN
  end.

(** Splits a string at the end of its leading digits. *)
Fixpoint spanDigits (s : string) : string * string :=
  match s with
  | String c r =>
      if isNumber c then let (d, t) := spanDigits r in (String c d, t)
      else (EmptyString, s)
  | EmptyString => (EmptyString, EmptyString)
  end.

Fixpoint stripZeros (fuel : nat) (m : N) : float :=
  match fuel with
  | O => Float m 0
  | S f => if (m mod 10 =? 0)%N then stripZeros f (m / 10) else Float m fuel
  end.

(** [parseFloat(value)] on the accumulator of the tokenizer, which
    holds digits and dots only: the longest prefix that is a decimal
    literal, [FNaN] when there is none. *)
Definition parseFloat (s : string) : float :=
  let (ip, rest) := spanDigits s in
  match rest with
  | String "." r =>
      let (fp, _) := spanDigits r in
      match ip, fp with
      | EmptyString, EmptyString => FNaN
      | _, _ => stripZeros (String.length fp) (digitsVal (digitsVal 0 ip) fp)
      end
  | _ => match ip with EmptyString => FNaN | _ => Float (digitsVal 0 ip) 0 end
  end.

Fixpoint padZeros (k : nat) (s : string) : string :=
  match k with
  | O => s
  | S k' => String "0" (padZeros k' s)
  end.

(** [`${x}`] for a [float] in plain decimal notation. *)
Definition floatToString (x : float) : string :=
  match x with
  | FNaN => "NaN"
  | Float m O => natToString m
  | Float m e =>
      let p := (10 ^ N.of_nat e)%N in
      let fr := natToString (m mod p) in
      natToString (m / p) ++ "." ++ padZeros (e - String.length fr) fr
  end.


(** [escapeCFI]: every one of [^ [ ] ( ) , ; =] gets a [^] in front. *)
Definition isSpecial (c : ascii) : bool :=
  match c with
  | "^" | "[" | "]" | "(" | ")" | "," | ";" | "=" => true
  | _ => false
  end%char.

Fixpoint escapeCFI (str : string) : string :=
  match str with
  | String c r =>
      if isSpecial c then String "^" (String c (escapeCFI r))
      else String c (escapeCFI r)
  | EmptyString => EmptyString
  end.

(** Line terminators, which [.] of a regular expression does not match. *)
Definition isLineTerminator (c : ascii) : bool :=
  match c with
  | "010" | "013" => true
  | _ => false
  end%char.

Fixpoint noLineTerminator (s : string) : bool :=
  match s with
  | String c r => negb (isLineTerminator c) && noLineTerminator r
  | EmptyString => true
  end.

(** Removes a final [")"]; [None] when the string does not end in one. *)
Fixpoint dropClosing (s : string) : option string :=
  match s with
  | EmptyString => None
  | String c r =>
      match r with
      | EmptyString => if Ascii.eqb c ")" then Some EmptyString else None
      | String _ _ =>
          match dropClosing r with
          | Some r' => Some (String c r')
          | None => None
          end
      end
  end.

Fixpoint dropPrefix (p s : string) : option string :=
  match p, s with
  | EmptyString, _ => Some s
  | String a p', String b s' => if Ascii.eqb a b then dropPrefix p' s' else None
  | String _ _, EmptyString => None
  end.

(** The first group of [x.match(isCFIReg)]: the body between the
    leading "epubcfi(" and the final ")" when [x] has that shape and the
    body holds no line terminator; [None] when [x] does not match. *)
Definition matchCFI (x : string) : option string :=
  match dropPrefix "epubcfi(" x with
  | Some r =>
      match dropClosing r with
      | Some body => if noLineTerminator body then Some body else None
      | None => None
      end
  | None => None
  end.

Definition wrap (x : string) : string :=
  match matchCFI x with
  | Some _ => x
  | None => "epubcfi(" ++ x ++ ")"
  end.

Definition unwrap (x : string) : string :=
  match matchCFI x with
  | Some body => body
  | None => x
  end.

(* ------------------------------------------------------------------ *)
(** ** Tokenizer *)

(** The [state] variable of [tokenizer]: [null], one of the lead
    characters, or [;name] while a parameter is read. *)
Inductive tstate : Type :=
| SNull
| SBang
| SComma
| SSlash
| SColon
| STilde
| SAt
| SBracket
| SParam (name : string).

(** A token [[type, value]]; the type fixes the kind of the payload. *)
Inductive TToken : Type :=
| TStep (n : number)                  (* ['/', n] *)
| TOffset (n : number)                (* [':', n] *)
| TTemporal (x : float)               (* ['~', x] *)
| TSpatial (x : float)                (* ['@', x] *)
| TAssert (s : string)                (* ['[', s] *)
| TParam (name : string) (s : string) (* [';name', s] *)
| TIndir                              (* ['!'] *)
| TRange.                             (* [','] *)

Record tok : Type := mkTok {
  tokens : list TToken;
  state : tstate;
  escape : bool;
  value : string
}.

Definition push (st : tok) (x : TToken) : tok :=
  mkTok (tokens st ++ [x]) SNull (escape st) "".

(** [cat(x)]; the closing sentinel [''] ([None]) appends nothing. *)
Definition cat (st : tok) (x : option ascii) : tok :=
  mkTok (tokens st) (state st) false
        (match x with
         | Some c => value st ++ String c ""
         | None => value st
         end).

Definition setState (st : tok) (s : tstate) : tok :=
  mkTok (tokens st) s (escape st) (value st).

Definition isChar (c : ascii) (x : option ascii) : bool :=
  match x with
  | Some d => Ascii.eqb c d
  | None => false
  end.

Definition isDigit (x : option ascii) : bool :=
  match x with
  | Some d => isNumber d
  | None => false
  end.

(** The last statement of the loop body: a lead character sets the state. *)
Definition lead (st : tok) (x : option ascii) : tok :=
  match x with
  | Some "/"%char => setState st SSlash
  | Some ":"%char => setState st SColon
  | Some "~"%char => setState st STilde
  | Some "@"%char => setState st SAt
  | Some "["%char => setState st SBracket
  | Some "!"%char => setState st SBang
  | Some ","%char => setState st SComma
  | _ => st
  end.

(** One iteration of the loop of [tokenizer]. *)
Definition step (st : tok) (x : option ascii) : tok :=
  if isChar "^" x && negb (escape st) then
    mkTok (tokens st) (state st) true (value st)
  else
    match state st with
    | SBang => lead (push st TIndir) x
    | SComma => lead (push st TRange) x
    | SSlash =>
        if isDigit x then cat st x
        else lead (push st (TStep (parseInt (value st)))) x
    | SColon =>
        if isDigit x then cat st x
        else lead (push st (TOffset (parseInt (value st)))) x
    | STilde =>
        if isDigit x || isChar "." x then cat st x
        else lead (push st (TTemporal (parseFloat (value st)))) x
    | SAt =>
        if isChar ":" x then
          setState (push st (TSpatial (parseFloat (value st)))) SAt
        else if isDigit x || isChar "." x then cat st x
        else lead (push st (TSpatial (parseFloat (value st)))) x
    | SBracket =>
        if isChar ";" x && negb (escape st) then
          setState (push st (TAssert (value st))) (SParam "")
        else if isChar "," x && negb (escape st) then
          setState (push st (TAssert (value st))) SBracket
        else if isChar "]" x && negb (escape st) then
          push st (TAssert (value st))
        else cat st x
    | SParam name =>
        if isChar "=" x && negb (escape st) then
          mkTok (tokens st) (SParam (value st)) (escape st) ""
        else if isChar ";" x && negb (escape st) then
          setState (push st (TParam name (value st))) (SParam "")
        else if isChar "]" x && negb (escape st) then
          push st (TParam name (value st))
        else cat st x
    | SNull => lead st x
    end.

Definition run (st : tok) (xs : list (option ascii)) : tok :=
  fold_left step xs st.

Definition initTok : tok := mkTok [] SNull false "".

(** [Array.from(str.trim()).concat('')] *)
Definition chars (str : string) : list (option ascii) :=
  map Some (list_ascii_of_string (trim str)) ++ [None].

Definition tokenizer (str : string) : list TToken :=
  tokens (run initTok (chars str)).


(* ------------------------------------------------------------------ *)
(** ** Parts and the step parser *)

Record TPart : Type := mkPart {
  index : number;
  offset : option number;          (* [null] is [None] *)
  temporal : option float;
  spatial : option (list float);
  side : option string;
  id : option string;
  text : option (list string)
}.

(** The object literal [{ index: val, offset: null }]. *)
Definition newPart (val : number) : TPart :=
  mkPart val None None None None None None.

Definition setOffset (v : number) (p : TPart) : TPart :=
  mkPart (index p) (Some v) (temporal p) (spatial p) (side p) (id p) (text p).

Definition setTemporal (v : float) (p : TPart) : TPart :=
  mkPart (index p) (offset p) (Some v) (spatial p) (side p) (id p) (text p).

Definition addSpatial (v : float) (p : TPart) : TPart :=
  mkPart (index p) (offset p) (temporal p)
         (Some (match spatial p with Some l => l | None => [] end ++ [v]))
         (side p) (id p) (text p).

Definition setSide (v : string) (p : TPart) : TPart :=
  mkPart (index p) (offset p) (temporal p) (spatial p) (Some v) (id p) (text p).

Definition setId (v : string) (p : TPart) : TPart :=
  mkPart (index p) (offset p) (temporal p) (spatial p) (side p) (Some v) (text p).

Definition addText (v : string) (p : TPart) : TPart :=
  mkPart (index p) (offset p) (temporal p) (spatial p) (side p) (id p)
         (Some (match text p with Some l => l | None => [] end ++ [v])).

(** The first component of a token, as the parser and [findTokens]
    compare it. *)
Inductive ttype : Type :=
| KStep | KOffset | KTemporal | KSpatial | KAssert
| KParam (name : string)
| KIndir | KRange.

Definition typeOf (t : TToken) : ttype :=
  match t with
  | TStep _ => KStep
  | TOffset _ => KOffset
  | TTemporal _ => KTemporal
  | TSpatial _ => KSpatial
  | TAssert _ => KAssert
  | TParam name _ => KParam name
  | TIndir => KIndir
  | TRange => KRange
  end.

Definition ttype_eqb (a b : ttype) : bool :=
  match a, b with
  | KStep, KStep | KOffset, KOffset | KTemporal, KTemporal
  | KSpatial, KSpatial | KAssert, KAssert | KIndir, KIndir
  | KRange, KRange => true
  | KParam x, KParam y => String.eqb x y
  | _, _ => false
  end.

(** A write through [last = parts[parts.length - 1]]: a [TypeError]
    when [parts] is empty and [last] is [undefined]. *)
Definition updLast (f : TPart -> TPart) (parts : list TPart) : result (list TPart) :=
  match rev parts with
  | last :: r => Ok (rev r ++ [f last])
  | [] => Throw TypeError
  end.

Definition nonEmpty (s : string) : bool :=
  match s with
  | EmptyString => false
  | String _ _ => true
  end.

(** One iteration of the loop of [parser], on the pair of [parts] and
    [state]; the initial [state] [''] is [None]. *)
Definition parserStep (acc : list TPart * option ttype) (t : TToken)
  : result (list TPart * option ttype) :=
  let (parts, st) := acc in
  match t with
  | TStep val => Ok (parts ++ [newPart val], Some KStep)
  | TOffset val => ps <- updLast (setOffset val) parts ;; Ok (ps, Some KOffset)
  | TTemporal val => ps <- updLast (setTemporal val) parts ;; Ok (ps, Some KTemporal)
  | TSpatial val => ps <- updLast (addSpatial val) parts ;; Ok (ps, Some KSpatial)
  | TParam name val =>
      if String.eqb name "s" then
        ps <- updLast (setSide val) parts ;; Ok (ps, Some (KParam name))
      else Ok (parts, Some (KParam name))
  | TAssert val =>
      match st with
      | Some KStep =>
          if nonEmpty val then
            ps <- updLast (setId val) parts ;; Ok (ps, Some KAssert)
          else ps <- updLast (addText val) parts ;; Ok (ps, st)
      | _ => ps <- updLast (addText val) parts ;; Ok (ps, st)
      end
  | TIndir => Ok (parts, Some KIndir)
  | TRange => Ok (parts, Some KRange)
  end.

Fixpoint parserLoop (acc : list TPart * option ttype) (ts : list TToken)
  : result (list TPart * option ttype) :=
  match ts with
  | [] => Ok acc
  | t :: r => acc' <- parserStep acc t ;; parserLoop acc' r
  end.

Definition parser (ts : list TToken) : result (list TPart) :=
  r <- parserLoop ([], None) ts ;; Ok (fst r).

(* ------------------------------------------------------------------ *)
(** ** Splitting the token stream *)

(** [arr.slice(s, e)]: a negative bound counts from the end. *)
Definition slice {A} (arr : list A) (s e : Z) : list A :=
  let len := Z.of_nat (length arr) in
  let rel k := if (k <? 0)%Z then Z.max (len + k) 0 else Z.min k len in
  firstn (Z.to_nat (rel e - rel s)) (skipn (Z.to_nat (rel s)) arr).

Fixpoint findIndicesFrom {A} (i : Z) (find : A -> bool) (arr : list A) : list Z :=
  match arr with
  | [] => []
  | x :: r =>
      if find x then i :: findIndicesFrom (i + 1) find r
      else findIndicesFrom (i + 1) find r
  end.

Definition findIndices {A} (arr : list A) (find : A -> bool) : list Z :=
  findIndicesFrom 0 find arr.

(** The reduction starts from [{ xs: [], a: -1 }] and runs over
    [[-1, ...is, arr.length]]. *)
Definition splitAt {A} (arr : list A) (is_ : list Z) : list (list A) :=
  fst (fold_left
         (fun (acc : list (list A) * Z) (b : Z) =>
            (fst acc ++ [slice arr (snd acc + 1) b], b))
         ((-1)%Z :: is_ ++ [Z.of_nat (length arr)])
         ([], (-1)%Z)).

Definition findTokens (ts : list TToken) (x : ttype) : list Z :=
  findIndices ts (fun t => ttype_eqb (typeOf t) x).

Definition parserIndir (ts : list TToken) : result (list (list TPart)) :=
  mapM parser (splitAt ts (findTokens ts KIndir)).

(** [TParsed]; the field [end] is [end_] here. *)
Record TParsed : Type := mkParsed {
  parent : list (list TPart);
  start : list (list TPart);
  end_ : list (list TPart)
}.

(** The union [TPart[][] | TParsed]. *)
Inductive cfi : Type :=
| Paths (ps : list (list TPart))
| Parsed (r : TParsed).

(** [parse].  The destructuring [[parent, start, end]] takes the first
    three segments; [splitAt] yields two more segments than there are
    commas, so all three exist (lemma [parse_range_segments]). *)
Definition parse (s : string) : result cfi :=
  let ts := tokenizer (unwrap s) in
  let commas := findTokens ts KRange in
  match commas with
  | [] => ps <- parserIndir ts ;; Ok (Paths ps)
  | _ =>
      segs <- mapM parserIndir (splitAt ts commas) ;;
      Ok (Parsed (mkParsed (nth 0 segs []) (nth 1 segs []) (nth 2 segs [])))
  end.

(* ------------------------------------------------------------------ *)
(** ** Serializer *)

Definition paramOf (p : TPart) : string :=
  match side p with
  | Some s => if nonEmpty s then ";s=" ++ s else ""
  | None => ""
  end.

Definition hasId (p : TPart) : bool :=
  match id p with
  | Some s => nonEmpty s
  | None => false
  end.

Definition hasSide (p : TPart) : bool :=
  match side p with
  | Some s => nonEmpty s
  | None => false
  end.

Definition idToString (p : TPart) : string :=
  match id p with
  | Some s => if nonEmpty s then "[" ++ escapeCFI s ++ paramOf p ++ "]" else ""
  | None => ""
  end.

Definition offsetToString (p : TPart) : string :=
  match offset p with
  | Some o => if oddIndex (index p) then ":" ++ numberToString o else ""
  | None => ""
  end.

Definition temporalToString (p : TPart) : string :=
  match temporal p with
  | Some t => if truthyF t then "~" ++ floatToString t else ""
  | None => ""
  end.

Definition spatialToString (p : TPart) : string :=
  match spatial p with
  | Some l => "@" ++ join ":" (map floatToString l)
  | None => ""
  end.

Definition textToString (p : TPart) : string :=
  match text p with
  | Some l => "[" ++ join "," (map escapeCFI l) ++ paramOf p ++ "]"
  | None => if negb (hasId p) && hasSide p then "[" ++ paramOf p ++ "]" else ""
  end.

Definition partToString (p : TPart) : string :=
  "/" ++ numberToString (index p)
  ++ idToString p
  ++ offsetToString p
  ++ temporalToString p
  ++ spatialToString p
  ++ textToString p.

Definition partsToString (parts : list TPart) : string :=
  join "" (map partToString parts).

Definition pathsToString (ps : list (list TPart)) : string :=
  join "!" (map partsToString ps).

Definition toInnerString (x : cfi) : string :=
  match x with
  | Parsed r =>
      join "," [pathsToString (parent r); pathsToString (start r); pathsToString (end_ r)]
  | Paths ps => pathsToString ps
  end.

Definition toString (x : cfi) : string := wrap (toInnerString x).


(* ------------------------------------------------------------------ *)
(** ** The document tree *)

(** A DOM node: its [nodeType], its [id] property ([None] for nodes
    that have none, such as text nodes), its [nodeValue] ([None] for
    [null]) and its [childNodes]. *)
#[local] Set Warnings "-register-all".
Inductive Node : Type :=
| mkNode (nodeType : N) (nodeId : option string) (nodeValue : option string)
         (childNodes : list Node).

Definition nodeType (n : Node) : N := match n with mkNode t _ _ _ => t end.
Definition nodeId (n : Node) : option string := match n with mkNode _ i _ _ => i end.
Definition nodeValue (n : Node) : option string := match n with mkNode _ _ v _ => v end.
Definition childNodes (n : Node) : list Node := match n with mkNode _ _ _ c => c end.

(** A reference to a node object of a document: the positions of the
    node and of its ancestors among their siblings, innermost first,
    and the node found there.  Two references are the same object when
    their paths are equal. *)
Record Ref : Type := mkRef {
  path : list nat;
  obj : Node
}.

Definition sameNode (a b : Ref) : bool :=
  if list_eq_dec Nat.eq_dec (path a) (path b) then true else false.

Fixpoint getNode (doc : Node) (p : list nat) : option Node :=
  match p with
  | [] => Some doc
  | i :: q =>
      match getNode doc q with
      | Some n => nth_error (childNodes n) i
      | None => None
      end
  end.

Definition isTextNode (r : Ref) : bool :=
  (nodeType (obj r) =? 3)%N || (nodeType (obj r) =? 4)%N.

Definition isElementNode (r : Ref) : bool := (nodeType (obj r) =? 1)%N.

Definition FILTER_ACCEPT : N := 1.
Definition FILTER_REJECT : N := 2.
Definition FILTER_SKIP : N := 3.

(** [getChildNodes]: the children that are elements or character data,
    each one dropped, replaced by its own filtered children, or kept,
    as the filter says. *)
Fixpoint getChildNodesAt (filter : option (Ref -> N)) (p : list nat) (n : Node)
  {struct n} : list Ref :=
  match n with
  | mkNode _ _ _ cs =>
      (fix children (i : nat) (cs : list Node) {struct cs} : list Ref :=
         match cs with
         | [] => []
         | c :: r =>
             let node := mkRef (i :: p) c in
             (if isTextNode node || isElementNode node then
                match filter with
                | Some f =>
                    let accept := f node in
                    if (accept =? FILTER_REJECT)%N then []
                    else if (accept =? FILTER_SKIP)%N then getChildNodesAt filter (i :: p) c
                    else [node]
                | None => [node]
                end
              else [])
             ++ children (S i) r
         end) 0%nat cs
  end.

Definition getChildNodes (node : Ref) (filter : option (Ref -> N)) : list Ref :=
  getChildNodesAt filter (path node) (obj node).

(** An entry of the indexed child list: a node, a chunk of text nodes,
    the placeholder [null], or one of the four marker strings. *)
Inductive slot : Type :=
| SlNode (r : Ref)
| SlChunk (rs : list Ref)
| SlNull
| SlFirst
| SlLast
| SlBefore
| SlAfter.

(** The callback of the [reduce] in [indexChildNodes].  Entries of
    [getChildNodes] are node objects, so the guard [if (!node)] never
    fires. *)
Definition reduceStep (arr : list slot) (node : Ref) : list slot :=
  match rev arr with
  | [] => arr ++ [SlNode node]
  | SlNull :: _ => arr ++ [SlNode node]
  | last :: before =>
      if isTextNode node then
        match last with
        | SlChunk l => rev before ++ [SlChunk (l ++ [node])]
        | SlNode t =>
            if isTextNode t then rev before ++ [SlChunk [t; node]]
            else arr ++ [SlNode node]
        | _ => arr ++ [SlNode node]
        end
      else
        match last with
        | SlNode e =>
            if isElementNode e then arr ++ [SlNull; SlNode node]
            else arr ++ [SlNode node]
        | _ => arr ++ [SlNode node]
        end
  end.

(** [isElementNode(x)] on an entry: destructuring [undefined] or [null]
    throws; an array or a string has no [nodeType]. *)
Definition entryIsElement (x : option slot) : result bool :=
  match x with
  | None => Throw TypeError
  | Some SlNull => Throw TypeError
  | Some (SlNode r) => Ok (isElementNode r)
  | Some _ => Ok false
  end.

Definition indexChildNodes (node : Ref) (filter : option (Ref -> N))
  : result (list slot) :=
  let nodes := fold_left reduceStep (getChildNodes node filter) [] in
  f <- entryIsElement (nth_error nodes 0) ;;
  let nodes1 := if f then SlFirst :: nodes else nodes in
  l <- entryIsElement (nth_error nodes1 (length nodes1 - 1)) ;;
  let nodes2 := if l then nodes1 ++ [SlLast] else nodes1 in
  Ok (SlBefore :: nodes2 ++ [SlAfter]).

(** [arr[i]] for a number [i]: [undefined] outside the array. *)
Definition at_ {A} (arr : list A) (i : number) : option A :=
  match i with
  | Num z => if (z <? 0)%Z then None else nth_error arr (Z.to_nat z)
  | NaN => None
  end.

(** [ownerDocument.documentElement]: the first element child of the
    document node. *)
Fixpoint firstElementFrom (i : nat) (cs : list Node) : option Ref :=
  match cs with
  | [] => None
  | c :: r =>
      if (nodeType c =? 1)%N then Some (mkRef [i] c)
      else firstElementFrom (S i) r
  end.

Definition documentElement (doc : Node) : option Ref :=
  firstElementFrom 0 (childNodes doc).

(** [getElementById]: the first element in tree order with that id. *)
Fixpoint findById (x : string) (p : list nat) (n : Node) {struct n} : option Ref :=
  match n with
  | mkNode t i _ cs =>
      let here :=
        match i with
        | Some y => (t =? 1)%N && String.eqb x y
        | None => false
        end in
      if here then Some (mkRef p n)
      else
        (fix children (k : nat) (cs : list Node) {struct cs} : option Ref :=
           match cs with
           | [] => None
           | c :: r =>
               match findById x (k :: p) c with
               | Some e => Some e
               | None => children (S k) r
               end
           end) 0%nat cs
  end.

Definition getElementById (doc : Node) (x : string) : option Ref :=
  findById x [] doc.

Definition firstChild (node : Ref) : option Ref :=
  match childNodes (obj node) with
  | c :: _ => Some (mkRef (0%nat :: path node) c)
  | [] => None
  end.

Definition lastChild (node : Ref) : option Ref :=
  let cs := childNodes (obj node) in
  match nth_error cs (length cs - 1) with
  | Some c => Some (mkRef ((length cs - 1)%nat :: path node) c)
  | None => None
  end.

Definition parentNode (doc : Node) (node : Ref) : option Ref :=
  match path node with
  | [] => None
  | _ :: q =>
      match getNode doc q with
      | Some n => Some (mkRef q n)
      | None => None
      end
  end.

(* ------------------------------------------------------------------ *)
(** ** Resolving a path to a node *)

(** What the variable [node] of [partsToNode] holds while the path is
    walked: a node, a chunk, the placeholder [null], or [undefined]. *)
Inductive cursor : Type :=
| CNode (r : Ref)
| CChunk (rs : list Ref)
| CNull
| CUndefined.

(** The value returned by [partsToNode]. *)
Inductive located : Type :=
| LNode (node : cursor) (offset : option number) (* { node, offset } and { node } *)
| LBefore (node : Ref)                            (* { node, before: true } *)
| LAfter (node : Ref)                             (* { node, after: true } *)
| LNull
| LUndefined.

(** What one iteration of the walk does: return, or go on with the
    next value of [node]. *)
Inductive walk : Type :=
| Return (l : located)
| Next (c : cursor).

Definition orSelf (x : option Ref) (node : Ref) : Ref :=
  match x with
  | Some r => r
  | None => node
  end.

Definition walkStep (filter : option (Ref -> N)) (node : cursor) (i : number)
  : result walk :=
  match node with
  | CNode r =>
      indexed <- indexChildNodes r filter ;;
      Ok (match at_ indexed i with
          | Some SlFirst => Return (LNode (CNode (orSelf (firstChild r) r)) None)
          | Some SlLast => Return (LNode (CNode (orSelf (lastChild r) r)) None)
          | Some SlBefore => Return (LBefore r)
          | Some SlAfter => Return (LAfter r)
          | Some (SlNode c) => Next (CNode c)
          | Some (SlChunk l) => Next (CChunk l)
          | Some SlNull => Next CNull
          | None => Next CUndefined
          end)
  | CChunk _ => Throw TypeError        (* [Array.from(undefined)] *)
  | CNull | CUndefined => Ok (Next CNull)
  end.

Fixpoint walkParts (filter : option (Ref -> N)) (node : cursor) (parts : list TPart)
  : result walk :=
  match parts with
  | [] => Ok (Next node)
  | p :: r =>
      w <- walkStep filter node (index p) ;;
      match w with
      | Return l => Ok (Return l)
      | Next c => walkParts filter c r
      end
  end.

(** The loop over the members of a chunk at the end of [partsToNode]. *)
Fixpoint chunkOffset (sum : Z) (off : Z) (ns : list Ref) : result located :=
  match ns with
  | [] => Ok LUndefined
  | n :: r =>
      match nodeValue (obj n) with
      | None => Throw TypeError
      | Some v =>
          let len := Z.of_nat (String.length v) in
          if (sum + len >=? off)%Z then Ok (LNode (CNode n) (Some (Num (off - sum))))
          else chunkOffset (sum + len) off r
      end
  end.

(** The shortcut through the [id] of the last part: the element that
    [getElementById] finds for a non-empty [id]. *)
Definition lookupId (doc : Node) (last : TPart) : option Ref :=
  match id last with
  | Some x => if nonEmpty x then getElementById doc x else None
  | None => None
  end.

Definition partsToNode (doc : Node) (node : Ref) (parts : option (list TPart))
  (filter : option (Ref -> N)) : result located :=
  match parts with
  | None => Ok LNull
  | Some parts =>
      match nth_error parts (length parts - 1) with
      | None => Throw TypeError
      | Some last =>
          match lookupId doc last with
          | Some el => Ok (LNode (CNode el) (Some (Num 0)))
          | None =>
              w <- walkParts filter (CNode node) parts ;;
              match w with
              | Return l => Ok l
              | Next node =>
                  match offset last with
                  | None => Ok LNull
                  | Some o =>
                      if negb (truthy o) then Ok LNull
                      else
                        match node, o with
                        | CChunk ns, Num off => chunkOffset 0 off ns
                        | _, _ => Ok (LNode node (Some o))
                        end
                  end
              end
          end
      end
  end.

(* ------------------------------------------------------------------ *)
(** ** Ranges *)

(** [concatArrays]: [a[a.length - 1]] is [undefined] for an empty [a]. *)
Definition concatArrays (a b : list (list TPart)) : result (list (list TPart)) :=
  match nth_error a (length a - 1) with
  | None => Throw TypeError
  | Some la =>
      Ok (slice a 0 (-1)
          ++ [la ++ match b with b0 :: _ => b0 | [] => [] end]
          ++ skipn 1 b)
  end.

Definition collapse (x : cfi) (toEnd : bool) : result (list (list TPart)) :=
  match x with
  | Parsed r => concatArrays (parent r) (if toEnd then end_ r else start r)
  | Paths ps => Ok ps
  end.

(** The three arrays and the flag of the loop of [buildRange]. *)
Record rangeAcc : Type := mkAcc {
  pushToParent : bool;
  localParent : list TPart;
  localStart : list TPart;
  localEnd : list TPart
}.

Definition optIndexEq (a b : option TPart) : bool :=
  match a, b with
  | Some x, Some y => strictEq (index x) (index y)
  | None, None => true
  | _, _ => false
  end.

(** [!a?.offset] *)
Definition noOffset (a : option TPart) : bool :=
  match a with
  | Some x =>
      match offset x with
      | Some o => negb (truthy o)
      | None => true
      end
  | None => true
  end.

Definition optList {A} (x : option A) : list A :=
  match x with
  | Some y => [y]
  | None => []
  end.

(** The body of the loop for the two entries [a = localFrom[i]] and
    [b = localTo[i]].  One of them exists at every [i] below [len], and
    the flag then holds only if [a] exists. *)
Definition rangeBody (a b : option TPart) (acc : rangeAcc) : rangeAcc :=
  let ptp := pushToParent acc && (optIndexEq a b && noOffset a && noOffset b) in
  if ptp then mkAcc ptp (localParent acc ++ optList a) (localStart acc) (localEnd acc)
  else mkAcc ptp (localParent acc) (localStart acc ++ optList a) (localEnd acc ++ optList b).

Definition rangeStep (localFrom localTo : list TPart) (acc : rangeAcc) (i : nat)
  : rangeAcc :=
  rangeBody (nth_error localFrom i) (nth_error localTo i) acc.

(** The object that [buildRange] hands to [toString]. *)
Definition rangeOf (x y : cfi) : result TParsed :=
  from <- collapse x false ;;
  to <- collapse y true ;;
  let localFrom := nth_error from (length from - 1) in
  let localTo := nth_error to (length to - 1) in
  let len := Nat.max (match localFrom with Some l => length l | None => 0%nat end)
                     (match localTo with Some l => length l | None => 0%nat end) in
  match len, localFrom, localTo with
  | O, _, _ => Ok (mkParsed (slice from 0 (-1) ++ [[]]) [[]] [[]])
  | _, Some lf, Some lt =>
      let acc := fold_left (rangeStep lf lt) (seq 0 len) (mkAcc true [] [] []) in
      Ok (mkParsed (slice from 0 (-1) ++ [localParent acc])
                   [localStart acc] [localEnd acc])
  | _, _, _ => Throw TypeError          (* [localFrom[0]] on [undefined] *)
  end.

Definition buildRange (x y : cfi) : result string :=
  r <- rangeOf x y ;; Ok (toString (Parsed r)).

(* ------------------------------------------------------------------ *)
(** ** Deriving a path from a node *)

Definition slotHolds (node : Ref) (x : slot) : bool :=
  match x with
  | SlNode r => sameNode r node
  | SlChunk l => existsb (fun y => sameNode y node) l
  | _ => false
  end.

(** [indexed.findIndex(...)]: [-1] when no entry holds the node. *)
Fixpoint findIndexFrom (i : Z) (node : Ref) (indexed : list slot) : Z :=
  match indexed with
  | [] => (-1)%Z
  | x :: r => if slotHolds node x then i else findIndexFrom (i + 1) node r
  end.

Definition plus (a b : number) : number :=
  match a, b with
  | Num x, Num y => Num (x + y)
  | _, _ => NaN
  end.

(** The loop that turns an offset in a text node into an offset in its
    chunk. *)
Fixpoint chunkSum (sum : number) (node : Ref) (off : option number) (chunk : list Ref)
  : number :=
  match chunk with
  | [] => sum
  | x :: r =>
      if sameNode x node then
        plus sum (match off with Some o => o | None => Num 0 end)
      else
        chunkSum (plus sum
                       (match nodeValue (obj x) with
                        | Some v => Num (Z.of_nat (String.length v))
                        | None => Num 0
                        end))
                 node off r
  end.

(** [x.index !== -1] *)
Definition indexIsValid (p : TPart) : bool := negb (strictEq (index p) (Num (-1))).

Definition sameOpt (a b : option Ref) : bool :=
  match a, b with
  | Some x, Some y => sameNode x y
  | None, None => true
  | _, _ => false
  end.

(** [nodeToParts], by recursion on the depth of the node.  The node
    object is found from its path; a node without a parent makes
    [indexChildNodes(null)] throw. *)
Fixpoint nodeToPartsAt (doc : Node) (filter : option (Ref -> N)) (p : list nat)
  (off : option number) {struct p} : result (list TPart) :=
  match p with
  | [] => Throw TypeError
  | i :: q =>
      match getNode doc p, getNode doc q with
      | Some n, Some pn =>
          let node := mkRef p n in
          let parentNode := mkRef q pn in
          indexed <- indexChildNodes parentNode filter ;;
          let index := findIndexFrom 0 node indexed in
          let off' :=
            match at_ indexed (Num index) with
            | Some (SlChunk chunk) => Some (chunkSum (Num 0) node off chunk)
            | _ => off
            end in
          let part := mkPart (Num index) off' None None None (nodeId n) None in
          all <- (if negb (sameOpt (Some parentNode) (documentElement doc)) then
                    ps <- nodeToPartsAt doc filter q None ;; Ok (ps ++ [part])
                  else Ok [part]) ;;
          Ok (List.filter indexIsValid all)
      | _, _ => Throw TypeError
      end
  end.

Definition nodeToParts (doc : Node) (node : Ref) (off : option number)
  (filter : option (Ref -> N)) : result (list TPart) :=
  nodeToPartsAt doc filter (path node) off.

(** The loop of [fromElements] over the entries of the indexed list. *)
Fixpoint fromElementsLoop (parts : list TPart) (elements : list Ref)
  (index : Z) (indexed : list slot) (results : list string) : list string :=
  match indexed with
  | [] => results
  | node :: r =>
      let results' :=
        match nth_error elements (length results), node with
        | Some el, SlNode x =>
            if sameNode x el then
              results ++ [toString (Paths [parts ++
                 [mkPart (Num index) None None None None (nodeId (obj el)) None]])]
            else results
        | _, _ => results
        end in
      fromElementsLoop parts elements (index + 1) r results'
  end.

Definition fromElements (doc : Node) (elements : list Ref) : result (list string) :=
  match elements with
  | [] => Ok []
  | e0 :: _ =>
      match parentNode doc e0 with
      | None => Throw TypeError
      | Some pn =>
          parts <- nodeToParts doc pn None None ;;
          indexed <- indexChildNodes pn None ;;
          Ok (fromElementsLoop parts elements 0 indexed [])
      end
  end.

(* ------------------------------------------------------------------ *)
(** ** Joining and faking identifiers *)

(** [lift]: every argument loses its wrapper, [f] combines them, and
    the result is wrapped without looking at it. *)
Definition lift (f : list string -> string) (xs : list string) : string :=
  "epubcfi(" ++ f (map unwrap xs) ++ ")".

Definition joinIndir : list string -> string := lift (join "!").

Definition times (a b : number) : number :=
  match a, b with
  | Num x, Num y => Num (x * y)
  | _, _ => NaN
  end.

(** [fake.fromIndex] *)
Definition fromIndex (index : number) : string :=
  wrap ("/6/" ++ numberToString (times (plus index (Num 1)) (Num 2))).

(* ------------------------------------------------------------------ *)
(** ** Identifiers for a range of the document *)




(* ------------------------------------------------------------------ *)
(** ** Identifiers from Calibre positions *)

(** [fromCalibrePos].  The destructuring [[parts] = parse(pos)] throws
    for a range, which is not iterable; [item] is [undefined] when the
    first path is empty, and [partToString(undefined)] throws. *)
Definition fromCalibrePos (pos : string) : result string :=
  x <- parse pos ;;
  match x with
  | Parsed _ => Throw TypeError
  | Paths [] => Throw TypeError
  | Paths (parts :: _) =>
      match parts with
      | [] => Throw TypeError
      | item :: more => Ok (toString (Paths [[newPart (Num 6); item]; tl more]))
      end
  end.

(* ------------------------------------------------------------------ *)
(** ** Identifiers from Calibre highlights *)

(** [str.slice(n)] for an [n] that is not negative. *)
Fixpoint sliceFrom (n : nat) (str : string) : string :=
  match n, str with
  | O, _ => str
  | S m, String _ r => sliceFrom m r
  | S _, EmptyString => EmptyString
  end.

(** [fromCalibreHighlight]; both identifiers are parsed before
    [buildRange] is called. *)
Definition fromCalibreHighlight (spine_index : number) (start_cfi end_cfi : string)
  : result string :=
  let pre := (fromIndex spine_index ++ "!")%string in
  start <- parse (pre ++ sliceFrom 2 start_cfi) ;;
  end_ <- parse (pre ++ sliceFrom 2 end_cfi) ;;
  buildRange start end_.

(* ------------------------------------------------------------------ *)
(** ** Deobfuscation of resources ([src/epub/encryption.ts]) *)

(** ASCII white space, the class [[\t\n\f\r ]] of the three regular
    expressions of [normalizeWhitespace]. *)
Definition isAsciiWhitespace (c : ascii) : bool :=
  match c with
  | "009" | "010" | "012" | "013" | " " => true
  | _ => false
  end%char.

(** [.replace(/[\t\n\f\r ]+/g, ' ')]: every maximal run of white space
    becomes one space; [inRun] tells whether the run has begun. *)
Fixpoint collapseRuns (inRun : bool) (s : string) : string :=
  match s with
  | EmptyString => EmptyString
  | String c r =>
      if isAsciiWhitespace c then
        if inRun then collapseRuns true r else String " " (collapseRuns true r)
      else String c (collapseRuns false r)
  end.

(** [.replace(/^[\t\n\f\r ]+/, '')] *)
Fixpoint stripLeading (s : string) : string :=
  match s with
  | String c r => if isAsciiWhitespace c then stripLeading r else s
  | EmptyString => EmptyString
  end.

(** [.replace(/[\t\n\f\r ]+$/, '')] *)
Fixpoint stripTrailing (s : string) : string :=
  match s with
  | String c r =>
      match stripTrailing r with
      | EmptyString => if isAsciiWhitespace c then EmptyString else String c EmptyString
      | r' => String c r'
      end
  | EmptyString => EmptyString
  end.

(** [normalizeWhitespace]; the argument [null] is [None]. *)
Definition normalizeWhitespace (str : option string) : string :=
  match str with
  | None => ""
  | Some EmptyString => ""
  | Some s => stripTrailing (stripLeading (collapseRuns false s))
  end.

(** A blob: its media type and its bytes. *)
Record Blob : Type := mkBlob {
  blobType : string;
  blobBytes : list Byte.byte
}.

(** [blob.slice(start, end)]: the bounds are clamped as for an array,
    and the slice has no media type. *)
Definition blobSlice (b : Blob) (s e : Z) : Blob :=
  mkBlob "" (slice (blobBytes b) s e).

(** [a ^ b] on two bytes. *)
Definition xorBits (a b : bool * (bool * (bool * (bool * (bool * (bool * (bool * bool)))))))
  : bool * (bool * (bool * (bool * (bool * (bool * (bool * bool)))))) :=
  let '(a0, (a1, (a2, (a3, (a4, (a5, (a6, a7))))))) := a in
  let '(b0, (b1, (b2, (b3, (b4, (b5, (b6, b7))))))) := b in
  (xorb a0 b0, (xorb a1 b1, (xorb a2 b2, (xorb a3 b3,
   (xorb a4 b4, (xorb a5 b5, (xorb a6 b6, xorb a7 b7))))))).

Definition xorByte (a b : Byte.byte) : Byte.byte :=
  Byte.of_bits (xorBits (Byte.to_bits a) (Byte.to_bits b)).

(** [key[i % key.length]]: [undefined], which [^] reads as 0, for an
    empty key. *)
Definition keyAt (key : list Byte.byte) (i : nat) : Byte.byte :=
  nth (i mod length key) key Byte.x00.

(** [array[i] = v] on a typed array: nothing happens outside it. *)
Fixpoint setAt (i : nat) (v : Byte.byte) (array : list Byte.byte) : list Byte.byte :=
  match array, i with
  | [], _ => []
  | _ :: r, O => v :: r
  | a :: r, S j => a :: setAt j v r
  end.

(** [n] iterations of the loop of [deobfuscate], from the index [i]. *)
Fixpoint xorLoop (key : list Byte.byte) (i n : nat) (array : list Byte.byte)
  : list Byte.byte :=
  match n with
  | O => array
  | S m => xorLoop key (S i) m (setAt i (xorByte (nth i array Byte.x00) (keyAt key i)) array)
  end.

(** [deobfuscate]; the promise it returns always resolves. *)
Definition deobfuscate (key : list Byte.byte) (length : Z) (blob : Blob) : Blob :=
  let array := blobBytes (blobSlice blob 0 length) in
  let length' := Z.min length (Z.of_nat (List.length array)) in
  let array' := xorLoop key 0 (Z.to_nat length') array in
  mkBlob (blobType blob)
         (array' ++ blobBytes (blobSlice blob length' (Z.of_nat (List.length (blobBytes blob))))).

(** The two [decode] functions of [deobfuscators]. *)
Definition decodeIDPF (key : list Byte.byte) (blob : Blob) : Blob := deobfuscate key 1040 blob.
Definition decodeAdobe (key : list Byte.byte) (blob : Blob) : Blob := deobfuscate key 1024 blob.

(* ------------------------------------------------------------------ *)
(** ** Keys of the deobfuscators ([src/epub/encryption.ts]) *)

(** An element, as far as the functions below read it: its
    [textContent], which is a string for every element. *)
Record Element : Type := mkElement {
  textContent : string
}.

(** The package document, as far as the functions below read it:
    - [opf.getElementsByTagNameNS(NS.DC, 'identifier')], in document
      order;
    - [opf.getElementById(opf.documentElement.getAttribute
      ('unique-identifier') ?? '')], [None] for [null]. *)
Record Package : Type := mkPackage {
  dcIdentifiers : list Element;
  uniqueIdentifier : option Element
}.

(** [getElementText]; the warning on the console is left out. *)
Definition getElementText (el : option Element) : string :=
  match el with
  | None => ""
  | Some e => normalizeWhitespace (Some (textContent e))
  end.

(** [str.split(sep)] for a separator of one character. *)
Fixpoint splitOn (sep : ascii) (str : string) : list string :=
  match str with
  | EmptyString => [EmptyString]
  | String c r =>
      if Ascii.eqb c sep then EmptyString :: splitOn sep r
      else match splitOn sep r with
           | x :: l => String c x :: l
           | [] => [String c EmptyString]
           end
  end.

(** The class [[0-9a-f]]. *)
Definition isHexLower (c : ascii) : bool :=
  let n := nat_of_ascii c in
  ((48 <=? n)%nat && (n <=? 57)%nat) || ((97 <=? n)%nat && (n <=? 102)%nat).

(** [[0-9a-f]{n}] at the start of a string: what follows the match. *)
Fixpoint hexRun (n : nat) (s : string) : option string :=
  match n with
  | O => Some s
  | S m =>
      match s with
      | String c r => if isHexLower c then hexRun m r else None
      | EmptyString => None
      end
  end.

Definition dashThen (n : nat) (s : option string) : option string :=
  match s with
  | Some (String "-" r) => hexRun n r
  | _ => None
  end.

(** A match of [isUUIDReg] at the start of a string. *)
Definition matchUUIDAt (s : string) : bool :=
  match dashThen 12 (dashThen 4 (dashThen 4 (dashThen 4 (hexRun 8 s)))) with
  | Some _ => true
  | None => false
  end.

(** [isUUIDReg.test(s)]: the expression has no anchors, so a match
    anywhere counts. *)
Fixpoint testUUID (s : string) : bool :=
  matchUUIDAt s
  || match s with
     | String _ r => testUUID r
     | EmptyString => false
     end.

(** The loop of [getUUID]; [None] is [undefined]. *)
Fixpoint getUUIDFrom (els : list Element) : option string :=
  match els with
  | [] => Some ""
  | el :: rest =>
      let segs := splitOn ":" (getElementText (Some el)) in
      let id := hd_error (slice segs (-1) (Z.of_nat (length segs))) in
      if testUUID (match id with Some x => x | None => "" end) then id
      else getUUIDFrom rest
  end.

Definition getUUID (opf : Package) : option string := getUUIDFrom (dcIdentifiers opf).

(** [getIdentifier] *)
Definition getIdentifier (opf : Package) : string :=
  let uid := uniqueIdentifier opf in
  let id := hd_error (dcIdentifiers opf) in
  getElementText (match uid with Some _ => uid | None => id end).

(** [str.replaceAll(c, '')] for one character. *)
Fixpoint removeChar (c : ascii) (str : string) : string :=
  match str with
  | EmptyString => EmptyString
  | String x r => if Ascii.eqb x c then removeChar c r else String x (removeChar c r)
  end.

(** [str.replaceAll(/[ \u0009\u000d\u000a]/g, '')] *)
Fixpoint removeSpaces (str : string) : string :=
  match str with
  | EmptyString => EmptyString
  | String x r =>
      match x with
      | " " | "009" | "013" | "010" => removeSpaces r
      | _ => String x (removeSpaces r)
      end%char
  end.

(** The value of a digit in base 16. *)
Definition hexVal (c : ascii) : option N :=
  let n := nat_of_ascii c in
  if (48 <=? n)%nat && (n <=? 57)%nat then Some (N.of_nat (n - 48))
  else if (97 <=? n)%nat && (n <=? 102)%nat then Some (N.of_nat (n - 87))
  else if (65 <=? n)%nat && (n <=? 70)%nat then Some (N.of_nat (n - 55))
  else None.

Fixpoint hexDigits (acc : N) (s : string) : N :=
  match s with
  | String c r =>
      match hexVal c with
      | Some d => hexDigits (16 * acc + d) r
      | None => acc
      end
  | EmptyString => acc
  end.

(** [parseInt(str, 16)]: leading white space, a sign and the prefix
    [0x] are skipped, and the digits up to the first character that is
    not one are read; [NaN] when there is no digit. *)
Definition parseInt16 (str : string) : number :=
  let s1 := trimStart str in
  let (neg, s2) :=
    match s1 with
    | String "-" r => (true, r)
    | String "+" r => (false, r)
    | _ => (false, s1)
    end in
  let s3 :=
    match s2 with
    | String "0" (String "x" r) => r
    | String "0" (String "X" r) => r
    | _ => s2
    end in
  match s3 with
  | String c _ =>
      match hexVal c with
      | Some _ =>
          let v := Z.of_N (hexDigits 0 s3) in Num (if neg then (- v)%Z else v)
      | None => NaN
      end
  | EmptyString => NaN
  end.

(** The conversion of a number stored into a [Uint8Array]. *)
Definition toUint8 (a : number) : Byte.byte :=
  match a with
  | NaN => Byte.x00
  | Num z =>
      match Byte.of_N (Z.to_N (z mod 256)) with
      | Some b => b
      | None => Byte.x00
      end
  end.

(** The [key] function of the deobfuscator of the IDPF; [sha1] is the
    argument of [deobfuscators]. *)
Definition keyIDPF (sha1 : string -> list Byte.byte) (opf : Package) : list Byte.byte :=
  sha1 (removeSpaces (getIdentifier opf)).

(** The [key] function of the deobfuscator of Adobe. *)
Definition keyAdobe (opf : Package) : list Byte.byte :=
  let uuid := option_map (removeChar "-") (getUUID opf) in
  map (fun i =>
         toUint8 (parseInt16 (match uuid with
                              | Some u => substring (i * 2) (i * 2 + 2 - i * 2) u
                              | None => "0"
                              end)))
      (seq 0 16).

(* ------------------------------------------------------------------ *)
(** ** Reference counts of the loader *)

(** A [Map] with string keys, as a list of entries.  [mapSet] writes
    over the entry of the key, or adds one at the end; [mapDelete]
    leaves no entry of the key behind. *)
Definition smap (A : Type) : Type := list (string * A).

Fixpoint mapGet {A} (m : smap A) (k : string) : option A :=
  match m with
  | [] => None
  | (k', v) :: r => if String.eqb k' k then Some v else mapGet r k
  end.

Fixpoint mapSet {A} (m : smap A) (k : string) (v : A) : smap A :=
  match m with
  | [] => [(k, v)]
  | (k', v') :: r =>
      if String.eqb k' k then (k, v) :: r else (k', v') :: mapSet r k v
  end.

Fixpoint mapDelete {A} (m : smap A) (k : string) : smap A :=
  match m with
  | [] => []
  | (k', v') :: r =>
      if String.eqb k' k then mapDelete r k else (k', v') :: mapDelete r k
  end.

(** The three maps of a [Loader], and the arguments of the calls of
    [URL.revokeObjectURL] made so far.  The arrays in [children] are
    reachable through their keys only, so a [push] or a [pop] on one of
    them is a write to the entry of its key. *)
Record Loader : Type := mkLoader {
  cache : smap string;
  children : smap (list string);
  refCount : smap Z;
  revoked : list string
}.

(** [ref]: the state after the call, and the value returned. *)
Definition ref (href parent : string) (st : Loader) : Loader * option string :=
  let childList := mapGet (children st) parent in
  let included :=
    match childList with
    | Some l => existsb (String.eqb href) l
    | None => false
    end in
  let st' :=
    if negb included then
      mkLoader (cache st)
               (match childList with
                | Some l => mapSet (children st) parent (l ++ [href])
                | None => mapSet (children st) parent [href]
                end)
               (mapSet (refCount st) href
                       (match mapGet (refCount st) href with Some c => c | None => 0%Z end + 1)%Z)
               (revoked st)
    else st in
  (st', mapGet (cache st') href).

(** The loop [while (childList.length) this.unref(childList.pop() ||
    '')] of [unref], with at most [n] turns; [call] is [this.unref].
    The list is read from the entry of [href], which nothing that runs
    inside the loop writes to but the loop. *)
Fixpoint unrefLoop (call : string -> Loader -> option Loader) (n : nat) (href : string)
  (st : Loader) : option Loader :=
  match mapGet (children st) href with
  | Some l =>
      match rev l with
      | [] => Some st
      | c :: r =>
          match n with
          | O => None
          | S m =>
              match call c (mkLoader (cache st) (mapSet (children st) href (rev r))
                                     (refCount st) (revoked st)) with
              | Some st' => unrefLoop call m href st'
              | None => None
              end
          end
      end
  | None => Some st
  end.

(** [unref], with a bound on the depth of the calls and on the turns
    of each loop; [None] when the bound is reached. *)
Fixpoint unref (fuel : nat) (href : string) (st : Loader) : option Loader :=
  match fuel with
  | O => None
  | S f =>
      match mapGet (refCount st) href with
      | None => Some st
      | Some c =>
          let count := (c - 1)%Z in
          if (count <? 1)%Z then
            let url :=
              match mapGet (cache st) href with
              | Some u => if nonEmpty u then u else ""
              | None => ""
              end in
            let st1 := mkLoader (mapDelete (cache st) href) (children st)
                                (mapDelete (refCount st) href) (revoked st ++ [url]) in
            match unrefLoop (unref f) f href st1 with
            | Some st2 =>
                Some (mkLoader (cache st2) (mapDelete (children st2) href)
                               (refCount st2) (revoked st2))
            | None => None
            end
          else Some (mkLoader (cache st) (children st)
                              (mapSet (refCount st) href count) (revoked st))
      end
  end.


(* ------------------------------------------------------------------ *)
(** ** Notions used in the statements *)

(** Tokens that write through [last]. *)
Definition writesLast (t : TToken) : bool :=
  match t with
  | TOffset _ | TTemporal _ | TSpatial _ | TAssert _ => true
  | TParam name _ => String.eqb name "s"
  | _ => false
  end.

Definition isStep (t : TToken) : bool :=
  match t with
  | TStep _ => true
  | _ => false
  end.

Definition example3 : string := "epubcfi(/6/4[chap01ref]!/4[body01]/10[para05]/3:10)".

Definition withId (n : Z) (x : string) : TPart := setId x (newPart (Num n)).

Definition slotIsElement (s : slot) : bool :=
  match s with
  | SlNode r => isElementNode r
  | _ => false
  end.




(** A sample document.  The document node holds a comment and the root
    element; the root element holds a text node, a paragraph with two
    adjacent text nodes, an empty division, a comment, and a section
    with one empty element. *)
Definition element (i : string) (cs : list Node) : Node := mkNode 1 (Some i) None cs.
Definition textNode (v : string) : Node := mkNode 3 None (Some v) [].
Definition commentNode : Node := mkNode 8 None (Some "note") [].

Definition sampleQuote : Node := element "q" [].
Definition sampleSection : Node := element "sec" [sampleQuote].
Definition sampleDivision : Node := element "d" [].
Definition sampleParagraph : Node := element "p1" [textNode "ab"; textNode "cd"].
Definition sampleRoot : Node :=
  element "" [textNode "t0"; sampleParagraph; sampleDivision; commentNode; sampleSection].
Definition sampleDoc : Node := mkNode 9 None None [commentNode; sampleRoot].

Definition rootRef : Ref := mkRef [1%nat] sampleRoot.
Definition paragraphRef : Ref := mkRef [1%nat; 1%nat] sampleParagraph.
Definition divisionRef : Ref := mkRef [2%nat; 1%nat] sampleDivision.
Definition sectionRef : Ref := mkRef [4%nat; 1%nat] sampleSection.
Definition quoteRef : Ref := mkRef [0%nat; 4%nat; 1%nat] sampleQuote.

(** The levels that [nodeToParts] climbs through, outermost first: the
    node at [p] and its ancestors, up to the child of the root
    element. *)
Definition belowRoot (doc : Node) (q : list nat) : bool :=
  sameOpt (Some (mkRef q (mkNode 0 None None []))) (documentElement doc).

Fixpoint lineage (doc : Node) (p : list nat) : list (list nat) :=
  match p with
  | [] => []
  | _ :: q => (if belowRoot doc q then [] else lineage doc q) ++ [p]
  end.

(** The index of the node at [p] in the indexed child list of its
    parent; [-1] when the filter hides it. *)
Definition levelIndex (doc : Node) (filter : option (Ref -> N)) (p : list nat) : Z :=
  match p with
  | [] => (-1)%Z
  | _ :: q =>
      match getNode doc p, getNode doc q with
      | Some n, Some pn =>
          match indexChildNodes (mkRef q pn) filter with
          | Ok indexed => findIndexFrom 0 (mkRef p n) indexed
          | Throw _ => (-1)%Z
          end
      | _, _ => (-1)%Z
      end
  end.

Definition kept (doc : Node) (filter : option (Ref -> N)) (p : list nat) : bool :=
  negb (levelIndex doc filter p =? -1)%Z.

(** The [id] property of the node at [p]. *)
Definition idAt (doc : Node) (p : list nat) : option string :=
  match getNode doc p with
  | Some n => nodeId n
  | None => None
  end.

(** Two parts that the loop of [buildRange] sends to the parent: equal
    indices and no offset on either side. *)
Definition agree (a b : TPart) : Prop :=
  optIndexEq (Some a) (Some b) && noOffset (Some a) && noOffset (Some b) = true.

(** The two rests after the common prefix: one of them is empty, or
    their first parts do not agree. *)
Definition diverge (sa sb : list TPart) : Prop :=
  match sa, sb with
  | a :: _, b :: _ =>
      optIndexEq (Some a) (Some b) && noOffset (Some a) && noOffset (Some b) = false
  | _, _ => True
  end.

Definition rangeA : list (list TPart) := [[withId 2 "a"]].
Definition rangeB : list (list TPart) := [[withId 2 "b"]].

(** The loop of [buildRange], read off two lists that are consumed in
    step. *)
Fixpoint rangeLoop (n : nat) (la lb : list TPart) (acc : rangeAcc) : rangeAcc :=
  match n with
  | O => acc
  | S m => rangeLoop m (tl la) (tl lb) (rangeBody (hd_error la) (hd_error lb) acc)
  end.

(** The [id] that the tokens following a Step token give to its part:
    the payload of the first assertion token, empty ones skipped,
    unless another token comes first. *)
Fixpoint idOf (attrs : list TToken) : option string :=
  match attrs with
  | TAssert v :: r => if nonEmpty v then Some v else idOf r
  | _ => None
  end.

(** The payloads of the assertion tokens that are not taken as [id], in
    order; [pending] tells whether an [id] can still be taken. *)
Fixpoint textsOf (pending : bool) (attrs : list TToken) : list string :=
  match attrs with
  | [] => []
  | TAssert v :: r =>
      if pending && nonEmpty v then textsOf false r else v :: textsOf pending r
  | _ :: r => textsOf false r
  end.

Definition textOf (attrs : list TToken) : option (list string) :=
  match textsOf true attrs with
  | [] => None
  | l => Some l
  end.

Definition noStep (ts : list TToken) : bool := forallb (fun t => negb (isStep t)) ts.

(** A token stream that is empty or begins with a Step token. *)
Definition startsWithStep (ts : list TToken) : bool :=
  match ts with
  | [] => true
  | t :: _ => isStep t
  end.

(** What a token other than a Step token does to the last part and to
    the state of the parser. *)
Definition applyAttr (acc : TPart * option ttype) (t : TToken) : TPart * option ttype :=
  let (p, st) := acc in
  match t with
  | TStep _ => acc
  | TOffset val => (setOffset val p, Some KOffset)
  | TTemporal val => (setTemporal val p, Some KTemporal)
  | TSpatial val => (addSpatial val p, Some KSpatial)
  | TParam name val =>
      if String.eqb name "s" then (setSide val p, Some (KParam name))
      else (p, Some (KParam name))
  | TAssert val =>
      match st with
      | Some KStep => if nonEmpty val then (setId val p, Some KAssert) else (addText val p, st)
      | _ => (addText val p, st)
      end
  | TIndir => (p, Some KIndir)
  | TRange => (p, Some KRange)
  end.

Definition isKStep (st : option ttype) : bool :=
  match st with
  | Some KStep => true
  | _ => false
  end.

(** The characters of a string, as the loop of the tokenizer sees them. *)
Definition cs (s : string) : list (option ascii) :=
  map Some (list_ascii_of_string s).

Fixpoint allDigits (s : string) : bool :=
  match s with
  | String c r => isNumber c && allDigits r
  | EmptyString => true
  end.

(** The tokenizer between two tokens: state [null], nothing
    accumulated, no escape pending. *)
Definition idle (ts : list TToken) : tok := mkTok ts SNull false "".

(** A character that ends a number: not a digit and not the escape
    character. *)
Definition endsNumber (x : option ascii) : bool :=
  negb (isDigit x) && negb (isChar "^" x).

Definition startsAfterNumber (rest : list (option ascii)) : bool :=
  match rest with
  | x :: _ => endsNumber x
  | [] => false
  end.

(** Characters that a parameter value can hold unescaped. *)
Definition paramChar (c : ascii) : bool :=
  match c with
  | "^" | "=" | ";" | "]" => false
  | _ => true
  end%char.

Fixpoint paramSafe (s : string) : bool :=
  match s with
  | String c r => paramChar c && paramSafe r
  | EmptyString => true
  end.

(** A non-negative integer that a double holds exactly. *)
Definition natural (a : number) : bool :=
  match a with
  | Num z => (0 <=? z)%Z && (z <? 2 ^ 53)%Z
  | NaN => false
  end.

(** Parts whose rendering the tokenizer reads back token by token: the
    index and the offset are natural numbers, the side holds no
    character that ends a parameter, and there is no temporal or
    spatial value. *)
Definition plain (p : TPart) : bool :=
  natural (index p)
  && match offset p with Some o => natural o | None => true end
  && match temporal p with Some _ => false | None => true end
  && match spatial p with Some _ => false | None => true end
  && match side p with Some s => paramSafe s | None => true end.

(** The tokens of the rendering of a part. *)
Definition paramToks (p : TPart) : list TToken :=
  match side p with
  | Some s => if nonEmpty s then [TParam "s" s] else []
  | None => []
  end.

Definition idToks (p : TPart) : list TToken :=
  match id p with
  | Some s => if nonEmpty s then TAssert s :: paramToks p else []
  | None => []
  end.

Definition offsetToks (p : TPart) : list TToken :=
  match offset p with
  | Some o => if oddIndex (index p) then [TOffset o] else []
  | None => []
  end.

Definition textToks (p : TPart) : list TToken :=
  match text p with
  | Some [] => TAssert "" :: paramToks p
  | Some l => map TAssert l ++ paramToks p
  | None => if negb (hasId p) && hasSide p then TAssert "" :: paramToks p else []
  end.

Definition partToks (p : TPart) : list TToken :=
  TStep (index p) :: idToks p ++ offsetToks p ++ textToks p.

Definition numTok (s : tstate) (n : number) : TToken :=
  match s with
  | SColon => TOffset n
  | _ => TStep n
  end.

(** A string that [trimEnd] leaves alone because it is not empty and
    does not end in white space. *)
Definition solid (s : string) : Prop := trimEnd s = s /\ s <> ""%string.

Definition isSome {A} (x : option A) : bool :=
  match x with
  | Some _ => true
  | None => false
  end.

(** Parts that a rendering followed by a parse gives back: plain parts
    in which
    - an offset sits on an odd index only,
    - an id is not empty,
    - a side is not empty and comes with an id or with text,
    - text is a non-empty list that comes with an id or with an
      offset. *)
Definition canonical (p : TPart) : bool :=
  plain p
  && match offset p with Some _ => oddIndex (index p) | None => true end
  && match id p with Some s => nonEmpty s | None => true end
  && match side p with
     | Some s => nonEmpty s && (isSome (id p) || isSome (text p))
     | None => true
     end
  && match text p with
     | Some l => negb (length l =? 0)%nat && (isSome (id p) || isSome (offset p))
     | None => true
     end.

Definition addTexts (l : list string) (p : TPart) : TPart :=
  fold_left (fun q v => addText v q) l p.

(** The part without its offset. *)
Definition clearOffset (p : TPart) : TPart :=
  mkPart (index p) None (temporal p) (spatial p) (side p) (id p) (text p).

(** The part [/index:offset]. *)
Definition stepWithOffset (n o : N) : TPart :=
  setOffset (Num (Z.of_N o)) (newPart (Num (Z.of_N n))).

(** The tokens of the rendering of a path, and of several paths joined
    by indirection tokens. *)
Definition pathToks (parts : list TPart) : list TToken :=
  concat (map partToks parts).

Fixpoint joinToks (segs : list (list TToken)) : list TToken :=
  match segs with
  | [] => []
  | [s] => s
  | s :: r => s ++ TIndir :: joinToks r
  end.

(** A string that is empty or begins with a step or an indirection. *)
Definition headOk (s : string) : Prop :=
  match s with
  | EmptyString => True
  | String c _ => c = "/"%char \/ c = "!"%char
  end.

Definition isIndir (t : TToken) : bool := ttype_eqb (typeOf t) KIndir.

Definition isRange (t : TToken) : bool := ttype_eqb (typeOf t) KRange.

(** Token streams in which every token that writes through the last
    part comes after a Step token; [seen] tells whether a Step token has
    been read. *)
Fixpoint guarded (seen : bool) (ts : list TToken) : bool :=
  match ts with
  | [] => true
  | t :: r =>
      if isStep t then guarded true r
      else (seen || negb (writesLast t)) && guarded seen r
  end.

(** The two paths of the example of the specification. *)
Definition examplePaths : list (list TPart) :=
  [ [newPart (Num 6); withId 4 "chap01ref"];
    [withId 4 "body01"; withId 10 "para05"; stepWithOffset 3 10] ].

(** The numbers of the Step tokens of a stream, in order. *)
Fixpoint stepIndices (ts : list TToken) : list number :=
  match ts with
  | [] => []
  | TStep n :: r => n :: stepIndices r
  | _ :: r => stepIndices r
  end.

(** The maximal runs of tokens between the indirection tokens of a
    stream, in order: what splitting the stream at its indirection
    tokens means. *)
Fixpoint segmentsAtIndir (ts : list TToken) : list (list TToken) :=
  match ts with
  | [] => [[]]
  | t :: r =>
      if isIndir t then [] :: segmentsAtIndir r
      else
        match segmentsAtIndir r with
        | s :: segs => (t :: s) :: segs
        | [] => [[t]]
        end
  end.

(** The loop of [getChildNodes] over the child list, from the child at
    position [i] on. *)
Fixpoint childrenFrom (filter : option (Ref -> N)) (p : list nat) (i : nat)
  (cs : list Node) : list Ref :=
  match cs with
  | [] => []
  | c :: r =>
      let node := mkRef (i :: p) c in
      (if isTextNode node || isElementNode node then
         match filter with
         | Some f =>
             let accept := f node in
             if (accept =? FILTER_REJECT)%N then []
             else if (accept =? FILTER_SKIP)%N then getChildNodesAt filter (i :: p) c
             else [node]
         | None => [node]
         end
       else [])
      ++ childrenFrom filter p (S i) r
  end.

(** A reference that names a node of the document [doc]. *)
Definition validRef (doc : Node) (r : Ref) : Prop :=
  getNode doc (path r) = Some (obj r).

(** Element or character data, by node type. *)
Definition isContent (c : Node) : bool :=
  (nodeType c =? 1)%N || (nodeType c =? 3)%N || (nodeType c =? 4)%N.

(** What the indexed child list holds between two elements: the text
    nodes met since the last element, as they are when there is one, as
    a chunk when there are several, and a fixed entry when there are
    none. *)
Definition gap (dflt : slot) (pending : list Ref) : slot :=
  match pending with
  | [] => dflt
  | [t] => SlNode t
  | _ => SlChunk pending
  end.

(** The indexed child list written out from the list of children:
    gaps and elements in turn, beginning and ending with a gap.  An
    empty gap is the marker [first] before the first element, the
    marker [last] after the last one, and [null] between two
    elements. *)
Fixpoint layoutFrom (dflt : slot) (pending : list Ref) (l : list Ref) : list slot :=
  match l with
  | [] => [gap SlLast pending]
  | x :: r =>
      if isElementNode x then gap dflt pending :: SlNode x :: layoutFrom SlNull [] r
      else layoutFrom dflt (pending ++ [x]) r
  end.

Definition layout (l : list Ref) : list slot :=
  SlBefore :: layoutFrom SlFirst [] l ++ [SlAfter].

(** The array that the [reduce] of [indexChildNodes] builds, written
    out the same way: no markers, and nothing for an empty gap before
    the first element. *)
Definition gapSlots (dflt : list slot) (pending : list Ref) : list slot :=
  match pending with
  | [] => dflt
  | [t] => [SlNode t]
  | _ => [SlChunk pending]
  end.

Fixpoint coreFrom (dflt : list slot) (pending : list Ref) (l : list Ref) : list slot :=
  match l with
  | [] => gapSlots [] pending
  | x :: r =>
      if isElementNode x then gapSlots dflt pending ++ SlNode x :: coreFrom [SlNull] [] r
      else coreFrom dflt (pending ++ [x]) r
  end.

Definition textual (l : list Ref) : Prop := Forall (fun r => isTextNode r = true) l.

Definition content (l : list Ref) : Prop :=
  Forall (fun r => isTextNode r || isElementNode r = true) l.

(** Whether the children, after the text nodes [pending], end with an
    element (or there is nothing at all). *)
Fixpoint closes (pending : list Ref) (l : list Ref) : bool :=
  match l with
  | [] => match pending with [] => true | _ => false end
  | x :: r => if isElementNode x then closes [] r else closes (pending ++ [x]) r
  end.

Definition headIsElement (l : list Ref) : bool :=
  match l with
  | x :: _ => isElementNode x
  | [] => false
  end.

(** What [fromElements] is expected to return for the child elements
    [els] of one parent, the first of them being the [k]-th child
    element of that parent (counted from zero): the path of the parent
    followed by the even index of the element and its id. *)
Fixpoint elementCFIs (parts : list TPart) (k : nat) (els : list Ref) : list string :=
  match els with
  | [] => []
  | e :: r =>
      toString (Paths [parts ++ [mkPart (Num (Z.of_nat (2 * (k + 1)))) None None None None
                                        (nodeId (obj e)) None]])
      :: elementCFIs parts (S k) r
  end.

(** A package document: the root element holds white space, a metadata
    element, a manifest element and the spine; the spine holds three
    item references, the first two separated by white space. *)
Definition sampleSpine : Node :=
  element "" [textNode " "; element "a" []; textNode " "; element "b" []; element "c" []].
Definition samplePackage : Node :=
  mkNode 9 None None
    [element "" [textNode " "; element "" []; textNode " "; element "" []; textNode " ";
                 sampleSpine]].
Definition spineRef : Ref := mkRef [5; 0]%nat sampleSpine.
Definition itemRefs : list Ref :=
  [mkRef [1; 5; 0]%nat (element "a" []); mkRef [3; 5; 0]%nat (element "b" []);
   mkRef [4; 5; 0]%nat (element "c" [])].

(** Documents as a parser builds them: below the document node, only
    elements have children, and every text node has a value. *)
Fixpoint wellFormedNode (n : Node) : bool :=
  match n with
  | mkNode t _ v cs =>
      match cs with [] => true | _ :: _ => (t =? 1)%N end
      && (if (t =? 3)%N || (t =? 4)%N then isSome v else true)
      && forallb wellFormedNode cs
  end.

Definition wellFormed (doc : Node) : bool := forallb wellFormedNode (childNodes doc).

(** The length of the value of a text node. *)
Definition valueLength (r : Ref) : Z :=
  match nodeValue (obj r) with
  | Some v => Z.of_nat (String.length v)
  | None => 0
  end.

Definition totalLength (rs : list Ref) : Z :=
  fold_right (fun r acc => (valueLength r + acc)%Z) 0%Z rs.

(** The entry that stands for the node [x] in the indexed list of the
    children [l]: the node itself, or a chunk of text nodes among [l]
    in which [x] is the first node with its path. *)
Definition slotOf (l : list Ref) (x : Ref) (s : slot) : Prop :=
  s = SlNode x \/
  exists before after,
    s = SlChunk (before ++ x :: after) /\
    Forall (fun y => sameNode y x = false) before /\
    textual (before ++ x :: after) /\
    incl (before ++ x :: after) l.

(** The part that [nodeToParts] makes for the node [x] found at
    position [j] of the indexed list of its parent, in the entry [s]. *)
Definition levelPart (x : Ref) (j : nat) (s : slot) (off : option number) : TPart :=
  mkPart (Num (Z.of_nat j))
         (match s with
          | SlChunk chunk => Some (chunkSum (Num 0) x off chunk)
          | _ => off
          end)
         None None None (nodeId (obj x)) None.

(** The part of an ancestor: an index that was found, and no offset. *)
Definition ancestorPart (p : TPart) : Prop :=
  offset p = None /\ exists j : nat, index p = Num (Z.of_nat j).

(** Strings in which white space occurs only as single spaces; with
    [prevWs] they do not begin with white space either. *)
Fixpoint spaced (prevWs : bool) (t : string) : bool :=
  match t with
  | EmptyString => true
  | String c r =>
      if isAsciiWhitespace c then Ascii.eqb c " " && negb prevWs && spaced true r
      else spaced false r
  end.

Fixpoint endsInWhitespace (t : string) : bool :=
  match t with
  | EmptyString => false
  | String c EmptyString => isAsciiWhitespace c
  | String _ r => endsInWhitespace r
  end.

(** The characters of a string that are not white space. *)
Fixpoint inkOf (t : string) : string :=
  match t with
  | EmptyString => EmptyString
  | String c r => if isAsciiWhitespace c then inkOf r else String c (inkOf r)
  end.

(** The bytes of a blob after deobfuscation, position by position. *)
Fixpoint xorFrom (key : list Byte.byte) (i : nat) (bytes : list Byte.byte) : list Byte.byte :=
  match bytes with
  | [] => []
  | b :: r => xorByte b (keyAt key i) :: xorFrom key (S i) r
  end.

(** Decimal numbers that a double holds and prints digit by digit: at
    most 15 significant digits, at most 6 of them after the point, and
    no zero at the end of the fraction. *)
Definition decimal (x : float) : bool :=
  match x with
  | Float m e =>
      (m <? 10 ^ 15)%N && (e <=? 6)%nat && ((e =? 0)%nat || negb (m mod 10 =? 0)%N)
  | FNaN => false
  end.

(** The part without its temporal and spatial values. *)
Definition untimed (q : TPart) : TPart :=
  mkPart (index q) (offset q) None None (side q) (id q) (text q).

(** Canonical parts with a temporal value that is a decimal other than
    zero, and with spatial values that are a non-empty list of
    decimals. *)
Definition timed (q : TPart) : bool :=
  canonical (untimed q)
  && match temporal q with Some t => decimal t && truthyF t | None => true end
  && match spatial q with
     | Some l => negb (length l =? 0)%nat && forallb decimal l
     | None => true
     end.

Definition temporalToks (q : TPart) : list TToken :=
  match temporal q with
  | Some t => if truthyF t then [TTemporal t] else []
  | None => []
  end.

Definition spatialToks (q : TPart) : list TToken :=
  match spatial q with
  | Some l => map TSpatial l
  | None => []
  end.

(** Strings of digits and points. *)
Fixpoint allDecimal (s : string) : bool :=
  match s with
  | String c r => (isNumber c || Ascii.eqb "." c) && allDecimal r
  | EmptyString => true
  end.

(** A character that ends a decimal number in the tokenizer: not a
    digit, a point, a colon or the escape character. *)
Definition endsDecimal (x : option ascii) : bool :=
  negb (isDigit x) && negb (isChar "." x) && negb (isChar ":" x) && negb (isChar "^" x).

Definition startsAfterDecimal (rest : list (option ascii)) : bool :=
  match rest with
  | x :: _ => endsDecimal x
  | [] => false
  end.

(** The tokens of the rendering of a part with temporal and spatial
    values. *)
Definition timedToks (q : TPart) : list TToken :=
  TStep (index q)
  :: idToks q ++ offsetToks q ++ temporalToks q ++ spatialToks q ++ textToks q.

(** The part with other temporal and spatial values. *)
Definition setTime (tm : option float) (sp : option (list float)) (p : TPart) : TPart :=
  mkPart (index p) (offset p) tm sp (side p) (id p) (text p).

(** Tokens read inside a bracket. *)
Definition bracketTok (t : TToken) : bool :=
  match t with
  | TAssert _ | TParam _ _ => true
  | _ => false
  end.

(** The last character of a string. *)
Fixpoint lastChar (s : string) : option ascii :=
  match s with
  | EmptyString => None
  | String c EmptyString => Some c
  | String _ r => lastChar r
  end.

(** A string that does not end in a closing parenthesis, and is not
    empty. *)
Definition endsOpen (s : string) : Prop :=
  s <> ""%string /\ lastChar s <> Some ")"%char.

(** The part of the text of an identifier that [getUUID] looks at:
    what follows the last colon of the normalised text. *)
Definition lastSegment (el : Element) : string :=
  last (splitOn ":" (getElementText (Some el))) "".

(** The two digits of a byte in base 16, in lower case. *)
Definition hexChar (d : N) : ascii :=
  if (d <? 10)%N then ascii_of_N (48 + d) else ascii_of_N (87 + d).

Definition hexHi (b : Byte.byte) : ascii := hexChar (Byte.to_N b / 16).
Definition hexLo (b : Byte.byte) : ascii := hexChar (Byte.to_N b mod 16).

Definition hexOf (b : Byte.byte) : string := String (hexHi b) (String (hexLo b) "").

Definition hexOfAll (bs : list Byte.byte) : string := fold_right append "" (map hexOf bs).

(** The text form of a UUID of 16 bytes: the digits in groups of 8, 4,
    4, 4 and 12, with dashes between them. *)
Definition formatUUID (bs : list Byte.byte) : string :=
  hexOfAll (firstn 4 bs) ++ "-" ++ hexOfAll (firstn 2 (skipn 4 bs)) ++ "-"
  ++ hexOfAll (firstn 2 (skipn 6 bs)) ++ "-" ++ hexOfAll (firstn 2 (skipn 8 bs)) ++ "-"
  ++ hexOfAll (skipn 10 bs).

(** Strings without the character [c]. *)
Fixpoint lacks (c : ascii) (s : string) : bool :=
  match s with
  | EmptyString => true
  | String x r => negb (Ascii.eqb x c) && lacks c r
  end.

(** Strings without white space. *)
Fixpoint noWhitespace (s : string) : bool :=
  match s with
  | EmptyString => true
  | String x r => negb (isAsciiWhitespace x) && noWhitespace r
  end.

(** The number of counted resources, the number of entries in all
    lists of children, and their sum, which bounds the calls of
    [unref]. *)
Definition listed (m : smap (list string)) : nat :=
  list_sum (map (fun e => length (snd e)) m).

Definition weight (st : Loader) : nat := length (refCount st) + listed (children st).

(** Every cached resource is counted and every counted one cached. *)
Definition synced (st : Loader) : Prop :=
  forall k, mapGet (cache st) k = None <-> mapGet (refCount st) k = None.

(** What [unref] can do to a loader: resources lose their count or
    have it lowered, cached addresses are dropped, revoked addresses
    are added, and lists of children change for counted resources only
    (and for [but], inside the loop over its children). *)
Record shrinksBut (but : option string) (st st' : Loader) : Prop := mkShrinks {
  shrinks_weight : (weight st' <= weight st)%nat;
  shrinks_count :
    forall k c', mapGet (refCount st') k = Some c' ->
                 exists c, mapGet (refCount st) k = Some c /\ (c' <= c)%Z;
  shrinks_cache :
    forall k, mapGet (cache st') k = None \/ mapGet (cache st') k = mapGet (cache st) k;
  shrinks_children :
    forall k, Some k <> but -> mapGet (refCount st) k = None ->
              mapGet (children st') k = mapGet (children st) k;
  shrinks_revoked : exists more, revoked st' = revoked st ++ more;
  shrinks_synced : synced st -> synced st'
}.

Definition shrinks : Loader -> Loader -> Prop := shrinksBut None.

(** The address that [unref] revokes for a resource. *)
Definition addressOf (st : Loader) (href : string) : string :=
  match mapGet (cache st) href with
  | Some u => u
  | None => ""
  end.

(** The count of a resource, 0 when it has none, and whether the list
    of a parent holds a resource. *)
Definition countOf (st : Loader) (k : string) : Z :=
  match mapGet (refCount st) k with
  | Some c => c
  | None => 0%Z
  end.

Definition lists (st : Loader) (parent href : string) : bool :=
  match mapGet (children st) parent with
  | Some l => existsb (String.eqb href) l
  | None => false
  end.

Definition childrenOf (st : Loader) (parent : string) : list string :=
  match mapGet (children st) parent with
  | Some l => l
  | None => []
  end.

(** What a call of [unref] leaves behind for the resource itself. *)
Definition released (st : Loader) (href : string) (st' : Loader) : Prop :=
  match mapGet (refCount st) href with
  | None => st' = st
  | Some c =>
      if (c - 1 <? 1)%Z then
        mapGet (cache st') href = None /\
        mapGet (refCount st') href = None /\
        mapGet (children st') href = None /\
        exists more, revoked st' = revoked st ++ addressOf st href :: more
      else
        st' = mkLoader (cache st) (children st) (mapSet (refCount st) href (c - 1)%Z)
                       (revoked st)
  end.

(* ================================================================== *)
(** * Properties *)

(* ------------------------------------------------------------------ *)
(** ** The step parser *)

Lemma updLast_snoc (f : TPart -> TPart) (ps : list TPart) (p : TPart) :
  updLast f (ps ++ [p]) = Ok (ps ++ [f p]).
Proof.
  unfold updLast. rewrite rev_app_distr. simpl. now rewrite rev_involutive.
Qed.

Lemma parserLoop_app (acc : list TPart * option ttype) (ts1 ts2 : list TToken) :
  parserLoop acc (ts1 ++ ts2) = (acc' <- parserLoop acc ts1 ;; parserLoop acc' ts2).
Proof.
  revert acc. induction ts1 as [|t r IH]; intros acc; simpl; [reflexivity|].
  destruct (parserStep acc t) as [acc'|e]; simpl; [apply IH|reflexivity].
Qed.

(** A token that writes through [last] before any Step token makes the
    parser throw, whatever follows. *)
Lemma parser_write_before_step (pre : list TToken) (t : TToken) (post : list TToken) :
  forallb (fun x => negb (isStep x) && negb (writesLast x)) pre = true ->
  writesLast t = true ->
  parser (pre ++ t :: post) = Throw TypeError.
Proof.
  intros Hpre Ht. unfold parser.
  assert (H : forall st, exists st', parserLoop ([], st) pre = Ok ([], st')).
  { induction pre as [|x r IH]; intros st; simpl.
    - now exists st.
    - simpl in Hpre. apply andb_true_iff in Hpre as [Hx Hr].
      apply andb_true_iff in Hx as [Hs Hw].
      destruct x; simpl in Hs, Hw; try discriminate; simpl;
        try (apply negb_true_iff in Hw; rewrite Hw; simpl); now apply IH. }
  destruct (H None) as [st' E]. rewrite parserLoop_app, E. simpl.
  destruct t; simpl in Ht; try discriminate; simpl; try reflexivity.
  - destruct st' as [[]|]; simpl; try reflexivity; now destruct (nonEmpty s).
  - now rewrite Ht.
Qed.

(** C2, evaluated: the offset token of "epubcfi(:5)" is written through
    the last part while there is none yet, and [parse] throws a
    [TypeError] where the claim wants a result. *)
Theorem parse_offset_first_throws :
  tokenizer (unwrap "epubcfi(:5)") = [TOffset (Num 5)] /\
  parse "epubcfi(:5)" = Throw TypeError.
Proof. split; reflexivity. Qed.

(* ------------------------------------------------------------------ *)
(** ** Splitting at the markers *)

Lemma fold_split_fst {A} (arr : list A) (l : list Z) (xs : list (list A)) (a : Z) :
  exists rest,
    fst (fold_left
           (fun (acc : list (list A) * Z) (b : Z) =>
              (fst acc ++ [slice arr (snd acc + 1) b], b)) l (xs, a))
    = xs ++ rest /\ length rest = length l.
Proof.
  revert xs a. induction l as [|b r IH]; intros xs a; simpl.
  - exists []. now rewrite app_nil_r.
  - destruct (IH (xs ++ [slice arr (a + 1) b]) b) as [rest [E L]].
    exists (slice arr (a + 1) b :: rest). rewrite E, <- app_assoc. simpl.
    split; [reflexivity|now rewrite L].
Qed.

(** [splitAt] starts its reduction at [a = -1] and still runs it over
    the leading [-1]: the first segment it returns is
    [arr.slice(0, -1)], every token but the last, ahead of the
    segments between the markers. *)
Lemma splitAt_head {A} (arr : list A) (is_ : list Z) :
  exists rest,
    splitAt arr is_ = slice arr 0 (-1) :: rest /\ length rest = S (length is_).
Proof.
  unfold splitAt. cbn [fold_left fst snd].
  destruct (fold_split_fst arr (is_ ++ [Z.of_nat (length arr)])
              ([] ++ [slice arr (-1 + 1) (-1)]) (-1)%Z) as [rest [E L]].
  exists rest. rewrite E. simpl. split; [reflexivity|].
  rewrite L, length_app. simpl. lia.
Qed.

Lemma splitAt_length {A} (arr : list A) (is_ : list Z) :
  length (splitAt arr is_) = (length is_ + 2)%nat.
Proof.
  destruct (splitAt_head arr is_) as [rest [E L]]. rewrite E. simpl. lia.
Qed.

Lemma slice_all_but_last {A} (arr : list A) (x : A) :
  slice (arr ++ [x]) 0 (-1) = arr.
Proof.
  unfold slice. rewrite length_app. simpl.
  replace (Z.max (Z.of_nat (length arr + 1) + -1) 0) with (Z.of_nat (length arr)) by lia.
  replace (Z.min 0 (Z.of_nat (length arr + 1))) with 0%Z by lia.
  simpl. rewrite Z.sub_0_r, Nat2Z.id, firstn_app, firstn_all, Nat.sub_diag.
  simpl. now rewrite app_nil_r.
Qed.

(** C3, evaluated: [parse] of the example returns three paths, not
    two.  The first is the spurious segment of [splitAt] (all tokens
    but the last, the indirection token included); the two paths split
    at the marker follow it, and the last part of the third one has
    index 3 and offset 10. *)
Theorem parse_example_three_paths :
  parse example3 =
    Ok (Paths [ [newPart (Num 6); withId 4 "chap01ref"; withId 4 "body01";
                 withId 10 "para05"; newPart (Num 3)];
                [newPart (Num 6); withId 4 "chap01ref"];
                [withId 4 "body01"; withId 10 "para05";
                 setOffset (Num 10) (newPart (Num 3))] ]).
Proof. reflexivity. Qed.

Lemma mapM_length {A B} (f : A -> result B) (l : list A) (r : list B) :
  mapM f l = Ok r -> length r = length l.
Proof.
  revert r. induction l as [|x l IH]; intros r Hr; simpl in Hr.
  - now inversion Hr.
  - destruct (f x); simpl in Hr; [|discriminate].
    destruct (mapM f l) eqn:El; simpl in Hr; [|discriminate].
    inversion Hr. simpl. f_equal. now apply IH.
Qed.

(** Every point location that [parse] returns has at least two paths,
    so no string parses to a single path. *)
Lemma parse_point_two_paths (s : string) (ps : list (list TPart)) :
  parse s = Ok (Paths ps) -> (2 <= length ps)%nat.
Proof.
  unfold parse. destruct (findTokens (tokenizer (unwrap s)) KRange) eqn:E.
  - unfold parserIndir.
    pose proof (splitAt_length (tokenizer (unwrap s))
                  (findTokens (tokenizer (unwrap s)) KIndir)) as L.
    destruct (mapM parser _) as [r|] eqn:Er; simpl; [|discriminate].
    intros H. inversion H. subst. rewrite (mapM_length _ _ Er), L. lia.
  - destruct (mapM parserIndir _); simpl; discriminate.
Qed.

(** In the range branch of [parse] the three destructured segments
    exist: there are at least three of them. *)
Lemma parse_range_segments (ts : list TToken) (commas : list Z)
  (segs : list (list (list TPart))) :
  commas <> [] ->
  mapM parserIndir (splitAt ts commas) = Ok segs ->
  (3 <= length segs)%nat.
Proof.
  intros Hc H. rewrite (mapM_length _ _ H), splitAt_length.
  destruct commas; [contradiction|]. simpl. lia.
Qed.

(* ------------------------------------------------------------------ *)
(** ** The tree indexer *)

Lemma Node_induction (P : Node -> Prop) :
  (forall t i v cs, Forall P cs -> P (mkNode t i v cs)) ->
  forall n, P n.
Proof.
  intros H. fix IH 1. intros [t i v cs]. apply H.
  induction cs as [|c r IHr]; constructor; [apply IH|exact IHr].
Qed.

(** [getChildNodes] only returns elements and character data. *)
Lemma getChildNodesAt_kinds (filter : option (Ref -> N)) (n : Node) :
  forall p r, In r (getChildNodesAt filter p n) ->
              isTextNode r || isElementNode r = true.
Proof.
  induction n as [t i v cs IH] using Node_induction. intros p r. simpl.
  generalize 0%nat. induction cs as [|c cs IHcs]; intros k Hin; [contradiction|].
  inversion IH as [|? ? Hc Hcs]; subst.
  apply in_app_or in Hin as [Hin|Hin]; [|now apply (IHcs Hcs (S k))].
  destruct (isTextNode (mkRef (k :: p) c) || isElementNode (mkRef (k :: p) c)) eqn:K;
    [|contradiction].
  destruct filter as [f|].
  - destruct (f (mkRef (k :: p) c) =? FILTER_REJECT)%N; [contradiction|].
    destruct (f (mkRef (k :: p) c) =? FILTER_SKIP)%N.
    + now apply (Hc (k :: p)).
    + destruct Hin as [<-|[]]. exact K.
  - destruct Hin as [<-|[]]. exact K.
Qed.

Lemma text_not_element (r : Ref) : isTextNode r = true -> isElementNode r = false.
Proof.
  unfold isTextNode, isElementNode. intros H.
  apply orb_true_iff in H as [H|H]; apply N.eqb_eq in H; rewrite H; reflexivity.
Qed.







Section Indexer.

Variable node : Ref.
Variable filter : option (Ref -> N).






Lemma walkParts_app (c : cursor) (ps qs : list TPart) :
  walkParts filter c (ps ++ qs) =
    (w <- walkParts filter c ps ;;
     match w with
     | Return l => Ok (Return l)
     | Next c' => walkParts filter c' qs
     end).
Proof.
  revert c. induction ps as [|p r IH]; intros c; simpl.
  - now destruct (walkParts filter c qs) as [[]|].
  - destruct (walkStep filter c (index p)) as [[l|c']|e]; simpl; [reflexivity| |reflexivity].
    apply IH.
Qed.

(** C10.  For a node whose filtered child list is empty,
    [indexChildNodes] throws a [TypeError] (it reads the [nodeType] of
    the [undefined] first entry) instead of returning the two markers;
    path-to-node resolution reaches this case when the walk visits such
    a node with a part left to resolve, and then throws as well. *)
Theorem indexChildNodes_empty_throws :
  getChildNodes node filter = [] ->
  indexChildNodes node filter = Throw TypeError /\
  (forall doc root pre p rest last,
      walkParts filter (CNode root) pre = Ok (Next (CNode node)) ->
      nth_error (pre ++ p :: rest) (length (pre ++ p :: rest) - 1) = Some last ->
      lookupId doc last = None ->
      partsToNode doc root (Some (pre ++ p :: rest)) filter = Throw TypeError).
Proof.
  intros E.
  assert (T : indexChildNodes node filter = Throw TypeError).
  { unfold indexChildNodes. now rewrite E. }
  split; [exact T|].
  intros doc root pre p rest last W L I. unfold partsToNode.
  rewrite L, I, walkParts_app, W. simpl. now rewrite T.
Qed.

End Indexer.


Lemma indexChildNodes_empty_throws_witness :
  getChildNodes divisionRef None = [] /\
  indexChildNodes divisionRef None = Throw TypeError /\
  partsToNode sampleDoc rootRef (Some [newPart (Num 4); newPart (Num 2)]) None
  = Throw TypeError.
Proof.
  split; [reflexivity|].
  destruct (indexChildNodes_empty_throws divisionRef None eq_refl) as [T R].
  split; [exact T|].
  apply (R sampleDoc rootRef [newPart (Num 4)] (newPart (Num 2)) [] (newPart (Num 2)));
    reflexivity.
Defined.

(** The parent of an element always has a non-empty child list when no
    filter is given, so the two calls of [indexChildNodes] that
    [fromElements] makes never meet an empty list. *)
Lemma children_of_parent_nonempty (doc : Node) (i : nat) (q : list nat) (n pn : Node) :
  getNode doc q = Some pn ->
  nth_error (childNodes pn) i = Some n ->
  nodeType n = 1%N ->
  getChildNodes (mkRef q pn) None <> [].
Proof.
  intros _ Hn Ht. unfold getChildNodes. simpl. destruct pn as [t j v cs]. simpl in *.
  assert (G : forall k cs, nth_error cs i = Some n ->
     (fix children (i0 : nat) (cs0 : list Node) {struct cs0} : list Ref :=
        match cs0 with
        | [] => []
        | c :: r =>
            (if isTextNode (mkRef (i0 :: q) c) || isElementNode (mkRef (i0 :: q) c)
             then [mkRef (i0 :: q) c] else []) ++ children (S i0) r
        end) k cs <> []).
  { clear Hn cs. induction i as [|i IH]; intros k [|c r] H; simpl in H; try discriminate.
    - inversion H. subst c. unfold isTextNode, isElementNode. simpl. rewrite Ht.
      simpl. discriminate.
    - specialize (IH (S k) r H). intros E. apply app_eq_nil in E as [_ E]. now apply IH. }
  now apply G.
Qed.

(** C10, the callers: [fromElements] does not reach the empty case when
    it is handed an element without children.  It indexes the parent of
    the element and the ancestors of that parent, never the element. *)
Lemma fromElements_childless_element :
  getChildNodes quoteRef None = [] /\
  indexChildNodes quoteRef None = Throw TypeError /\
  fromElements sampleDoc [quoteRef] = Ok ["epubcfi(/6[sec]/2[q])"].
Proof. repeat split; reflexivity. Qed.

(* ------------------------------------------------------------------ *)
(** ** Resolving a path *)

(** When the walk ends on a real slot and the last part has no offset,
    or the offset 0, [partsToNode] returns [null]: the early return
    [if (!offset) return null] comes before the node is handed back. *)
Lemma partsToNode_no_offset (doc : Node) (root : Ref) (parts : list TPart)
  (filter : option (Ref -> N)) (last : TPart) (c : cursor) :
  nth_error parts (length parts - 1) = Some last ->
  lookupId doc last = None ->
  walkParts filter (CNode root) parts = Ok (Next c) ->
  noOffset (Some last) = true ->
  partsToNode doc root (Some parts) filter = Ok LNull.
Proof.
  intros L I W O. unfold partsToNode. rewrite L, I, W. simpl.
  unfold noOffset in O. destruct (offset last) as [o|]; [|reflexivity].
  now rewrite O.
Qed.

(** C5, evaluated: the path /2 of the sample document resolves through
    a real slot to the paragraph, and [partsToNode] returns [null] for
    it, with the offset absent and with the offset 0, where the claim
    wants the paragraph without an offset. *)
Theorem partsToNode_without_offset_is_null :
  walkParts None (CNode rootRef) [newPart (Num 2)] = Ok (Next (CNode paragraphRef)) /\
  partsToNode sampleDoc rootRef (Some [newPart (Num 2)]) None = Ok LNull /\
  partsToNode sampleDoc rootRef (Some [setOffset (Num 0) (newPart (Num 2))]) None
  = Ok LNull.
Proof. repeat split; reflexivity. Qed.

(* ------------------------------------------------------------------ *)
(** ** Deriving a path *)

Lemma filter_all {A} (f : A -> bool) (l : list A) :
  Forall (fun x => f x = true) l -> filter f l = l.
Proof.
  induction 1 as [|x l Hx _ IH]; simpl; [reflexivity|]. now rewrite Hx, IH.
Qed.

Section Lineage.

Variable doc : Node.
Variable filter : option (Ref -> N).

Lemma nodeToPartsAt_cons (i : nat) (q : list nat) (off : option number) :
  nodeToPartsAt doc filter (i :: q) off =
    match getNode doc (i :: q), getNode doc q with
    | Some n, Some pn =>
        indexed <- indexChildNodes (mkRef q pn) filter ;;
        let index := findIndexFrom 0 (mkRef (i :: q) n) indexed in
        let off' :=
          match at_ indexed (Num index) with
          | Some (SlChunk chunk) => Some (chunkSum (Num 0) (mkRef (i :: q) n) off chunk)
          | _ => off
          end in
        let part := mkPart (Num index) off' None None None (nodeId n) None in
        all <- (if negb (sameOpt (Some (mkRef q pn)) (documentElement doc)) then
                  ps <- nodeToPartsAt doc filter q None ;; Ok (ps ++ [part])
                else Ok [part]) ;;
        Ok (List.filter indexIsValid all)
    | _, _ => Throw TypeError
    end.
Proof. reflexivity. Qed.

Lemma nodeToPartsAt_valid (p : list nat) (off : option number) (parts : list TPart) :
  nodeToPartsAt doc filter p off = Ok parts ->
  Forall (fun x => indexIsValid x = true) parts.
Proof.
  destruct p as [|i q]; [discriminate|]. rewrite nodeToPartsAt_cons.
  destruct (getNode doc (i :: q)) as [n|]; [|discriminate].
  destruct (getNode doc q) as [pn|]; [|discriminate].
  destruct (indexChildNodes _ _) as [indexed|]; [|discriminate]. simpl.
  match goal with |- (all <- ?m ;; _) = _ -> _ => destruct m as [all|] end;
    [|discriminate].
  simpl. intros H. inversion H. apply Forall_forall. intros x Hx.
  now apply filter_In in Hx.
Qed.

Lemma belowRoot_spec (q : list nat) (pn : Node) :
  sameOpt (Some (mkRef q pn)) (documentElement doc) = belowRoot doc q.
Proof. unfold belowRoot. now destruct (documentElement doc). Qed.

(** C9, as the code has it.  Each part of the path derived from a node
    carries the index and the [id] of one level: the levels are the
    node and its ancestors below the root element, outermost first,
    without those the filter hides.  So the part of an ancestor that
    has an [id] carries it, and the last part carries the [id] of the
    innermost node whenever that node is kept. *)
Theorem nodeToParts_ids (p : list nat) (off : option number) (parts : list TPart) :
  nodeToPartsAt doc filter p off = Ok parts ->
  map (fun x => (index x, id x)) parts =
    map (fun a => (Num (levelIndex doc filter a), idAt doc a))
        (List.filter (kept doc filter) (lineage doc p))
  /\ (kept doc filter p = true ->
      exists front last, parts = front ++ [last] /\ id last = idAt doc p).
Proof.
  revert off parts. induction p as [|i q IH]; intros off parts; [discriminate|].
  rewrite nodeToPartsAt_cons.
  destruct (getNode doc (i :: q)) as [n|] eqn:En; [|discriminate].
  destruct (getNode doc q) as [pn|] eqn:Ep; [|discriminate].
  destruct (indexChildNodes (mkRef q pn) filter) as [indexed|] eqn:Ei; [|discriminate].
  cbn [bind]. rewrite belowRoot_spec.
  set (ix := findIndexFrom 0 (mkRef (i :: q) n) indexed).
  set (part := mkPart (Num ix) _ None None None (nodeId n) None).
  assert (Kp : kept doc filter (i :: q) = negb (ix =? -1)%Z).
  { unfold kept, levelIndex. now rewrite En, Ep, Ei. }
  assert (Vp : indexIsValid part = negb (ix =? -1)%Z) by reflexivity.
  assert (Ld : idAt doc (i :: q) = id part).
  { unfold idAt. now rewrite En. }
  assert (Lp : (Num (levelIndex doc filter (i :: q)), idAt doc (i :: q))
               = (index part, id part)).
  { rewrite Ld. unfold levelIndex. now rewrite En, Ep, Ei. }
  assert (Tail : List.filter (kept doc filter) [i :: q]
                 = if negb (ix =? -1)%Z then [i :: q] else []).
  { simpl. now rewrite Kp. }
  cbn [lineage]. rewrite filter_app, map_app, Tail.
  destruct (belowRoot doc q); cbn [negb].
  - cbn [bind List.filter]. rewrite Vp. intros H. inversion H. split.
    + destruct (negb (ix =? -1)%Z); cbn [map app]; [now rewrite Lp|reflexivity].
    + intros K. rewrite Kp in K. rewrite K. now exists [], part.
  - destruct (nodeToPartsAt doc filter q None) as [ps|] eqn:Eq; [|discriminate].
    cbn [bind]. rewrite filter_app, (filter_all _ (nodeToPartsAt_valid _ _ Eq)).
    cbn [List.filter]. rewrite Vp. intros H. inversion H.
    destruct (IH None ps Eq) as [M _]. split.
    + rewrite map_app, M. f_equal.
      destruct (negb (ix =? -1)%Z); cbn [map app]; [now rewrite Lp|reflexivity].
    + intros K. rewrite Kp in K. rewrite K. now exists ps, part.
Qed.

End Lineage.

Lemma nodeToParts_ids_witness :
  nodeToPartsAt sampleDoc None (path quoteRef) None
  = Ok [mkPart (Num 6) None None None None (Some "sec") None;
        mkPart (Num 2) None None None None (Some "q") None] /\
  map (fun x => (index x, id x))
      [mkPart (Num 6) None None None None (Some "sec") None;
       mkPart (Num 2) None None None None (Some "q") None] =
    map (fun a => (Num (levelIndex sampleDoc None a), idAt sampleDoc a))
        (List.filter (kept sampleDoc None) (lineage sampleDoc (path quoteRef))).
Proof.
  split; [reflexivity|].
  apply (nodeToParts_ids sampleDoc None (path quoteRef) None). reflexivity.
Defined.

(** C9, refuted as stated: in the path derived from the empty element
    of the sample document, the part of its parent section, which is
    not the last part, carries the [id] of the section, and [toString]
    renders it. *)
Lemma nodeToParts_ancestor_id :
  exists first last,
    nodeToParts sampleDoc quoteRef None None = Ok [first; last] /\
    id first = Some "sec" /\ id last = Some "q" /\
    toString (Paths [[first; last]]) = "epubcfi(/6[sec]/2[q])".
Proof. eexists. eexists. repeat split. Qed.

(* ------------------------------------------------------------------ *)
(** ** Ranges *)

Lemma nth_error_tl {A} (l : list A) (j : nat) : nth_error (tl l) j = nth_error l (S j).
Proof. destruct l; [now destruct j|reflexivity]. Qed.

Lemma hd_error_nth {A} (l : list A) : hd_error l = nth_error l 0.
Proof. now destruct l. Qed.

Lemma fold_rangeStep (lf lt : list TPart) (n : nat) :
  forall s la lb acc,
    (forall j, nth_error lf (s + j) = nth_error la j) ->
    (forall j, nth_error lt (s + j) = nth_error lb j) ->
    fold_left (rangeStep lf lt) (seq s n) acc = rangeLoop n la lb acc.
Proof.
  induction n as [|n IH]; intros s la lb acc Ha Hb; simpl; [reflexivity|].
  unfold rangeStep at 2. rewrite !hd_error_nth, <- (Ha 0%nat), <- (Hb 0%nat), Nat.add_0_r.
  apply IH; intros j; rewrite nth_error_tl;
    [rewrite <- Ha|rewrite <- Hb]; f_equal; lia.
Qed.

Lemma rangeLoop_prefix (preA preB : list TPart) :
  Forall2 agree preA preB ->
  forall m sa sb P S E,
    rangeLoop (length preA + m) (preA ++ sa) (preB ++ sb) (mkAcc true P S E)
    = rangeLoop m sa sb (mkAcc true (P ++ preA) S E).
Proof.
  induction 1 as [|a b ra rb Hab _ IH]; intros m sa sb P S E; simpl.
  - now rewrite app_nil_r.
  - unfold rangeBody at 1. simpl pushToParent. unfold agree in Hab.
    cbn [andb]. rewrite Hab. cbn [localParent localStart localEnd optList].
    rewrite IH, <- app_assoc. reflexivity.
Qed.

Lemma rangeLoop_rest (m : nat) :
  forall sa sb P S E,
    m = Nat.max (length sa) (length sb) ->
    rangeLoop m sa sb (mkAcc false P S E) = mkAcc false P (S ++ sa) (E ++ sb).
Proof.
  induction m as [|m IH]; intros sa sb P S E Hm.
  - destruct sa, sb; simpl in Hm; try lia. simpl. now rewrite !app_nil_r.
  - simpl. unfold rangeBody. cbn [pushToParent andb localParent localStart localEnd].
    rewrite IH.
    + destruct sa, sb; simpl; rewrite <- ?app_assoc; simpl; rewrite ?app_nil_r; reflexivity.
    + destruct sa, sb; simpl in *; lia.
Qed.

Lemma rangeLoop_diverge (sa sb : list TPart) (P : list TPart) :
  diverge sa sb ->
  let acc := rangeLoop (Nat.max (length sa) (length sb)) sa sb (mkAcc true P [] []) in
  localParent acc = P /\ localStart acc = sa /\ localEnd acc = sb.
Proof.
  intros D.
  destruct (Nat.max (length sa) (length sb)) as [|m] eqn:Hm.
  - destruct sa, sb; simpl in Hm; try lia. now simpl.
  - cbn [rangeLoop].
    assert (B : rangeBody (hd_error sa) (hd_error sb) (mkAcc true P [] [])
                = mkAcc false P (optList (hd_error sa)) (optList (hd_error sb))).
    { unfold rangeBody. cbn [pushToParent andb].
      destruct sa as [|a ra], sb as [|b rb]; simpl in Hm; try lia; simpl hd_error.
      - reflexivity.
      - reflexivity.
      - unfold diverge in D. now rewrite D. }
    rewrite B, rangeLoop_rest.
    + destruct sa, sb; simpl; now rewrite ?app_nil_r.
    + destruct sa, sb; simpl in *; lia.
Qed.

Lemma nth_error_last_snoc {A} (l : list A) (x : A) :
  nth_error (l ++ [x]) (length (l ++ [x]) - 1) = Some x.
Proof.
  rewrite length_app. simpl length.
  rewrite Nat.add_sub, nth_error_app2, Nat.sub_diag by lia. reflexivity.
Qed.

Lemma concatArrays_snoc (outer : list (list TPart)) (pre s : list TPart) :
  concatArrays (outer ++ [pre]) [s] = Ok (outer ++ [pre ++ s]).
Proof.
  unfold concatArrays. rewrite nth_error_last_snoc, slice_all_but_last. reflexivity.
Qed.

(** C4, as the code has it.  Let the innermost paths of [A] and [B] be
    [preA ++ sa] and [preB ++ sb], where [preA] and [preB] are the
    longest prefixes whose parts agree pairwise (equal indices, no
    offset on either side).  The range that [buildRange] serializes has
    the outer paths of [A] followed by [preA] as its parent, so the
    innermost path of the parent has the length of the prefix; it has
    [sa] as start and [sb] as end.  Collapsing it to the start gives
    [A].  Collapsing it to the end gives the outer paths and the prefix
    of [A] followed by [sb]: this is [B] when [B] has the same outer
    paths and the same parts in the prefix as [A]. *)
Theorem buildRange_collapse (outerA outerB : list (list TPart))
  (preA preB sa sb : list TPart) :
  Forall2 agree preA preB ->
  diverge sa sb ->
  let A := outerA ++ [preA ++ sa] in
  let B := outerB ++ [preB ++ sb] in
  let r := mkParsed (outerA ++ [preA]) [sa] [sb] in
  rangeOf (Paths A) (Paths B) = Ok r /\
  buildRange (Paths A) (Paths B) = Ok (toString (Parsed r)) /\
  nth_error (parent r) (length (parent r) - 1) = Some preA /\
  length preA = length preB /\
  collapse (Parsed r) false = Ok A /\
  collapse (Parsed r) true = Ok (outerA ++ [preA ++ sb]) /\
  (outerB = outerA -> preB = preA -> collapse (Parsed r) true = Ok B).
Proof.
  intros Hpre Hdiv A B r.
  assert (Hlen : length preA = length preB) by (eapply Forall2_length; eassumption).
  assert (R : rangeOf (Paths A) (Paths B) = Ok r).
  { unfold rangeOf, A, B. cbn [collapse bind]. rewrite !nth_error_last_snoc.
    rewrite !length_app, <- Hlen, Nat.add_max_distr_l, slice_all_but_last.
    destruct (length preA + Nat.max (length sa) (length sb))%nat as [|n] eqn:En.
    - destruct preA, preB, sa, sb; simpl in En, Hlen; try lia. reflexivity.
    - rewrite <- En.
      rewrite (fold_rangeStep (preA ++ sa) (preB ++ sb) _ 0 (preA ++ sa) (preB ++ sb))
        by reflexivity.
      rewrite rangeLoop_prefix by assumption.
      destruct (rangeLoop_diverge sa sb ([] ++ preA) Hdiv) as [E1 [E2 E3]].
      rewrite E1, E2, E3. reflexivity. }
  assert (C : forall s, concatArrays (outerA ++ [preA]) [s] = Ok (outerA ++ [preA ++ s]))
    by (intros s; apply concatArrays_snoc).
  repeat split.
  - exact R.
  - unfold buildRange. now rewrite R.
  - apply nth_error_last_snoc.
  - exact Hlen.
  - apply C.
  - apply C.
  - intros -> ->. apply C.
Qed.

Lemma buildRange_collapse_witness :
  Forall2 agree [newPart (Num 6)] [newPart (Num 6)] /\
  diverge [newPart (Num 2)] [newPart (Num 4); newPart (Num 1)] /\
  rangeOf (Paths [[newPart (Num 8)]; [newPart (Num 6); newPart (Num 2)]])
          (Paths [[newPart (Num 8)]; [newPart (Num 6); newPart (Num 4); newPart (Num 1)]])
  = Ok (mkParsed [[newPart (Num 8)]; [newPart (Num 6)]]
                 [[newPart (Num 2)]] [[newPart (Num 4); newPart (Num 1)]]).
Proof.
  assert (H1 : Forall2 agree [newPart (Num 6)] [newPart (Num 6)])
    by (repeat constructor).
  assert (H2 : diverge [newPart (Num 2)] [newPart (Num 4); newPart (Num 1)])
    by reflexivity.
  split; [exact H1|]. split; [exact H2|].
  apply (@buildRange_collapse [[newPart (Num 8)]] [[newPart (Num 8)]]
           [newPart (Num 6)] [newPart (Num 6)]
           [newPart (Num 2)] [newPart (Num 4); newPart (Num 1)] H1 H2).
Defined.

(** C4, refuted as stated: both paths consist of one part with index 2
    and no offset, so they agree on an offset-free prefix of length 1,
    but the parts carry different ids.  The parent takes the part of
    the first path, and collapsing the range to its end gives the
    first path again, not the second. *)
Lemma buildRange_collapse_end_differs :
  Forall2 agree (nth 0 rangeA []) (nth 0 rangeB []) /\
  exists r,
    rangeOf (Paths rangeA) (Paths rangeB) = Ok r /\
    collapse (Parsed r) true = Ok rangeA /\
    rangeA <> rangeB.
Proof.
  split; [repeat constructor|].
  eexists. repeat split. discriminate.
Qed.

(* ------------------------------------------------------------------ *)
(** ** Assertions: id and text *)

Lemma parserStep_attr (ps : list TPart) (p : TPart) (st : option ttype) (t : TToken) :
  isStep t = false ->
  parserStep (ps ++ [p], st) t
  = Ok (ps ++ [fst (applyAttr (p, st) t)], snd (applyAttr (p, st) t)).
Proof.
  intros H. destruct t; try discriminate; simpl;
    try (destruct st as [[]|]); try (destruct (nonEmpty s));
    try (destruct (name =? "s")); simpl; rewrite ?updLast_snoc; reflexivity.
Qed.

Lemma parserLoop_attrs (attrs : list TToken) :
  noStep attrs = true ->
  forall ps p st,
    parserLoop (ps ++ [p], st) attrs
    = Ok (ps ++ [fst (fold_left applyAttr attrs (p, st))],
          snd (fold_left applyAttr attrs (p, st))).
Proof.
  induction attrs as [|t r IH]; intros H ps p st; [reflexivity|].
  simpl in H. apply andb_true_iff in H as [Ht Hr]. apply negb_true_iff in Ht.
  cbn [parserLoop fold_left]. rewrite parserStep_attr by exact Ht. cbn [bind].
  destruct (applyAttr (p, st) t) as [p1 st1]. now apply IH.
Qed.

(** Once there is a part, the parser does not throw, and it leaves the
    parts before the last one as they are. *)
Lemma parserLoop_total (ts : list TToken) :
  forall ps p st, exists p' more st',
    parserLoop (ps ++ [p], st) ts = Ok (ps ++ p' :: more, st').
Proof.
  induction ts as [|t r IH]; intros ps p st.
  - now exists p, [], st.
  - destruct (isStep t) eqn:Ht.
    + destruct t; try discriminate. cbn [parserLoop parserStep bind].
      destruct (IH (ps ++ [p]) (newPart n) (Some KStep)) as [p' [more [st' E]]].
      exists p, (p' :: more), st'. rewrite E, <- app_assoc. reflexivity.
    + cbn [parserLoop]. rewrite parserStep_attr by exact Ht. cbn [bind].
      apply IH.
Qed.

Lemma attrs_id_text (attrs : list TToken) :
  noStep attrs = true ->
  forall p st,
    let p' := fst (fold_left applyAttr attrs (p, st)) in
    index p' = index p /\
    id p' = (if isKStep st then
               match idOf attrs with Some v => Some v | None => id p end
             else id p) /\
    text p' = match textsOf (isKStep st) attrs with
              | [] => text p
              | l => Some (match text p with Some t => t | None => [] end ++ l)
              end.
Proof.
  induction attrs as [|t r IH]; intros H p st.
  - simpl. repeat split. now destruct (isKStep st).
  - simpl in H. apply andb_true_iff in H as [Ht Hr]. cbn [fold_left].
    assert (Other : forall q st1,
               applyAttr (p, st) t = (q, st1) -> isKStep st1 = false ->
               index q = index p -> id q = id p -> text q = text p ->
               idOf (t :: r) = None -> textsOf (isKStep st) (t :: r) = textsOf false r ->
               let p' := fst (fold_left applyAttr r (applyAttr (p, st) t)) in
               index p' = index p /\
               id p' = (if isKStep st then
                          match idOf (t :: r) with Some v => Some v | None => id p end
                        else id p) /\
               text p' = match textsOf (isKStep st) (t :: r) with
                         | [] => text p
                         | l => Some (match text p with Some t => t | None => [] end ++ l)
                         end).
    { intros q st1 E K Ei Ed Et Eo Ex. rewrite E, Eo, Ex.
      destruct (IH Hr q st1) as [I1 [I2 I3]]. rewrite K in I2, I3.
      cbv zeta. rewrite I1, I2, I3, Ei, Ed, Et. repeat split. now destruct (isKStep st). }
    destruct t; try discriminate.
    + now apply (Other (setOffset n p) (Some KOffset)).
    + now apply (Other (setTemporal x p) (Some KTemporal)).
    + now apply (Other (addSpatial x p) (Some KSpatial)).
    + (* an assertion token *)
      destruct (isKStep st) eqn:K.
      * destruct st as [[]|]; try discriminate. cbn [applyAttr idOf textsOf andb].
        destruct (nonEmpty s) eqn:Es.
        -- destruct (IH Hr (setId s p) (Some KAssert)) as [I1 [I2 I3]].
           cbv zeta. rewrite I1, I2, I3. cbn [isKStep]. repeat split.
        -- destruct (IH Hr (addText s p) (Some KStep)) as [I1 [I2 I3]].
           cbv zeta. rewrite I1, I2, I3. cbn [isKStep]. repeat split.
           simpl. destruct (textsOf true r); [reflexivity|].
           now rewrite <- app_assoc.
      * assert (E : applyAttr (p, st) (TAssert s) = (addText s p, st)).
        { destruct st as [[]|]; try reflexivity. discriminate. }
        cbn [fold_left textsOf andb]. rewrite E.
        destruct (IH Hr (addText s p) st) as [I1 [I2 I3]].
        cbv zeta. rewrite I1, I2, I3, K. repeat split.
        simpl. destruct (textsOf false r); [reflexivity|].
        now rewrite <- app_assoc.
    + destruct (name =? "s") eqn:En.
      * apply (Other (setSide s p) (Some (KParam name))); try reflexivity.
        simpl. now rewrite En.
      * apply (Other p (Some (KParam name))); try reflexivity.
        simpl. now rewrite En.
    + now apply (Other p (Some KIndir)).
    + now apply (Other p (Some KRange)).
Qed.

(** C6, as the code has it.  In any token stream that the parser
    accepts up to a Step token, the part that this Step token opens
    gets as [id] the payload of the first assertion token after it that
    is not empty, when nothing but empty assertion tokens comes in
    between, and no [id] otherwise.  The payloads of all its other
    assertion tokens, a comma-separated extension included, go to
    [text] in order, so a part can hold an [id] and [text] together. *)
Theorem parser_id_and_text (ts1 : list TToken) (n : number) (attrs ts2 : list TToken)
  (ps1 : list TPart) :
  parser ts1 = Ok ps1 ->
  noStep attrs = true ->
  startsWithStep ts2 = true ->
  exists p more,
    parser (ts1 ++ TStep n :: attrs ++ ts2) = Ok (ps1 ++ p :: more) /\
    index p = n /\ id p = idOf attrs /\ text p = textOf attrs.
Proof.
  unfold parser. intros H1 Ha H2.
  destruct (parserLoop ([], None) ts1) as [[ps st]|] eqn:E1; [|discriminate].
  simpl in H1. inversion H1. subst ps.
  rewrite parserLoop_app, E1. cbn [bind parserLoop parserStep].
  rewrite parserLoop_app, parserLoop_attrs by exact Ha. cbn [bind].
  destruct (@attrs_id_text attrs Ha (newPart n) (Some KStep)) as [I1 [I2 I3]].
  set (p := fst (fold_left applyAttr attrs (newPart n, Some KStep))) in *.
  set (st2 := snd (fold_left applyAttr attrs (newPart n, Some KStep))).
  assert (P : index p = n /\ id p = idOf attrs /\ text p = textOf attrs).
  { repeat split; [exact I1| |].
    - rewrite I2. simpl. now destruct (idOf attrs).
    - rewrite I3. unfold textOf. simpl. now destruct (textsOf true attrs). }
  destruct ts2 as [|t r].
  - exists p, []. split; [reflexivity|exact P].
  - destruct t; try discriminate. cbn [parserLoop parserStep bind].
    destruct (parserLoop_total r (ps1 ++ [p]) (newPart n0) (Some KStep))
      as [p' [more [st' E]]].
    exists p, (p' :: more). rewrite E. cbn [bind fst]. rewrite <- app_assoc.
    split; [reflexivity|exact P].
Qed.

Lemma parser_id_and_text_witness :
  parser [] = Ok [] /\
  noStep [TAssert "a"; TAssert "b"] = true /\
  startsWithStep [] = true /\
  exists p more,
    parser ([] ++ TStep (Num 4) :: [TAssert "a"; TAssert "b"] ++ []) = Ok ([] ++ p :: more) /\
    index p = Num 4 /\ id p = Some "a" /\ text p = Some ["b"].
Proof.
  repeat split.
  apply (@parser_id_and_text [] (Num 4) [TAssert "a"; TAssert "b"] [] []); reflexivity.
Defined.

(** C6, refuted as stated: "/4[a,b]" gives one part with the id "a" and
    the text "b" together; and in "/4[][x]" the assertion taken as id
    does not come right after the Step token. *)
Lemma parser_id_with_text :
  tokenizer "/4[a,b]" = [TStep (Num 4); TAssert "a"; TAssert "b"] /\
  parser (tokenizer "/4[a,b]")
  = Ok [mkPart (Num 4) None None None None (Some "a") (Some ["b"])] /\
  parser (tokenizer "/4[][x]")
  = Ok [mkPart (Num 4) None None None None (Some "x") (Some [""])].
Proof. repeat split; reflexivity. Qed.

(* ------------------------------------------------------------------ *)
(** ** Numbers and their digits *)

Lemma digit_roundtrip (d : N) :
  (d < 10)%N -> isNumber (digitChar d) = true /\ digitVal (digitChar d) = d.
Proof.
  intros H.
  assert (C : (d = 0 \/ d = 1 \/ d = 2 \/ d = 3 \/ d = 4 \/ d = 5 \/ d = 6 \/ d = 7
               \/ d = 8 \/ d = 9)%N) by lia.
  repeat (destruct C as [->|C]; [split; reflexivity|]). subst. split; reflexivity.
Qed.

Lemma append_assoc (a b c : string) : ((a ++ b) ++ c = a ++ b ++ c)%string.
Proof. induction a as [|x a IH]; simpl; [reflexivity|now rewrite IH]. Qed.

Lemma append_nil_r (a : string) : (a ++ "" = a)%string.
Proof. induction a as [|x a IH]; simpl; [reflexivity|now rewrite IH]. Qed.

Lemma digitsFuel_acc (f : nat) :
  forall n acc, digitsFuel f n acc = (digitsFuel f n "" ++ acc)%string.
Proof.
  induction f as [|f IH]; intros n acc; cbn [digitsFuel]; [reflexivity|].
  destruct (n <? 10)%N; [reflexivity|].
  rewrite (IH _ (String _ acc)), (IH _ (String _ "")), append_assoc. reflexivity.
Qed.

Lemma allDigits_app (a b : string) :
  allDigits (a ++ b) = allDigits a && allDigits b.
Proof.
  induction a as [|x a IH]; simpl; [reflexivity|]. now rewrite IH, andb_assoc.
Qed.

Lemma digitsFuel_allDigits (f : nat) : forall n, allDigits (digitsFuel f n "") = true.
Proof.
  induction f as [|f IH]; intros n; cbn [digitsFuel]; [reflexivity|].
  assert (D : isNumber (digitChar (n mod 10)) = true).
  { apply digit_roundtrip. apply N.mod_lt. lia. }
  destruct (n <? 10)%N; cbn [allDigits].
  - now rewrite D.
  - rewrite digitsFuel_acc, allDigits_app, IH. cbn [allDigits andb]. now rewrite D.
Qed.

Lemma digitsFuel_nonEmpty (f : nat) (n : N) : nonEmpty (digitsFuel (S f) n "") = true.
Proof.
  cbn [digitsFuel]. destruct (n <? 10)%N; [reflexivity|].
  rewrite digitsFuel_acc. now destruct (digitsFuel f (n / 10) "").
Qed.

Lemma digitsVal_snoc (s : string) (c : ascii) :
  allDigits s = true -> isNumber c = true ->
  forall a, digitsVal a (s ++ String c "") = (10 * digitsVal a s + digitVal c)%N.
Proof.
  induction s as [|x s IH]; intros Hs Hc a; cbn [append digitsVal].
  - now rewrite Hc.
  - cbn [allDigits] in Hs. apply andb_true_iff in Hs as [Hx Hs]. rewrite Hx. now apply IH.
Qed.

Lemma digitsFuel_value (f : nat) :
  forall n, (n < 10 ^ N.of_nat f)%N -> digitsVal 0 (digitsFuel f n "") = n.
Proof.
  induction f as [|f IH]; intros n Hn.
  - cbn [digitsFuel digitsVal]. change (10 ^ N.of_nat 0)%N with 1%N in Hn. lia.
  - cbn [digitsFuel].
    assert (D : (n mod 10 < 10)%N) by (apply N.mod_lt; lia).
    destruct (digit_roundtrip D) as [D1 D2].
    destruct (n <? 10)%N eqn:E.
    + apply N.ltb_lt in E. cbn [digitsVal]. rewrite D1, D2.
      rewrite N.mod_small by exact E. lia.
    + apply N.ltb_ge in E. rewrite digitsFuel_acc.
      rewrite digitsVal_snoc by (try apply digitsFuel_allDigits; exact D1).
      rewrite IH, D2.
      * rewrite (N.div_mod n 10) at 3 by lia. lia.
      * rewrite Nat2N.inj_succ, N.pow_succ_r' in Hn.
        apply N.Div0.div_lt_upper_bound. exact Hn.
Qed.

Lemma natToString_fuel (n : N) : (n < 10 ^ N.of_nat (S (N.to_nat (N.log2 n))))%N.
Proof.
  rewrite Nat2N.inj_succ, N2Nat.id.
  destruct (N.eq_dec n 0) as [->|Hn]; [reflexivity|].
  apply N.lt_le_trans with (2 ^ N.succ (N.log2 n))%N.
  - apply N.log2_spec. lia.
  - apply N.pow_le_mono_l. lia.
Qed.

Lemma natToString_allDigits (n : N) : allDigits (natToString n) = true.
Proof. apply digitsFuel_allDigits. Qed.

Lemma natToString_nonEmpty (n : N) : nonEmpty (natToString n) = true.
Proof. apply digitsFuel_nonEmpty. Qed.

Lemma parseInt_natToString (n : N) : parseInt (natToString n) = Num (Z.of_N n).
Proof.
  unfold parseInt.
  pose proof (natToString_allDigits n) as A. pose proof (natToString_nonEmpty n) as E.
  pose proof (@digitsFuel_value _ n (natToString_fuel n)) as V. fold (natToString n) in V.
  destruct (natToString n) as [|c r]; [discriminate|].
  simpl in A. apply andb_true_iff in A as [Hc _]. now rewrite Hc, V.
Qed.

(* ------------------------------------------------------------------ *)
(** ** Tokenizing a rendered path *)

Lemma cs_app (a b : string) : cs (a ++ b) = cs a ++ cs b.
Proof.
  unfold cs. induction a as [|x a IH]; simpl; [reflexivity|]. now rewrite IH.
Qed.

Lemma run_app (st : tok) (a b : list (option ascii)) :
  run st (a ++ b) = run (run st a) b.
Proof. apply fold_left_app. Qed.

(** Closes a goal [Ascii.eqb a c = false] when a hypothesis excludes
    [c = a] by computation. *)
Ltac differs :=
  match goal with
  | |- Ascii.eqb ?a ?c = false =>
      destruct (Ascii.eqb_spec a c) as [<-|]; [discriminate|reflexivity]
  end.

Lemma digit_not_caret (c : ascii) : isNumber c = true -> Ascii.eqb "^" c = false.
Proof. intros H. differs. Qed.

Lemma run_digits (s : tstate) (d : string) :
  s = SSlash \/ s = SColon ->
  allDigits d = true ->
  forall ts v, run (mkTok ts s false v) (cs d) = mkTok ts s false (v ++ d).
Proof.
  intros Hs. induction d as [|c d IH]; intros Hd ts v.
  - simpl. now rewrite append_nil_r.
  - cbn [allDigits] in Hd. apply andb_true_iff in Hd as [Hc Hd].
    change (cs (String c d)) with (Some c :: cs d). cbn [run fold_left].
    assert (E : step (mkTok ts s false v) (Some c) = mkTok ts s false (v ++ String c "")).
    { unfold step. cbn [isChar escape state]. rewrite (digit_not_caret _ Hc).
      cbn [andb]. destruct Hs as [-> | ->]; cbn [isDigit]; now rewrite Hc. }
    rewrite E. fold (run (mkTok ts s false (v ++ String c "")) (cs d)).
    rewrite (IH Hd). now rewrite append_assoc.
Qed.

Lemma step_number_end (s : tstate) (ts : list TToken) (d : string) (x : option ascii) :
  s = SSlash \/ s = SColon ->
  endsNumber x = true ->
  step (mkTok ts s false d) x = step (idle (ts ++ [numTok s (parseInt d)])) x.
Proof.
  intros Hs Hx. unfold endsNumber in Hx. apply andb_true_iff in Hx as [Hd Hc].
  apply negb_true_iff in Hd, Hc. unfold step, idle. cbn [escape state].
  rewrite Hc. cbn [andb]. destruct Hs as [-> | ->]; now rewrite Hd.
Qed.

Lemma tok_number (lead_ : ascii) (s : tstate) (ts : list TToken) (n : N)
  (rest : list (option ascii)) :
  (lead_ = "/"%char /\ s = SSlash) \/ (lead_ = ":"%char /\ s = SColon) ->
  startsAfterNumber rest = true ->
  run (idle ts) (Some lead_ :: cs (natToString n) ++ rest)
  = run (idle (ts ++ [numTok s (Num (Z.of_N n))])) rest.
Proof.
  intros Hs Hr. destruct rest as [|x r]; [discriminate|]. cbn [startsAfterNumber] in Hr.
  assert (S1 : step (idle ts) (Some lead_) = mkTok ts s false "")
    by (destruct Hs as [[-> ->]|[-> ->]]; reflexivity).
  assert (S2 : s = SSlash \/ s = SColon) by (destruct Hs as [[_ ->]|[_ ->]]; auto).
  cbn [run fold_left]. rewrite S1.
  fold (run (mkTok ts s false "") (cs (natToString n) ++ x :: r)).
  rewrite run_app, (@run_digits s (natToString n) S2 (natToString_allDigits n)).
  cbn [append run fold_left].
  rewrite (@step_number_end s ts (natToString n) x S2 Hr), parseInt_natToString.
  reflexivity.
Qed.

Lemma unspecial (c : ascii) :
  isSpecial c = false ->
  Ascii.eqb "^" c = false /\ Ascii.eqb ";" c = false /\
  Ascii.eqb "," c = false /\ Ascii.eqb "]" c = false.
Proof. intros H. repeat split; differs. Qed.

(** Inside a bracket, an escaped string accumulates to the string. *)
Lemma run_escaped (s : string) :
  forall ts v,
    run (mkTok ts SBracket false v) (cs (escapeCFI s)) = mkTok ts SBracket false (v ++ s).
Proof.
  induction s as [|c s IH]; intros ts v.
  - simpl. now rewrite append_nil_r.
  - cbn [escapeCFI]. destruct (isSpecial c) eqn:Ec.
    + change (cs (String "^" (String c (escapeCFI s))))
        with (Some "^"%char :: Some c :: cs (escapeCFI s)).
      cbn [run fold_left].
      assert (E1 : step (mkTok ts SBracket false v) (Some "^"%char)
                   = mkTok ts SBracket true v) by reflexivity.
      assert (E2 : step (mkTok ts SBracket true v) (Some c)
                   = mkTok ts SBracket false (v ++ String c "")).
      { unfold step. cbn [escape state negb]. now rewrite !andb_false_r. }
      rewrite E1, E2. fold (run (mkTok ts SBracket false (v ++ String c "")) (cs (escapeCFI s))).
      rewrite IH. now rewrite append_assoc.
    + change (cs (String c (escapeCFI s))) with (Some c :: cs (escapeCFI s)).
      cbn [run fold_left].
      assert (E : step (mkTok ts SBracket false v) (Some c)
                  = mkTok ts SBracket false (v ++ String c "")).
      { destruct (unspecial _ Ec) as [H1 [H2 [H3 H4]]].
        unfold step. cbn [escape state negb isChar]. now rewrite H1, H2, H3, H4. }
      rewrite E. fold (run (mkTok ts SBracket false (v ++ String c "")) (cs (escapeCFI s))).
      rewrite IH. now rewrite append_assoc.
Qed.

Lemma run_param (name s : string) :
  paramSafe s = true ->
  forall ts v,
    run (mkTok ts (SParam name) false v) (cs s) = mkTok ts (SParam name) false (v ++ s).
Proof.
  induction s as [|c s IH]; intros Hs ts v.
  - simpl. now rewrite append_nil_r.
  - cbn [paramSafe] in Hs. apply andb_true_iff in Hs as [Hc Hs].
    change (cs (String c s)) with (Some c :: cs s). cbn [run fold_left].
    assert (E : step (mkTok ts (SParam name) false v) (Some c)
                = mkTok ts (SParam name) false (v ++ String c "")).
    { assert (H : Ascii.eqb "^" c = false /\ Ascii.eqb "=" c = false /\
                  Ascii.eqb ";" c = false /\ Ascii.eqb "]" c = false).
      { repeat split; differs. }
      destruct H as [H1 [H2 [H3 H4]]].
      unfold step. cbn [escape state negb isChar]. now rewrite H1, H2, H3, H4. }
    rewrite E. fold (run (mkTok ts (SParam name) false (v ++ String c "")) (cs s)).
    rewrite (IH Hs). now rewrite append_assoc.
Qed.

Lemma plain_inv (p : TPart) :
  plain p = true ->
  natural (index p) = true /\
  (forall o, offset p = Some o -> natural o = true) /\
  temporal p = None /\ spatial p = None /\
  (forall s, side p = Some s -> paramSafe s = true).
Proof.
  unfold plain. intros H. repeat (apply andb_true_iff in H as [H ?]).
  destruct (offset p), (temporal p), (spatial p), (side p); try discriminate;
    repeat split; try assumption; intros ? E; inversion E; subst; assumption.
Qed.

(** The parameter [;s=side], read from inside a bracket up to and
    including the closing bracket. *)
Lemma tok_param (ts : list TToken) (v side_ : string) (rest : list (option ascii)) :
  paramSafe side_ = true ->
  run (mkTok ts SBracket false v) (cs (";s=" ++ side_) ++ Some "]"%char :: rest)
  = run (idle (ts ++ [TAssert v; TParam "s" side_])) rest.
Proof.
  intros Hs.
  change (cs (";s=" ++ side_))
    with (Some ";"%char :: Some "s"%char :: Some "="%char :: cs side_).
  cbn [app run fold_left].
  change (step (step (step (mkTok ts SBracket false v) (Some ";"%char)) (Some "s"%char))
               (Some "="%char))
    with (mkTok (ts ++ [TAssert v]) (SParam "s") false "").
  fold (run (mkTok (ts ++ [TAssert v]) (SParam "s") false "")
            (cs side_ ++ Some "]"%char :: rest)).
  rewrite run_app, (@run_param "s" side_ Hs). cbn [append run fold_left].
  change (step (mkTok (ts ++ [TAssert v]) (SParam "s") false side_) (Some "]"%char))
    with (idle ((ts ++ [TAssert v]) ++ [TParam "s" side_])).
  now rewrite <- app_assoc.
Qed.

Lemma tok_close (ts : list TToken) (v : string) (rest : list (option ascii)) :
  run (mkTok ts SBracket false v) (Some "]"%char :: rest)
  = run (idle (ts ++ [TAssert v])) rest.
Proof. reflexivity. Qed.

(** The assertions of a bracket, separated by commas, up to the last
    one, which stays in the accumulator. *)
Lemma run_texts (l : list string) :
  forall t ts,
    run (mkTok ts SBracket false "") (cs (join "," (map escapeCFI (t :: l))))
    = mkTok (ts ++ map TAssert (removelast (t :: l))) SBracket false (last (t :: l) "").
Proof.
  induction l as [|u l IH]; intros t ts.
  - cbn [map join removelast last]. rewrite run_escaped. simpl. now rewrite app_nil_r.
  - change (join "," (map escapeCFI (t :: u :: l)))
      with (escapeCFI t ++ "," ++ join "," (map escapeCFI (u :: l)))%string.
    rewrite !cs_app, !run_app, run_escaped.
    change (run (mkTok ts SBracket false ("" ++ t)) (cs ","))
      with (mkTok (ts ++ [TAssert t]) SBracket false "").
    rewrite IH, <- app_assoc. reflexivity.
Qed.

Lemma map_removelast_last (l : list string) (t : string) :
  map TAssert (removelast (t :: l)) ++ [TAssert (last (t :: l) "")] = map TAssert (t :: l).
Proof.
  rewrite (app_removelast_last "" (l := t :: l)) at 3 by discriminate.
  now rewrite map_app.
Qed.

Lemma startsAfterNumber_cons (c : ascii) (s : string) (rest : list (option ascii)) :
  isNumber c = false -> Ascii.eqb "^" c = false ->
  startsAfterNumber (cs (String c s) ++ rest) = true.
Proof.
  intros H1 H2. change (cs (String c s)) with (Some c :: cs s).
  cbn [app startsAfterNumber]. unfold endsNumber. cbn [isDigit isChar].
  now rewrite H1, H2.
Qed.

Lemma numberToString_natural (a : number) :
  natural a = true -> exists n, a = Num (Z.of_N n) /\ numberToString a = natToString n.
Proof.
  destruct a as [|z]; [discriminate|]. simpl. intros H.
  apply andb_true_iff in H as [H _]. apply Z.leb_le in H.
  exists (Z.to_N z). rewrite Z2N.id by exact H. split; [reflexivity|].
  destruct z; try reflexivity. lia.
Qed.

(** An opening bracket read between two tokens. *)
Ltac open_bracket ts :=
  change (step (idle ts) (Some "["%char)) with (mkTok ts SBracket false "").

Section PlainPart.

Variable p : TPart.
Hypothesis Hp : plain p = true.

(** The end of a bracket: the parameter of the part, if any, and the
    closing bracket. *)
Lemma tok_bracket_end (ts : list TToken) (v : string) (rest : list (option ascii)) :
  run (mkTok ts SBracket false v) (cs (paramOf p) ++ Some "]"%char :: rest)
  = run (idle (ts ++ TAssert v :: paramToks p)) rest.
Proof.
  destruct (plain_inv _ Hp) as [_ [_ [_ [_ Hs]]]].
  unfold paramOf, paramToks. destruct (side p) as [s|]; [|apply tok_close].
  destruct (nonEmpty s); [|apply tok_close]. apply tok_param. now apply Hs.
Qed.

Lemma tok_id (ts : list TToken) (rest : list (option ascii)) :
  run (idle ts) (cs (idToString p) ++ rest) = run (idle (ts ++ idToks p)) rest
  /\ (startsAfterNumber rest = true -> startsAfterNumber (cs (idToString p) ++ rest) = true).
Proof.
  unfold idToString, idToks.
  destruct (id p) as [s|]; [destruct (nonEmpty s)|]; try (simpl; now rewrite app_nil_r).
  split; [|intros _; now apply startsAfterNumber_cons].
  change ("[" ++ escapeCFI s ++ paramOf p ++ "]")%string
    with (String "[" (escapeCFI s ++ paramOf p ++ "]")).
  change (cs (String "[" (escapeCFI s ++ paramOf p ++ "]")))
    with (Some "["%char :: cs (escapeCFI s ++ paramOf p ++ "]")).
  rewrite !cs_app. cbn [app]. rewrite <- !app_assoc. cbn [run fold_left].
  open_bracket ts.
  fold (run (mkTok ts SBracket false "")
            (cs (escapeCFI s) ++ cs (paramOf p) ++ cs "]" ++ rest)).
  rewrite run_app, run_escaped. apply tok_bracket_end.
Qed.

Lemma tok_offset (ts : list TToken) (rest : list (option ascii)) :
  startsAfterNumber rest = true ->
  run (idle ts) (cs (offsetToString p) ++ rest) = run (idle (ts ++ offsetToks p)) rest
  /\ startsAfterNumber (cs (offsetToString p) ++ rest) = true.
Proof.
  intros Hr. destruct (plain_inv _ Hp) as [_ [Ho _]].
  unfold offsetToString, offsetToks.
  destruct (offset p) as [o|]; [destruct (oddIndex (index p))|];
    try (simpl; now rewrite app_nil_r).
  destruct (numberToString_natural _ (Ho o eq_refl)) as [n [-> ->]].
  split; [|now apply startsAfterNumber_cons].
  change (cs (":" ++ natToString n)) with (Some ":"%char :: cs (natToString n)).
  cbn [app]. rewrite (@tok_number ":" SColon); auto.
Qed.

Lemma tok_text (ts : list TToken) (rest : list (option ascii)) :
  run (idle ts) (cs (textToString p) ++ rest) = run (idle (ts ++ textToks p)) rest
  /\ (startsAfterNumber rest = true ->
      startsAfterNumber (cs (textToString p) ++ rest) = true).
Proof.
  unfold textToString, textToks.
  assert (Open : forall body,
            cs ("[" ++ body ++ paramOf p ++ "]") ++ rest
            = Some "["%char :: cs body ++ cs (paramOf p) ++ Some "]"%char :: rest).
  { intros body.
    change ("[" ++ body ++ paramOf p ++ "]")%string
      with (String "[" (body ++ paramOf p ++ "]")).
    change (cs (String "[" (body ++ paramOf p ++ "]")))
      with (Some "["%char :: cs (body ++ paramOf p ++ "]")).
    rewrite !cs_app. cbn [app]. rewrite <- !app_assoc. reflexivity. }
  destruct (text p) as [[|t l]|].
  - split; [|intros _; now apply startsAfterNumber_cons].
    cbn [map join]. rewrite (Open ""%string).
    cbn [cs list_ascii_of_string map app run fold_left].
    open_bracket ts. apply tok_bracket_end.
  - split; [|intros _; now apply startsAfterNumber_cons].
    rewrite Open. cbn [run fold_left]. open_bracket ts.
    fold (run (mkTok ts SBracket false "")
              (cs (join "," (map escapeCFI (t :: l))) ++ cs (paramOf p)
               ++ Some "]"%char :: rest)).
    rewrite run_app, run_texts, tok_bracket_end.
    f_equal. f_equal. rewrite <- (map_removelast_last l t), <- !app_assoc. reflexivity.
  - destruct (negb (hasId p) && hasSide p); [|simpl; now rewrite app_nil_r].
    split; [|intros _; now apply startsAfterNumber_cons].
    change ("[" ++ paramOf p ++ "]")%string with ("[" ++ "" ++ paramOf p ++ "]")%string.
    rewrite (Open ""%string). cbn [cs list_ascii_of_string map app run fold_left].
    open_bracket ts. apply tok_bracket_end.
Qed.

(** The tokenizer reads the rendering of a plain part as the tokens of
    the part, whatever was read before, when the next character ends a
    number. *)
Lemma tok_part (ts : list TToken) (rest : list (option ascii)) :
  startsAfterNumber rest = true ->
  run (idle ts) (cs (partToString p) ++ rest) = run (idle (ts ++ partToks p)) rest.
Proof.
  intros Hr.
  assert (Hi : natural (index p) = true /\ temporalToString p = ""%string
               /\ spatialToString p = ""%string).
  { destruct (plain_inv _ Hp) as [Hn [_ [Ht [Hs _]]]].
    unfold temporalToString, spatialToString. now rewrite Ht, Hs. }
  destruct Hi as [Hi [Et Es]].
  destruct (numberToString_natural _ Hi) as [n [En Ed]].
  unfold partToString, partToks. rewrite Et, Es, Ed, En.
  change ("/" ++ natToString n ++ idToString p ++ offsetToString p ++ "" ++ "" ++
          textToString p)%string
    with (String "/" (natToString n ++ idToString p ++ offsetToString p ++ textToString p)).
  change (cs (String "/" (natToString n ++ idToString p ++ offsetToString p
                          ++ textToString p)))
    with (Some "/"%char :: cs (natToString n ++ idToString p ++ offsetToString p
                               ++ textToString p)).
  rewrite !cs_app. cbn [app]. rewrite <- !app_assoc.
  destruct (tok_text (((ts ++ [TStep (Num (Z.of_N n))]) ++ idToks p) ++ offsetToks p)
                     rest) as [T1 T2].
  destruct (tok_offset ((ts ++ [TStep (Num (Z.of_N n))]) ++ idToks p)
                       (cs (textToString p) ++ rest) (T2 Hr)) as [O1 O2].
  destruct (tok_id (ts ++ [TStep (Num (Z.of_N n))])
                   (cs (offsetToString p) ++ cs (textToString p) ++ rest))
    as [I1 I2].
  rewrite (@tok_number "/" SSlash) by auto.
  cbn [numTok]. rewrite I1, O1, T1. f_equal. f_equal.
  rewrite <- !app_assoc. reflexivity.
Qed.

End PlainPart.

(* ------------------------------------------------------------------ *)
(** ** Trimming a rendered path *)

Lemma solid_app (a b : string) : solid b -> solid (a ++ b).
Proof.
  intros [Hb Nb]. induction a as [|x a [IH Na]].
  - now split.
  - split; [|discriminate]. cbn [append trimEnd]. rewrite IH.
    destruct (a ++ b)%string; [contradiction|reflexivity].
Qed.

Lemma solid_or_empty (a b : string) :
  solid a -> solid b \/ b = ""%string -> solid (a ++ b).
Proof.
  intros Ha [Hb | ->]; [now apply solid_app|now rewrite append_nil_r].
Qed.

Lemma digit_not_space (c : ascii) : isNumber c = true -> isSpace c = false.
Proof.
  unfold isNumber, isSpace. intros H. apply andb_true_iff in H as [H1 H2].
  apply Nat.leb_le in H1, H2.
  repeat match goal with
         | |- context [(?a <=? ?b)%nat] => destruct (Nat.leb_spec a b)
         | |- context [(?a =? ?b)%nat] => destruct (Nat.eqb_spec a b)
         end; try reflexivity; lia.
Qed.

Lemma solid_digits (s : string) :
  allDigits s = true -> nonEmpty s = true -> solid s.
Proof.
  induction s as [|c s IH]; [discriminate|]. intros Hd _.
  cbn [allDigits] in Hd. apply andb_true_iff in Hd as [Hc Hs].
  split; [|discriminate]. cbn [trimEnd]. destruct s as [|d s].
  - cbn [trimEnd]. now rewrite (digit_not_space _ Hc).
  - destruct (IH Hs eq_refl) as [E _]. now rewrite E.
Qed.

Lemma solid_natToString (n : N) : solid (natToString n).
Proof.
  apply solid_digits; [apply natToString_allDigits|apply natToString_nonEmpty].
Qed.

Lemma solid_closing : solid "]".
Proof. split; [reflexivity|discriminate]. Qed.

Create HintDb solid.
#[local] Hint Resolve solid_app solid_natToString solid_closing : solid.

Lemma solid_partToString (p : TPart) : plain p = true -> solid (partToString p).
Proof.
  intros Hp. destruct (plain_inv _ Hp) as [Hn [Ho [Ht [Hs _]]]].
  destruct (numberToString_natural _ Hn) as [n [_ En]].
  unfold partToString, temporalToString, spatialToString. rewrite En, Ht, Hs.
  apply solid_app.
  assert (B : forall x y, solid ("[" ++ x ++ y ++ "]")).
  { intros x y. auto with solid. }
  apply solid_or_empty; [apply solid_natToString|].
  assert (C : forall a b, solid a \/ a = ""%string -> solid b \/ b = ""%string ->
                          solid (a ++ b) \/ (a ++ b)%string = ""%string).
  { intros a b [Ha | ->] Hb.
    - left. now apply solid_or_empty.
    - exact Hb. }
  repeat apply C; auto.
  - unfold idToString. destruct (id p) as [s|]; [destruct (nonEmpty s)|]; auto.
  - unfold offsetToString. destruct (offset p) as [o|] eqn:Eo; [|auto].
    destruct (oddIndex (index p)); [|auto]. left.
    destruct (numberToString_natural _ (Ho o eq_refl)) as [m [_ ->]].
    auto with solid.
  - unfold textToString. destruct (text p); [left; apply B|].
    destruct (negb (hasId p) && hasSide p); [|auto]. left.
    change ("[" ++ paramOf p ++ "]")%string with ("[" ++ "" ++ paramOf p ++ "]")%string.
    apply B.
Qed.

Lemma join_empty_cons (x : string) (l : list string) :
  join "" (x :: l) = (x ++ join "" l)%string.
Proof. destruct l; simpl; [now rewrite append_nil_r|reflexivity]. Qed.

Lemma partsToString_cons (p : TPart) (r : list TPart) :
  partsToString (p :: r) = (partToString p ++ partsToString r)%string.
Proof. unfold partsToString. cbn [map]. apply join_empty_cons. Qed.

Lemma solid_partsToString (r : list TPart) :
  forall p, Forall (fun q => plain q = true) (p :: r) -> solid (partsToString (p :: r)).
Proof.
  induction r as [|q r IH]; intros p H; inversion H; subst.
  - now apply solid_partToString.
  - rewrite partsToString_cons. apply solid_app. now apply IH.
Qed.

Lemma trim_partsToString (parts : list TPart) :
  Forall (fun p => plain p = true) parts ->
  trim (partsToString parts) = partsToString parts.
Proof.
  intros H. destruct parts as [|p r]; [reflexivity|].
  destruct (solid_partsToString H) as [S _].
  assert (E : exists t, partsToString (p :: r) = String "/" t).
  { rewrite partsToString_cons. unfold partToString. eexists. reflexivity. }
  destruct E as [t E]. unfold trim. rewrite E in *. exact S.
Qed.

(* ------------------------------------------------------------------ *)
(** ** Rendering, then tokenizing and parsing *)

Lemma startsAfterNumber_parts (parts : list TPart) (rest : list (option ascii)) :
  startsAfterNumber rest = true ->
  startsAfterNumber (cs (partsToString parts) ++ rest) = true.
Proof.
  intros Hr. destruct parts as [|p r]; [exact Hr|].
  assert (E : exists t, partsToString (p :: r) = String "/" t).
  { rewrite partsToString_cons. unfold partToString. eexists. reflexivity. }
  destruct E as [t ->]. now apply startsAfterNumber_cons.
Qed.

Lemma run_parts (parts : list TPart) :
  Forall (fun p => plain p = true) parts ->
  forall ts rest,
    startsAfterNumber rest = true ->
    run (idle ts) (cs (partsToString parts) ++ rest)
    = run (idle (ts ++ concat (map partToks parts))) rest.
Proof.
  induction 1 as [|p r Hp _ IH]; intros ts rest Hr.
  - simpl. now rewrite app_nil_r.
  - rewrite partsToString_cons, cs_app, <- app_assoc.
    rewrite tok_part by (try exact Hp; now apply startsAfterNumber_parts).
    rewrite IH by exact Hr. cbn [map concat]. now rewrite app_assoc.
Qed.

(** The tokens of the rendering of a path are the tokens of its parts. *)
Lemma tokenizer_partsToString (parts : list TPart) :
  Forall (fun p => plain p = true) parts ->
  tokenizer (partsToString parts) = concat (map partToks parts).
Proof.
  intros H. unfold tokenizer, chars. rewrite (trim_partsToString H).
  fold (cs (partsToString parts)). change initTok with (idle []).
  now rewrite (@run_parts parts H [] [None] eq_refl).
Qed.

Lemma fold_texts (l : list string) :
  forall q st,
    isKStep st = false ->
    fold_left applyAttr (map TAssert l) (q, st) = (addTexts l q, st).
Proof.
  induction l as [|v l IH]; intros q st H; [reflexivity|].
  cbn [map fold_left]. unfold addTexts. cbn [fold_left].
  assert (E : applyAttr (q, st) (TAssert v) = (addText v q, st)).
  { destruct st as [[]|]; try reflexivity. discriminate. }
  rewrite E. now apply IH.
Qed.

Lemma addTexts_text (l : list string) :
  forall a b c d e f tx,
    addTexts l (mkPart a b c d e f tx)
    = mkPart a b c d e f
        (match l with
         | [] => tx
         | _ => Some (match tx with Some t => t | None => [] end ++ l)
         end).
Proof.
  induction l as [|v l IH]; intros a b c d e f tx; [reflexivity|].
  unfold addTexts. cbn [fold_left]. unfold addText at 2. cbn.
  fold (addTexts l (mkPart a b c d e f
                      (Some (match tx with Some t => t | None => [] end ++ [v])))).
  rewrite IH. destruct l; [reflexivity|]. now rewrite <- app_assoc.
Qed.

Lemma partToks_noStep (p : TPart) :
  noStep (idToks p ++ offsetToks p ++ textToks p) = true.
Proof.
  unfold noStep. rewrite !forallb_app.
  assert (P : forallb (fun t => negb (isStep t)) (paramToks p) = true).
  { unfold paramToks. destruct (side p) as [s|]; [destruct (nonEmpty s)|]; reflexivity. }
  assert (T : forall l, forallb (fun t => negb (isStep t)) (map TAssert l) = true).
  { induction l; simpl; auto. }
  repeat (apply andb_true_iff; split).
  - unfold idToks. destruct (id p) as [s|]; [destruct (nonEmpty s)|]; simpl; auto.
  - unfold offsetToks. destruct (offset p); [destruct (oddIndex _)|]; reflexivity.
  - unfold textToks. destruct (text p) as [[|t l]|].
    + simpl. exact P.
    + rewrite forallb_app, T. exact P.
    + destruct (negb (hasId p) && hasSide p); simpl; auto.
Qed.

(** The tokens of a canonical part build the part again. *)
Lemma attrs_rebuild (p : TPart) :
  canonical p = true ->
  fst (fold_left applyAttr (idToks p ++ offsetToks p ++ textToks p)
                 (newPart (index p), Some KStep)) = p.
Proof.
  unfold canonical. intros H. repeat (apply andb_true_iff in H as [H ?]).
  destruct p as [ix off tm sp sd i tx]. cbn [index offset temporal spatial side id text] in *.
  destruct tm; [discriminate|]. destruct sp; [discriminate|].
  unfold idToks, offsetToks, textToks, paramToks, hasId, hasSide, newPart.
  cbn [id side offset text index].
  destruct i as [i|]; destruct off as [o|]; destruct sd as [s|]; destruct tx as [[|t l]|];
    cbn [isSome orb andb negb length Nat.eqb] in *; try discriminate;
    repeat match goal with
           | H : _ && _ = true |- _ => apply andb_true_iff in H as [? ?]
           | H : nonEmpty _ = true |- _ => rewrite H
           | H : oddIndex _ = true |- _ => rewrite H
           end;
    simpl;
    repeat match goal with
           | H : nonEmpty _ = true |- _ => rewrite H
           end;
    simpl; try reflexivity; try discriminate;
    unfold addText, setOffset, setSide, setId;
    cbn [index offset temporal spatial side id text app];
    rewrite fold_left_app, fold_texts by reflexivity; rewrite addTexts_text;
    simpl; destruct l; reflexivity.
Qed.

Lemma parser_partToks (parts : list TPart) :
  Forall (fun p => canonical p = true) parts ->
  forall ps st, exists st',
    parserLoop (ps, st) (concat (map partToks parts)) = Ok (ps ++ parts, st').
Proof.
  induction 1 as [|p r Hp _ IH]; intros ps st.
  - exists st. simpl. now rewrite app_nil_r.
  - cbn [map concat]. unfold partToks at 1.
    cbn [app parserLoop parserStep bind].
    rewrite parserLoop_app, parserLoop_attrs by apply partToks_noStep. cbn [bind].
    rewrite (attrs_rebuild _ Hp).
    destruct (IH (ps ++ [p])
                 (snd (fold_left applyAttr (idToks p ++ offsetToks p ++ textToks p)
                                 (newPart (index p), Some KStep)))) as [st' E].
    exists st'. rewrite E, <- app_assoc. reflexivity.
Qed.

Lemma canonical_plain (p : TPart) : canonical p = true -> plain p = true.
Proof.
  unfold canonical. intros H. do 4 (apply andb_true_iff in H as [H _]). exact H.
Qed.

(** The step parser gives back every canonical path from the tokens of
    its rendering. *)
Lemma path_round_trip (parts : list TPart) :
  Forall (fun p => canonical p = true) parts ->
  parser (tokenizer (partsToString parts)) = Ok parts.
Proof.
  intros H.
  assert (Hp : Forall (fun p => plain p = true) parts).
  { eapply Forall_impl; [|exact H]. apply canonical_plain. }
  rewrite (@tokenizer_partsToString parts Hp). unfold parser.
  destruct (@parser_partToks parts H [] None) as [st E]. now rewrite E.
Qed.

(* ------------------------------------------------------------------ *)
(** ** Offsets: rendering and parsing *)

Lemma In_offset_partToks (p : TPart) (o : number) :
  In (TOffset o) (partToks p) <-> offset p = Some o /\ oddIndex (index p) = true.
Proof.
  unfold partToks.
  assert (P : ~ In (TOffset o) (paramToks p)).
  { unfold paramToks. destruct (side p) as [s|]; [destruct (nonEmpty s)|]; simpl;
      intuition discriminate. }
  assert (I : ~ In (TOffset o) (idToks p)).
  { unfold idToks. destruct (id p) as [s|]; [destruct (nonEmpty s)|]; simpl;
      intuition discriminate. }
  assert (A : forall l, ~ In (TOffset o) (map TAssert l)).
  { induction l; simpl; intuition discriminate. }
  assert (T : ~ In (TOffset o) (textToks p)).
  { unfold textToks. destruct (text p) as [[|t l]|].
    - simpl. intuition discriminate.
    - intros H. apply in_app_or in H as [H|H]; [now apply (A (t :: l))|now apply P].
    - destruct (negb (hasId p) && hasSide p); simpl; intuition discriminate. }
  split.
  - intros [H|H]; [discriminate|].
    apply in_app_or in H as [H|H]; [contradiction|].
    apply in_app_or in H as [H|H]; [|contradiction].
    unfold offsetToks in H. destruct (offset p) as [x|]; [|contradiction].
    destruct (oddIndex (index p)); [|contradiction].
    destruct H as [H|[]]. inversion H. now split.
  - intros [Ho Hi]. right. apply in_or_app. right. apply in_or_app. left.
    unfold offsetToks. rewrite Ho, Hi. now left.
Qed.

Lemma tokenizer_partToString (p : TPart) :
  plain p = true -> tokenizer (partToString p) = partToks p.
Proof.
  intros Hp.
  assert (H : Forall (fun q => plain q = true) [p]) by (repeat constructor; exact Hp).
  pose proof (tokenizer_partsToString H) as E. cbn [map concat] in E.
  rewrite app_nil_r in E. exact E.
Qed.

Lemma tokenizer_untrimmed (s : string) :
  trim s = s -> tokenizer s = tokens (run (idle []) (cs s ++ [None])).
Proof. intros E. unfold tokenizer, chars. now rewrite E. Qed.

Lemma tokenizer_step_offset (n o : N) :
  tokenizer ("/" ++ natToString n ++ ":" ++ natToString o)
  = [TStep (Num (Z.of_N n)); TOffset (Num (Z.of_N o))].
Proof.
  assert (S : solid ("/" ++ natToString n ++ ":" ++ natToString o)).
  { repeat apply solid_app. apply solid_natToString. }
  rewrite tokenizer_untrimmed by (destruct S as [S _]; exact S).
  change (cs ("/" ++ natToString n ++ ":" ++ natToString o))
    with (Some "/"%char :: cs (natToString n ++ ":" ++ natToString o)).
  rewrite cs_app. change (cs (":" ++ natToString o))
    with (Some ":"%char :: cs (natToString o)).
  cbn [app]. rewrite <- app_assoc. cbn [app].
  rewrite (@tok_number "/" SSlash) by (auto; now apply startsAfterNumber_cons).
  rewrite (@tok_number ":" SColon) by auto. reflexivity.
Qed.

(** C8.  Rendering: a part with an offset and an odd index is rendered
    with [:offset] right after the step and the id assertion; a part
    without offset, or with an even index, has no offset component and
    is rendered as the same part without its offset; and the tokens of
    the rendering of a plain part hold an offset token exactly when the
    part has an offset and an odd index.
    Parsing: an offset token is recorded on the current part whatever
    the index of that part and whatever the token carries: after it the
    last part has the offset of the token, and its index and its other
    fields are what they were.  So "/n:o" parses to the one part with
    index n, offset o and nothing else, for all n and o that a double
    holds exactly, odd or even.  The two directions stay different: the
    part with index n and offset o loses its offset when it is rendered
    and parsed again if n is even, and keeps it if n is odd. *)
Theorem offset_rendering_and_parsing :
  (forall p o, offset p = Some o -> oddIndex (index p) = true ->
     partToString p =
       ("/" ++ numberToString (index p) ++ idToString p ++ (":" ++ numberToString o)
        ++ temporalToString p ++ spatialToString p ++ textToString p)%string) /\
  (forall p, offset p = None \/ oddIndex (index p) = false ->
     offsetToString p = ""%string /\ partToString p = partToString (clearOffset p)) /\
  (forall p o, plain p = true ->
     (In (TOffset o) (tokenizer (partToString p))
      <-> offset p = Some o /\ oddIndex (index p) = true)) /\
  (forall ts ps p o, parser ts = Ok (ps ++ [p]) ->
     parser (ts ++ [TOffset o])
     = Ok (ps ++ [mkPart (index p) (Some o) (temporal p) (spatial p) (side p) (id p)
                         (text p)])) /\
  (forall n o, natural (Num (Z.of_N n)) = true -> natural (Num (Z.of_N o)) = true ->
     parser (tokenizer ("/" ++ natToString n ++ ":" ++ natToString o))
     = Ok [mkPart (Num (Z.of_N n)) (Some (Num (Z.of_N o))) None None None None None]) /\
  (forall n o, natural (Num (Z.of_N n)) = true -> natural (Num (Z.of_N o)) = true ->
     parser (tokenizer (partsToString
               [mkPart (Num (Z.of_N n)) (Some (Num (Z.of_N o))) None None None None None]))
     = Ok [mkPart (Num (Z.of_N n)) (if N.odd n then Some (Num (Z.of_N o)) else None)
                  None None None None None]).
Proof.
  split; [|split; [|split; [|split; [|split]]]].
  - intros p o Ho Hi. unfold partToString, offsetToString. now rewrite Ho, Hi.
  - intros p Hi. unfold partToString, offsetToString. cbn [clearOffset index offset].
    destruct Hi as [-> | ->]; [now split|]. now destruct (offset p).
  - intros p o H. rewrite (@tokenizer_partToString p H). apply In_offset_partToks.
  - intros ts ps p o H. unfold parser in *.
    destruct (parserLoop ([], None) ts) as [[qs st]|] eqn:E; [|discriminate].
    simpl in H. inversion H. subst qs.
    rewrite parserLoop_app, E. cbn [bind parserLoop parserStep].
    now rewrite updLast_snoc.
  - intros n o _ _. now rewrite tokenizer_step_offset.
  - intros n o Hn Ho.
    assert (Odd : oddIndex (Num (Z.of_N n)) = N.odd n).
    { unfold oddIndex. rewrite Z.rem_mod_nonneg by lia.
      change 2%Z with (Z.of_N 2). rewrite <- N2Z.inj_mod, <- N.bit0_mod, N.bit0_odd.
      destruct (N.odd n); reflexivity. }
    destruct (N.odd n) eqn:En.
    + apply path_round_trip. repeat constructor.
      unfold canonical, plain. cbn [index offset temporal spatial side id text].
      now rewrite Hn, Ho, Odd.
    + assert (E : partsToString
                    [mkPart (Num (Z.of_N n)) (Some (Num (Z.of_N o))) None None None None
                            None]
                  = partsToString [mkPart (Num (Z.of_N n)) None None None None None None]).
      { unfold partsToString. cbn [map join]. unfold partToString, offsetToString.
        cbn [index offset]. now rewrite Odd. }
      rewrite E. apply path_round_trip. repeat constructor.
      unfold canonical, plain. cbn [index offset temporal spatial side id text].
      now rewrite Hn.
Qed.

Lemma offset_rendering_and_parsing_witness :
  partToString (mkPart (Num 3) (Some (Num 10)) None None None None None) = "/3:10" /\
  partToString (mkPart (Num 4) (Some (Num 10)) None None None None None) = "/4" /\
  parser (tokenizer "/4:10") = Ok [mkPart (Num 4) (Some (Num 10)) None None None None None] /\
  parser (tokenizer "/4[a]:10")
  = Ok [mkPart (Num 4) (Some (Num 10)) None None None (Some "a") None] /\
  parser (tokenizer (partsToString [mkPart (Num 4) (Some (Num 10)) None None None None None]))
  = Ok [mkPart (Num 4) None None None None None None] /\
  parser (tokenizer (partsToString [mkPart (Num 3) (Some (Num 10)) None None None None None]))
  = Ok [mkPart (Num 3) (Some (Num 10)) None None None None None].
Proof.
  destruct offset_rendering_and_parsing as [_ [_ [_ [H4 [H5 H6]]]]].
  split; [reflexivity|]. split; [reflexivity|].
  split; [exact (H5 4%N 10%N eq_refl eq_refl)|].
  split; [exact (H4 [TStep (Num 4); TAssert "a"] []
                    (mkPart (Num 4) None None None None (Some "a") None) (Num 10) eq_refl)|].
  split; [exact (H6 4%N 10%N eq_refl eq_refl)|exact (H6 3%N 10%N eq_refl eq_refl)].
Defined.

(** C1, refuted as stated: the path with the single part of index 2 and
    offset 5 obeys the invariants of the data model, is rendered as
    "epubcfi(/2)", and comes back from [parse] without the offset. *)
Lemma round_trip_loses_even_offset :
  toString (Paths [[stepWithOffset 2 5]]) = "epubcfi(/2)" /\
  parser (tokenizer (partsToString [stepWithOffset 2 5])) = Ok [newPart (Num 2)] /\
  parse (toString (Paths [[stepWithOffset 2 5]])) <> Ok (Paths [[stepWithOffset 2 5]]).
Proof. repeat split; try reflexivity. discriminate. Qed.

(* ------------------------------------------------------------------ *)
(** ** Rendering and tokenizing several paths *)

Lemma tok_indir (ts : list TToken) (more : list (option ascii)) :
  startsAfterNumber more = true ->
  run (idle ts) (Some "!"%char :: more) = run (idle (ts ++ [TIndir])) more.
Proof.
  intros H. destruct more as [|x m]; [discriminate|]. cbn [startsAfterNumber] in H.
  unfold endsNumber in H. apply andb_true_iff in H as [_ H]. apply negb_true_iff in H.
  cbn [run fold_left]. f_equal.
  change (step (idle ts) (Some "!"%char)) with (mkTok ts SBang false "").
  unfold step, idle. cbn [escape state]. now rewrite H.
Qed.

Lemma pathsToString_cons2 (x y : list TPart) (r : list (list TPart)) :
  pathsToString (x :: y :: r)
  = (partsToString x ++ "!" ++ pathsToString (y :: r))%string.
Proof. reflexivity. Qed.

Lemma startsAfterNumber_paths (ps : list (list TPart)) (rest : list (option ascii)) :
  startsAfterNumber rest = true ->
  startsAfterNumber (cs (pathsToString ps) ++ rest) = true.
Proof.
  intros Hr. destruct ps as [|x [|y r]].
  - exact Hr.
  - now apply startsAfterNumber_parts.
  - rewrite pathsToString_cons2, cs_app, <- app_assoc.
    apply startsAfterNumber_parts. rewrite cs_app.
    change (cs "!") with [Some "!"%char]. reflexivity.
Qed.

Lemma run_paths (ps : list (list TPart)) :
  Forall (Forall (fun p => plain p = true)) ps ->
  forall ts rest,
    startsAfterNumber rest = true ->
    run (idle ts) (cs (pathsToString ps) ++ rest)
    = run (idle (ts ++ joinToks (map pathToks ps))) rest.
Proof.
  induction 1 as [|x r Hx Hr IH]; intros ts rest Hrest.
  - simpl. now rewrite app_nil_r.
  - destruct r as [|y r].
    + now apply run_parts.
    + rewrite pathsToString_cons2, !cs_app, <- !app_assoc.
      change (cs "!") with [Some "!"%char]. cbn [app].
      rewrite (@run_parts x Hx) by reflexivity.
      rewrite tok_indir by now apply startsAfterNumber_paths.
      rewrite (IH _ _ Hrest). cbn [map joinToks]. fold (pathToks x).
      f_equal. f_equal. rewrite <- !app_assoc. reflexivity.
Qed.

Lemma headOk_paths (ps : list (list TPart)) : headOk (pathsToString ps).
Proof.
  assert (H : forall x, headOk (partsToString x)).
  { intros [|p r]; [exact I|]. rewrite partsToString_cons. unfold partToString.
    now left. }
  destruct ps as [|x [|y r]]; [exact I|apply H|].
  rewrite pathsToString_cons2. specialize (H x).
  destruct (partsToString x); [now right|exact H].
Qed.

Lemma solid_or_empty_paths (ps : list (list TPart)) :
  Forall (Forall (fun p => plain p = true)) ps ->
  solid (pathsToString ps) \/ pathsToString ps = ""%string.
Proof.
  assert (H : forall x, Forall (fun p => plain p = true) x ->
                        solid (partsToString x) \/ partsToString x = ""%string).
  { intros [|p r] Hx; [now right|left; now apply solid_partsToString]. }
  induction 1 as [|x r Hx Hr IH]; [now right|].
  destruct r as [|y r]; [now apply H|]. left.
  rewrite pathsToString_cons2. apply solid_app. apply solid_or_empty; [|exact IH].
  split; [reflexivity|discriminate].
Qed.

Lemma trim_headOk (s : string) :
  headOk s -> solid s \/ s = ""%string -> trim s = s.
Proof.
  intros Hh [[Hs _] | ->]; [|reflexivity].
  destruct s as [|c s]; [reflexivity|]. unfold trim. cbn [trimStart].
  destruct Hh as [-> | ->]; exact Hs.
Qed.

Lemma dropClosing_app (s : string) : dropClosing (s ++ ")") = Some s.
Proof.
  induction s as [|c s IH]; [reflexivity|]. cbn [append dropClosing].
  rewrite IH. now destruct (s ++ ")")%string eqn:E; [destruct s; discriminate|].
Qed.

Lemma wrap_paths (s : string) : headOk s -> wrap s = ("epubcfi(" ++ s ++ ")")%string.
Proof.
  intros H. unfold wrap, matchCFI.
  destruct s as [|c s]; [reflexivity|]. now destruct H as [-> | ->].
Qed.

Lemma unwrap_wrapped (s : string) :
  unwrap ("epubcfi(" ++ s ++ ")")
  = if noLineTerminator s then s else ("epubcfi(" ++ s ++ ")")%string.
Proof.
  unfold unwrap, matchCFI.
  change (dropPrefix "epubcfi(" ("epubcfi(" ++ s ++ ")")) with (Some (s ++ ")")%string).
  cbv beta iota. rewrite dropClosing_app. now destruct (noLineTerminator s).
Qed.

(** The tokens that [parse] sees for the rendering of a list of plain
    paths: the tokens of the paths, joined by indirection tokens. *)
Lemma tokenizer_toString (ps : list (list TPart)) :
  Forall (Forall (fun p => plain p = true)) ps ->
  tokenizer (unwrap (toString (Paths ps))) = joinToks (map pathToks ps).
Proof.
  intros H. unfold toString, toInnerString.
  rewrite (@wrap_paths _ (headOk_paths ps)), unwrap_wrapped.
  destruct (noLineTerminator (pathsToString ps)).
  - rewrite tokenizer_untrimmed
      by (apply trim_headOk; [apply headOk_paths|now apply solid_or_empty_paths]).
    now rewrite (@run_paths ps H [] [None] eq_refl).
  - assert (S : solid ("epubcfi(" ++ pathsToString ps ++ ")")).
    { repeat apply solid_app. split; [reflexivity|discriminate]. }
    rewrite tokenizer_untrimmed by (destruct S as [S _]; exact S).
    rewrite !cs_app, <- !app_assoc.
    change (run (idle []) (cs "epubcfi(" ++ cs (pathsToString ps) ++ cs ")" ++ [None]))
      with (run (idle []) (cs (pathsToString ps) ++ [Some ")"%char; None])).
    now rewrite (@run_paths ps H [] [Some ")"%char; None] eq_refl).
Qed.

(* ------------------------------------------------------------------ *)
(** ** Splitting the tokens of several paths *)

Lemma findIndices_none {A} (f : A -> bool) (l : list A) :
  forallb (fun x => negb (f x)) l = true ->
  forall i rest, findIndicesFrom i f (l ++ rest)
                 = findIndicesFrom (i + Z.of_nat (length l)) f rest.
Proof.
  induction l as [|x l IH]; intros H i rest.
  - simpl. now rewrite Z.add_0_r.
  - cbn [forallb] in H. apply andb_true_iff in H as [Hx Hl]. apply negb_true_iff in Hx.
    cbn [app findIndicesFrom length]. rewrite Hx, (IH Hl). f_equal. lia.
Qed.

Lemma slice_mid {A} (pre s post : list A) :
  slice (pre ++ s ++ post) (Z.of_nat (length pre)) (Z.of_nat (length pre + length s)) = s.
Proof.
  unfold slice. rewrite !length_app.
  assert (E1 : (Z.of_nat (length pre) <? 0)%Z = false) by (apply Z.ltb_ge; lia).
  assert (E2 : (Z.of_nat (length pre + length s) <? 0)%Z = false) by (apply Z.ltb_ge; lia).
  rewrite E1, E2.
  replace (Z.min (Z.of_nat (length pre)) _) with (Z.of_nat (length pre)) by lia.
  replace (Z.min (Z.of_nat (length pre + length s)) _)
    with (Z.of_nat (length pre + length s)) by lia.
  rewrite Nat2Z.id.
  replace (Z.to_nat (Z.of_nat (length pre + length s) - Z.of_nat (length pre)))
    with (length s) by lia.
  rewrite skipn_app, skipn_all, Nat.sub_diag. cbn [app skipn].
  rewrite firstn_app, firstn_all, Nat.sub_diag. cbn [firstn]. apply app_nil_r.
Qed.

Lemma split_fold (segs : list (list TToken)) :
  segs <> [] ->
  Forall (fun s => forallb (fun t => negb (isIndir t)) s = true) segs ->
  forall arr pre xs,
    arr = pre ++ joinToks segs ->
    fst (fold_left
           (fun (acc : list (list TToken) * Z) (b : Z) =>
              (fst acc ++ [slice arr (snd acc + 1) b], b))
           (findIndicesFrom (Z.of_nat (length pre)) isIndir (joinToks segs)
            ++ [Z.of_nat (length arr)])
           (xs, (Z.of_nat (length pre) - 1)%Z))
    = xs ++ segs.
Proof.
  induction segs as [|s r IH]; intros Hne Hseg arr pre xs Harr; [contradiction|].
  pose proof (Forall_inv Hseg) as Hs. pose proof (Forall_inv_tail Hseg) as Hr.
  cbv beta in Hs. destruct r as [|y r].
  - cbn [joinToks] in *.
    pose proof (findIndices_none isIndir s Hs (Z.of_nat (length pre)) []) as E.
    rewrite app_nil_r in E. rewrite E. cbn [findIndicesFrom app fold_left fst snd].
    replace (Z.of_nat (length pre) - 1 + 1)%Z with (Z.of_nat (length pre)) by lia.
    subst arr. rewrite length_app, <- (app_nil_r s) at 1.
    rewrite slice_mid. reflexivity.
  - cbn [joinToks] in *.
    rewrite (findIndices_none isIndir s Hs). cbn [findIndicesFrom isIndir typeOf ttype_eqb].
    cbn [app fold_left fst snd].
    replace (Z.of_nat (length pre) - 1 + 1)%Z with (Z.of_nat (length pre)) by lia.
    replace (Z.of_nat (length pre) + Z.of_nat (length s))%Z
      with (Z.of_nat (length pre + length s)) by lia.
    assert (Es : slice arr (Z.of_nat (length pre)) (Z.of_nat (length pre + length s)) = s).
    { subst arr. apply slice_mid. }
    rewrite Es.
    specialize (IH ltac:(discriminate) Hr arr (pre ++ s ++ [TIndir]) (xs ++ [s])).
    rewrite !length_app in IH. cbn [length] in IH.
    replace (Z.of_nat (length pre + (length s + 1)) - 1)%Z
      with (Z.of_nat (length pre + length s)) in IH by lia.
    replace (Z.of_nat (length pre + (length s + 1)))
      with (Z.of_nat (length pre + length s) + 1)%Z in IH by lia.
    rewrite IH.
    + now rewrite <- app_assoc.
    + subst arr. rewrite <- !app_assoc. reflexivity.
Qed.

(** On the tokens of several paths, [splitAt] at the indirection tokens
    returns the token list of each path, after its spurious first
    segment. *)
Lemma splitAt_joinToks (segs : list (list TToken)) :
  segs <> [] ->
  Forall (fun s => forallb (fun t => negb (isIndir t)) s = true) segs ->
  splitAt (joinToks segs) (findTokens (joinToks segs) KIndir)
  = slice (joinToks segs) 0 (-1) :: segs.
Proof.
  intros Hne Hseg. unfold splitAt, findTokens, findIndices. cbn [fold_left fst snd app].
  change (fun t : TToken => ttype_eqb (typeOf t) KIndir) with isIndir.
  exact (@split_fold segs Hne Hseg (joinToks segs) []
                     [slice (joinToks segs) (-1 + 1) (-1)] eq_refl).
Qed.

Lemma guarded_true (ts : list TToken) : guarded true ts = true.
Proof. induction ts as [|t r IH]; simpl; [reflexivity|]. now destruct (isStep t). Qed.

Lemma guarded_firstn (ts : list TToken) :
  forall k seen, guarded seen ts = true -> guarded seen (firstn k ts) = true.
Proof.
  induction ts as [|t r IH]; intros k seen H; [now destruct k|].
  destruct k as [|k]; [reflexivity|]. cbn [firstn guarded] in *.
  destruct (isStep t); [now apply IH|].
  apply andb_true_iff in H as [H1 H2]. rewrite H1. now apply IH.
Qed.

(** The parser does not throw on a guarded token stream. *)
Lemma parser_guarded (ts : list TToken) :
  guarded false ts = true -> exists ps, parser ts = Ok ps.
Proof.
  unfold parser.
  assert (G : forall st, guarded false ts = true ->
                         exists r, parserLoop ([], st) ts = Ok r).
  { induction ts as [|t r IH]; intros st H; [now exists ([], st)|].
    cbn [guarded] in H. destruct (isStep t) eqn:Et.
    - destruct t; try discriminate. cbn [parserLoop parserStep bind app].
      destruct (parserLoop_total r [] (newPart n) (Some KStep)) as [p' [more [st' E]]].
      cbn [app] in E. rewrite E. now eexists.
    - cbn [orb] in H. apply andb_true_iff in H as [Hw Hr]. apply negb_true_iff in Hw.
      cbn [parserLoop].
      assert (E : exists st', parserStep ([], st) t = Ok ([], st')).
      { destruct t; try discriminate; simpl; simpl in Hw; try (now eexists).
        rewrite Hw. now eexists. }
      destruct E as [st' E]. rewrite E. cbn [bind]. now apply IH. }
  intros H. destruct (G None H) as [r E]. rewrite E. now eexists.
Qed.

Lemma pathToks_head (parts : list TPart) :
  pathToks parts = [] \/ exists n r, pathToks parts = TStep n :: r.
Proof.
  destruct parts as [|p r]; [now left|right].
  unfold pathToks. cbn [map concat]. unfold partToks at 1. now eexists; eexists.
Qed.

Lemma guarded_joinToks (ps : list (list TPart)) :
  guarded false (joinToks (map pathToks ps)) = true.
Proof.
  induction ps as [|x r IH]; [reflexivity|].
  destruct (pathToks_head x) as [E | [n [t E]]].
  - cbn [map joinToks]. rewrite E. destruct (map pathToks r) eqn:Er; [reflexivity|].
    cbn [app guarded isStep writesLast orb negb andb]. exact IH.
  - cbn [map joinToks]. rewrite E.
    destruct (map pathToks r); cbn [app guarded isStep]; apply guarded_true.
Qed.

Lemma partToks_no_marker (p : TPart) :
  forallb (fun t => negb (isIndir t) && negb (isRange t)) (partToks p) = true.
Proof.
  unfold partToks. cbn [forallb]. rewrite !forallb_app.
  assert (P : forallb (fun t => negb (isIndir t) && negb (isRange t)) (paramToks p) = true).
  { unfold paramToks. destruct (side p) as [s|]; [destruct (nonEmpty s)|]; reflexivity. }
  assert (T : forall l, forallb (fun t => negb (isIndir t) && negb (isRange t))
                                (map TAssert l) = true).
  { induction l; simpl; auto. }
  repeat (apply andb_true_iff; split); try reflexivity.
  - unfold idToks. destruct (id p) as [s|]; [destruct (nonEmpty s)|]; simpl; auto.
  - unfold offsetToks. destruct (offset p); [destruct (oddIndex _)|]; reflexivity.
  - unfold textToks. destruct (text p) as [[|t l]|].
    + simpl. exact P.
    + rewrite forallb_app, T. exact P.
    + destruct (negb (hasId p) && hasSide p); simpl; auto.
Qed.

Lemma pathToks_no_marker (parts : list TPart) :
  forallb (fun t => negb (isIndir t) && negb (isRange t)) (pathToks parts) = true.
Proof.
  unfold pathToks. induction parts as [|p r IH]; [reflexivity|].
  cbn [map concat]. now rewrite forallb_app, partToks_no_marker.
Qed.

Lemma forallb_weaken {A} (f g : A -> bool) (l : list A) :
  (forall x, f x = true -> g x = true) -> forallb f l = true -> forallb g l = true.
Proof.
  intros H. induction l as [|x l IH]; [reflexivity|]. cbn [forallb]. intros E.
  apply andb_true_iff in E as [E1 E2]. now rewrite (H _ E1), IH.
Qed.

Lemma joinToks_no_range (ps : list (list TPart)) :
  forallb (fun t => negb (isRange t)) (joinToks (map pathToks ps)) = true.
Proof.
  assert (H : forall x, forallb (fun t => negb (isRange t)) (pathToks x) = true).
  { intros x. eapply forallb_weaken; [|apply pathToks_no_marker].
    intros t E. now apply andb_true_iff in E as [_ E]. }
  induction ps as [|x r IH]; [reflexivity|]. cbn [map joinToks].
  destruct (map pathToks r) eqn:Er; [apply H|].
  rewrite forallb_app, H. cbn [forallb andb]. exact IH.
Qed.

Lemma mapM_parser_pathToks (ps : list (list TPart)) :
  Forall (Forall (fun p => canonical p = true)) ps ->
  mapM parser (map pathToks ps) = Ok ps.
Proof.
  induction 1 as [|x r Hx _ IH]; [reflexivity|]. cbn [map mapM].
  assert (E : parser (pathToks x) = Ok x).
  { unfold parser, pathToks. destruct (@parser_partToks x Hx [] None) as [st E].
    now rewrite E. }
  now rewrite E, IH.
Qed.

Lemma findIndices_nil {A} (f : A -> bool) (l : list A) (i : Z) :
  forallb (fun x => negb (f x)) l = true -> findIndicesFrom i f l = [].
Proof.
  intros H. pose proof (findIndices_none f l H i []) as E.
  now rewrite app_nil_r in E.
Qed.

Lemma slice_init_firstn {A} (arr : list A) :
  slice arr 0 (-1) = firstn (length arr - 1) arr.
Proof.
  unfold slice. change (0 <? 0)%Z with false. change (-1 <? 0)%Z with true. cbv iota.
  replace (Z.to_nat (Z.min 0 (Z.of_nat (length arr)))) with 0%nat by lia.
  cbn [skipn]. f_equal. lia.
Qed.

(** C1, as the code has it.  Let the parts of the paths of [P] be
    canonical: plain parts in which an offset sits on an odd index
    only, an id is not empty, a side is not empty and comes with an id
    or with text, and text is a non-empty list that comes with an id or
    with an offset.  Then rendering [P] and parsing the string gives a
    point location whose paths end with the paths of [P], in order;
    what [parse] puts before them is not stated here.  And the step
    parser gives back each path of [P] from the tokens of its
    rendering. *)
Theorem parse_toString_round_trip (P : list (list TPart)) :
  Forall (Forall (fun p => canonical p = true)) P ->
  (exists pre, parse (toString (Paths P)) = Ok (Paths (pre ++ P))) /\
  (forall parts, In parts P -> parser (tokenizer (partsToString parts)) = Ok parts).
Proof.
  intros H. split.
  2: { intros parts Hin. apply path_round_trip.
       now apply (proj1 (Forall_forall _ P) H). }
  assert (Hp : Forall (Forall (fun p => plain p = true)) P).
  { eapply Forall_impl; [|exact H]. intros x Hx.
    eapply Forall_impl; [|exact Hx]. apply canonical_plain. }
  unfold parse. rewrite (@tokenizer_toString P Hp).
  unfold findTokens at 1, findIndices.
  change (fun t : TToken => ttype_eqb (typeOf t) KRange) with isRange.
  rewrite (findIndices_nil isRange _ 0 (joinToks_no_range P)).
  unfold parserIndir. destruct P as [|x r].
  - exists [[]; []]. reflexivity.
  - rewrite splitAt_joinToks.
    + cbn [mapM].
      destruct (@parser_guarded (slice (joinToks (map pathToks (x :: r))) 0 (-1)))
        as [g E].
      { rewrite slice_init_firstn. apply guarded_firstn, guarded_joinToks. }
      rewrite E, (mapM_parser_pathToks H). cbn [bind]. now exists [g].
    + discriminate.
    + apply Forall_forall. intros s Hs. apply in_map_iff in Hs as [y [<- _]].
      eapply forallb_weaken; [|apply pathToks_no_marker].
      intros t Et. now apply andb_true_iff in Et as [Et _].
Qed.

Lemma parse_toString_round_trip_witness :
  Forall (Forall (fun p => canonical p = true)) examplePaths /\
  toString (Paths examplePaths) = example3 /\
  exists pre, parse example3 = Ok (Paths (pre ++ examplePaths)).
Proof.
  assert (H : Forall (Forall (fun p => canonical p = true)) examplePaths)
    by (repeat constructor).
  split; [exact H|]. split; [reflexivity|].
  exact (proj1 (parse_toString_round_trip H)).
Defined.

(* ------------------------------------------------------------------ *)
(** ** When the step parser throws, and how many parts it returns *)

Lemma updLast_index (f : TPart -> TPart) (parts ps : list TPart) :
  (forall p, index (f p) = index p) ->
  updLast f parts = Ok ps -> map index ps = map index parts.
Proof.
  intros Hf. unfold updLast.
  destruct (rev parts) as [|l r] eqn:E; [discriminate|].
  intros [= <-].
  assert (P : parts = rev r ++ [l]).
  { rewrite <- (rev_involutive parts), E. reflexivity. }
  rewrite P, !map_app. cbn [map]. now rewrite Hf.
Qed.

Ltac through_last H :=
  match type of H with
  | context [updLast ?f ?ps] =>
      let E := fresh "E" in
      destruct (updLast f ps) eqn:E; [|discriminate];
      cbn in H; injection H as <- <-;
      rewrite (@updLast_index f ps _ (fun _ => eq_refl) E);
      cbn; now rewrite app_nil_r
  end.

Lemma parserStep_indices (parts : list TPart) (st : option ttype) (t : TToken)
  (parts' : list TPart) (st' : option ttype) :
  parserStep (parts, st) t = Ok (parts', st') ->
  map index parts' = map index parts ++ stepIndices [t].
Proof.
  destruct t; cbn [parserStep stepIndices].
  - intros [= <- <-]. now rewrite map_app.
  - intros H. unfold bind in H. through_last H.
  - intros H. unfold bind in H. through_last H.
  - intros H. unfold bind in H. through_last H.
  - intros H. destruct st as [[]|]; try destruct (nonEmpty s); unfold bind in H; through_last H.
  - destruct (String.eqb name "s").
    + intros H. unfold bind in H. through_last H.
    + intros [= <- <-]. now rewrite app_nil_r.
  - intros [= <- <-]. now rewrite app_nil_r.
  - intros [= <- <-]. now rewrite app_nil_r.
Qed.

Lemma parserLoop_indices (ts : list TToken) :
  forall parts st parts' st',
    parserLoop (parts, st) ts = Ok (parts', st') ->
    map index parts' = map index parts ++ stepIndices ts.
Proof.
  induction ts as [|t r IH]; intros parts st parts' st'; cbn [parserLoop].
  - intros [= <- <-]. cbn. now rewrite app_nil_r.
  - destruct (parserStep (parts, st) t) as [[q s]|] eqn:E; [|discriminate].
    cbn [bind]. intros H.
    rewrite (IH _ _ _ _ H), (parserStep_indices _ _ _ E), <- app_assoc.
    f_equal. destruct t; reflexivity.
Qed.

Lemma parserLoop_unguarded (ts : list TToken) :
  guarded false ts = false ->
  forall st, parserLoop ([], st) ts = Throw TypeError.
Proof.
  induction ts as [|t r IH]; [discriminate|].
  cbn [guarded]. destruct (isStep t) eqn:S.
  - now rewrite guarded_true.
  - cbn [orb]. intros H st. cbn [parserLoop].
    destruct (writesLast t) eqn:W.
    + destruct t; try discriminate; cbn [parserStep]; try reflexivity.
      * destruct st as [[]|]; try destruct (nonEmpty s); reflexivity.
      * cbn in W. now rewrite W.
    + cbn [negb andb] in H.
      destruct t; try discriminate; cbn [parserStep].
      * cbn in W. rewrite W. cbn [bind]. now apply IH.
      * cbn [bind]. now apply IH.
      * cbn [bind]. now apply IH.
Qed.

(** X1: the step parser raises a TypeError exactly on the token streams
    in which a token that writes through the last part (an offset, a
    temporal or spatial value, an assertion, a side parameter) comes
    before the first Step token; on every other stream it returns a
    list of parts. *)
Theorem parser_throws_iff_unguarded (ts : list TToken) :
  (parser ts = Throw TypeError <-> guarded false ts = false) /\
  ((exists ps, parser ts = Ok ps) <-> guarded false ts = true).
Proof.
  assert (A : guarded false ts = false -> parser ts = Throw TypeError).
  { intros H. unfold parser. now rewrite parserLoop_unguarded. }
  assert (B : guarded false ts = true -> exists ps, parser ts = Ok ps).
  { apply parser_guarded. }
  split; split; trivial.
  - intros H. destruct (guarded false ts); [|reflexivity].
    destruct B as [ps E]; [reflexivity|]. congruence.
  - intros [ps H]. destruct (guarded false ts); [reflexivity|].
    rewrite A in H by reflexivity. discriminate.
Qed.

(** X2: when the step parser returns, it returns one part for every
    Step token of the stream, in the order of the tokens, and the index
    of each part is the number of its token; no other token adds or
    removes a part. *)
Theorem parser_one_part_per_step (ts : list TToken) (ps : list TPart) :
  parser ts = Ok ps ->
  map index ps = stepIndices ts /\ length ps = length (stepIndices ts).
Proof.
  unfold parser. destruct (parserLoop ([], None) ts) as [[q s]|] eqn:E; [|discriminate].
  cbn. intros [= <-]. pose proof (parserLoop_indices _ _ _ E) as H. cbn in H.
  split; [exact H|]. now rewrite <- H, length_map.
Qed.

Lemma parser_one_part_per_step_witness :
  parser [TStep (Num 6); TAssert "a"; TIndir; TStep (Num 4); TOffset (Num 1)]
  = Ok [withId 6 "a"; setOffset (Num 1) (newPart (Num 4))] /\
  map index [withId 6 "a"; setOffset (Num 1) (newPart (Num 4))] = [Num 6; Num 4].
Proof.
  split; [reflexivity|].
  exact (proj1 (@parser_one_part_per_step
                  [TStep (Num 6); TAssert "a"; TIndir; TStep (Num 4); TOffset (Num 1)]
                  _ eq_refl)).
Defined.

(* ------------------------------------------------------------------ *)
(** ** Escaping *)

Lemma trimStart_head (c : ascii) (s : string) :
  isSpace c = false -> trimStart (String c s) = String c s.
Proof. intros H. cbn. now rewrite H. Qed.

(** X3: the tokenizer undoes [escapeCFI]: a bracket that holds the
    escaped forms of any strings, separated by commas, is read back as
    one assertion token per string, each with the original string as
    its payload, whatever characters the strings hold (the special
    characters and the escape character included). *)
Theorem tokenizer_escapeCFI (t : string) (l : list string) :
  tokenizer ("[" ++ join "," (map escapeCFI (t :: l)) ++ "]")%string = map TAssert (t :: l).
Proof.
  set (body := join "," (map escapeCFI (t :: l))).
  rewrite tokenizer_untrimmed.
  - change (cs ("[" ++ body ++ "]")%string) with (Some "["%char :: cs (body ++ "]")%string).
    rewrite cs_app. unfold run. cbn [app fold_left].
    open_bracket (@nil TToken).
    fold (run (mkTok [] SBracket false "") ((cs body ++ cs "]") ++ [None])).
    rewrite <- app_assoc, run_app. unfold body. rewrite run_texts.
    change (cs "]" ++ [None]) with (Some "]"%char :: [@None ascii]).
    rewrite tok_close. cbn [app]. rewrite map_removelast_last. reflexivity.
  - unfold trim.
    change ("[" ++ body ++ "]")%string with (String "[" (body ++ "]")%string).
    rewrite trimStart_head by reflexivity.
    change (String "[" (body ++ "]")%string) with ("[" ++ (body ++ "]"))%string.
    apply (solid_app _ (solid_app _ solid_closing)).
Qed.

(* ------------------------------------------------------------------ *)
(** ** The wrapper *)

Lemma dropPrefix_inv (p s r : string) : dropPrefix p s = Some r -> s = (p ++ r)%string.
Proof.
  revert s. induction p as [|a p IH]; intros [|b s]; cbn; try discriminate.
  - now intros [= <-].
  - now intros [= <-].
  - destruct (Ascii.eqb_spec a b) as [<-|]; [|discriminate].
    intros H. now rewrite (IH _ H).
Qed.

Lemma dropPrefix_app (p r : string) : dropPrefix p (p ++ r) = Some r.
Proof.
  induction p as [|a p IH]; cbn; [now destruct r|]. now rewrite Ascii.eqb_refl.
Qed.

Lemma dropClosing_inv (s b : string) : dropClosing s = Some b -> s = (b ++ ")")%string.
Proof.
  revert b. induction s as [|c r IH]; intros b; [discriminate|].
  cbn [dropClosing]. destruct r as [|d r'].
  - destruct (Ascii.eqb_spec c ")") as [->|]; [|discriminate]. now intros [= <-].
  - destruct (dropClosing (String d r')) as [r1|]; [|discriminate].
    intros [= <-]. cbn. now rewrite <- (IH r1 eq_refl).
Qed.

Lemma matchCFI_inv (x body : string) :
  matchCFI x = Some body ->
  x = ("epubcfi(" ++ body ++ ")")%string /\ noLineTerminator body = true.
Proof.
  unfold matchCFI.
  destruct (dropPrefix "epubcfi(" x) as [r|] eqn:P; [|discriminate].
  destruct (dropClosing r) as [b|] eqn:C; [|discriminate].
  destruct (noLineTerminator b) eqn:L; [|discriminate].
  intros [= <-]. split; [|exact L].
  now rewrite (dropPrefix_inv _ _ P), (dropClosing_inv _ C).
Qed.

Lemma matchCFI_wrapped (s : string) :
  matchCFI ("epubcfi(" ++ s ++ ")") = if noLineTerminator s then Some s else None.
Proof.
  unfold matchCFI. rewrite dropPrefix_app, dropClosing_app. reflexivity.
Qed.

Lemma noLineTerminator_app (a b : string) :
  noLineTerminator (a ++ b) = noLineTerminator a && noLineTerminator b.
Proof. induction a as [|c a IH]; cbn; [reflexivity|]. now rewrite IH, andb_assoc. Qed.

Lemma matchCFI_line (x : string) : noLineTerminator x = false -> matchCFI x = None.
Proof.
  intros H. destruct (matchCFI x) as [b|] eqn:M; [|reflexivity].
  destruct (matchCFI_inv _ M) as [-> L].
  rewrite !noLineTerminator_app, L in H. discriminate.
Qed.

(** X4: on a string without a line break, wrapping is idempotent, a
    wrapped string always has the shape that [isCFIReg] accepts,
    unwrapping a wrapped string gives what unwrapping the string itself
    gives, and [parse] reads the wrapped string as it reads the string
    itself.  On a string with a line break, which [isCFIReg] never
    accepts, wrapping again nests a second wrapper and unwrapping does
    not remove the wrapper. *)
Theorem wrap_unwrap (x : string) :
  (noLineTerminator x = true ->
     wrap (wrap x) = wrap x /\
     matchCFI (wrap x) = Some (unwrap x) /\
     unwrap (wrap x) = unwrap x /\
     parse (wrap x) = parse x) /\
  (noLineTerminator x = false ->
     wrap x = ("epubcfi(" ++ x ++ ")")%string /\
     wrap (wrap x) = ("epubcfi(" ++ wrap x ++ ")")%string /\
     unwrap (wrap x) = wrap x).
Proof.
  split; intros L.
  - assert (K : wrap (wrap x) = wrap x /\ matchCFI (wrap x) = Some (unwrap x) /\
                unwrap (wrap x) = unwrap x).
    { destruct (matchCFI x) as [b|] eqn:M.
      + assert (W : wrap x = x) by (unfold wrap; now rewrite M).
        assert (U : unwrap x = b) by (unfold unwrap; now rewrite M).
        rewrite !W, U. auto.
      + assert (W : wrap x = ("epubcfi(" ++ x ++ ")")%string)
          by (unfold wrap; now rewrite M).
        assert (U : unwrap x = x) by (unfold unwrap; now rewrite M).
        rewrite !W, U. unfold wrap, unwrap. rewrite matchCFI_wrapped, L. auto. }
    destruct K as (A & B & C). repeat split; trivial.
    unfold parse. now rewrite C.
  - assert (W : wrap x = ("epubcfi(" ++ x ++ ")")%string).
    { unfold wrap. now rewrite matchCFI_line. }
    rewrite W. unfold wrap, unwrap. rewrite matchCFI_wrapped, L.
    repeat split; reflexivity.
Qed.

Lemma wrap_unwrap_witness :
  wrap (wrap "/6/4") = wrap "/6/4" /\ unwrap (wrap "/6/4") = "/6/4".
Proof.
  destruct (proj1 (wrap_unwrap "/6/4") eq_refl) as (A & _ & C & _).
  split; [exact A | exact C].
Defined.

(* ------------------------------------------------------------------ *)
(** ** Joining identifiers *)

Lemma join_app (sep : string) (a b : list string) :
  a <> [] -> b <> [] ->
  join sep (a ++ b) = (join sep a ++ sep ++ join sep b)%string.
Proof.
  intros Ha Hb. induction a as [|x a IH]; [congruence|].
  destruct a as [|y a].
  - cbn [app]. destruct b; [congruence|]. reflexivity.
  - change (join sep ((x :: y :: a) ++ b))
      with (x ++ sep ++ join sep ((y :: a) ++ b))%string.
    rewrite IH by discriminate.
    change (join sep (x :: y :: a)) with (x ++ sep ++ join sep (y :: a))%string.
    now rewrite !append_assoc.
Qed.

Lemma pathsToString_app (P Q : list (list TPart)) :
  P <> [] -> Q <> [] ->
  pathsToString (P ++ Q) = (pathsToString P ++ "!" ++ pathsToString Q)%string.
Proof.
  intros HP HQ. unfold pathsToString. rewrite map_app.
  apply join_app; now destruct P, Q.
Qed.

Lemma unwrap_toString (P : list (list TPart)) :
  noLineTerminator (pathsToString P) = true ->
  unwrap (toString (Paths P)) = pathsToString P.
Proof.
  intros L. unfold toString, toInnerString.
  rewrite (wrap_paths _ (headOk_paths P)), unwrap_wrapped, L. reflexivity.
Qed.

Lemma join_unwrap_paths (Ps : list (list (list TPart))) :
  Ps <> [] ->
  Forall (fun P => P <> [] /\ noLineTerminator (pathsToString P) = true) Ps ->
  join "!" (map unwrap (map (fun P => toString (Paths P)) Ps)) = pathsToString (concat Ps)
  /\ concat Ps <> [].
Proof.
  induction Ps as [|P Ps IH]; [congruence|]. intros _ H.
  apply Forall_cons_iff in H as [[HP LP] H].
  destruct Ps as [|Q Ps].
  - cbn [map join concat]. rewrite app_nil_r. split; [now apply unwrap_toString|exact HP].
  - destruct IH as [IH NE]; [discriminate|exact H|].
    change (join "!" (map unwrap (map (fun P => toString (Paths P)) (P :: Q :: Ps))))
      with (unwrap (toString (Paths P)) ++ "!"
            ++ join "!" (map unwrap (map (fun P => toString (Paths P)) (Q :: Ps))))%string.
    rewrite IH, unwrap_toString by exact LP.
    change (concat (P :: Q :: Ps)) with (P ++ concat (Q :: Ps)).
    split; [now rewrite pathsToString_app|]. now destruct P.
Qed.

(** X5: [joinIndir] of a single string is [wrap] of that string; and
    [joinIndir] of the renderings of several point locations, each with
    at least one path and rendered without a line break, is the
    rendering of the location whose paths are theirs put one after the
    other. *)
Theorem joinIndir_paths :
  (forall x, joinIndir [x] = wrap x) /\
  (forall Ps : list (list (list TPart)),
     Ps <> [] ->
     Forall (fun P => P <> [] /\ noLineTerminator (pathsToString P) = true) Ps ->
     joinIndir (map (fun P => toString (Paths P)) Ps) = toString (Paths (concat Ps))).
Proof.
  split.
  - intros x. unfold joinIndir, lift, wrap, unwrap. cbn [map join].
    destruct (matchCFI x) as [b|] eqn:M; [|reflexivity].
    now destruct (matchCFI_inv _ M) as [<- _].
  - intros Ps NE H. unfold joinIndir, lift.
    rewrite (proj1 (join_unwrap_paths NE H)).
    unfold toString, toInnerString. now rewrite (wrap_paths _ (headOk_paths _)).
Qed.

Lemma joinIndir_paths_witness :
  joinIndir [toString (Paths [[newPart (Num 6); newPart (Num 4)]]);
             toString (Paths [[newPart (Num 2); stepWithOffset 1 3]])]
  = "epubcfi(/6/4!/2/1:3)".
Proof.
  refine (eq_trans
            (proj2 joinIndir_paths
               [[[newPart (Num 6); newPart (Num 4)]]; [[newPart (Num 2); stepWithOffset 1 3]]]
               _ _) _).
  - discriminate.
  - repeat constructor; discriminate.
  - reflexivity.
Defined.

(* ------------------------------------------------------------------ *)
(** ** Identifiers made from a spine index *)

Lemma parse_toString_paths (P : list (list TPart)) (g : list TPart) :
  P <> [] ->
  Forall (Forall (fun p => canonical p = true)) P ->
  parser (slice (joinToks (map pathToks P)) 0 (-1)) = Ok g ->
  parse (toString (Paths P)) = Ok (Paths (g :: P)).
Proof.
  intros NE H G.
  assert (Hp : Forall (Forall (fun p => plain p = true)) P).
  { eapply Forall_impl; [|exact H]. intros x Hx.
    eapply Forall_impl; [|exact Hx]. apply canonical_plain. }
  unfold parse. rewrite (@tokenizer_toString P Hp).
  unfold findTokens at 1, findIndices.
  change (fun t : TToken => ttype_eqb (typeOf t) KRange) with isRange.
  rewrite (findIndices_nil isRange _ 0 (joinToks_no_range P)).
  unfold parserIndir. rewrite splitAt_joinToks.
  - cbn [mapM]. rewrite G, (mapM_parser_pathToks H). reflexivity.
  - now destruct P.
  - apply Forall_forall. intros s Hs. apply in_map_iff in Hs as [y [<- _]].
    eapply forallb_weaken; [|apply pathToks_no_marker].
    intros t Et. now apply andb_true_iff in Et as [Et _].
Qed.

Lemma partToString_newPart (a : number) :
  partToString (newPart a) = ("/" ++ numberToString a)%string.
Proof.
  unfold partToString, idToString, offsetToString, temporalToString, spatialToString,
    textToString, hasId, hasSide. cbn. now rewrite append_nil_r.
Qed.

(** X6: for a spine index [i] (small enough for twice its successor to
    be an exact double), [fake.fromIndex] gives the wrapped string
    [/6/n] with the even number [n = 2 (i + 1)], and parsing that
    string gives a point location whose last path is the step 6
    followed by the step [n]; the path that [parse] puts before it
    holds the step 6 alone. *)
Theorem fromIndex_parse (i : N) :
  (2 * (i + 1) < 2 ^ 53)%N ->
  fromIndex (Num (Z.of_N i)) = ("epubcfi(/6/" ++ natToString (2 * (i + 1)) ++ ")")%string /\
  parse (fromIndex (Num (Z.of_N i)))
  = Ok (Paths [ [newPart (Num 6)];
                [newPart (Num 6); newPart (Num (Z.of_N (2 * (i + 1))))] ]).
Proof.
  intros B. set (n := (2 * (i + 1))%N).
  assert (Nn : natural (Num (Z.of_N n)) = true).
  { unfold natural. apply andb_true_iff. split; [apply Z.leb_le; lia|].
    apply Z.ltb_lt. change (2 ^ 53)%Z with (Z.of_N (2 ^ 53)). now apply N2Z.inj_lt. }
  destruct (numberToString_natural _ Nn) as [m [Em Sm]].
  assert (m = n) by (injection Em as Em; now apply N2Z.inj). subst m.
  assert (T : times (plus (Num (Z.of_N i)) (Num 1)) (Num 2) = Num (Z.of_N n)).
  { cbn [plus times]. f_equal. unfold n. lia. }
  assert (S : ("/6/" ++ numberToString (Num (Z.of_N n)))%string
              = pathsToString [[newPart (Num 6); newPart (Num (Z.of_N n))]]).
  { unfold pathsToString, partsToString. cbn [map join].
    rewrite !partToString_newPart. reflexivity. }
  assert (F : fromIndex (Num (Z.of_N i))
              = toString (Paths [[newPart (Num 6); newPart (Num (Z.of_N n))]])).
  { unfold fromIndex. now rewrite T, S. }
  split.
  - unfold fromIndex. rewrite T, Sm. apply wrap_paths. left. reflexivity.
  - rewrite F. apply parse_toString_paths.
    + discriminate.
    + constructor; [|constructor]. constructor; [reflexivity|].
      constructor; [|constructor].
      unfold canonical, plain, newPart.
      cbn [index offset temporal spatial side id text]. now rewrite Nn.
    + reflexivity.
Qed.

Lemma fromIndex_parse_witness :
  fromIndex (Num 1) = "epubcfi(/6/4)" /\
  parse (fromIndex (Num 1))
  = Ok (Paths [ [newPart (Num 6)]; [newPart (Num 6); newPart (Num 4)] ]).
Proof. exact (@fromIndex_parse 1 eq_refl). Defined.

(* ------------------------------------------------------------------ *)
(** ** Concatenating paths *)

Lemma concatArrays_last (front : list (list TPart)) (la : list TPart)
  (b : list (list TPart)) :
  concatArrays (front ++ [la]) b = Ok (front ++ [la ++ hd [] b] ++ tl b).
Proof.
  unfold concatArrays. rewrite nth_error_last_snoc, slice_all_but_last.
  now destruct b.
Qed.





(** X8: on lists that hold at least one path, [concatArrays] is
    associative, and the list that holds one empty path is a unit on
    both sides; the empty list is a unit on the right. *)
Theorem concatArrays_monoid (a b c : list (list TPart)) :
  a <> [] -> b <> [] ->
  (r <- concatArrays a b ;; concatArrays r c)
  = (r <- concatArrays b c ;; concatArrays a r) /\
  concatArrays a [[]] = Ok a /\
  concatArrays [[]] b = Ok b /\
  concatArrays a [] = Ok a.
Proof.
  intros Ha Hb.
  destruct (exists_last Ha) as (fa & la & ->).
  split; [|split; [|split]].
  - destruct (exists_last Hb) as (fb & lb & ->).
    rewrite !concatArrays_last. cbn [bind].
    destruct fb as [|b0 fb]; cbn [app hd tl].
    + rewrite !concatArrays_last. cbn [hd tl app]. now rewrite <- !app_assoc.
    + replace (fa ++ (la ++ b0) :: fb ++ [lb]) with ((fa ++ (la ++ b0) :: fb) ++ [lb])
        by now rewrite <- app_assoc.
      rewrite !concatArrays_last. cbn [hd tl app]. now rewrite <- !app_assoc.
  - rewrite concatArrays_last. cbn [hd tl]. now rewrite !app_nil_r.
  - destruct b as [|b0 rest]; [congruence|].
    apply (concatArrays_last [] [] (b0 :: rest)).
  - rewrite concatArrays_last. cbn [hd tl]. now rewrite !app_nil_r.
Qed.

Lemma concatArrays_monoid_witness :
  (r <- concatArrays [[newPart (Num 6)]] [[newPart (Num 4)]; [newPart (Num 2)]] ;;
   concatArrays r [[newPart (Num 1)]])
  = (r <- concatArrays [[newPart (Num 4)]; [newPart (Num 2)]] [[newPart (Num 1)]] ;;
     concatArrays [[newPart (Num 6)]] r).
Proof.
  refine (proj1 (@concatArrays_monoid [[newPart (Num 6)]] [[newPart (Num 4)]; [newPart (Num 2)]]
                   [[newPart (Num 1)]] _ _)); discriminate.
Defined.

(* ------------------------------------------------------------------ *)
(** ** Splitting at the indirection tokens *)

Lemma isIndir_inv (t : TToken) : isIndir t = true -> t = TIndir.
Proof. now destruct t. Qed.

Lemma segmentsAtIndir_spec (ts : list TToken) :
  segmentsAtIndir ts <> [] /\
  joinToks (segmentsAtIndir ts) = ts /\
  Forall (fun s => forallb (fun t => negb (isIndir t)) s = true) (segmentsAtIndir ts).
Proof.
  induction ts as [|t r (NE & J & F)]; cbn [segmentsAtIndir].
  - repeat split; [discriminate|]. now constructor.
  - destruct (isIndir t) eqn:I.
    + apply isIndir_inv in I as ->. repeat split; [discriminate| |now constructor].
      destruct (segmentsAtIndir r) as [|s segs]; [congruence|].
      cbn [joinToks app]. cbn [joinToks] in J. now rewrite J.
    + destruct (segmentsAtIndir r) as [|s segs]; [congruence|].
      repeat split; [discriminate| |].
      * destruct segs as [|s' segs]; cbn [joinToks app] in *; now rewrite J.
      * apply Forall_cons_iff in F as [Fs F]. constructor; [|exact F].
        cbn [forallb]. now rewrite I, Fs.
Qed.

(** X9: for every token stream, splitting at the positions of the
    indirection tokens, as [parserIndir] does, returns first a segment
    that holds every token of the stream but the last one (indirection
    tokens included), and after it the maximal runs of tokens between
    the indirection tokens, in order; these runs hold no indirection
    token and, joined by indirection tokens, give the stream back.
    For any list of positions, [splitAt] returns two segments more
    than there are positions. *)
Theorem splitAt_indir_segments (ts : list TToken) :
  splitAt ts (findTokens ts KIndir) = slice ts 0 (-1) :: segmentsAtIndir ts /\
  slice ts 0 (-1) = removelast ts /\
  joinToks (segmentsAtIndir ts) = ts /\
  Forall (fun s => forallb (fun t => negb (isIndir t)) s = true) (segmentsAtIndir ts) /\
  (forall is_ : list Z, length (splitAt ts is_) = (length is_ + 2)%nat).
Proof.
  destruct (segmentsAtIndir_spec ts) as (NE & J & F).
  split; [|split; [|split; [|split]]]; trivial.
  - pose proof (splitAt_joinToks NE F) as H. now rewrite J in H.
  - rewrite slice_init_firstn, removelast_firstn_len. f_equal. lia.
  - intros is_. apply splitAt_length.
Qed.

(* ------------------------------------------------------------------ *)
(** ** The children that count *)

Lemma getChildNodesAt_children (filter : option (Ref -> N)) (p : list nat) (n : Node) :
  getChildNodesAt filter p n = childrenFrom filter p 0 (childNodes n).
Proof.
  destruct n as [t i v cs]. cbn [getChildNodesAt childNodes].
  generalize 0%nat. induction cs as [|c r IH]; intros k; [reflexivity|].
  cbn [childrenFrom]. now rewrite <- IH.
Qed.

Lemma childrenFrom_accept (f : Ref -> N) (p : list nat) (cs : list Node) :
  (forall r, f r <> FILTER_REJECT /\ f r <> FILTER_SKIP) ->
  forall i, childrenFrom (Some f) p i cs = childrenFrom None p i cs.
Proof.
  intros H. induction cs as [|c r IH]; intros i; [reflexivity|].
  cbn [childrenFrom]. rewrite IH. f_equal.
  destruct (H (mkRef (i :: p) c)) as [A B].
  apply N.eqb_neq in A, B. now rewrite A, B.
Qed.

Lemma childrenFrom_reject (f : Ref -> N) (p : list nat) (cs : list Node) :
  (forall r, f r = FILTER_REJECT) ->
  forall i, childrenFrom (Some f) p i cs = [].
Proof.
  intros H. induction cs as [|c r IH]; intros i; [reflexivity|].
  cbn [childrenFrom]. rewrite IH, H, N.eqb_refl. now destruct (_ || _).
Qed.

Lemma isContent_ref (p : list nat) (c : Node) :
  isTextNode (mkRef p c) || isElementNode (mkRef p c) = isContent c.
Proof.
  unfold isTextNode, isElementNode, isContent. cbn [obj].
  now destruct (nodeType c =? 1)%N, (nodeType c =? 3)%N, (nodeType c =? 4)%N.
Qed.

Lemma childrenFrom_objects (p : list nat) (cs : list Node) :
  forall i, map obj (childrenFrom None p i cs) = List.filter isContent cs.
Proof.
  induction cs as [|c r IH]; intros i; [reflexivity|].
  cbn [childrenFrom List.filter]. rewrite map_app, IH, isContent_ref.
  now destruct (isContent c).
Qed.

(** X10: whatever the filter, [getChildNodes] returns elements and
    character data only.  Without a filter it returns the children of
    these kinds, all of them, in document order; a filter that neither
    rejects nor skips any node gives the same list, and a filter that
    rejects every node gives the empty list. *)
Theorem getChildNodes_content (node : Ref) :
  (forall filter r, In r (getChildNodes node filter) ->
                    isTextNode r || isElementNode r = true) /\
  map obj (getChildNodes node None) = List.filter isContent (childNodes (obj node)) /\
  (forall f, (forall r, f r <> FILTER_REJECT /\ f r <> FILTER_SKIP) ->
             getChildNodes node (Some f) = getChildNodes node None) /\
  (forall f, (forall r, f r = FILTER_REJECT) -> getChildNodes node (Some f) = []).
Proof.
  unfold getChildNodes. split; [|split; [|split]].
  - intros filter r. apply getChildNodesAt_kinds.
  - rewrite getChildNodesAt_children. apply childrenFrom_objects.
  - intros f H. rewrite !getChildNodesAt_children. now apply childrenFrom_accept.
  - intros f H. rewrite getChildNodesAt_children. now apply childrenFrom_reject.
Qed.

Lemma getChildNodes_content_witness :
  map obj (getChildNodes rootRef None) = [textNode "t0"; sampleParagraph; sampleDivision; sampleSection] /\
  getChildNodes rootRef (Some (fun _ => FILTER_ACCEPT)) = getChildNodes rootRef None /\
  getChildNodes rootRef (Some (fun _ => FILTER_REJECT)) = [].
Proof.
  destruct (getChildNodes_content rootRef) as (_ & A & B & C).
  split; [exact A|]. split; [apply B|apply C].
  - intros r. split; discriminate.
  - reflexivity.
Defined.

(* ------------------------------------------------------------------ *)
(** ** The layout of the indexed child list *)

Lemma content_text (x : Ref) :
  isTextNode x || isElementNode x = true -> isElementNode x = false -> isTextNode x = true.
Proof. intros H E. now rewrite E, orb_false_r in H. Qed.

(** The array while the [reduce] runs: the entries up to the last
    element, then the gap that is still open. *)
Lemma reduceStep_element (closed : list slot) (dflt : list slot) (pending : list Ref)
  (x : Ref) :
  textual pending ->
  isElementNode x = true ->
  (closed = [] /\ dflt = []) \/
  (exists front e, closed = front ++ [SlNode e] /\ isElementNode e = true /\ dflt = [SlNull]) ->
  reduceStep (closed ++ gapSlots [] pending) x
  = (closed ++ gapSlots dflt pending) ++ [SlNode x].
Proof.
  intros T E C. assert (NT : isTextNode x = false).
  { destruct (isTextNode x) eqn:K; [|reflexivity]. now rewrite text_not_element in E. }
  unfold reduceStep. destruct pending as [|t [|t' pending]]; cbn [gapSlots].
  - rewrite app_nil_r. destruct C as [[-> ->]|(front & e & -> & Ee & ->)].
    + reflexivity.
    + rewrite rev_app_distr. cbn [rev app]. rewrite NT, Ee.
      now rewrite <- !app_assoc.
  - rewrite rev_app_distr. cbn [rev app]. rewrite NT.
    apply Forall_inv in T. now rewrite (text_not_element _ T).
  - rewrite rev_app_distr. cbn [rev app]. now rewrite NT.
Qed.

Lemma reduceStep_text (closed : list slot) (pending : list Ref) (x : Ref) :
  textual pending ->
  isTextNode x = true ->
  closed = [] \/ (exists front e, closed = front ++ [SlNode e] /\ isElementNode e = true) ->
  reduceStep (closed ++ gapSlots [] pending) x = closed ++ gapSlots [] (pending ++ [x]).
Proof.
  intros T E C. unfold reduceStep.
  destruct pending as [|t [|t' pending]]; cbn [gapSlots app].
  - rewrite app_nil_r. destruct C as [->|(front & e & -> & Ee)].
    + reflexivity.
    + rewrite rev_app_distr. cbn [rev app]. rewrite E.
      destruct (isTextNode e) eqn:K; [now rewrite text_not_element in Ee|reflexivity].
  - rewrite rev_app_distr. cbn [rev app]. rewrite E, rev_involutive.
    apply Forall_inv in T. now rewrite T.
  - rewrite rev_app_distr. cbn [rev app]. now rewrite E, rev_involutive.
Qed.

Lemma fold_coreFrom (l : list Ref) :
  content l ->
  forall closed dflt pending,
    textual pending ->
    (closed = [] /\ dflt = []) \/
    (exists front e, closed = front ++ [SlNode e] /\ isElementNode e = true /\ dflt = [SlNull]) ->
    fold_left reduceStep l (closed ++ gapSlots [] pending)
    = closed ++ coreFrom dflt pending l.
Proof.
  induction l as [|x r IH]; intros Hc closed dflt pending T C; [reflexivity|].
  apply Forall_cons_iff in Hc as [Hx Hr].
  cbn [fold_left coreFrom]. destruct (isElementNode x) eqn:E.
  - rewrite (@reduceStep_element closed dflt pending x T E C).
    pose proof (IH Hr ((closed ++ gapSlots dflt pending) ++ [SlNode x]) [SlNull] []) as H.
    cbn [gapSlots] in H. rewrite app_nil_r in H. rewrite H.
    + now rewrite <- !app_assoc.
    + constructor.
    + right. now exists (closed ++ gapSlots dflt pending), x.
  - assert (Tx : isTextNode x = true) by now rewrite orb_false_r in Hx.
    rewrite reduceStep_text; trivial.
    + apply IH; trivial. apply Forall_app. split; [exact T|]. now constructor.
    + destruct C as [[-> _]|(front & e & -> & Ee & _)]; [now left|right; now exists front, e].
Qed.

Lemma gap_slots (d : slot) (pending : list Ref) : gapSlots [d] pending = [gap d pending].
Proof. now destruct pending as [|t [|t' r]]. Qed.

Lemma layoutFrom_core (l : list Ref) :
  forall d pending,
    layoutFrom d pending l
    = coreFrom [d] pending l ++ (if closes pending l then [SlLast] else []).
Proof.
  induction l as [|x r IH]; intros d pending; cbn [layoutFrom coreFrom closes].
  - now destruct pending as [|t [|t' p]].
  - destruct (isElementNode x).
    + rewrite IH, gap_slots. now rewrite <- app_assoc.
    + apply IH.
Qed.

Lemma snoc_not_nil {A} (l : list A) (x : A) : l ++ [x] <> [].
Proof. now destruct l. Qed.

Lemma textual_snoc (pending : list Ref) (x : Ref) :
  textual pending -> isTextNode x || isElementNode x = true -> isElementNode x = false ->
  textual (pending ++ [x]).
Proof.
  intros T C E. apply Forall_app. split; [exact T|].
  constructor; [now apply content_text|constructor].
Qed.

Lemma coreFrom_pending (l : list Ref) :
  content l ->
  forall d pending,
    pending <> [] -> textual pending ->
    exists g rest,
      coreFrom d pending l = g :: rest /\ entryIsElement (Some g) = Ok false /\
      coreFrom [] pending l = g :: rest.
Proof.
  induction l as [|x r IH]; intros Hc d pending NE T; cbn [coreFrom].
  - destruct pending as [|t [|t' p]]; [congruence| |].
    + exists (SlNode t), []. cbn. apply Forall_inv in T.
      now rewrite (text_not_element _ T).
    + now exists (SlChunk (t :: t' :: p)), [].
  - apply Forall_cons_iff in Hc as [Hx Hr]. destruct (isElementNode x) eqn:E.
    + destruct pending as [|t [|t' p]]; [congruence| |]; cbn [gapSlots app].
      * exists (SlNode t), (SlNode x :: coreFrom [SlNull] [] r). cbn.
        apply Forall_inv in T. now rewrite (text_not_element _ T).
      * now exists (SlChunk (t :: t' :: p)), (SlNode x :: coreFrom [SlNull] [] r).
    + apply IH; [exact Hr|apply snoc_not_nil|].
      apply textual_snoc; trivial. now rewrite E.
Qed.

(** The first test of [indexChildNodes], and the array after the marker
    [first] has been put in front. *)
Lemma coreFrom_first (l : list Ref) :
  content l -> l <> [] ->
  entryIsElement (nth_error (coreFrom [] [] l) 0) = Ok (headIsElement l) /\
  (if headIsElement l then SlFirst :: coreFrom [] [] l else coreFrom [] [] l)
  = coreFrom [SlFirst] [] l.
Proof.
  intros Hc NE. destruct l as [|x r]; [congruence|].
  apply Forall_cons_iff in Hc as [Hx Hr].
  cbn [coreFrom headIsElement]. destruct (isElementNode x) eqn:E.
  - cbn. now rewrite E.
  - assert (T : textual ([] ++ [x])) by (apply textual_snoc; [constructor|now rewrite E|exact E]).
    destruct (@coreFrom_pending r Hr [SlFirst] ([] ++ [x]) (snoc_not_nil _ _) T)
      as (g & rest & E1 & Eg & E2).
    rewrite E1, E2. now cbn [nth_error].
Qed.

Lemma nth_error_last_cons {A} (front : list A) (s : A) (c : list A) :
  c <> [] ->
  nth_error (front ++ s :: c) (length (front ++ s :: c) - 1)
  = nth_error c (length c - 1).
Proof.
  intros NE. rewrite length_app. cbn [length].
  replace (length front + S (length c) - 1)%nat
    with (length front + S (length c - 1))%nat
    by (destruct c; [congruence|cbn; lia]).
  rewrite nth_error_app2 by lia.
  replace (length front + S (length c - 1) - length front)%nat with (S (length c - 1)) by lia.
  reflexivity.
Qed.

Lemma coreFrom_nil (l : list Ref) (d : list slot) :
  coreFrom d [] l = [] -> content l -> l = [].
Proof.
  destruct l as [|x r]; [reflexivity|]. intros H Hc.
  apply Forall_cons_iff in Hc as [Hx Hr]. cbn [coreFrom] in H.
  destruct (isElementNode x) eqn:E.
  - now destruct d.
  - assert (T : textual ([] ++ [x])) by (apply textual_snoc; [constructor|now rewrite E|exact E]).
    destruct (@coreFrom_pending r Hr d ([] ++ [x]) (snoc_not_nil _ _) T)
      as (g & rest & E1 & _). congruence.
Qed.

(** The second test of [indexChildNodes]. *)
Lemma coreFrom_last (l : list Ref) :
  content l ->
  forall d pending,
    textual pending ->
    coreFrom [d] pending l <> [] ->
    entryIsElement (nth_error (coreFrom [d] pending l)
                              (length (coreFrom [d] pending l) - 1))
    = Ok (closes pending l).
Proof.
  induction l as [|x r IH]; intros Hc d pending T NE; cbn [coreFrom closes] in *.
  - destruct pending as [|t [|t' p]]; [exfalso; now apply NE| |]; cbn.
    + apply Forall_inv in T. now rewrite (text_not_element _ T).
    + reflexivity.
  - apply Forall_cons_iff in Hc as [Hx Hr]. destruct (isElementNode x) eqn:E.
    + destruct (coreFrom [SlNull] [] r) as [|s c] eqn:C.
      * rewrite (coreFrom_nil _ C Hr). cbn [closes].
        rewrite nth_error_last_snoc. cbn. now rewrite E.
      * rewrite nth_error_last_cons by discriminate. rewrite <- C.
        apply IH; [exact Hr|constructor|]. rewrite C. discriminate.
    + apply IH; trivial. apply textual_snoc; trivial. now rewrite E.
Qed.

Lemma indexChildNodes_layout (node : Ref) (filter : option (Ref -> N)) :
  getChildNodes node filter <> [] ->
  indexChildNodes node filter = Ok (layout (getChildNodes node filter)).
Proof.
  intros NE. unfold indexChildNodes, layout.
  set (l := getChildNodes node filter) in *.
  assert (Hc : content l).
  { apply Forall_forall. intros r. apply getChildNodesAt_kinds. }
  pose proof (@fold_coreFrom l Hc [] [] [] (Forall_nil _) (or_introl (conj eq_refl eq_refl)))
    as F.
  cbn [gapSlots app] in F. rewrite F.
  destruct (coreFrom_first Hc NE) as [E1 E2]. rewrite E1. cbn [bind]. rewrite E2.
  assert (N1 : coreFrom [SlFirst] [] l <> []).
  { intros H. apply NE. now apply (coreFrom_nil _ H). }
  rewrite (@coreFrom_last l Hc SlFirst [] (Forall_nil _) N1). cbn [bind].
  rewrite layoutFrom_core. destruct (closes [] l); [reflexivity|].
  now rewrite app_nil_r.
Qed.

(** X11: for a node with at least one child that counts, the indexed
    child list is the marker [before], then gaps and elements in turn,
    beginning and ending with a gap, then the marker [after].  A gap
    stands for the text nodes between two neighbouring elements (or
    before the first, or after the last one): the text node itself when
    there is one, a chunk when there are several, and, when there is
    none, the marker [first] before the first element, the marker
    [last] after the last element, and [null] between two elements. *)
Theorem indexChildNodes_is_layout (node : Ref) (filter : option (Ref -> N)) :
  getChildNodes node filter <> [] ->
  indexChildNodes node filter
  = Ok (SlBefore :: layoutFrom SlFirst [] (getChildNodes node filter) ++ [SlAfter]).
Proof. apply indexChildNodes_layout. Qed.

Lemma indexChildNodes_is_layout_witness :
  indexChildNodes rootRef None
  = Ok [SlBefore;
        SlNode (mkRef [0; 1]%nat (textNode "t0")); SlNode paragraphRef;
        SlNull; SlNode divisionRef;
        SlNull; SlNode sectionRef;
        SlLast; SlAfter] /\
  indexChildNodes paragraphRef None
  = Ok [SlBefore;
        SlChunk [mkRef [0; 1; 1]%nat (textNode "ab"); mkRef [1; 1; 1]%nat (textNode "cd")];
        SlAfter].
Proof.
  split.
  - refine (eq_trans (@indexChildNodes_is_layout rootRef None _) _);
      [discriminate|reflexivity].
  - refine (eq_trans (@indexChildNodes_is_layout paragraphRef None _) _);
      [discriminate|reflexivity].
Defined.

Lemma layoutFrom_length (l : list Ref) :
  forall d pending,
    length (layoutFrom d pending l) = (2 * length (List.filter isElementNode l) + 1)%nat.
Proof.
  induction l as [|x r IH]; intros d pending; cbn [layoutFrom List.filter]; [reflexivity|].
  destruct (isElementNode x); [|apply IH]. cbn [length]. rewrite IH. lia.
Qed.

Lemma layoutFrom_element (l : list Ref) :
  forall d pending k e,
    nth_error (List.filter isElementNode l) k = Some e ->
    nth_error (layoutFrom d pending l) (2 * k + 1) = Some (SlNode e).
Proof.
  induction l as [|x r IH]; intros d pending k e; cbn [layoutFrom List.filter].
  - now destruct k.
  - destruct (isElementNode x); [|apply IH].
    destruct k as [|k]; cbn [nth_error].
    + now intros [= ->].
    + intros H. replace (2 * S k + 1)%nat with (S (S (2 * k + 1))) by lia.
      cbn [nth_error]. now apply IH.
Qed.

Lemma gap_not_element (d : slot) (pending : list Ref) :
  textual pending -> slotIsElement d = false -> slotIsElement (gap d pending) = false.
Proof.
  intros T D. destruct pending as [|t [|t' p]]; cbn; trivial.
  apply Forall_inv in T. now apply text_not_element.
Qed.

Lemma layoutFrom_parity (l : list Ref) :
  content l ->
  forall d pending i s,
    textual pending -> slotIsElement d = false ->
    nth_error (layoutFrom d pending l) i = Some s ->
    slotIsElement s = Nat.odd i.
Proof.
  induction l as [|x r IH]; intros Hc d pending i s T D; cbn [layoutFrom].
  - destruct i as [|[|i]]; cbn [nth_error]; try discriminate.
    intros [= <-]. now apply gap_not_element.
  - apply Forall_cons_iff in Hc as [Hx Hr]. destruct (isElementNode x) eqn:E.
    + destruct i as [|[|i]]; cbn [nth_error].
      * intros [= <-]. now apply gap_not_element.
      * intros [= <-]. exact E.
      * intros H. rewrite (IH Hr SlNull [] i s (Forall_nil _) eq_refl H).
        now rewrite !Nat.odd_succ, Nat.even_succ.
    + apply IH; trivial. apply textual_snoc; trivial. now rewrite E.
Qed.

Lemma gap_holds (d : slot) (pending : list Ref) (x : Ref) :
  In x pending -> slotHolds x (gap d pending) = true.
Proof.
  assert (S : sameNode x x = true).
  { unfold sameNode. now destruct (list_eq_dec Nat.eq_dec (path x) (path x)). }
  intros H. destruct pending as [|t [|t' p]]; [contradiction| |].
  - destruct H as [->|[]]. exact S.
  - cbn [gap slotHolds]. apply existsb_exists. now exists x.
Qed.

Lemma layoutFrom_text (l : list Ref) :
  content l ->
  forall d pending x,
    In x (pending ++ l) -> isElementNode x = false ->
    exists i s, nth_error (layoutFrom d pending l) i = Some s /\
                Nat.even i = true /\ slotHolds x s = true.
Proof.
  induction l as [|y r IH]; intros Hc d pending x Hin Ex; cbn [layoutFrom].
  - rewrite app_nil_r in Hin. exists 0%nat, (gap SlLast pending).
    repeat split. now apply gap_holds.
  - apply Forall_cons_iff in Hc as [Hy Hr]. destruct (isElementNode y) eqn:E.
    + apply in_app_or in Hin as [Hin|[->|Hin]].
      * exists 0%nat, (gap d pending). repeat split. now apply gap_holds.
      * congruence.
      * destruct (IH Hr SlNull [] x Hin Ex) as (i & s & H1 & H2 & H3).
        exists (S (S i)), s. repeat split; trivial.
    + apply IH; trivial. now rewrite <- app_assoc.
Qed.

(** X12: in the indexed list of a node with [n] child elements (and at
    least one child that counts) there are [2 n + 3] entries; the
    [k]-th child element, counted from zero, is entry [2 (k + 1)], so
    the elements have the even indices 2, 4, ..., 2 n in document
    order; every entry at an odd index is something else than an
    element, and every child text node is held by an entry at an odd
    index. *)
Theorem indexChildNodes_positions (node : Ref) (filter : option (Ref -> N)) :
  getChildNodes node filter <> [] ->
  exists slots,
    indexChildNodes node filter = Ok slots /\
    length slots
    = (2 * length (List.filter isElementNode (getChildNodes node filter)) + 3)%nat /\
    (forall k e,
        nth_error (List.filter isElementNode (getChildNodes node filter)) k = Some e ->
        nth_error slots (2 * (k + 1)) = Some (SlNode e)) /\
    (forall i s, nth_error slots i = Some s -> Nat.odd i = true ->
                 slotIsElement s = false) /\
    (forall x, In x (getChildNodes node filter) -> isTextNode x = true ->
               exists i s, nth_error slots i = Some s /\ Nat.odd i = true /\
                           slotHolds x s = true).
Proof.
  intros NE. exists (layout (getChildNodes node filter)).
  split; [now apply indexChildNodes_layout|].
  set (l := getChildNodes node filter) in *.
  assert (Hc : content l).
  { apply Forall_forall. intros r. apply getChildNodesAt_kinds. }
  unfold layout. split; [|split; [|split]].
  - cbn [length]. rewrite length_app, layoutFrom_length. cbn [length]. lia.
  - intros k e H. replace (2 * (k + 1))%nat with (S (2 * k + 1)) by lia.
    cbn [nth_error]. rewrite nth_error_app1.
    + now apply layoutFrom_element.
    + rewrite layoutFrom_length.
      assert (k < length (List.filter isElementNode l))%nat
        by (apply nth_error_Some; congruence). lia.
  - intros [|i] s H O; [discriminate|]. cbn [nth_error] in H.
    rewrite Nat.odd_succ in O.
    destruct (Nat.lt_ge_cases i (length (layoutFrom SlFirst [] l))) as [Lt|Ge].
    + rewrite nth_error_app1 in H by exact Lt.
      rewrite (@layoutFrom_parity l Hc SlFirst [] i s (Forall_nil _) eq_refl H).
      now rewrite <- Nat.negb_even, O.
    + rewrite nth_error_app2 in H by exact Ge.
      destruct (i - length (layoutFrom SlFirst [] l))%nat as [|[|j]];
        cbn [nth_error] in H; try discriminate. now injection H as <-.
  - intros x Hin Tx.
    destruct (@layoutFrom_text l Hc SlFirst [] x Hin (text_not_element _ Tx))
      as (i & s & H1 & H2 & H3).
    exists (S i), s. split; [|split; [|exact H3]].
    + cbn [nth_error]. rewrite nth_error_app1; [exact H1|].
      apply nth_error_Some. congruence.
    + now rewrite Nat.odd_succ.
Qed.

Lemma indexChildNodes_positions_witness :
  exists slots,
    indexChildNodes rootRef None = Ok slots /\
    length slots = 9%nat /\
    nth_error slots 2 = Some (SlNode paragraphRef) /\
    nth_error slots 4 = Some (SlNode divisionRef) /\
    nth_error slots 6 = Some (SlNode sectionRef).
Proof.
  destruct (@indexChildNodes_positions rootRef None) as (slots & A & B & C & _);
    [discriminate|].
  exists slots. split; [exact A|]. split; [exact B|].
  split; [|split]; [apply (C 0%nat)|apply (C 1%nat)|apply (C 2%nat)]; reflexivity.
Defined.

(* ------------------------------------------------------------------ *)
(** ** References into the document *)

Lemma childrenFrom_valid (doc : Node) (filter : option (Ref -> N)) (n : Node) :
  forall p, getNode doc p = Some n ->
            forall r, In r (getChildNodesAt filter p n) -> validRef doc r.
Proof.
  induction n as [t i v cs IH] using Node_induction. intros p Hp r.
  rewrite getChildNodesAt_children. cbn [childNodes].
  assert (G : forall cs' k,
             Forall (fun c => forall p, getNode doc p = Some c ->
                       forall r, In r (getChildNodesAt filter p c) -> validRef doc r) cs' ->
             (forall j c, nth_error cs' j = Some c -> nth_error cs (k + j) = Some c) ->
             In r (childrenFrom filter p k cs') -> validRef doc r).
  { induction cs' as [|c cs' IHc]; intros k F Hn Hin; [contradiction|].
    apply Forall_cons_iff in F as [Fc F]. cbn [childrenFrom] in Hin.
    assert (Vc : getNode doc (k :: p) = Some c).
    { cbn [getNode]. rewrite Hp. cbn [childNodes]. rewrite <- (Nat.add_0_r k).
      now apply Hn. }
    apply in_app_or in Hin as [Hin|Hin].
    - destruct (isTextNode (mkRef (k :: p) c) || isElementNode (mkRef (k :: p) c));
        [|contradiction].
      assert (Self : In r [mkRef (k :: p) c] -> validRef doc r).
      { intros [<-|[]]. exact Vc. }
      destruct filter as [f|]; [|now apply Self].
      destruct (f (mkRef (k :: p) c) =? FILTER_REJECT)%N; [contradiction|].
      destruct (f (mkRef (k :: p) c) =? FILTER_SKIP)%N; [|now apply Self].
      now apply (Fc (k :: p)).
    - apply (IHc (S k)); trivial. intros j c' Hj.
      replace (S k + j)%nat with (k + S j)%nat by lia. now apply Hn. }
  apply G; trivial.
Qed.

Lemma getChildNodes_valid (doc : Node) (node : Ref) (filter : option (Ref -> N)) :
  validRef doc node ->
  Forall (validRef doc) (getChildNodes node filter).
Proof.
  intros V. apply Forall_forall. intros r. now apply childrenFrom_valid.
Qed.

Lemma sameNode_refl (x : Ref) : sameNode x x = true.
Proof. unfold sameNode. now destruct (list_eq_dec Nat.eq_dec (path x) (path x)). Qed.

Lemma sameNode_path (a b : Ref) : sameNode a b = true -> path a = path b.
Proof. unfold sameNode. now destruct (list_eq_dec Nat.eq_dec (path a) (path b)). Qed.

Lemma sameNode_valid (doc : Node) (a b : Ref) :
  validRef doc a -> validRef doc b -> sameNode a b = true -> a = b.
Proof.
  intros Va Vb S. apply sameNode_path in S. unfold validRef in *.
  destruct a as [pa oa], b as [pb ob]. cbn [path obj] in *. subst pb.
  rewrite Va in Vb. now injection Vb as <-.
Qed.

Lemma childrenFrom_child (q : list nat) (n : Node) (cs : list Node) :
  isContent n = true ->
  forall k j, nth_error cs j = Some n ->
              In (mkRef ((k + j)%nat :: q) n) (childrenFrom None q k cs).
Proof.
  intros C. induction cs as [|c cs IH]; intros k j H; [now destruct j|].
  cbn [childrenFrom]. apply in_or_app. destruct j as [|j]; cbn [nth_error] in H.
  - injection H as ->. left. rewrite Nat.add_0_r, isContent_ref, C. now left.
  - right. replace (k + S j)%nat with (S k + j)%nat by lia. now apply IH.
Qed.

Lemma child_in_children (q : list nat) (pn n : Node) (i : nat) :
  nth_error (childNodes pn) i = Some n ->
  isContent n = true ->
  In (mkRef (i :: q) n) (getChildNodes (mkRef q pn) None).
Proof.
  intros H C. unfold getChildNodes. cbn [path obj].
  rewrite getChildNodesAt_children. now apply (@childrenFrom_child q n _ C 0%nat i).
Qed.

Lemma childrenFrom_path (p : list nat) (cs : list Node) :
  forall k r, In r (childrenFrom None p k cs) -> exists i, path r = i :: p.
Proof.
  induction cs as [|c cs IH]; intros k r H; [contradiction|].
  cbn [childrenFrom] in H. apply in_app_or in H as [H|H]; [|now apply (IH (S k))].
  destruct (_ || _); [|contradiction]. destruct H as [<-|[]]. now exists k.
Qed.

(* ------------------------------------------------------------------ *)
(** ** Identifiers for the child elements of one parent *)

Lemma text_element_differ (doc : Node) (t x : Ref) :
  validRef doc t -> validRef doc x ->
  isElementNode t = false -> isElementNode x = true -> sameNode t x = false.
Proof.
  intros Vt Vx Et Ex. destruct (sameNode t x) eqn:S; [|reflexivity].
  rewrite (sameNode_valid Vt Vx S) in Et. congruence.
Qed.

Lemma fromElementsLoop_app (parts : list TPart) (els : list Ref) (a b : list slot) :
  forall idx results,
    fromElementsLoop parts els idx (a ++ b) results
    = fromElementsLoop parts els (idx + Z.of_nat (length a)) b
        (fromElementsLoop parts els idx a results).
Proof.
  induction a as [|s a IH]; intros idx results; cbn [app fromElementsLoop length].
  - now rewrite Z.add_0_r.
  - rewrite IH. f_equal. lia.
Qed.

(** One gap: nothing is added to the results, as long as the element
    that comes next in [els] is not the single text node of the gap. *)
Lemma fromElementsLoop_gap (doc : Node) (parts : list TPart) (els : list Ref)
  (d : slot) (pending : list Ref) (idx : Z) (results : list string) :
  d = SlFirst \/ d = SlNull \/ d = SlLast ->
  Forall (validRef doc) pending -> Forall (fun t => isElementNode t = false) pending ->
  Forall (validRef doc) els -> Forall (fun e => isElementNode e = true) els ->
  fromElementsLoop parts els idx [gap d pending] results = results.
Proof.
  intros D Vp Tp Ve Ee. cbn [fromElementsLoop].
  destruct (nth_error els (length results)) as [el|] eqn:N; [|reflexivity].
  destruct pending as [|t [|t' p]]; cbn [gap].
  - now destruct D as [->|[->| ->]].
  - apply nth_error_In in N.
    rewrite (@text_element_differ doc t el); trivial.
    + now apply Forall_inv in Vp.
    + now apply (proj1 (Forall_forall _ _) Ve).
    + now apply Forall_inv in Tp.
    + now apply (proj1 (Forall_forall _ _) Ee).
  - reflexivity.
Qed.

Lemma fromElementsLoop_layoutFrom (doc : Node) (parts : list TPart) (els : list Ref)
  (l : list Ref) :
  Forall (validRef doc) els -> Forall (fun e => isElementNode e = true) els ->
  Forall (validRef doc) l ->
  forall d pending done results,
    d = SlFirst \/ d = SlNull \/ d = SlLast ->
    Forall (validRef doc) pending -> Forall (fun t => isElementNode t = false) pending ->
    els = done ++ List.filter isElementNode l ->
    length results = length done ->
    fromElementsLoop parts els (Z.of_nat (2 * length done + 1))
                     (layoutFrom d pending l) results
    = results ++ elementCFIs parts (length done) (List.filter isElementNode l).
Proof.
  intros Ve Ee. induction l as [|x r IH]; intros Vl d pending done results D Vp Tp E L;
    cbn [layoutFrom List.filter].
  - cbn [elementCFIs]. rewrite app_nil_r.
    apply (@fromElementsLoop_gap doc); trivial. now right; right.
  - apply Forall_cons_iff in Vl as [Vx Vr]. cbn [List.filter] in E.
    destruct (isElementNode x) eqn:Ex.
    + change (gap d pending :: SlNode x :: layoutFrom SlNull [] r)
        with ([gap d pending] ++ [SlNode x] ++ layoutFrom SlNull [] r).
      rewrite !fromElementsLoop_app, (@fromElementsLoop_gap doc); trivial.
      cbn [length fromElementsLoop].
      assert (N : nth_error els (length results) = Some x).
      { rewrite E, L, nth_error_app2, Nat.sub_diag by lia. reflexivity. }
      rewrite N, sameNode_refl.
      replace (Z.of_nat (2 * length done + 1) + Z.of_nat 1 + Z.of_nat 1)%Z
        with (Z.of_nat (2 * length (done ++ [x]) + 1))
        by (rewrite length_app; cbn [length]; lia).
      rewrite (IH Vr SlNull [] (done ++ [x])); trivial.
      * cbn [elementCFIs]. rewrite <- app_assoc. cbn [app].
        replace (Z.of_nat (2 * length done + 1) + Z.of_nat 1)%Z
          with (Z.of_nat (2 * (length done + 1))) by lia.
        replace (length (done ++ [x])) with (S (length done))
          by (rewrite length_app; cbn [length]; lia).
        reflexivity.
      * now right; left.
      * now rewrite <- app_assoc.
      * rewrite !length_app. cbn [length]. lia.
    + apply IH; trivial.
      * apply Forall_app. split; [exact Vp|now constructor].
      * apply Forall_app. split; [exact Tp|now constructor].
Qed.

Lemma fromElementsLoop_marker (parts : list TPart) (els : list Ref) (s : slot)
  (idx : Z) (results : list string) :
  s = SlBefore \/ s = SlAfter ->
  fromElementsLoop parts els idx [s] results = results.
Proof.
  intros [-> | ->]; cbn [fromElementsLoop]; now destruct (nth_error els (length results)).
Qed.

(** X13: for the child elements of one parent node, all of them and in
    document order, [fromElements] returns one identifier per element,
    in the same order: the path of the parent, as [nodeToParts] gives
    it, followed by a step with the even index [2 (k + 1)] for the
    [k]-th element (counted from zero) and with the id of the element,
    and no offset. *)
Theorem fromElements_children (doc : Node) (pn : Ref) (parts : list TPart) :
  validRef doc pn ->
  List.filter isElementNode (getChildNodes pn None) <> [] ->
  nodeToParts doc pn None None = Ok parts ->
  fromElements doc (List.filter isElementNode (getChildNodes pn None))
  = Ok (elementCFIs parts 0 (List.filter isElementNode (getChildNodes pn None))).
Proof.
  intros V NE P. set (l := getChildNodes pn None) in *.
  remember (List.filter isElementNode l) as els eqn:Eels.
  assert (Vl : Forall (validRef doc) l) by now apply getChildNodes_valid.
  assert (Ve : Forall (validRef doc) els).
  { apply Forall_forall. intros e He. rewrite Eels in He. apply filter_In in He as [He _].
    now apply (proj1 (Forall_forall _ _) Vl). }
  assert (Ee : Forall (fun e => isElementNode e = true) els).
  { apply Forall_forall. intros e He. rewrite Eels in He.
    now apply filter_In in He as [_ He]. }
  assert (Nl : l <> []).
  { intros H. apply NE. now rewrite Eels, H. }
  assert (Pe : forall e0, In e0 els -> parentNode doc e0 = Some pn).
  { intros e0 He. rewrite Eels in He. apply filter_In in He as [He _].
    unfold l, getChildNodes in He. rewrite getChildNodesAt_children in He.
    apply childrenFrom_path in He as [i Hi].
    unfold parentNode. rewrite Hi. unfold validRef in V. rewrite V.
    now destruct pn. }
  unfold fromElements. destruct els as [|e0 es]; [congruence|].
  rewrite (Pe e0 (or_introl eq_refl)), P. cbn [bind]. fold l.
  rewrite (@indexChildNodes_layout pn None Nl). cbn [bind]. f_equal.
  unfold layout. fold l.
  rewrite (fromElementsLoop_app parts (e0 :: es) [SlBefore]
             (layoutFrom SlFirst [] l ++ [SlAfter])).
  rewrite fromElementsLoop_app, !fromElementsLoop_marker by auto.
  cbn [length Z.add Z.of_nat].
  pose proof (@fromElementsLoop_layoutFrom doc parts (e0 :: es) l Ve Ee Vl SlFirst [] [] [])
    as H.
  rewrite <- Eels in H.
  exact (H (or_introl eq_refl) (Forall_nil _) (Forall_nil _) eq_refl eq_refl).
Qed.

Lemma fromElements_children_witness :
  fromElements samplePackage itemRefs
  = Ok ["epubcfi(/6/2[a])"; "epubcfi(/6/4[b])"; "epubcfi(/6/6[c])"].
Proof.
  refine (eq_trans (@fromElements_children samplePackage spineRef
                      [mkPart (Num 6) None None None None (Some "") None] _ _ _) _).
  - reflexivity.
  - discriminate.
  - reflexivity.
  - reflexivity.
Defined.

(* ------------------------------------------------------------------ *)
(** ** Offsets in a chunk of text nodes *)

Lemma valueLength_nonneg (r : Ref) : (0 <= valueLength r)%Z.
Proof. unfold valueLength. destruct (nodeValue (obj r)); lia. Qed.

Lemma totalLength_cons (x : Ref) (r : list Ref) :
  totalLength (x :: r) = (valueLength x + totalLength r)%Z.
Proof. reflexivity. Qed.

Lemma totalLength_nonneg (rs : list Ref) : (0 <= totalLength rs)%Z.
Proof.
  induction rs as [|x r IH]; [cbn; lia|]. rewrite totalLength_cons.
  pose proof (valueLength_nonneg x). lia.
Qed.


Lemma chunkOffset_at (before : list Ref) (x : Ref) (after : list Ref) :
  Forall (fun r => nodeValue (obj r) <> None) (before ++ [x]) ->
  forall sum off,
    (sum + totalLength before < off <= sum + totalLength before + valueLength x)%Z ->
    chunkOffset sum off (before ++ x :: after)
    = Ok (LNode (CNode x) (Some (Num (off - sum - totalLength before)))).
Proof.
  induction before as [|n r IH]; intros V sum off B; cbn [app chunkOffset].
  - apply Forall_inv in V. destruct (nodeValue (obj x)) as [v|] eqn:E; [|congruence].
    assert (L : Z.of_nat (String.length v) = valueLength x).
    { unfold valueLength. now rewrite E. }
    rewrite L. change (totalLength []) with 0%Z in *.
    destruct (Z.geb_spec (sum + valueLength x) off); [|lia]. do 4 f_equal. lia.
  - cbn [app] in V. apply Forall_cons_iff in V as [Vn Vr].
    rewrite totalLength_cons in *.
    destruct (nodeValue (obj n)) as [v|] eqn:E; [|congruence].
    assert (L : Z.of_nat (String.length v) = valueLength n).
    { unfold valueLength. now rewrite E. }
    rewrite L. pose proof (totalLength_nonneg r).
    destruct (Z.geb_spec (sum + valueLength n) off); [lia|].
    rewrite IH by (trivial; lia). do 4 f_equal. lia.
Qed.

Lemma chunkSum_at (before : list Ref) (x : Ref) (after : list Ref) (node : Ref)
  (off : option number) :
  Forall (fun r => sameNode r node = false) before ->
  sameNode x node = true ->
  forall sum,
    chunkSum (Num sum) node off (before ++ x :: after)
    = plus (Num (sum + totalLength before)) (match off with Some o => o | None => Num 0 end).
Proof.
  intros F S. induction before as [|n r IH]; intros sum; cbn [app chunkSum].
  - rewrite S. change (totalLength []) with 0%Z. now rewrite Z.add_0_r.
  - apply Forall_cons_iff in F as [Fn Fr]. rewrite Fn.
    replace (plus (Num sum)
               match nodeValue (obj n) with
               | Some v => Num (Z.of_nat (String.length v))
               | None => Num 0
               end) with (Num (sum + valueLength n)).
    + rewrite (IH Fr), totalLength_cons. do 2 f_equal. lia.
    + unfold valueLength. now destruct (nodeValue (obj n)).
Qed.

Lemma first_match {A} (f : A -> bool) (l : list A) :
  existsb f l = true ->
  exists before x after,
    l = before ++ x :: after /\ Forall (fun y => f y = false) before /\ f x = true.
Proof.
  induction l as [|a l IH]; [discriminate|]. cbn [existsb].
  destruct (f a) eqn:E.
  - intros _. exists [], a, l. split; [reflexivity|]. split; [constructor|exact E].
  - cbn [orb]. intros H. destruct (IH H) as (before & x & after & -> & F & Fx).
    exists (a :: before), x, after. split; [reflexivity|]. split; [now constructor|exact Fx].
Qed.

(* ------------------------------------------------------------------ *)
(** ** Well-formed documents *)

Lemma wellFormedNode_child (pn n : Node) (i : nat) :
  wellFormedNode pn = true ->
  nth_error (childNodes pn) i = Some n ->
  nodeType pn = 1%N /\ wellFormedNode n = true.
Proof.
  destruct pn as [t j v cs]. cbn [wellFormedNode childNodes nodeType]. intros W H.
  apply andb_true_iff in W as [W Wc]. apply andb_true_iff in W as [Wt _].
  split.
  - destruct cs; [now destruct i|]. now apply N.eqb_eq.
  - apply nth_error_In in H. now apply (proj1 (forallb_forall _ _) Wc).
Qed.

Lemma wellFormed_getNode (doc : Node) (p : list nat) (n : Node) :
  wellFormed doc = true -> p <> [] -> getNode doc p = Some n -> wellFormedNode n = true.
Proof.
  intros W. revert n. induction p as [|i q IH]; intros n NE H; [congruence|].
  cbn [getNode] in H. destruct (getNode doc q) as [pn|] eqn:Q; [|discriminate].
  destruct q as [|j q'].
  - cbn [getNode] in Q. injection Q as <-. apply nth_error_In in H.
    now apply (proj1 (forallb_forall _ _) W).
  - now apply (@wellFormedNode_child pn n i (IH pn ltac:(discriminate) eq_refl)).
Qed.

Lemma wellFormedNode_value (r : Ref) :
  wellFormedNode (obj r) = true -> isTextNode r = true -> nodeValue (obj r) <> None.
Proof.
  unfold isTextNode. destruct (obj r) as [t j v cs]. cbn [wellFormedNode nodeType nodeValue].
  intros W T. apply andb_true_iff in W as [W _]. apply andb_true_iff in W as [_ W].
  rewrite T in W. now destruct v.
Qed.

Lemma firstElementFrom_spec (cs : list Node) :
  forall k root,
    firstElementFrom k cs = Some root ->
    exists j, path root = [(k + j)%nat] /\ nth_error cs j = Some (obj root) /\
              nodeType (obj root) = 1%N.
Proof.
  induction cs as [|c cs IH]; intros k root; cbn [firstElementFrom]; [discriminate|].
  destruct (nodeType c =? 1)%N eqn:E.
  - intros [= <-]. exists 0%nat. cbn. rewrite Nat.add_0_r. repeat split.
    now apply N.eqb_eq.
  - intros H. destruct (IH _ _ H) as (j & P & Nj & T). exists (S j).
    repeat split; trivial. rewrite P. f_equal. lia.
Qed.

Lemma documentElement_valid (doc : Node) (root : Ref) :
  documentElement doc = Some root ->
  validRef doc root /\ (exists i, path root = [i]) /\ isElementNode root = true.
Proof.
  intros H. apply firstElementFrom_spec in H as (j & P & Nj & T).
  repeat split.
  - unfold validRef. rewrite P. exact Nj.
  - now exists (0 + j)%nat.
  - unfold isElementNode. now rewrite T.
Qed.

(* ------------------------------------------------------------------ *)
(** ** Where a child sits in the indexed list of its parent *)

Lemma layoutFrom_slots (l : list Ref) :
  content l ->
  forall d pending s,
    d = SlFirst \/ d = SlNull ->
    textual pending ->
    In s (layoutFrom d pending l) ->
    match s with
    | SlNode r => In r (pending ++ l)
    | SlChunk rs => incl rs (pending ++ l) /\ textual rs
    | _ => True
    end.
Proof.
  assert (G : forall d pending, d = SlFirst \/ d = SlNull \/ d = SlLast -> textual pending ->
            match gap d pending with
            | SlNode r => In r pending
            | SlChunk rs => incl rs pending /\ textual rs
            | _ => True
            end).
  { intros d pending D T. destruct pending as [|t [|t' p]]; cbn [gap].
    - now destruct D as [->|[->| ->]].
    - now left.
    - split; [apply incl_refl|exact T]. }
  induction l as [|x r IH]; intros Hc d pending s D T Hin; cbn [layoutFrom] in Hin.
  - destruct Hin as [<-|[]]. rewrite app_nil_r. apply G; auto.
  - apply Forall_cons_iff in Hc as [Hx Hr]. destruct (isElementNode x) eqn:E.
    + destruct Hin as [<-|[<-|Hin]].
      * assert (D' : d = SlFirst \/ d = SlNull \/ d = SlLast) by tauto.
        specialize (G d pending D' T). destruct (gap d pending); trivial.
        -- apply in_or_app. now left.
        -- destruct G as [G1 G2]. split; [|exact G2].
           intros y Hy. apply in_or_app. left. now apply G1.
      * apply in_or_app. right. now left.
      * specialize (IH Hr SlNull [] s (or_intror eq_refl) (Forall_nil _) Hin).
        destruct s; trivial.
        -- apply in_or_app. right. now right.
        -- destruct IH as [I1 I2]. split; [|exact I2].
           intros y Hy. apply in_or_app. right. right. now apply I1.
    + assert (T' : textual (pending ++ [x])) by (apply textual_snoc; trivial; now rewrite E).
      specialize (IH Hr d (pending ++ [x]) s D T' Hin).
      rewrite <- app_assoc in IH. exact IH.
Qed.

Lemma layoutFrom_holds (l : list Ref) :
  forall d pending x,
    In x (pending ++ l) ->
    exists s, In s (layoutFrom d pending l) /\ slotHolds x s = true.
Proof.
  induction l as [|y r IH]; intros d pending x Hin; cbn [layoutFrom].
  - rewrite app_nil_r in Hin. exists (gap SlLast pending). split; [now left|].
    now apply gap_holds.
  - destruct (isElementNode y).
    + apply in_app_or in Hin as [Hin|[->|Hin]].
      * exists (gap d pending). split; [now left|now apply gap_holds].
      * exists (SlNode x). split; [right; now left|apply sameNode_refl].
      * destruct (IH SlNull [] x Hin) as (s & H1 & H2). exists s.
        split; [right; now right|exact H2].
    + apply IH. now rewrite <- app_assoc.
Qed.

Lemma findIndexFrom_found (x : Ref) (slots : list slot) :
  (exists s, In s slots /\ slotHolds x s = true) ->
  forall i, exists j s,
      findIndexFrom i x slots = (i + Z.of_nat j)%Z /\
      nth_error slots j = Some s /\ slotHolds x s = true.
Proof.
  induction slots as [|a slots IH]; intros (s & Hin & Hs) i; [contradiction|].
  cbn [findIndexFrom]. destruct (slotHolds x a) eqn:E.
  - exists 0%nat, a. repeat split; trivial. lia.
  - destruct Hin as [->|Hin]; [congruence|].
    destruct (IH (ex_intro _ s (conj Hin Hs)) (i + 1)%Z) as (j & s' & A & B & C).
    exists (S j), s'. repeat split; trivial. rewrite A. lia.
Qed.

Lemma at_nat {A} (arr : list A) (j : nat) : at_ arr (Num (Z.of_nat j)) = nth_error arr j.
Proof.
  unfold at_. destruct (Z.ltb_spec (Z.of_nat j) 0); [lia|]. now rewrite Nat2Z.id.
Qed.

Lemma slot_of_child (doc : Node) (parent x : Ref) :
  validRef doc parent ->
  In x (getChildNodes parent None) ->
  exists j s,
    indexChildNodes parent None = Ok (layout (getChildNodes parent None)) /\
    findIndexFrom 0 x (layout (getChildNodes parent None)) = Z.of_nat j /\
    nth_error (layout (getChildNodes parent None)) j = Some s /\
    slotOf (getChildNodes parent None) x s.
Proof.
  intros V Hin. set (l := getChildNodes parent None) in *.
  assert (Vl : Forall (validRef doc) l) by now apply getChildNodes_valid.
  assert (Hc : content l).
  { apply Forall_forall. intros r. apply getChildNodesAt_kinds. }
  assert (Nl : l <> []) by (intros E; now rewrite E in Hin).
  destruct (@layoutFrom_holds l SlFirst [] x Hin) as (s0 & H0 & S0).
  assert (Hs : exists s, In s (layout l) /\ slotHolds x s = true).
  { exists s0. split; [|exact S0]. unfold layout. right. apply in_or_app. now left. }
  destruct (@findIndexFrom_found x (layout l) Hs 0%Z) as (j & s & A & B & C).
  exists j, s. split; [now apply indexChildNodes_layout|]. split; [exact A|].
  split; [exact B|].
  assert (Vx : validRef doc x) by now apply (proj1 (Forall_forall _ _) Vl).
  assert (Hl : In s (layoutFrom SlFirst [] l) \/ s = SlBefore \/ s = SlAfter).
  { apply nth_error_In in B. unfold layout in B. destruct B as [<-|B]; [now right; left|].
    apply in_app_or in B as [B|[<-|[]]]; [now left|now right; right]. }
  destruct Hl as [Hl|[-> | ->]]; [|discriminate|discriminate].
  pose proof (@layoutFrom_slots l Hc SlFirst [] s (or_introl eq_refl) (Forall_nil _) Hl) as Sl.
  destruct s as [r|rs| | | | |]; try discriminate; cbn [app] in Sl.
  - left. f_equal. cbn [slotHolds] in C.
    apply (sameNode_valid (proj1 (Forall_forall _ _) Vl r Sl) Vx C).
  - right. destruct Sl as [Inc T]. cbn [slotHolds] in C.
    destruct (first_match _ _ C) as (before & y & after & -> & F & Sy).
    assert (y = x).
    { apply (@sameNode_valid doc); trivial.
      apply (proj1 (Forall_forall _ _) Vl). apply Inc. apply in_or_app. right. now left. }
    subst y. now exists before, after.
Qed.

(* ------------------------------------------------------------------ *)
(** ** From a node to its path and back *)

Section Descent.

Variable doc : Node.
Variable root : Ref.
Hypothesis W : wellFormed doc = true.
Hypothesis R : documentElement doc = Some root.

Lemma parent_is_element (q : list nat) (pn n : Node) (i : nat) :
  q <> [] ->
  getNode doc q = Some pn ->
  nth_error (childNodes pn) i = Some n ->
  nodeType pn = 1%N /\ isContent pn = true /\ isElementNode (mkRef q pn) = true.
Proof.
  intros NE Hq Hi.
  destruct (@wellFormedNode_child pn n i (wellFormed_getNode _ W NE Hq) Hi) as [T _].
  unfold isContent, isElementNode. cbn [obj]. now rewrite T.
Qed.

Lemma slotOf_element (l : list Ref) (x : Ref) (s : slot) :
  isElementNode x = true -> slotOf l x s -> s = SlNode x.
Proof.
  intros E [->|(before & after & -> & _ & T & _)]; [reflexivity|].
  apply Forall_app in T as [_ T]. apply Forall_inv in T.
  now rewrite text_not_element in E.
Qed.

Lemma part_is_valid (j : nat) (o : option number) (i : option string) :
  indexIsValid (mkPart (Num (Z.of_nat j)) o None None None i None) = true.
Proof.
  unfold indexIsValid, strictEq. cbn [index].
  destruct (Z.eqb_spec (Z.of_nat j) (-1)); [lia|reflexivity].
Qed.

Lemma climb (pre : list nat) :
  forall i n,
    getNode doc (i :: pre ++ path root) = Some n ->
    isContent n = true ->
    exists front pn j s,
      getNode doc (pre ++ path root) = Some pn /\
      length front = length pre /\
      Forall ancestorPart front /\
      walkParts None (CNode root) front
      = Ok (Next (CNode (mkRef (pre ++ path root) pn))) /\
      indexChildNodes (mkRef (pre ++ path root) pn) None
      = Ok (layout (getChildNodes (mkRef (pre ++ path root) pn) None)) /\
      nth_error (layout (getChildNodes (mkRef (pre ++ path root) pn) None)) j = Some s /\
      slotOf (getChildNodes (mkRef (pre ++ path root) pn) None)
             (mkRef (i :: pre ++ path root) n) s /\
      forall off,
        nodeToPartsAt doc None (i :: pre ++ path root) off
        = Ok (front ++ [levelPart (mkRef (i :: pre ++ path root) n) j s off]).
Proof.
  destruct (documentElement_valid _ R) as (Vr & (r0 & Pr) & Er).
  induction pre as [|i' pre IH]; intros i n H C.
  - cbn [app] in *. cbn [getNode] in H.
    destruct (getNode doc (path root)) as [pn|] eqn:Hq; [|discriminate].
    assert (Epn : pn = obj root) by (unfold validRef in Vr; congruence). subst pn.
    assert (Eroot : mkRef (path root) (obj root) = root) by now destruct root.
    destruct (@slot_of_child doc root (mkRef (i :: path root) n) Vr) as (j & s & A & B & D & E).
    { rewrite <- Eroot at 1. now apply child_in_children. }
    exists [], (obj root), j, s.
    rewrite Eroot. repeat split; trivial. intros off.
    rewrite nodeToPartsAt_cons. cbn [getNode]. rewrite Hq, H, Eroot, A. cbn [bind].
    rewrite B, at_nat, D, R. cbn [sameOpt]. rewrite sameNode_refl. cbn [negb bind List.filter].
    unfold levelPart. cbn [obj]. rewrite part_is_valid. reflexivity.
  - cbn [getNode] in H.
    destruct (getNode doc ((i' :: pre) ++ path root)) as [pn|] eqn:Hq; [|discriminate].
    set (q := (i' :: pre) ++ path root) in *.
    assert (NEq : q <> []) by discriminate.
    destruct (parent_is_element _ NEq Hq H) as (Tp & Cp & Ep).
    assert (Vq : validRef doc (mkRef q pn)) by exact Hq.
    destruct (@slot_of_child doc (mkRef q pn) (mkRef (i :: q) n) Vq) as (j & s & A & B & D & E).
    { now apply child_in_children. }
    destruct (IH i' pn Hq Cp)
      as (front' & gp & j' & s' & G1 & G3 & GA & G4 & G5 & G6 & G7 & G2).
    change (i' :: pre ++ path root) with q in G2, G7.
    apply (slotOf_element Ep) in G7. subst s'.
    exists (front' ++ [levelPart (mkRef q pn) j' (SlNode (mkRef q pn)) None]), pn, j, s.
    repeat split; trivial.
    + rewrite length_app, G3. cbn [length]. lia.
    + apply Forall_app. split; [exact GA|]. constructor; [|constructor].
      split; [reflexivity|]. now exists j'.
    + rewrite walkParts_app, G4. cbn [bind walkParts walkStep].
      rewrite G5. cbn [bind]. cbn [levelPart index]. now rewrite at_nat, G6.
    + intros off.
      rewrite nodeToPartsAt_cons. cbn [getNode]. fold q. rewrite Hq, H, A. cbn [bind].
      rewrite B, at_nat, D, R. cbn [sameOpt].
      assert (Sq : sameNode (mkRef q pn) root = false).
      { destruct (sameNode (mkRef q pn) root) eqn:Sq; [|reflexivity].
        apply sameNode_path in Sq. cbn [path] in Sq. unfold q in Sq.
        rewrite Pr in Sq. cbn in Sq. injection Sq as _ Sq. now destruct pre. }
      rewrite Sq. cbn [negb]. rewrite (G2 None). cbn [bind].
      rewrite filter_app, (filter_all _ (nodeToPartsAt_valid _ _ _ _ (G2 None))).
      cbn [List.filter]. unfold levelPart at 2. cbn [obj]. now rewrite part_is_valid.
Qed.

End Descent.

Lemma chunk_values (doc : Node) (parent : Ref) (rs : list Ref) :
  wellFormed doc = true ->
  validRef doc parent ->
  incl rs (getChildNodes parent None) -> textual rs ->
  Forall (fun r => nodeValue (obj r) <> None) rs.
Proof.
  intros W V Inc T. apply Forall_forall. intros r Hr.
  pose proof (proj1 (Forall_forall _ _) T r Hr) as Tr. cbn beta in Tr.
  pose proof (Inc r Hr) as Hl.
  pose proof (proj1 (Forall_forall _ _) (getChildNodes_valid None V) r Hl) as Vr.
  unfold getChildNodes in Hl. rewrite getChildNodesAt_children in Hl.
  apply childrenFrom_path in Hl as [k Pk].
  apply wellFormedNode_value; [|exact Tr].
  apply (@wellFormed_getNode doc (path r)); trivial. now rewrite Pk.
Qed.

(** X14: in a well-formed document, take a text node or an element
    below the root element that has no id (or an empty one), and a
    positive offset that, for a text node, does not exceed the length
    of its value.  Then [nodeToParts] returns a path with one part for
    the node and one for each ancestor below the root element, and
    [partsToNode] resolves that path, from the root element, to the
    same node with the same offset; the offset that [nodeToParts]
    counts from the start of a chunk of adjacent text nodes is turned
    back into the offset in the node. *)
Theorem nodeToParts_partsToNode (doc : Node) (root : Ref) (pre : list nat) (i : nat)
  (n : Node) (o : Z) :
  wellFormed doc = true ->
  documentElement doc = Some root ->
  getNode doc (i :: pre ++ path root) = Some n ->
  isContent n = true ->
  nodeId n = None \/ nodeId n = Some ""%string ->
  (0 < o)%Z ->
  (isTextNode (mkRef (i :: pre ++ path root) n) = true ->
   (o <= valueLength (mkRef (i :: pre ++ path root) n))%Z) ->
  exists parts,
    nodeToParts doc (mkRef (i :: pre ++ path root) n) (Some (Num o)) None = Ok parts /\
    length parts = S (length pre) /\
    partsToNode doc root (Some parts) None
    = Ok (LNode (CNode (mkRef (i :: pre ++ path root) n)) (Some (Num o))).
Proof.
  intros W R H C I Po Bo. set (x := mkRef (i :: pre ++ path root) n) in *.
  destruct (@climb doc root W R pre i n H C)
    as (front & pn & j & s & G1 & G3 & _ & G4 & G5 & G6 & G7 & G2).
  fold x in G7, G2. specialize (G2 (Some (Num o))).
  set (last := levelPart x j s (Some (Num o))) in *.
  assert (G8 : last = mkPart (Num (Z.of_nat j))
                 (match s with
                  | SlChunk chunk => Some (chunkSum (Num 0) x (Some (Num o)) chunk)
                  | _ => Some (Num o)
                  end) None None None (nodeId n) None) by reflexivity.
  clearbody last.
  exists (front ++ [last]). split; [exact G2|]. split.
  { rewrite length_app, G3. cbn [length]. lia. }
  unfold partsToNode. rewrite nth_error_last_snoc.
  assert (L : lookupId doc last = None).
  { unfold lookupId. rewrite G8. cbn [id]. now destruct I as [-> | ->]. }
  rewrite L, walkParts_app, G4. cbn [bind walkParts walkStep]. rewrite G5. cbn [bind].
  assert (Ei : index last = Num (Z.of_nat j)) by now rewrite G8.
  rewrite Ei, at_nat, G6.
  assert (To : truthy (Num o) = true).
  { cbn. destruct (Z.eqb_spec o 0); [lia|reflexivity]. }
  destruct G7 as [->|(before & after & -> & F & T & Inc)].
  - rewrite G8. cbn [offset]. now rewrite To.
  - rewrite G8. cbn [offset].
    rewrite (@chunkSum_at before x after x (Some (Num o)) F (sameNode_refl x)).
    cbn [plus]. pose proof (totalLength_nonneg before) as Nb.
    assert (Tt : truthy (Num (0 + totalLength before + o)) = true).
    { cbn. destruct (Z.eqb_spec (totalLength before + o) 0); [lia|reflexivity]. }
    rewrite Tt. cbn [negb].
    assert (Tx : isTextNode x = true).
    { apply Forall_app in T as [_ T]. now apply Forall_inv in T. }
    cbn [bind]. rewrite chunkOffset_at.
    + do 4 f_equal. lia.
    + assert (V : Forall (fun r => nodeValue (obj r) <> None) (before ++ x :: after)).
      { apply (@chunk_values doc (mkRef (pre ++ path root) pn)); trivial. }
      apply Forall_app in V as [V1 V2]. apply Forall_app. split; [exact V1|].
      constructor; [now apply Forall_inv in V2|constructor].
    + specialize (Bo Tx). lia.
Qed.

Lemma nodeToParts_partsToNode_witness :
  exists parts,
    nodeToParts sampleDoc (mkRef [1; 1; 1]%nat (textNode "cd")) (Some (Num 1)) None
    = Ok parts /\
    length parts = 2%nat /\
    partsToNode sampleDoc rootRef (Some parts) None
    = Ok (LNode (CNode (mkRef [1; 1; 1]%nat (textNode "cd"))) (Some (Num 1))).
Proof.
  apply (@nodeToParts_partsToNode sampleDoc rootRef [1%nat] 1%nat (textNode "cd") 1);
    try reflexivity.
  - now left.
  - intros _. vm_compute. discriminate.
Defined.



(* ------------------------------------------------------------------ *)
(** ** The virtual positions *)

Lemma layoutFrom_last (l : list Ref) :
  forall d pending,
    closes pending l = true ->
    nth_error (layoutFrom d pending l) (2 * length (List.filter isElementNode l))
    = Some SlLast.
Proof.
  induction l as [|x r IH]; intros d pending; cbn [layoutFrom closes List.filter].
  - now destruct pending.
  - destruct (isElementNode x); [|apply IH]. intros H. cbn [length].
    replace (2 * S (length (List.filter isElementNode r)))%nat
      with (S (S (2 * length (List.filter isElementNode r)))) by lia.
    cbn [nth_error]. now apply IH.
Qed.

Lemma layout_first (l : list Ref) :
  headIsElement l = true -> nth_error (layout l) 1 = Some SlFirst.
Proof.
  destruct l as [|x r]; [discriminate|]. cbn [headIsElement]. intros H.
  unfold layout. cbn [layoutFrom]. now rewrite H.
Qed.

(** The steps 0, 1, [2 n + 1] and [2 n + 2] at a node with a child
    that counts, on a path whose last part has no id that the document
    resolves. *)
Lemma virtual_steps (doc : Node) (root node : Ref) (filter : option (Ref -> N))
  (pre : list TPart) (p : TPart) (rest : list TPart) (last : TPart) :
  walkParts filter (CNode root) pre = Ok (Next (CNode node)) ->
  getChildNodes node filter <> [] ->
  nth_error (pre ++ p :: rest) (length (pre ++ p :: rest) - 1) = Some last ->
  lookupId doc last = None ->
  let l := getChildNodes node filter in
  let n := length (List.filter isElementNode l) in
  (index p = Num 0 ->
     partsToNode doc root (Some (pre ++ p :: rest)) filter = Ok (LBefore node)) /\
  (index p = Num (Z.of_nat (2 * n + 2)) ->
     partsToNode doc root (Some (pre ++ p :: rest)) filter = Ok (LAfter node)) /\
  (index p = Num 1 -> headIsElement l = true ->
     partsToNode doc root (Some (pre ++ p :: rest)) filter
     = Ok (LNode (CNode (orSelf (firstChild node) node)) None)) /\
  (index p = Num (Z.of_nat (2 * n + 1)) -> closes [] l = true ->
     partsToNode doc root (Some (pre ++ p :: rest)) filter
     = Ok (LNode (CNode (orSelf (lastChild node) node)) None)).
Proof.
  intros Wk NE L I l n.
  assert (E : forall s,
             at_ (layout l) (index p) = Some s ->
             partsToNode doc root (Some (pre ++ p :: rest)) filter
             = w <- Ok (match s with
                        | SlFirst => Return (LNode (CNode (orSelf (firstChild node) node)) None)
                        | SlLast => Return (LNode (CNode (orSelf (lastChild node) node)) None)
                        | SlBefore => Return (LBefore node)
                        | SlAfter => Return (LAfter node)
                        | SlNode c => Next (CNode c)
                        | SlChunk c => Next (CChunk c)
                        | SlNull => Next CNull
                        end) ;;
               match w with
               | Return r => Ok r
               | Next c =>
                   w' <- walkParts filter c rest ;;
                   match w' with
                   | Return r => Ok r
                   | Next node' =>
                       match offset last with
                       | None => Ok LNull
                       | Some o =>
                           if negb (truthy o) then Ok LNull
                           else match node', o with
                                | CChunk ns, Num off => chunkOffset 0 off ns
                                | _, _ => Ok (LNode node' (Some o))
                                end
                       end
                   end
               end).
  { intros s Hs. unfold partsToNode. rewrite L, I, walkParts_app, Wk.
    cbn [bind walkParts walkStep].
    rewrite (@indexChildNodes_layout node filter NE). fold l. cbn [bind]. rewrite Hs.
    destruct s; cbn [bind]; try reflexivity;
      now destruct (walkParts filter _ rest) as [[]|]. }
  assert (Len : length (layoutFrom SlFirst [] l) = (2 * n + 1)%nat)
    by apply layoutFrom_length.
  split; [|split; [|split]].
  - intros Hp. rewrite Hp in E. now rewrite (E SlBefore).
  - intros Hp. rewrite Hp in E. rewrite (E SlAfter); [reflexivity|].
    rewrite at_nat. unfold layout. replace (2 * n + 2)%nat with (S (2 * n + 1)) by lia.
    cbn [nth_error]. rewrite nth_error_app2 by lia.
    rewrite Len, Nat.sub_diag. reflexivity.
  - intros Hp H. rewrite Hp in E. rewrite (E SlFirst); [reflexivity|].
    change (Num 1) with (Num (Z.of_nat 1)). rewrite at_nat. now apply layout_first.
  - intros Hp H. rewrite Hp in E. rewrite (E SlLast); [reflexivity|].
    rewrite at_nat. unfold layout. replace (2 * n + 1)%nat with (S (2 * n)) by lia.
    cbn [nth_error]. rewrite nth_error_app1 by lia. now apply layoutFrom_last.
Qed.

(** X16: let the first steps of a path lead to a node, let one more
    step follow, and perhaps more parts after it.  When the last part
    of the path has an id that the document resolves, [partsToNode]
    returns the element with that id and the offset 0, whatever the
    steps are.  Otherwise, when the node has no child that counts (no
    element or character data that passes the filter), [partsToNode]
    raises a TypeError, whatever the step is.  Otherwise, with [n] the
    number of child elements of the node, the steps 0 and [2 n + 2] are
    valid: [partsToNode] returns the node itself, flagged [before] for
    the step 0 and [after] for the step [2 n + 2]; the step 1, when the
    first child that counts is an element, gives the first child of the
    node, and the step [2 n + 1], when the last child that counts is an
    element, gives its last child, both without an offset.  In these
    four cases the parts that follow the step and the offset of the
    last part are not looked at. *)
Theorem partsToNode_virtual (doc : Node) (root node : Ref) (filter : option (Ref -> N))
  (pre : list TPart) (p : TPart) (rest : list TPart) (last : TPart) :
  walkParts filter (CNode root) pre = Ok (Next (CNode node)) ->
  nth_error (pre ++ p :: rest) (length (pre ++ p :: rest) - 1) = Some last ->
  let l := getChildNodes node filter in
  let n := length (List.filter isElementNode l) in
  (forall el, lookupId doc last = Some el ->
     partsToNode doc root (Some (pre ++ p :: rest)) filter
     = Ok (LNode (CNode el) (Some (Num 0)))) /\
  (lookupId doc last = None -> l = [] ->
     partsToNode doc root (Some (pre ++ p :: rest)) filter = Throw TypeError) /\
  (lookupId doc last = None -> l <> [] ->
     (index p = Num 0 ->
        partsToNode doc root (Some (pre ++ p :: rest)) filter = Ok (LBefore node)) /\
     (index p = Num (Z.of_nat (2 * n + 2)) ->
        partsToNode doc root (Some (pre ++ p :: rest)) filter = Ok (LAfter node)) /\
     (index p = Num 1 -> headIsElement l = true ->
        partsToNode doc root (Some (pre ++ p :: rest)) filter
        = Ok (LNode (CNode (orSelf (firstChild node) node)) None)) /\
     (index p = Num (Z.of_nat (2 * n + 1)) -> closes [] l = true ->
        partsToNode doc root (Some (pre ++ p :: rest)) filter
        = Ok (LNode (CNode (orSelf (lastChild node) node)) None))).
Proof.
  intros Wk L l n. split; [|split].
  - intros el I. unfold partsToNode. now rewrite L, I.
  - intros I E. unfold partsToNode. rewrite L, I, walkParts_app, Wk.
    cbn [bind walkParts walkStep]. unfold indexChildNodes. fold l. now rewrite E.
  - intros I NE. exact (@virtual_steps doc root node filter pre p rest last Wk NE L I).
Qed.

Lemma partsToNode_virtual_witness :
  partsToNode sampleDoc rootRef (Some [newPart (Num 0)]) None = Ok (LBefore rootRef) /\
  partsToNode sampleDoc rootRef (Some [newPart (Num 8); newPart (Num 2)]) None
  = Ok (LAfter rootRef) /\
  partsToNode sampleDoc rootRef (Some [newPart (Num 6); newPart (Num 1)]) None
  = Ok (LNode (CNode quoteRef) None) /\
  partsToNode sampleDoc rootRef (Some [newPart (Num 4); newPart (Num 0)]) None
  = Throw TypeError /\
  partsToNode sampleDoc rootRef
              (Some [newPart (Num 0); mkPart (Num 4) None None None None (Some "q") None])
              None
  = Ok (LNode (CNode quoteRef) (Some (Num 0))).
Proof.
  split; [|split; [|split; [|split]]].
  - refine (proj1 (proj2 (proj2 (@partsToNode_virtual sampleDoc rootRef rootRef None []
                                   (newPart (Num 0)) [] (newPart (Num 0)) eq_refl eq_refl))
                     eq_refl _) eq_refl).
    discriminate.
  - refine (proj1 (proj2 (proj2 (proj2 (@partsToNode_virtual sampleDoc rootRef rootRef None
                                          [] (newPart (Num 8)) [newPart (Num 2)]
                                          (newPart (Num 2)) eq_refl eq_refl))
                            eq_refl _)) eq_refl).
    discriminate.
  - refine (proj1 (proj2 (proj2 (proj2 (proj2 (@partsToNode_virtual sampleDoc rootRef
                                                 sectionRef None [newPart (Num 6)]
                                                 (newPart (Num 1)) [] (newPart (Num 1))
                                                 eq_refl eq_refl))
                                   eq_refl _))) eq_refl eq_refl).
    discriminate.
  - exact (proj1 (proj2 (@partsToNode_virtual sampleDoc rootRef divisionRef None
                           [newPart (Num 4)] (newPart (Num 0)) [] (newPart (Num 0))
                           eq_refl eq_refl))
                 eq_refl eq_refl).
  - exact (proj1 (@partsToNode_virtual sampleDoc rootRef rootRef None []
                    (newPart (Num 0))
                    [mkPart (Num 4) None None None None (Some "q") None]
                    (mkPart (Num 4) None None None None (Some "q") None)
                    eq_refl eq_refl)
                 quoteRef eq_refl).
Defined.

(** X17: in a well-formed document, the path that [nodeToParts]
    derives for an element below the root element that has a non-empty
    id ends in a part with that id, and [partsToNode] resolves it to
    the first element of the document that has the id, with the offset
    0: the steps of the path, the offset that was given and the filter
    play no role.  When the element is the first one with its id, it is
    found again. *)
Theorem element_with_id_resolves (doc : Node) (root : Ref) (pre : list nat) (i : nat)
  (n : Node) (x : string) (found : Ref) (off : option number)
  (filter : option (Ref -> N)) :
  wellFormed doc = true ->
  documentElement doc = Some root ->
  getNode doc (i :: pre ++ path root) = Some n ->
  nodeType n = 1%N ->
  nodeId n = Some x -> nonEmpty x = true ->
  getElementById doc x = Some found ->
  exists front last,
    nodeToParts doc (mkRef (i :: pre ++ path root) n) off None = Ok (front ++ [last]) /\
    id last = Some x /\
    partsToNode doc root (Some (front ++ [last])) filter
    = Ok (LNode (CNode found) (Some (Num 0))).
Proof.
  intros W R H T I NE G.
  assert (C : isContent n = true) by (unfold isContent; now rewrite T).
  destruct (@climb doc root W R pre i n H C)
    as (front & pn & j & s & _ & _ & _ & _ & _ & _ & _ & G2).
  exists front, (levelPart (mkRef (i :: pre ++ path root) n) j s off).
  split; [apply G2|]. split; [exact I|].
  unfold partsToNode. rewrite nth_error_last_snoc.
  unfold lookupId, levelPart. cbn [id obj]. now rewrite I, NE, G.
Qed.

Lemma element_with_id_resolves_witness :
  exists front last,
    nodeToParts sampleDoc quoteRef (Some (Num 7)) None = Ok (front ++ [last]) /\
    id last = Some "q" /\
    partsToNode sampleDoc rootRef (Some (front ++ [last])) None
    = Ok (LNode (CNode quoteRef) (Some (Num 0))).
Proof.
  apply (@element_with_id_resolves sampleDoc rootRef [4%nat] 0%nat sampleQuote "q" quoteRef
           (Some (Num 7)) None); reflexivity.
Defined.

(* ------------------------------------------------------------------ *)
(** ** Ranges inside one node *)





(* ------------------------------------------------------------------ *)
(** ** White space *)

Lemma spaced_weaken (t : string) (b : bool) : spaced true t = true -> spaced b t = true.
Proof.
  destruct t as [|c r]; [reflexivity|]. cbn [spaced].
  destruct (isAsciiWhitespace c); [|trivial]. now rewrite andb_false_r.
Qed.

Lemma collapseRuns_spaced (s : string) : forall b, spaced b (collapseRuns b s) = true.
Proof.
  induction s as [|c r IH]; intros b; [reflexivity|]. cbn [collapseRuns].
  destruct (isAsciiWhitespace c) eqn:E.
  - destruct b; [apply IH|]. cbn [spaced]. change (isAsciiWhitespace " ") with true.
    cbn. apply IH.
  - cbn [spaced]. rewrite E. apply IH.
Qed.

Lemma stripLeading_spaced (t : string) (b : bool) :
  spaced b t = true -> spaced true (stripLeading t) = true.
Proof.
  revert b. induction t as [|c r IH]; intros b; [reflexivity|]. cbn [stripLeading spaced].
  destruct (isAsciiWhitespace c) eqn:E.
  - intros H. apply andb_true_iff in H as [_ H]. now apply (IH true).
  - intros H. cbn [spaced]. rewrite ?E. exact H.
Qed.

Lemma stripTrailing_spaced (t : string) :
  forall b, spaced b t = true -> spaced b (stripTrailing t) = true.
Proof.
  induction t as [|c r IH]; intros b; [reflexivity|]. cbn [stripTrailing spaced].
  destruct (isAsciiWhitespace c) eqn:E.
  - intros H. apply andb_true_iff in H as [H1 H2]. specialize (IH true H2).
    destruct (stripTrailing r) as [|d r'] eqn:S.
    + reflexivity.
    + cbn [spaced]. rewrite ?E, H1. exact IH.
  - intros H. specialize (IH false H).
    destruct (stripTrailing r) as [|d r'] eqn:S.
    + cbn [spaced]. now rewrite ?E.
    + cbn [spaced]. now rewrite ?E.
Qed.

Lemma stripTrailing_ends (t : string) : endsInWhitespace (stripTrailing t) = false.
Proof.
  induction t as [|c r IH]; [reflexivity|]. cbn [stripTrailing].
  destruct (stripTrailing r) as [|d r'] eqn:S.
  - destruct (isAsciiWhitespace c) eqn:E; [reflexivity|]. cbn. exact E.
  - exact IH.
Qed.

Lemma stripTrailing_fixed (t : string) : endsInWhitespace t = false -> stripTrailing t = t.
Proof.
  induction t as [|c r IH]; [reflexivity|]. cbn [endsInWhitespace stripTrailing].
  destruct r as [|d r'].
  - intros E. cbn. now rewrite E.
  - intros H. rewrite (IH H). reflexivity.
Qed.

Lemma collapseRuns_fixed (t : string) : forall b, spaced b t = true -> collapseRuns b t = t.
Proof.
  induction t as [|c r IH]; intros b; [reflexivity|]. cbn [spaced collapseRuns].
  destruct (isAsciiWhitespace c) eqn:E.
  - intros H. apply andb_true_iff in H as [H H2]. apply andb_true_iff in H as [H0 H1].
    destruct b; [discriminate|]. apply Ascii.eqb_eq in H0. subst c. now rewrite (IH true H2).
  - intros H. now rewrite (IH false H).
Qed.

Lemma stripLeading_fixed (t : string) : spaced true t = true -> stripLeading t = t.
Proof.
  destruct t as [|c r]; [reflexivity|]. cbn [spaced stripLeading].
  destruct (isAsciiWhitespace c); [|reflexivity]. now rewrite andb_false_r.
Qed.

Lemma inkOf_collapseRuns (s : string) : forall b, inkOf (collapseRuns b s) = inkOf s.
Proof.
  induction s as [|c r IH]; intros b; [reflexivity|]. cbn [collapseRuns inkOf].
  destruct (isAsciiWhitespace c) eqn:E.
  - destruct b; [apply IH|]. cbn [inkOf]. change (isAsciiWhitespace " ") with true.
    cbn iota. apply IH.
  - cbn [inkOf]. now rewrite E, IH.
Qed.

Lemma inkOf_stripLeading (s : string) : inkOf (stripLeading s) = inkOf s.
Proof.
  induction s as [|c r IH]; [reflexivity|]. cbn [stripLeading inkOf].
  destruct (isAsciiWhitespace c) eqn:E; [exact IH|]. cbn [inkOf]. now rewrite E.
Qed.

Lemma inkOf_stripTrailing (s : string) : inkOf (stripTrailing s) = inkOf s.
Proof.
  induction s as [|c r IH]; [reflexivity|]. cbn [stripTrailing inkOf].
  destruct (stripTrailing r) as [|d r'] eqn:S.
  - cbn [inkOf] in IH. rewrite <- IH.
    destruct (isAsciiWhitespace c) eqn:E; [reflexivity|]. cbn [inkOf]. now rewrite E.
  - cbn [inkOf]. rewrite <- IH. reflexivity.
Qed.

(** X19: in the result of [normalizeWhitespace], white space occurs
    only as single spaces between two other characters: there is none
    at the start or at the end, no tab, line break or form feed, and no
    two spaces in a row.  The other characters of the argument are all
    kept, in order.  The function leaves such a result unchanged when
    applied to it again, and maps [null] and the empty string to the
    empty string. *)
Theorem normalizeWhitespace_tidy (str : option string) :
  let r := normalizeWhitespace str in
  spaced true r = true /\
  endsInWhitespace r = false /\
  inkOf r = inkOf (match str with Some s => s | None => "" end) /\
  normalizeWhitespace (Some r) = r /\
  normalizeWhitespace None = "" /\ normalizeWhitespace (Some "") = "".
Proof.
  intros r.
  assert (A : spaced true r = true /\ endsInWhitespace r = false /\
              inkOf r = inkOf (match str with Some s => s | None => "" end)).
  { unfold r, normalizeWhitespace. destruct str as [[|c s]|]; [now repeat split| |now repeat split].
    split; [|split].
    - apply stripTrailing_spaced. eapply stripLeading_spaced. apply collapseRuns_spaced.
    - apply stripTrailing_ends.
    - now rewrite inkOf_stripTrailing, inkOf_stripLeading, inkOf_collapseRuns. }
  destruct A as (A1 & A2 & A3). repeat split; trivial.
  unfold normalizeWhitespace at 1. destruct r as [|c s] eqn:E; [reflexivity|].
  rewrite <- E in *.
  rewrite (collapseRuns_fixed _ false (spaced_weaken _ false A1)).
  rewrite (stripLeading_fixed _ A1). now apply stripTrailing_fixed.
Qed.

(* ------------------------------------------------------------------ *)
(** ** Deobfuscation *)

Lemma xorBits_involutive (a b : bool * (bool * (bool * (bool * (bool * (bool * (bool * bool)))))))
  : xorBits (xorBits a b) b = a.
Proof.
  destruct a as (a0 & a1 & a2 & a3 & a4 & a5 & a6 & a7).
  destruct b as (b0 & b1 & b2 & b3 & b4 & b5 & b6 & b7).
  cbn [xorBits].
  now rewrite !xorb_assoc, !xorb_nilpotent, !xorb_false_r.
Qed.

Lemma xorByte_involutive (a b : Byte.byte) : xorByte (xorByte a b) b = a.
Proof.
  unfold xorByte. now rewrite Byte.to_bits_of_bits, xorBits_involutive, Byte.of_bits_to_bits.
Qed.

Lemma setAt_middle (pre : list Byte.byte) (b v : Byte.byte) (post : list Byte.byte) :
  setAt (length pre) v (pre ++ b :: post) = pre ++ v :: post.
Proof. induction pre as [|a pre IH]; cbn [length app setAt]; [reflexivity|now rewrite IH]. Qed.

Lemma nth_middle_byte (pre : list Byte.byte) (b : Byte.byte) (post : list Byte.byte) :
  nth (length pre) (pre ++ b :: post) Byte.x00 = b.
Proof. induction pre as [|a pre IH]; cbn [length app nth]; [reflexivity|exact IH]. Qed.

Lemma xorLoop_middle (key : list Byte.byte) (mid : list Byte.byte) :
  forall pre post,
    xorLoop key (length pre) (length mid) (pre ++ mid ++ post)
    = pre ++ xorFrom key (length pre) mid ++ post.
Proof.
  induction mid as [|b mid IH]; intros pre post; [reflexivity|].
  cbn [length xorLoop xorFrom app].
  rewrite nth_middle_byte, setAt_middle.
  pose proof (IH (pre ++ [xorByte b (keyAt key (length pre))]) post) as H.
  rewrite length_app, <- !app_assoc in H. cbn [length app] in H.
  rewrite Nat.add_1_r in H. exact H.
Qed.

Lemma xorFrom_length (key : list Byte.byte) (l : list Byte.byte) :
  forall i, length (xorFrom key i l) = length l.
Proof. induction l as [|b l IH]; intros i; cbn [xorFrom length]; [reflexivity|now rewrite IH]. Qed.

Lemma xorFrom_involutive (key : list Byte.byte) (l : list Byte.byte) :
  forall i, xorFrom key i (xorFrom key i l) = l.
Proof.
  induction l as [|b l IH]; intros i; cbn [xorFrom]; [reflexivity|].
  now rewrite xorByte_involutive, IH.
Qed.

Lemma xorFrom_nth (key : list Byte.byte) (l : list Byte.byte) :
  forall k i b, nth_error l i = Some b ->
                nth_error (xorFrom key k l) i = Some (xorByte b (keyAt key (k + i))).
Proof.
  induction l as [|a l IH]; intros k i b; [now destruct i|]. cbn [xorFrom].
  destruct i as [|i]; cbn [nth_error].
  - intros [= ->]. now rewrite Nat.add_0_r.
  - intros H. rewrite (IH (S k) i b H). do 3 f_equal. lia.
Qed.

Lemma slice_from_start {A} (l : list A) (n : Z) :
  slice l 0 n
  = firstn (Z.to_nat (if (n <? 0)%Z then Z.of_nat (length l) + n else n)) l.
Proof.
  unfold slice. change (0 <? 0)%Z with false. cbv iota.
  replace (Z.to_nat (Z.min 0 (Z.of_nat (length l)))) with 0%nat by lia. cbn [skipn].
  destruct (Z.ltb_spec n 0).
  - f_equal. lia.
  - destruct (Z.le_gt_cases n (Z.of_nat (length l))).
    + f_equal. lia.
    + rewrite !firstn_all2 by lia. reflexivity.
Qed.

Lemma slice_to_end {A} (l : list A) (k : Z) :
  slice l k (Z.of_nat (length l))
  = skipn (Z.to_nat (if (k <? 0)%Z then Z.of_nat (length l) + k else k)) l.
Proof.
  unfold slice.
  destruct (Z.ltb_spec (Z.of_nat (length l)) 0); [lia|].
  rewrite Z.min_id.
  destruct (Z.ltb_spec k 0).
  - rewrite firstn_all2 by (rewrite length_skipn; lia). f_equal. lia.
  - rewrite firstn_all2 by (rewrite length_skipn; lia).
    destruct (Z.le_gt_cases k (Z.of_nat (length l))).
    + f_equal. lia.
    + rewrite !skipn_all2 by lia. reflexivity.
Qed.

(** The bytes that [deobfuscate] returns. *)
Lemma deobfuscate_bytes_eq (key : list Byte.byte) (n : Z) (blob : Blob) :
  blobBytes (deobfuscate key n blob)
  = if (n <? 0)%Z then blobBytes blob
    else xorFrom key 0 (firstn (Z.to_nat n) (blobBytes blob))
         ++ skipn (Z.to_nat n) (blobBytes blob).
Proof.
  unfold deobfuscate, blobSlice. cbn [blobBytes]. set (bs := blobBytes blob).
  rewrite slice_from_start, slice_to_end.
  destruct (Z.ltb_spec n 0) as [Neg|Pos].
  - set (k := Z.to_nat (Z.of_nat (length bs) + n)).
    assert (Lk : (k <= length bs)%nat) by (unfold k; lia).
    rewrite length_firstn, (Nat.min_l _ _ Lk).
    replace (Z.min n (Z.of_nat k)) with n by lia.
    replace (Z.to_nat n) with 0%nat by lia. cbn [xorLoop].
    destruct (Z.ltb_spec n 0) as [_|]; [|lia]. fold k.
    apply firstn_skipn.
  - set (m := Z.to_nat n).
    rewrite length_firstn.
    replace (Z.min n (Z.of_nat (Nat.min m (length bs)))) with (Z.of_nat (Nat.min m (length bs)))
      by lia.
    destruct (Z.ltb_spec (Z.of_nat (Nat.min m (length bs))) 0) as [|_]; [lia|].
    rewrite Nat2Z.id.
    pose proof (@xorLoop_middle key (firstn m bs) [] []) as X.
    rewrite !app_nil_r in X. cbn [length app] in X.
    rewrite length_firstn in X. rewrite X. f_equal.
    destruct (Nat.le_gt_cases m (length bs)) as [Le|Gt].
    + now rewrite Nat.min_l by lia.
    + rewrite Nat.min_r by lia. rewrite !skipn_all2 by lia. reflexivity.
Qed.

Lemma deobfuscate_length (key : list Byte.byte) (n : Z) (blob : Blob) :
  length (blobBytes (deobfuscate key n blob)) = length (blobBytes blob).
Proof.
  rewrite deobfuscate_bytes_eq. destruct (n <? 0)%Z; [reflexivity|].
  rewrite length_app, xorFrom_length, <- length_app, firstn_skipn. reflexivity.
Qed.

(** X20: [deobfuscate] is its own inverse: applying it twice with the
    same key and the same length gives back the blob, bytes and media
    type, for every key (the empty key included), every length
    (negative lengths included) and every blob.  The same holds for
    the two [decode] functions of [deobfuscators]. *)
Theorem deobfuscate_involutive (key : list Byte.byte) (n : Z) (blob : Blob) :
  deobfuscate key n (deobfuscate key n blob) = blob /\
  decodeIDPF key (decodeIDPF key blob) = blob /\
  decodeAdobe key (decodeAdobe key blob) = blob.
Proof.
  assert (G : forall n, deobfuscate key n (deobfuscate key n blob) = blob).
  { clear n. intros n.
    assert (T : forall k b, blobType (deobfuscate k n b) = blobType b) by reflexivity.
    assert (E : forall x y : Blob, blobType x = blobType y -> blobBytes x = blobBytes y -> x = y).
    { intros [] []. cbn. now intros -> ->. }
    apply E; [now rewrite !T|].
    rewrite deobfuscate_bytes_eq. destruct (Z.ltb_spec n 0) as [Neg|Pos].
    - rewrite deobfuscate_bytes_eq. destruct (Z.ltb_spec n 0); [reflexivity|lia].
    - rewrite deobfuscate_bytes_eq. destruct (Z.ltb_spec n 0) as [|_]; [lia|].
      set (bs := blobBytes blob). set (m := Z.to_nat n).
      assert (L : length (xorFrom key 0 (firstn m bs)) = length (firstn m bs))
        by apply xorFrom_length.
      destruct (Nat.le_gt_cases m (length bs)) as [Le|Gt].
      + assert (Lf : length (xorFrom key 0 (firstn m bs)) = m).
        { rewrite L, length_firstn. lia. }
        rewrite firstn_app, skipn_app, Lf, Nat.sub_diag. cbn [firstn skipn].
        rewrite app_nil_r, <- Lf at 1. rewrite firstn_all, xorFrom_involutive.
        rewrite skipn_all2 by lia. cbn [app]. apply firstn_skipn.
      + rewrite (skipn_all2 bs) by lia. rewrite app_nil_r.
        rewrite (firstn_all2 bs) by lia.
        rewrite firstn_all2 by (rewrite xorFrom_length; lia).
        rewrite skipn_all2 by (rewrite xorFrom_length; lia).
        now rewrite app_nil_r, xorFrom_involutive. }
  split; [apply G|]. split; apply G.
Qed.

(** X21: [deobfuscate] keeps the media type and the number of bytes of
    the blob.  For a length [n] that is not negative, the byte at a
    position below [n] is combined by exclusive or with the byte of
    the key at that position, the key being repeated as often as
    needed (and read as zero when it is empty), and the bytes from
    position [n] on are unchanged; for a negative [n] the blob is
    unchanged. *)
Theorem deobfuscate_bytes (key : list Byte.byte) (n : Z) (blob : Blob) :
  blobType (deobfuscate key n blob) = blobType blob /\
  length (blobBytes (deobfuscate key n blob)) = length (blobBytes blob) /\
  (forall i b,
      nth_error (blobBytes blob) i = Some b ->
      nth_error (blobBytes (deobfuscate key n blob)) i
      = Some (if (Z.of_nat i <? n)%Z
              then xorByte b (nth (i mod length key) key Byte.x00)
              else b)) /\
  ((n < 0)%Z -> deobfuscate key n blob = blob).
Proof.
  split; [reflexivity|]. split; [apply deobfuscate_length|]. split.
  - intros i b H. rewrite deobfuscate_bytes_eq.
    destruct (Z.ltb_spec n 0) as [Neg|Pos].
    + destruct (Z.ltb_spec (Z.of_nat i) n); [lia|exact H].
    + set (bs := blobBytes blob) in *. set (m := Z.to_nat n).
      assert (Li : (i < length bs)%nat) by (apply nth_error_Some; congruence).
      destruct (Z.ltb_spec (Z.of_nat i) n) as [Lt|Ge].
      * rewrite nth_error_app1 by (rewrite xorFrom_length, length_firstn; lia).
        rewrite (@xorFrom_nth key (firstn m bs) 0 i b).
        -- reflexivity.
        -- rewrite nth_error_firstn. destruct (Nat.ltb_spec i m); [exact H|lia].
      * rewrite nth_error_app2 by (rewrite xorFrom_length, length_firstn; lia).
        rewrite xorFrom_length, length_firstn, nth_error_skipn.
        rewrite Nat.min_l by lia. rewrite <- H. f_equal. lia.
  - intros Neg.
    assert (E : forall x y : Blob, blobType x = blobType y -> blobBytes x = blobBytes y -> x = y).
    { intros [] []. cbn. now intros -> ->. }
    apply E; [reflexivity|]. rewrite deobfuscate_bytes_eq.
    destruct (Z.ltb_spec n 0); [reflexivity|lia].
Qed.

Lemma deobfuscate_bytes_witness :
  blobBytes (deobfuscate [Byte.x0f; Byte.xf0] 3
               (mkBlob "font/otf" [Byte.x01; Byte.x02; Byte.x03; Byte.x04]))
  = [Byte.x0e; Byte.xf2; Byte.x0c; Byte.x04] /\
  deobfuscate [Byte.x0f; Byte.xf0] (-1)
    (mkBlob "font/otf" [Byte.x01; Byte.x02; Byte.x03; Byte.x04])
  = mkBlob "font/otf" [Byte.x01; Byte.x02; Byte.x03; Byte.x04].
Proof.
  split; [reflexivity|].
  now apply (proj2 (proj2 (proj2 (deobfuscate_bytes [Byte.x0f; Byte.xf0] (-1)
                                    (mkBlob "font/otf" [Byte.x01; Byte.x02; Byte.x03; Byte.x04]))))).
Defined.

(* ------------------------------------------------------------------ *)
(** ** Calibre positions *)

Lemma findIndices_some {A} (f : A -> bool) (l : list A) (x : A) :
  In x l -> f x = true -> forall i, findIndicesFrom i f l <> [].
Proof.
  induction l as [|a l IH]; intros Hin Fx i; [contradiction|]. cbn [findIndicesFrom].
  destruct (f a) eqn:E; [discriminate|].
  destruct Hin as [->|Hin]; [congruence|]. now apply IH.
Qed.

Lemma parse_first_path (pos : string) (ps : list (list TPart)) :
  parse pos = Ok (Paths ps) ->
  findTokens (tokenizer (unwrap pos)) KRange = [] /\
  exists g rest, ps = g :: rest /\ parser (removelast (tokenizer (unwrap pos))) = Ok g.
Proof.
  unfold parse. set (ts := tokenizer (unwrap pos)).
  destruct (findTokens ts KRange) as [|c cs] eqn:C.
  - unfold parserIndir.
    destruct (splitAt_head ts (findTokens ts KIndir)) as (rest & -> & _).
    cbn [mapM]. rewrite slice_init_firstn.
    replace (firstn (length ts - 1) ts) with (removelast ts)
      by (rewrite removelast_firstn_len; f_equal; lia).
    destruct (parser (removelast ts)) as [g|] eqn:G; [|discriminate]. cbn [bind].
    destruct (mapM parser rest) as [r|]; [|discriminate]. cbn [bind].
    intros [= <-]. split; [reflexivity|]. now exists g, r.
  - destruct (mapM parserIndir (splitAt ts (c :: cs))); discriminate.
Qed.

(** X22: [fromCalibrePos] reads the position through the first path
    that [parse] returns, which is made from all tokens of the
    position but the last one: when it returns, the result is the
    rendering of two paths, the step 6 followed by the first part of
    that path, and the parts of that path from the third on.  It raises
    a TypeError for a position with fewer than two tokens and for a
    position that holds a range token. *)
Theorem fromCalibrePos_first_path (pos : string) :
  (forall s, fromCalibrePos pos = Ok s ->
     exists item others,
       parser (removelast (tokenizer (unwrap pos))) = Ok (item :: others) /\
       s = toString (Paths [[newPart (Num 6); item]; tl others])) /\
  ((length (tokenizer (unwrap pos)) <= 1)%nat -> fromCalibrePos pos = Throw TypeError) /\
  (In TRange (tokenizer (unwrap pos)) -> fromCalibrePos pos = Throw TypeError).
Proof.
  assert (A : forall s, fromCalibrePos pos = Ok s ->
     exists item others,
       parser (removelast (tokenizer (unwrap pos))) = Ok (item :: others) /\
       s = toString (Paths [[newPart (Num 6); item]; tl others])).
  { intros s. unfold fromCalibrePos.
    destruct (parse pos) as [[ps|r]|] eqn:P; cbn [bind]; try discriminate.
    destruct (parse_first_path _ P) as (_ & g & rest & -> & G).
    destruct g as [|item more]; [discriminate|]. intros [= <-]. now exists item, more. }
  assert (T : forall r : result string, (forall s, r <> Ok s) -> r = Throw TypeError).
  { intros [s|[]] H; [now destruct (H s)|reflexivity]. }
  split; [exact A|]. split.
  - intros L. apply T. intros s H. destruct (A s H) as (item & others & G & _).
    destruct (tokenizer (unwrap pos)) as [|t [|t' ts]]; cbn in L, G; try discriminate. lia.
  - intros Hin. apply T. intros s H. unfold fromCalibrePos in H.
    destruct (parse pos) as [[ps|r]|] eqn:P; cbn [bind] in H; try discriminate.
    destruct (parse_first_path _ P) as (C & _).
    unfold findTokens, findIndices in C.
    now apply (@findIndices_some _ (fun t => ttype_eqb (typeOf t) KRange) _ TRange Hin eq_refl 0%Z).
Qed.

Lemma fromCalibrePos_first_path_witness :
  fromCalibrePos "epubcfi(/2/4/10/3:7)" = Ok "epubcfi(/6/2!/10/3)" /\
  fromCalibrePos "/2" = Throw TypeError /\
  fromCalibrePos "epubcfi(/2/4,/1:0,/1:1)" = Throw TypeError.
Proof.
  destruct (fromCalibrePos_first_path "/2") as (_ & B & _).
  destruct (fromCalibrePos_first_path "epubcfi(/2/4,/1:0,/1:1)") as (_ & _ & C).
  split; [reflexivity|]. split; [apply B|apply C].
  - vm_compute. lia.
  - vm_compute. tauto.
Defined.

(* ------------------------------------------------------------------ *)
(** ** Steps that lead nowhere *)




(* ------------------------------------------------------------------ *)
(** ** Nodes next to the root *)

(** X24: [nodeToParts] raises a TypeError for the document node and
    for every child of the document node, the root element included:
    it climbs until it meets a node whose parent is the root element,
    and above the root element it runs into the missing parent of the
    document.  So does [fromElements] for elements whose parent is the
    root element or the document. *)
Theorem nodeToParts_near_root (doc : Node) :
  (forall x off filter,
      (length (path x) <= 1)%nat -> nodeToParts doc x off filter = Throw TypeError) /\
  (forall e0 rest,
      (length (path e0) <= 2)%nat -> fromElements doc (e0 :: rest) = Throw TypeError).
Proof.
  assert (A : forall p off filter,
             (length p <= 1)%nat -> nodeToPartsAt doc filter p off = Throw TypeError).
  { intros [|i [|j q]] off filter L; [reflexivity| |cbn in L; lia].
    rewrite nodeToPartsAt_cons.
    destruct (getNode doc [i]) as [n|]; [|reflexivity].
    cbn [getNode].
    destruct (indexChildNodes (mkRef [] doc) filter) as [indexed|[]]; [|reflexivity].
    cbn [bind].
    assert (S : sameOpt (Some (mkRef [] doc)) (documentElement doc) = false).
    { destruct (documentElement doc) as [root|] eqn:R; [|reflexivity].
      cbn [sameOpt]. destruct (sameNode (mkRef [] doc) root) eqn:S; [|reflexivity].
      apply sameNode_path in S. cbn [path] in S.
      destruct (documentElement_valid _ R) as (_ & (k & Pk) & _). congruence. }
    rewrite S. reflexivity. }
  split.
  - intros x off filter L. now apply A.
  - intros e0 rest L. unfold fromElements, parentNode.
    destruct (path e0) as [|i q]; [reflexivity|].
    destruct (getNode doc q) as [pn|]; [|reflexivity].
    unfold nodeToParts. cbn [path]. rewrite A by (cbn in L; lia). reflexivity.
Qed.

Lemma nodeToParts_near_root_witness :
  nodeToParts sampleDoc rootRef None None = Throw TypeError /\
  fromElements sampleDoc [paragraphRef; divisionRef; sectionRef] = Throw TypeError.
Proof.
  destruct (nodeToParts_near_root sampleDoc) as [A B].
  split; [apply A|apply B]; vm_compute; lia.
Defined.

(* ------------------------------------------------------------------ *)
(** ** Decimal numbers and their digits *)

Lemma spanDigits_digits (d r : string) :
  allDigits d = true ->
  match r with String c _ => isNumber c = false | EmptyString => True end ->
  spanDigits (d ++ r) = (d, r).
Proof.
  intros Hd Hr. induction d as [|c d IH]; cbn [append spanDigits].
  - destruct r as [|c r]; [reflexivity|]. cbn [spanDigits]. now rewrite Hr.
  - cbn [allDigits] in Hd. apply andb_true_iff in Hd as [Hc Hd]. now rewrite Hc, IH.
Qed.

Lemma digitsVal_acc (d : string) :
  allDigits d = true ->
  forall a, digitsVal a d = (a * 10 ^ N.of_nat (String.length d) + digitsVal 0 d)%N.
Proof.
  induction d as [|c d IH]; intros Hd a; cbn [digitsVal String.length].
  - change (10 ^ N.of_nat 0)%N with 1%N. lia.
  - cbn [allDigits] in Hd. apply andb_true_iff in Hd as [Hc Hd]. rewrite Hc.
    rewrite (IH Hd (10 * a + digitVal c)%N), (IH Hd (10 * 0 + digitVal c)%N).
    rewrite Nat2N.inj_succ, N.pow_succ_r'. lia.
Qed.

Lemma padZeros_digits (k : nat) (s : string) :
  allDigits s = true ->
  allDigits (padZeros k s) = true /\ digitsVal 0 (padZeros k s) = digitsVal 0 s /\
  String.length (padZeros k s) = (k + String.length s)%nat.
Proof.
  intros H. induction k as [|k (A & B & C)]; cbn [padZeros]; [auto|].
  repeat split.
  - cbn [allDigits]. now rewrite A.
  - cbn [digitsVal]. change (isNumber "0") with true. cbn iota.
    change (10 * 0 + digitVal "0")%N with 0%N. exact B.
  - cbn [String.length]. now rewrite C.
Qed.

Lemma length_append (a b : string) :
  String.length (a ++ b) = (String.length a + String.length b)%nat.
Proof. induction a as [|c a IH]; cbn; [reflexivity|now rewrite IH]. Qed.

Lemma digitsFuel_length (f : nat) :
  forall n k acc, (n < 10 ^ N.of_nat (S k))%N ->
                  (String.length (digitsFuel f n acc) <= S k + String.length acc)%nat.
Proof.
  induction f as [|f IH]; intros n k acc H; cbn [digitsFuel]; [lia|].
  destruct (n <? 10)%N eqn:E; [cbn [String.length]; lia|]. apply N.ltb_ge in E.
  destruct k as [|k].
  - change (10 ^ N.of_nat 1)%N with 10%N in H. lia.
  - assert (L : (n / 10 < 10 ^ N.of_nat (S k))%N).
    { rewrite (Nat2N.inj_succ (S k)), N.pow_succ_r' in H.
      apply N.Div0.div_lt_upper_bound. exact H. }
    pose proof (IH (n / 10)%N k (String (digitChar (n mod 10)) acc) L) as B.
    cbn [String.length] in B. lia.
Qed.

Lemma natToString_length (n : N) (k : nat) :
  (n < 10 ^ N.of_nat (S k))%N -> (String.length (natToString n) <= S k)%nat.
Proof.
  intros H. pose proof (@digitsFuel_length (S (N.to_nat (N.log2 n))) n k "" H) as B.
  cbn [String.length] in B. unfold natToString. lia.
Qed.

Lemma natToString_value (n : N) : digitsVal 0 (natToString n) = n.
Proof. apply digitsFuel_value, natToString_fuel. Qed.

Lemma parseFloat_floatToString (x : float) :
  decimal x = true -> parseFloat (floatToString x) = x.
Proof.
  destruct x as [|m e]; [discriminate|]. cbn [decimal]. intros H.
  apply andb_true_iff in H as [_ H].
  pose proof (natToString_allDigits m) as Am.
  destruct e as [|e].
  - cbn [floatToString]. unfold parseFloat.
    rewrite <- (append_nil_r (natToString m)), (@spanDigits_digits _ "" Am I), ?append_nil_r.
    pose proof (natToString_nonEmpty m) as NE.
    destruct (natToString m) eqn:Sq; [discriminate|]. rewrite <- Sq.
    now rewrite natToString_value.
  - cbn [Nat.eqb orb] in H. apply negb_true_iff, N.eqb_neq in H.
    cbn [floatToString]. set (p := (10 ^ N.of_nat (S e))%N).
    set (fr := natToString (m mod p)).
    assert (Pp : (0 < p)%N) by (unfold p; apply N.neq_0_lt_0, N.pow_nonzero; lia).
    assert (Lf : (String.length fr <= S e)%nat).
    { apply natToString_length. apply N.mod_lt. lia. }
    destruct (@padZeros_digits (S e - String.length fr) fr (natToString_allDigits _))
      as (A & B & C).
    set (fp := padZeros (S e - String.length fr) fr) in *.
    unfold parseFloat.
    rewrite (@spanDigits_digits (natToString (m / p)) ("." ++ fp)%string
               (natToString_allDigits _) eq_refl).
    change ("." ++ fp)%string with (String "." fp). cbv iota.
    rewrite <- (append_nil_r fp), (@spanDigits_digits fp "" A I), ?append_nil_r.
    pose proof (natToString_nonEmpty (m / p)) as NE.
    destruct (natToString (m / p)) eqn:Sq; [discriminate|]. rewrite <- Sq.
    rewrite (digitsVal_acc _ A), natToString_value, B, C.
    replace (digitsVal 0 fr) with (m mod p)%N by (unfold fr; now rewrite natToString_value).
    replace (S e - String.length fr + String.length fr)%nat with (S e) by lia.
    fold p. replace (m / p * p + m mod p)%N with m
      by (rewrite (N.div_mod m p) at 1 by lia; lia).
    cbn [stripZeros]. destruct (N.eqb_spec (m mod 10) 0); [contradiction|reflexivity].
Qed.

Lemma floatToString_decimal (x : float) :
  decimal x = true ->
  allDecimal (floatToString x) = true /\
  exists c r, floatToString x = String c r /\ isNumber c = true.
Proof.
  assert (D : forall s, allDigits s = true -> allDecimal s = true).
  { induction s as [|c s IH]; [reflexivity|]. cbn. intros H.
    apply andb_true_iff in H as [-> H]. now rewrite IH. }
  assert (DA : forall a b, allDecimal (a ++ b) = allDecimal a && allDecimal b).
  { induction a as [|c a IH]; intros b; cbn; [reflexivity|]. now rewrite IH, andb_assoc. }
  assert (Hd : forall n, exists c r, natToString n = String c r /\ isNumber c = true).
  { intros n. pose proof (natToString_allDigits n) as A.
    pose proof (natToString_nonEmpty n) as NE.
    destruct (natToString n) as [|c r]; [discriminate|]. exists c, r. split; [reflexivity|].
    cbn in A. now apply andb_true_iff in A as [A _]. }
  destruct x as [|m e]; [discriminate|]. intros _. destruct e as [|e]; cbn [floatToString].
  - split; [apply D, natToString_allDigits|apply Hd].
  - split.
    + rewrite !DA, (D _ (natToString_allDigits _)). cbn.
      apply D. apply padZeros_digits. apply natToString_allDigits.
    + destruct (Hd (m / 10 ^ N.of_nat (S e))%N) as (c & r & -> & Hc).
      now exists c, (r ++ "." ++ padZeros (S e - String.length (natToString (m mod 10 ^ N.of_nat (S e))))
                                  (natToString (m mod 10 ^ N.of_nat (S e))))%string.
Qed.

(* ------------------------------------------------------------------ *)
(** ** Temporal and spatial values in the tokenizer *)

Lemma decimal_char (c : ascii) :
  isNumber c || Ascii.eqb "." c = true ->
  Ascii.eqb "^" c = false /\ Ascii.eqb ":" c = false.
Proof.
  intros H. apply orb_true_iff in H as [H|H].
  - split; differs.
  - apply Ascii.eqb_eq in H. subst c. split; reflexivity.
Qed.

Lemma run_decimal (s : tstate) (d : string) :
  s = STilde \/ s = SAt ->
  allDecimal d = true ->
  forall ts v, run (mkTok ts s false v) (cs d) = mkTok ts s false (v ++ d).
Proof.
  intros Hs. induction d as [|c d IH]; intros Hd ts v.
  - simpl. now rewrite append_nil_r.
  - cbn [allDecimal] in Hd. apply andb_true_iff in Hd as [Hc Hd].
    change (cs (String c d)) with (Some c :: cs d). cbn [run fold_left].
    assert (E : step (mkTok ts s false v) (Some c) = mkTok ts s false (v ++ String c "")).
    { destruct (decimal_char _ Hc) as [N1 N2].
      unfold step. cbn [isChar escape state]. rewrite N1. cbn [andb].
      destruct Hs as [-> | ->]; cbn [isDigit isChar]; rewrite ?N2, Hc; reflexivity. }
    rewrite E. fold (run (mkTok ts s false (v ++ String c "")) (cs d)).
    rewrite (IH Hd). now rewrite append_assoc.
Qed.

Lemma endsDecimal_inv (x : option ascii) :
  endsDecimal x = true ->
  isDigit x = false /\ isChar "." x = false /\ isChar ":" x = false /\ isChar "^" x = false.
Proof.
  unfold endsDecimal. intros H. repeat (apply andb_true_iff in H as [H ?]).
  repeat split; now apply negb_true_iff.
Qed.

Lemma step_temporal_end (ts : list TToken) (d : string) (x : option ascii) :
  endsDecimal x = true ->
  step (mkTok ts STilde false d) x = step (idle (ts ++ [TTemporal (parseFloat d)])) x.
Proof.
  intros Hx. destruct (endsDecimal_inv _ Hx) as (A & B & _ & D).
  unfold step, idle. cbn [escape state]. now rewrite D, A, B.
Qed.

Lemma step_spatial_end (ts : list TToken) (d : string) (x : option ascii) :
  endsDecimal x = true ->
  step (mkTok ts SAt false d) x = step (idle (ts ++ [TSpatial (parseFloat d)])) x.
Proof.
  intros Hx. destruct (endsDecimal_inv _ Hx) as (A & B & C & D).
  unfold step, idle. cbn [escape state]. now rewrite D, C, A, B.
Qed.

Lemma endsDecimal_number (rest : list (option ascii)) :
  startsAfterDecimal rest = true -> startsAfterNumber rest = true.
Proof.
  destruct rest as [|x r]; [discriminate|]. cbn. intros H.
  destruct (endsDecimal_inv _ H) as (A & _ & _ & D). unfold endsNumber. now rewrite A, D.
Qed.

Lemma startsAfterDecimal_cons (c : ascii) (s : string) (rest : list (option ascii)) :
  endsDecimal (Some c) = true ->
  startsAfterDecimal (cs (String c s) ++ rest) = true.
Proof. intros H. exact H. Qed.

Lemma tok_temporal (ts : list TToken) (t : float) (rest : list (option ascii)) :
  decimal t = true ->
  startsAfterDecimal rest = true ->
  run (idle ts) (cs ("~" ++ floatToString t) ++ rest) = run (idle (ts ++ [TTemporal t])) rest.
Proof.
  intros Ht Hr. destruct rest as [|x r]; [discriminate|]. cbn [startsAfterDecimal] in Hr.
  change (cs ("~" ++ floatToString t)) with (Some "~"%char :: cs (floatToString t)).
  cbn [app run fold_left].
  change (step (idle ts) (Some "~"%char)) with (mkTok ts STilde false "").
  fold (run (mkTok ts STilde false "") (cs (floatToString t) ++ x :: r)).
  destruct (floatToString_decimal _ Ht) as [Hd _].
  rewrite run_app, (@run_decimal STilde (floatToString t) (or_introl eq_refl) Hd).
  cbn [append run fold_left].
  rewrite (@step_temporal_end ts (floatToString t) x Hr), parseFloat_floatToString by exact Ht.
  reflexivity.
Qed.

Lemma run_spatials (l : list float) :
  Forall (fun x => decimal x = true) l ->
  forall x ts rest,
    decimal x = true ->
    startsAfterDecimal rest = true ->
    run (mkTok ts SAt false "") (cs (join ":" (map floatToString (x :: l))) ++ rest)
    = run (idle (ts ++ map TSpatial (x :: l))) rest.
Proof.
  induction 1 as [|y l Hy _ IH]; intros x ts rest Hx Hr.
  - cbn [map join]. destruct rest as [|c r]; [discriminate|]. cbn [startsAfterDecimal] in Hr.
    destruct (floatToString_decimal _ Hx) as [Hd _].
    rewrite run_app, (@run_decimal SAt (floatToString x) (or_intror eq_refl) Hd).
    cbn [append run fold_left].
    rewrite (@step_spatial_end ts (floatToString x) c Hr), parseFloat_floatToString
      by exact Hx.
    reflexivity.
  - change (join ":" (map floatToString (x :: y :: l)))
      with (floatToString x ++ ":" ++ join ":" (map floatToString (y :: l)))%string.
    rewrite !cs_app, <- !app_assoc.
    destruct (floatToString_decimal _ Hx) as [Hd _].
    rewrite run_app, (@run_decimal SAt (floatToString x) (or_intror eq_refl) Hd).
    change (cs ":") with [Some ":"%char]. cbn [append app run fold_left].
    change (step (mkTok ts SAt false (floatToString x)) (Some ":"%char))
      with (mkTok (ts ++ [TSpatial (parseFloat (floatToString x))]) SAt false "").
    fold (run (mkTok (ts ++ [TSpatial (parseFloat (floatToString x))]) SAt false "")
              (cs (join ":" (map floatToString (y :: l))) ++ rest)).
    rewrite (IH y _ rest Hy Hr), parseFloat_floatToString by exact Hx.
    cbn [map]. now rewrite <- app_assoc.
Qed.

Lemma tok_spatial (ts : list TToken) (x : float) (l : list float)
  (rest : list (option ascii)) :
  Forall (fun y => decimal y = true) (x :: l) ->
  startsAfterDecimal rest = true ->
  run (idle ts) (cs ("@" ++ join ":" (map floatToString (x :: l))) ++ rest)
  = run (idle (ts ++ map TSpatial (x :: l))) rest.
Proof.
  intros H Hr. inversion H as [|? ? Hx Hl]; subst.
  change (cs ("@" ++ join ":" (map floatToString (x :: l))))
    with (Some "@"%char :: cs (join ":" (map floatToString (x :: l)))).
  cbn [app run fold_left].
  change (step (idle ts) (Some "@"%char)) with (mkTok ts SAt false "").
  fold (run (mkTok ts SAt false "")
            (cs (join ":" (map floatToString (x :: l))) ++ rest)).
  now apply run_spatials.
Qed.

(* ------------------------------------------------------------------ *)
(** ** Parts with temporal and spatial values *)

Lemma timed_inv (q : TPart) :
  timed q = true ->
  canonical (untimed q) = true /\
  (forall t, temporal q = Some t -> decimal t = true /\ truthyF t = true) /\
  (forall l, spatial q = Some l ->
             exists x r, l = x :: r /\ Forall (fun y => decimal y = true) (x :: r)).
Proof.
  unfold timed. intros H. apply andb_true_iff in H as [H Hs].
  apply andb_true_iff in H as [Hc Ht]. split; [exact Hc|]. split.
  - intros t E. rewrite E in Ht. now apply andb_true_iff in Ht.
  - intros l E. rewrite E in Hs. apply andb_true_iff in Hs as [Hn Hf].
    destruct l as [|x r]; [discriminate|]. exists x, r. split; [reflexivity|].
    now apply Forall_forall, forallb_forall.
Qed.

Section TimedPart.

Variable q : TPart.
Hypothesis Hq : timed q = true.

Lemma timed_plain : plain (untimed q) = true.
Proof. apply canonical_plain. now destruct (timed_inv _ Hq). Qed.

Lemma startsAfterDecimal_text (rest : list (option ascii)) :
  startsAfterDecimal rest = true ->
  startsAfterDecimal (cs (textToString q) ++ rest) = true.
Proof.
  intros Hr. unfold textToString.
  destruct (text q); [reflexivity|].
  destruct (negb (hasId q) && hasSide q); [reflexivity|exact Hr].
Qed.

Lemma tok_time (ts : list TToken) (rest : list (option ascii)) :
  startsAfterDecimal rest = true ->
  run (idle ts) (cs (temporalToString q) ++ cs (spatialToString q) ++ rest)
  = run (idle (ts ++ temporalToks q ++ spatialToks q)) rest
  /\ startsAfterNumber (cs (temporalToString q) ++ cs (spatialToString q) ++ rest) = true.
Proof.
  intros Hr. destruct (timed_inv _ Hq) as (_ & Ht & Hs).
  assert (S1 : run (idle (ts ++ temporalToks q)) (cs (spatialToString q) ++ rest)
               = run (idle ((ts ++ temporalToks q) ++ spatialToks q)) rest
               /\ startsAfterDecimal (cs (spatialToString q) ++ rest) = true).
  { unfold spatialToString, spatialToks. destruct (spatial q) as [l|].
    - destruct (Hs l eq_refl) as (x & r & -> & Hd).
      split; [now apply tok_spatial|reflexivity].
    - cbn [cs list_ascii_of_string map app]. now rewrite app_nil_r. }
  destruct S1 as [S1 S2]. rewrite (app_assoc ts), <- S1.
  unfold temporalToString, temporalToks in *. destruct (temporal q) as [t|].
  - destruct (Ht t eq_refl) as [Hd Hy]. rewrite Hy in *.
    split; [now apply tok_temporal|reflexivity].
  - cbn [cs list_ascii_of_string map app]. rewrite app_nil_r. split; [reflexivity|].
    now apply endsDecimal_number.
Qed.

(** The tokenizer reads the rendering of the part as the tokens of the
    part, whatever was read before, when the next character ends a
    decimal number. *)
Lemma tok_part_timed (ts : list TToken) (rest : list (option ascii)) :
  startsAfterDecimal rest = true ->
  run (idle ts) (cs (partToString q) ++ rest) = run (idle (ts ++ timedToks q)) rest.
Proof.
  intros Hr. pose proof timed_plain as Hp.
  destruct (plain_inv _ Hp) as [Hi _]. change (index (untimed q)) with (index q) in Hi.
  destruct (numberToString_natural _ Hi) as [n [En Ed]].
  unfold partToString, timedToks. rewrite Ed, En.
  change ("/" ++ natToString n ++ idToString q ++ offsetToString q ++ temporalToString q
          ++ spatialToString q ++ textToString q)%string
    with (String "/" (natToString n ++ idToString q ++ offsetToString q
                      ++ temporalToString q ++ spatialToString q ++ textToString q)).
  change (cs (String "/" (natToString n ++ idToString q ++ offsetToString q
                      ++ temporalToString q ++ spatialToString q ++ textToString q)))
    with (Some "/"%char :: cs (natToString n ++ idToString q ++ offsetToString q
                      ++ temporalToString q ++ spatialToString q ++ textToString q)).
  rewrite !cs_app. cbn [app]. rewrite <- !app_assoc.
  set (t0 := ts ++ [TStep (Num (Z.of_N n))]).
  destruct (@tok_text (untimed q) Hp
                      (((t0 ++ idToks q) ++ offsetToks q) ++ temporalToks q ++ spatialToks q)
                      rest) as [T1 _].
  destruct (@tok_time ((t0 ++ idToks q) ++ offsetToks q) (cs (textToString q) ++ rest)
                      (startsAfterDecimal_text _ Hr)) as [M1 M2].
  destruct (@tok_offset (untimed q) Hp (t0 ++ idToks q)
              (cs (temporalToString q) ++ cs (spatialToString q)
               ++ cs (textToString q) ++ rest)) as [O1 O2].
  { exact M2. }
  destruct (@tok_id (untimed q) Hp t0
              (cs (offsetToString q) ++ cs (temporalToString q) ++ cs (spatialToString q)
               ++ cs (textToString q) ++ rest)) as [I1 I2].
  rewrite (@tok_number "/" SSlash) by (auto; apply I2, O2).
  cbn [numTok]. fold t0.
  change (idToString (untimed q)) with (idToString q) in I1.
  change (offsetToString (untimed q)) with (offsetToString q) in O1.
  change (textToString (untimed q)) with (textToString q) in T1.
  change (idToks (untimed q)) with (idToks q) in I1.
  change (offsetToks (untimed q)) with (offsetToks q) in O1.
  change (textToks (untimed q)) with (textToks q) in T1.
  rewrite I1, O1, M1, T1. f_equal. f_equal.
  unfold t0. rewrite <- !app_assoc. reflexivity.
Qed.

End TimedPart.

(* ------------------------------------------------------------------ *)
(** ** Trimming a rendered path with temporal and spatial values *)

Lemma decimal_not_space (c : ascii) :
  isNumber c || Ascii.eqb "." c = true -> isSpace c = false.
Proof.
  intros H. apply orb_true_iff in H as [H|H]; [now apply digit_not_space|].
  apply Ascii.eqb_eq in H. now subst c.
Qed.

Lemma solid_allDecimal (s : string) :
  allDecimal s = true -> nonEmpty s = true -> solid s.
Proof.
  induction s as [|c s IH]; [discriminate|]. intros Hd _.
  cbn [allDecimal] in Hd. apply andb_true_iff in Hd as [Hc Hs].
  split; [|discriminate]. cbn [trimEnd]. destruct s as [|d s].
  - cbn [trimEnd]. now rewrite (decimal_not_space _ Hc).
  - destruct (IH Hs eq_refl) as [E _]. now rewrite E.
Qed.

Lemma solid_floatToString (x : float) : decimal x = true -> solid (floatToString x).
Proof.
  intros H. destruct (floatToString_decimal _ H) as [A (c & r & E & _)].
  apply solid_allDecimal; [exact A|]. now rewrite E.
Qed.

Lemma solid_spatials (l : list float) :
  Forall (fun y => decimal y = true) l ->
  forall x, decimal x = true -> solid (join ":" (map floatToString (x :: l))).
Proof.
  induction 1 as [|y l Hy _ IH]; intros x Hx.
  - now apply solid_floatToString.
  - change (join ":" (map floatToString (x :: y :: l)))
      with (floatToString x ++ ":" ++ join ":" (map floatToString (y :: l)))%string.
    apply solid_app, solid_app. now apply IH.
Qed.

Lemma solid_partToString_timed (q : TPart) : timed q = true -> solid (partToString q).
Proof.
  intros Hq. destruct (timed_inv _ Hq) as (Hc & Ht & Hs).
  pose proof (canonical_plain _ Hc) as Hp.
  destruct (plain_inv _ Hp) as [Hn [Ho _]].
  change (index (untimed q)) with (index q) in Hn.
  change (offset (untimed q)) with (offset q) in Ho.
  destruct (numberToString_natural _ Hn) as [n [_ En]].
  unfold partToString. rewrite En. apply solid_app.
  assert (B : forall x y, solid ("[" ++ x ++ y ++ "]")).
  { intros x y. auto with solid. }
  apply solid_or_empty; [apply solid_natToString|].
  assert (C : forall a b, solid a \/ a = ""%string -> solid b \/ b = ""%string ->
                          solid (a ++ b) \/ (a ++ b)%string = ""%string).
  { intros a b [Ha | ->] Hb.
    - left. now apply solid_or_empty.
    - exact Hb. }
  repeat apply C; auto.
  - unfold idToString. destruct (id q) as [s|]; [destruct (nonEmpty s)|]; auto.
  - unfold offsetToString. destruct (offset q) as [o|] eqn:Eo; [|auto].
    destruct (oddIndex (index q)); [|auto]. left.
    destruct (numberToString_natural _ (Ho o eq_refl)) as [m [_ ->]].
    auto with solid.
  - unfold temporalToString. destruct (temporal q) as [t|]; [|auto].
    destruct (Ht t eq_refl) as [Hd ->]. left. apply solid_app.
    now apply solid_floatToString.
  - unfold spatialToString. destruct (spatial q) as [l|]; [|auto].
    destruct (Hs l eq_refl) as (x & r & -> & Hd). left. apply solid_app.
    inversion Hd; subst. now apply solid_spatials.
  - unfold textToString. destruct (text q); [left; apply B|].
    destruct (negb (hasId q) && hasSide q); [|auto]. left.
    change ("[" ++ paramOf q ++ "]")%string with ("[" ++ "" ++ paramOf q ++ "]")%string.
    apply B.
Qed.

Lemma solid_partsToString_timed (r : list TPart) :
  forall p, Forall (fun q => timed q = true) (p :: r) -> solid (partsToString (p :: r)).
Proof.
  induction r as [|q r IH]; intros p H; inversion H; subst.
  - now apply solid_partToString_timed.
  - rewrite partsToString_cons. apply solid_app. now apply IH.
Qed.

Lemma trim_partsToString_timed (parts : list TPart) :
  Forall (fun q => timed q = true) parts ->
  trim (partsToString parts) = partsToString parts.
Proof.
  intros H. destruct parts as [|p r]; [reflexivity|].
  destruct (solid_partsToString_timed H) as [S _].
  assert (E : exists t, partsToString (p :: r) = String "/" t).
  { rewrite partsToString_cons. unfold partToString. eexists. reflexivity. }
  destruct E as [t E]. unfold trim. rewrite E in *. exact S.
Qed.

(* ------------------------------------------------------------------ *)
(** ** Rendering, then tokenizing, with temporal and spatial values *)

Lemma startsAfterDecimal_parts (parts : list TPart) (rest : list (option ascii)) :
  startsAfterDecimal rest = true ->
  startsAfterDecimal (cs (partsToString parts) ++ rest) = true.
Proof.
  intros Hr. destruct parts as [|p r]; [exact Hr|].
  assert (E : exists t, partsToString (p :: r) = String "/" t).
  { rewrite partsToString_cons. unfold partToString. eexists. reflexivity. }
  destruct E as [t ->]. reflexivity.
Qed.

Lemma run_parts_timed (parts : list TPart) :
  Forall (fun q => timed q = true) parts ->
  forall ts rest,
    startsAfterDecimal rest = true ->
    run (idle ts) (cs (partsToString parts) ++ rest)
    = run (idle (ts ++ concat (map timedToks parts))) rest.
Proof.
  induction 1 as [|p r Hp _ IH]; intros ts rest Hr.
  - simpl. now rewrite app_nil_r.
  - rewrite partsToString_cons, cs_app, <- app_assoc.
    rewrite tok_part_timed by (try exact Hp; now apply startsAfterDecimal_parts).
    rewrite IH by exact Hr. cbn [map concat]. now rewrite app_assoc.
Qed.

Lemma tokenizer_partsToString_timed (parts : list TPart) :
  Forall (fun q => timed q = true) parts ->
  tokenizer (partsToString parts) = concat (map timedToks parts).
Proof.
  intros H. unfold tokenizer, chars. rewrite (trim_partsToString_timed H).
  fold (cs (partsToString parts)). change initTok with (idle []).
  now rewrite (@run_parts_timed parts H [] [None] eq_refl).
Qed.

(* ------------------------------------------------------------------ *)
(** ** Temporal and spatial values in the step parser *)

Lemma fold_spatials (l : list float) :
  forall a b c d e f g st,
    fold_left applyAttr (map TSpatial l) (mkPart a b c d e f g, st)
    = (mkPart a b c
         (match l with
          | [] => d
          | _ => Some (match d with Some t => t | None => [] end ++ l)
          end) e f g,
       match l with [] => st | _ => Some KSpatial end).
Proof.
  induction l as [|v l IH]; intros a b c d e f g st; [reflexivity|].
  cbn [map fold_left applyAttr]. unfold addSpatial. cbn.
  rewrite IH. destruct l; [reflexivity|]. now rewrite <- app_assoc.
Qed.

Lemma fold_time (q : TPart) :
  timed q = true ->
  forall p st,
    temporal p = None -> spatial p = None ->
    exists stT,
      fold_left applyAttr (temporalToks q ++ spatialToks q) (p, st)
      = (setTime (temporal q) (spatial q) p, stT) /\
      ((stT = st /\ temporal q = None /\ spatial q = None) \/ isKStep stT = false).
Proof.
  intros Hq p st Et Es. destruct (timed_inv _ Hq) as (_ & Ht & Hs).
  destruct p as [a b c d e f g]. cbn in Et, Es. subst c d.
  unfold temporalToks, spatialToks, setTime. cbn [index offset side id text].
  destruct (temporal q) as [t|].
  - destruct (Ht t eq_refl) as [_ ->].
    destruct (spatial q) as [l|].
    + destruct (Hs l eq_refl) as (x & r & -> & _).
      cbn [app fold_left applyAttr]. unfold setTemporal.
      cbn [index offset temporal spatial side id text].
      rewrite fold_spatials. eexists. split; [reflexivity|]. now right.
    + eexists. split; [reflexivity|]. now right.
  - destruct (spatial q) as [l|].
    + destruct (Hs l eq_refl) as (x & r & -> & _).
      cbn [app]. rewrite fold_spatials. eexists. split; [reflexivity|]. now right.
    + eexists. split; [reflexivity|]. now left.
Qed.

Lemma fold_bracket (X : list TToken) :
  forallb bracketTok X = true ->
  forall p st st' tm sp,
    isKStep st = false -> isKStep st' = false ->
    fst (fold_left applyAttr X (setTime tm sp p, st'))
    = setTime tm sp (fst (fold_left applyAttr X (p, st))).
Proof.
  induction X as [|t X IH]; intros H p st st' tm sp K K'; [reflexivity|].
  cbn [forallb] in H. apply andb_true_iff in H as [Ht HX].
  cbn [fold_left]. destruct t; try discriminate.
  - assert (E : forall r s0, isKStep s0 = false ->
                             applyAttr (r, s0) (TAssert s) = (addText s r, s0)).
    { intros r [[]|] Hk; try reflexivity. discriminate. }
    rewrite !E by assumption.
    change (addText s (setTime tm sp p)) with (setTime tm sp (addText s p)).
    now apply IH.
  - cbn [applyAttr]. destruct (name =? "s")%string.
    + change (setSide s (setTime tm sp p)) with (setTime tm sp (setSide s p)).
      now apply IH.
    + now apply IH.
Qed.

Lemma textToks_bracket (q : TPart) : forallb bracketTok (textToks q) = true.
Proof.
  assert (P : forallb bracketTok (paramToks q) = true).
  { unfold paramToks. destruct (side q) as [s|]; [destruct (nonEmpty s)|]; reflexivity. }
  assert (T : forall l, forallb bracketTok (map TAssert l) = true).
  { induction l; simpl; auto. }
  unfold textToks. destruct (text q) as [[|t l]|].
  - exact P.
  - now rewrite forallb_app, T.
  - destruct (negb (hasId q) && hasSide q); [exact P|reflexivity].
Qed.

(** What the tokens of the id and of the offset leave behind: no
    temporal or spatial value, and a state other than that of a step
    unless the part has nothing in brackets after them. *)
Lemma fold_front (q : TPart) :
  canonical (untimed q) = true ->
  exists pA stA,
    fold_left applyAttr (idToks q ++ offsetToks q) (newPart (index q), Some KStep)
    = (pA, stA) /\
    temporal pA = None /\ spatial pA = None /\
    (isKStep stA = true -> textToks q = []).
Proof.
  unfold canonical. intros H. repeat (apply andb_true_iff in H as [H ?]).
  destruct q as [ix off tm sp sd i tx].
  cbn [untimed index offset temporal spatial side id text] in *.
  unfold idToks, offsetToks, textToks, paramToks, hasId, hasSide, newPart.
  cbn [id side offset text index].
  destruct i as [i|]; destruct off as [o|]; destruct sd as [s|]; destruct tx as [[|t l]|];
    cbn [isSome orb andb negb length Nat.eqb] in *; try discriminate;
    repeat match goal with
           | H : _ && _ = true |- _ => apply andb_true_iff in H as [? ?]
           | H : nonEmpty _ = true |- _ => rewrite H
           | H : oddIndex _ = true |- _ => rewrite H
           end;
    try discriminate;
    cbn [app fold_left applyAttr String.eqb Ascii.eqb Bool.eqb];
    repeat match goal with
           | H : nonEmpty _ = true |- _ => rewrite H
           end;
    eexists _, _; (split; [reflexivity|]); repeat split; try reflexivity;
    cbn [isKStep]; try discriminate.
Qed.

(** The tokens of a part with temporal and spatial values build the
    part again. *)
Lemma attrs_rebuild_timed (q : TPart) :
  timed q = true ->
  fst (fold_left applyAttr
         (idToks q ++ offsetToks q ++ temporalToks q ++ spatialToks q ++ textToks q)
         (newPart (index q), Some KStep)) = q.
Proof.
  intros Hq. destruct (timed_inv _ Hq) as (Hc & _).
  pose proof (attrs_rebuild _ Hc) as R.
  change (fst (fold_left applyAttr (idToks q ++ offsetToks q ++ textToks q)
                         (newPart (index q), Some KStep)) = untimed q) in R.
  destruct (fold_front q Hc) as (pA & stA & EA & At & As & AX).
  rewrite app_assoc, fold_left_app, EA in R.
  rewrite (app_assoc (idToks q)), fold_left_app, EA.
  rewrite (app_assoc (temporalToks q)), fold_left_app.
  destruct (@fold_time q Hq pA stA At As) as (stT & ET & Hst). rewrite ET.
  assert (Q : setTime (temporal q) (spatial q) (untimed q) = q) by now destruct q.
  destruct Hst as [(-> & Nt & Ns) | KT].
  - rewrite Nt, Ns in *.
    assert (P : setTime None None pA = pA).
    { destruct pA. cbn in At, As. now subst. }
    rewrite P, R. destruct q. cbn in Nt, Ns. now subst.
  - destruct (isKStep stA) eqn:KA.
    + rewrite (AX eq_refl) in *. cbn [fold_left fst] in *. now rewrite R.
    + rewrite (@fold_bracket (textToks q) (textToks_bracket q) pA stA stT _ _ KA KT).
      now rewrite R.
Qed.

Lemma timedToks_noStep (q : TPart) :
  noStep (idToks q ++ offsetToks q ++ temporalToks q ++ spatialToks q ++ textToks q) = true.
Proof.
  pose proof (partToks_noStep q) as H. unfold noStep in *.
  rewrite !forallb_app in *. apply andb_true_iff in H as [H1 H].
  apply andb_true_iff in H as [H2 H3]. rewrite H1, H2, H3. cbn [andb].
  rewrite andb_true_r. apply andb_true_iff. split.
  - unfold temporalToks. destruct (temporal q) as [t|]; [destruct (truthyF t)|]; reflexivity.
  - unfold spatialToks. destruct (spatial q) as [l|]; [|reflexivity].
    induction l; simpl; auto.
Qed.

Lemma parser_timedToks (parts : list TPart) :
  Forall (fun q => timed q = true) parts ->
  forall ps st, exists st',
    parserLoop (ps, st) (concat (map timedToks parts)) = Ok (ps ++ parts, st').
Proof.
  induction 1 as [|p r Hp _ IH]; intros ps st.
  - exists st. simpl. now rewrite app_nil_r.
  - cbn [map concat]. unfold timedToks at 1.
    cbn [app parserLoop parserStep bind].
    rewrite parserLoop_app, parserLoop_attrs by apply timedToks_noStep. cbn [bind].
    rewrite (attrs_rebuild_timed _ Hp).
    destruct (IH (ps ++ [p])
                 (snd (fold_left applyAttr
                         (idToks p ++ offsetToks p ++ temporalToks p ++ spatialToks p
                          ++ textToks p)
                         (newPart (index p), Some KStep)))) as [st' E].
    exists st'. rewrite E, <- app_assoc. reflexivity.
Qed.

(** X25: a path whose parts carry temporal and spatial values survives
    rendering and reading.  For parts that are canonical apart from
    these values, with a temporal value that is a decimal other than
    zero and spatial values that are a non-empty list of decimals, the
    tokenizer reads the rendering of the path as, for each part, its
    step, id, offset, one temporal token, one spatial token per value
    and its text, and the step parser builds the same parts from these
    tokens. *)
Theorem timed_path_round_trip (parts : list TPart) :
  Forall (fun q => timed q = true) parts ->
  tokenizer (partsToString parts) = concat (map timedToks parts) /\
  parser (tokenizer (partsToString parts)) = Ok parts.
Proof.
  intros H. rewrite (@tokenizer_partsToString_timed parts H).
  split; [reflexivity|]. unfold parser.
  destruct (@parser_timedToks parts H [] None) as [st E]. now rewrite E.
Qed.

Lemma timed_path_round_trip_witness :
  partsToString
    [mkPart (Num 4) None None None None (Some "v1") None;
     mkPart (Num 3) (Some (Num 7)) (Some (Float 235 1)) (Some [Float 5 1; Float 75 0])
            None None None]
  = "/4[v1]/3:7~23.5@0.5:75" /\
  parser (tokenizer "/4[v1]/3:7~23.5@0.5:75")
  = Ok [mkPart (Num 4) None None None None (Some "v1") None;
        mkPart (Num 3) (Some (Num 7)) (Some (Float 235 1)) (Some [Float 5 1; Float 75 0])
               None None None].
Proof.
  split; [reflexivity|].
  refine (proj2 (@timed_path_round_trip
           [mkPart (Num 4) None None None None (Some "v1") None;
            mkPart (Num 3) (Some (Num 7)) (Some (Float 235 1))
                   (Some [Float 5 1; Float 75 0]) None None None] _)).
  repeat constructor.
Defined.

(* ------------------------------------------------------------------ *)
(** ** How a rendered path ends *)

Lemma lastChar_app (a b : string) : b <> ""%string -> lastChar (a ++ b) = lastChar b.
Proof.
  intros Hb. induction a as [|c a IH]; [reflexivity|].
  cbn [append lastChar]. rewrite IH. destruct (a ++ b)%string eqn:E; [|reflexivity].
  destruct a; [cbn in E; contradiction|discriminate].
Qed.

Lemma endsOpen_app (a b : string) : endsOpen b -> endsOpen (a ++ b).
Proof.
  intros [Nb Lb]. split.
  - destruct a; [exact Nb|discriminate].
  - now rewrite lastChar_app.
Qed.

Lemma endsOpen_digits (s : string) :
  allDigits s = true -> nonEmpty s = true -> endsOpen s.
Proof.
  intros Hd Hn. split; [now destruct s|].
  induction s as [|c s IH]; [discriminate|].
  cbn [allDigits] in Hd. apply andb_true_iff in Hd as [Hc Hs].
  cbn [lastChar]. destruct s as [|d s].
  - intros E. injection E as ->. discriminate.
  - now apply IH.
Qed.

Section Endings.

Variable Q : string -> Prop.
Hypothesis Q_app : forall a b, Q b -> Q (a ++ b)%string.
Hypothesis Q_nat : forall n, Q (natToString n).
Hypothesis Q_close : Q "]".

Lemma ending_or_empty (a b : string) : Q a -> Q b \/ b = ""%string -> Q (a ++ b)%string.
Proof. intros Ha [Hb | ->]; [now apply Q_app|now rewrite append_nil_r]. Qed.

Lemma ending_partToString (p : TPart) : plain p = true -> Q (partToString p).
Proof.
  intros Hp. destruct (plain_inv _ Hp) as [Hn [Ho [Ht [Hs _]]]].
  destruct (numberToString_natural _ Hn) as [n [_ En]].
  unfold partToString, temporalToString, spatialToString. rewrite En, Ht, Hs.
  apply Q_app.
  assert (B : forall x y, Q ("[" ++ x ++ y ++ "]")%string).
  { intros x y. now repeat apply Q_app. }
  apply ending_or_empty; [apply Q_nat|].
  assert (C : forall a b, Q a \/ a = ""%string -> Q b \/ b = ""%string ->
                          Q (a ++ b)%string \/ (a ++ b)%string = ""%string).
  { intros a b [Ha | ->] Hb.
    - left. now apply ending_or_empty.
    - exact Hb. }
  repeat apply C; auto.
  - unfold idToString. destruct (id p) as [s|]; [destruct (nonEmpty s)|]; auto.
  - unfold offsetToString. destruct (offset p) as [o|] eqn:Eo; [|auto].
    destruct (oddIndex (index p)); [|auto]. left.
    destruct (numberToString_natural _ (Ho o eq_refl)) as [m [_ ->]].
    apply Q_app, Q_nat.
  - unfold textToString. destruct (text p); [left; apply B|].
    destruct (negb (hasId p) && hasSide p); [|auto]. left.
    change ("[" ++ paramOf p ++ "]")%string with ("[" ++ "" ++ paramOf p ++ "]")%string.
    apply B.
Qed.

Lemma ending_partsToString (r : list TPart) :
  forall p, Forall (fun q => plain q = true) (p :: r) -> Q (partsToString (p :: r)).
Proof.
  induction r as [|q r IH]; intros p H; inversion H; subst.
  - now apply ending_partToString.
  - rewrite partsToString_cons. apply Q_app. now apply IH.
Qed.

End Endings.

Lemma endsOpen_partsToString (s : list TPart) :
  Forall (fun q => plain q = true) s ->
  forall a, endsOpen (a ++ "!" ++ partsToString s).
Proof.
  intros H a. apply endsOpen_app. destruct s as [|p r].
  - split; cbn; discriminate.
  - apply endsOpen_app. apply ending_partsToString; trivial.
    + apply endsOpen_app.
    + intros n. apply endsOpen_digits;
        [apply natToString_allDigits|apply natToString_nonEmpty].
    + split; cbn; discriminate.
Qed.

Lemma unwrap_endsOpen (x : string) : endsOpen x -> unwrap x = x.
Proof.
  intros [_ L]. unfold unwrap. destruct (matchCFI x) as [body|] eqn:M; [|reflexivity].
  destruct (matchCFI_inv _ M) as [-> _]. exfalso. apply L.
  rewrite (@lastChar_app "epubcfi(" (body ++ ")")) by (destruct body; discriminate).
  now rewrite (@lastChar_app body ")") by discriminate.
Qed.

(* ------------------------------------------------------------------ *)
(** ** The identifier of the spine item followed by a path *)

Lemma natural_even (i : N) :
  (2 * (i + 1) < 2 ^ 53)%N -> natural (Num (Z.of_N (2 * (i + 1)))) = true.
Proof.
  intros B. unfold natural. apply andb_true_iff. split; [apply Z.leb_le; lia|].
  apply Z.ltb_lt. change (2 ^ 53)%Z with (Z.of_N (2 ^ 53)). now apply N2Z.inj_lt.
Qed.

Lemma numberToString_of_N (n : N) :
  natural (Num (Z.of_N n)) = true -> numberToString (Num (Z.of_N n)) = natToString n.
Proof.
  intros H. destruct (numberToString_natural _ H) as [m [Em Sm]].
  assert (m = n) by (injection Em as Em; symmetry; now apply N2Z.inj). now subst m.
Qed.

Lemma fromIndex_string (i : N) :
  (2 * (i + 1) < 2 ^ 53)%N ->
  fromIndex (Num (Z.of_N i)) = ("epubcfi(/6/" ++ natToString (2 * (i + 1)) ++ ")")%string.
Proof.
  intros B. unfold fromIndex.
  assert (T : times (plus (Num (Z.of_N i)) (Num 1)) (Num 2) = Num (Z.of_N (2 * (i + 1)))).
  { cbn [plus times]. f_equal. lia. }
  rewrite T, (numberToString_of_N _ (natural_even _ B)). apply wrap_paths. now left.
Qed.

Lemma plain_newPart (a : number) : natural a = true -> plain (newPart a) = true.
Proof.
  intros H. unfold plain, newPart. cbn [index offset temporal spatial side id text].
  now rewrite H.
Qed.

Lemma canonical_newPart (a : number) : natural a = true -> canonical (newPart a) = true.
Proof.
  intros H. unfold canonical. rewrite (plain_newPart _ H). reflexivity.
Qed.

(** The string that [fromCalibreHighlight] hands to [parse]: the
    wrapper is closed before the indirection. *)
Lemma highlight_string (n : N) (s : list TPart) :
  natural (Num (Z.of_N n)) = true ->
  ((("epubcfi(/6/" ++ natToString n ++ ")") ++ "!") ++ partsToString s)%string
  = ("epubcfi(" ++ partsToString [newPart (Num 6); newPart (Num (Z.of_N n))]
     ++ ")" ++ pathsToString [[]; s])%string.
Proof.
  intros Hn. rewrite pathsToString_cons2.
  unfold partsToString at 2 3, pathsToString. cbn [map join].
  rewrite !partToString_newPart, (numberToString_of_N _ Hn).
  change (numberToString (Num 6)) with "6".
  rewrite !append_assoc. reflexivity.
Qed.

Lemma tokenizer_highlight (n : N) (s : list TPart) :
  natural (Num (Z.of_N n)) = true ->
  Forall (fun p => plain p = true) s ->
  tokenizer ((("epubcfi(/6/" ++ natToString n ++ ")") ++ "!") ++ partsToString s)
  = joinToks (map pathToks [[newPart (Num 6); newPart (Num (Z.of_N n))]; s]).
Proof.
  intros Hn Hs. set (item := [newPart (Num 6); newPart (Num (Z.of_N n))]).
  assert (Hi : Forall (fun p => plain p = true) item).
  { repeat constructor; now apply plain_newPart. }
  assert (Tr : trim ((("epubcfi(/6/" ++ natToString n ++ ")") ++ "!") ++ partsToString s)
               = ((("epubcfi(/6/" ++ natToString n ++ ")") ++ "!") ++ partsToString s)%string).
  { unfold trim. rewrite !append_assoc.
    change ("epubcfi(/6/" ++ natToString n ++ ")" ++ "!" ++ partsToString s)%string
      with (String "e" ("pubcfi(/6/" ++ natToString n ++ ")" ++ "!" ++ partsToString s)).
    rewrite trimStart_head by reflexivity.
    change (String "e" ("pubcfi(/6/" ++ natToString n ++ ")" ++ "!" ++ partsToString s))
      with ("epubcfi(/6/" ++ natToString n ++ ")" ++ "!" ++ partsToString s)%string.
    assert (S : solid ("epubcfi(/6/" ++ natToString n ++ ")" ++ "!" ++ partsToString s)).
    { apply solid_app, solid_app. destruct s as [|p r].
      - split; [reflexivity|discriminate].
      - apply solid_app, solid_app. now apply solid_partsToString. }
    apply S. }
  unfold tokenizer, chars. rewrite Tr, (@highlight_string n s Hn).
  fold item. fold (cs ("epubcfi(" ++ partsToString item ++ ")" ++ pathsToString [[]; s])).
  rewrite !cs_app, <- !app_assoc.
  change (cs "epubcfi(") with (map Some (list_ascii_of_string "epubcfi(")).
  rewrite run_app.
  change (run initTok (map Some (list_ascii_of_string "epubcfi("))) with (idle []).
  rewrite (@run_parts item Hi []) by reflexivity.
  change (cs ")") with [Some ")"%char]. cbn [app run fold_left].
  change (step (idle (concat (map partToks item))) (Some ")"%char))
    with (idle (concat (map partToks item))).
  fold (run (idle (concat (map partToks item)))
            (cs (pathsToString [[]; s]) ++ [None])).
  rewrite (@run_paths [[]; s]) by (repeat constructor; assumption).
  reflexivity.
Qed.

(* ------------------------------------------------------------------ *)
(** ** Parsing a string with known tokens *)

Lemma parse_of_paths (x : string) (P : list (list TPart)) (g : list TPart) :
  tokenizer (unwrap x) = joinToks (map pathToks P) ->
  P <> [] ->
  Forall (Forall (fun p => canonical p = true)) P ->
  parser (slice (joinToks (map pathToks P)) 0 (-1)) = Ok g ->
  parse x = Ok (Paths (g :: P)).
Proof.
  intros T NE H G. unfold parse. rewrite T.
  unfold findTokens at 1, findIndices.
  change (fun t : TToken => ttype_eqb (typeOf t) KRange) with isRange.
  rewrite (findIndices_nil isRange _ 0 (joinToks_no_range P)).
  unfold parserIndir. rewrite splitAt_joinToks.
  - cbn [mapM]. rewrite G, (mapM_parser_pathToks H). reflexivity.
  - now destruct P.
  - apply Forall_forall. intros s Hs. apply in_map_iff in Hs as [y [<- _]].
    eapply forallb_weaken; [|apply pathToks_no_marker].
    intros t Et. now apply andb_true_iff in Et as [Et _].
Qed.

Lemma slice_removelast {A} (l : list A) : slice l 0 (-1) = removelast l.
Proof. rewrite slice_init_firstn, removelast_firstn_len. f_equal. lia. Qed.

Lemma parser_all_but_last (P : list (list TPart)) :
  exists g, parser (removelast (joinToks (map pathToks P))) = Ok g.
Proof.
  apply parser_guarded. rewrite <- slice_removelast, slice_init_firstn.
  apply guarded_firstn, guarded_joinToks.
Qed.

(* ------------------------------------------------------------------ *)
(** ** Ranges between the last paths *)

Lemma rangeOf_local (pa pb : list (list TPart)) (s e : list TPart) :
  rangeOf (Paths (pa ++ [s])) (Paths (pb ++ [e]))
  = (r <- rangeOf (Paths [s]) (Paths [e]) ;;
     Ok (mkParsed (pa ++ parent r) (start r) (end_ r))).
Proof.
  unfold rangeOf, collapse. cbn [bind].
  rewrite !nth_error_last_snoc, slice_all_but_last.
  change (nth_error [s] (length [s] - 1)) with (Some s).
  change (nth_error [e] (length [e] - 1)) with (Some e).
  change (slice [s] 0 (-1)) with (slice ([] ++ [s]) 0 (-1)).
  rewrite slice_all_but_last.
  destruct (Nat.max (length s) (length e)); reflexivity.
Qed.

(** X26: [fromCalibreHighlight] on two identifiers that are, after
    their first two characters, the renderings of canonical paths [s]
    and [e], and on a spine index [i] with [n = 2 (i + 1)] an exact
    double.  The result is the range identifier that [buildRange]
    makes for [s] and [e], with two more paths in front of its parent:
    the path [/6/n] of the spine item, and before it the path that the
    step parser makes from all tokens of the start identifier but the
    last one (the steps 6 and [n] and the tokens of [s] without the
    last one).  The first two characters of either identifier are
    dropped whatever they are. *)
Theorem fromCalibreHighlight_paths (i : N) (s e : list TPart) (a b c d : ascii) :
  (2 * (i + 1) < 2 ^ 53)%N ->
  Forall (fun p => canonical p = true) s ->
  Forall (fun p => canonical p = true) e ->
  let item := [newPart (Num 6); newPart (Num (Z.of_N (2 * (i + 1))))] in
  exists g r,
    parser (removelast (pathToks item ++ TIndir :: pathToks s)) = Ok g /\
    rangeOf (Paths [s]) (Paths [e]) = Ok r /\
    fromCalibreHighlight (Num (Z.of_N i))
                         (String a (String b (partsToString s)))
                         (String c (String d (partsToString e)))
    = Ok (toString (Parsed (mkParsed (g :: item :: parent r) (start r) (end_ r)))).
Proof.
  intros B Hs He item.
  pose proof (natural_even _ B) as Hn.
  assert (Hi : Forall (fun p => canonical p = true) item).
  { repeat constructor; now apply canonical_newPart. }
  assert (Pl : forall t, Forall (fun p => canonical p = true) t ->
                         Forall (fun p => plain p = true) t).
  { intros t Ht. eapply Forall_impl; [|exact Ht]. apply canonical_plain. }
  assert (Parse : forall t, Forall (fun p => canonical p = true) t ->
            exists g,
              parser (removelast (pathToks item ++ TIndir :: pathToks t)) = Ok g /\
              parse ((fromIndex (Num (Z.of_N i)) ++ "!") ++ partsToString t)
              = Ok (Paths [g; item; t])).
  { intros t Ht. destruct (parser_all_but_last [item; t]) as [g G].
    exists g. split; [exact G|].
    apply parse_of_paths.
    - rewrite (@fromIndex_string i B), unwrap_endsOpen.
      + now apply tokenizer_highlight, Pl.
      + rewrite (append_assoc ("epubcfi(/6/" ++ natToString (2 * (i + 1)) ++ ")") "!"
                              (partsToString t)).
        apply (@endsOpen_partsToString t (Pl _ Ht)).
    - discriminate.
    - constructor; [exact Hi|]. constructor; [exact Ht|constructor].
    - now rewrite slice_removelast. }
  destruct (Parse s Hs) as (g & G & Ps). destruct (Parse e He) as (g' & _ & Pe).
  assert (R : exists r, rangeOf (Paths [s]) (Paths [e]) = Ok r).
  { unfold rangeOf, collapse. cbn [bind].
    change (nth_error [s] (length [s] - 1)) with (Some s).
    change (nth_error [e] (length [e] - 1)) with (Some e).
    destruct (Nat.max (length s) (length e)); eexists; reflexivity. }
  destruct R as [r R]. exists g, r. split; [exact G|]. split; [exact R|].
  unfold fromCalibreHighlight. cbn [sliceFrom]. rewrite Ps, Pe. cbn [bind].
  unfold buildRange.
  change [g; item; s] with ([g; item] ++ [s]).
  change [g'; item; e] with ([g'; item] ++ [e]).
  rewrite (@rangeOf_local [g; item] [g'; item] s e), R. reflexivity.
Qed.

Lemma fromCalibreHighlight_paths_witness :
  fromCalibreHighlight (Num 1) "/2/4/1:3" "/2/4/1:9"
  = Ok "epubcfi(/6/4/4/1!/6/4!/4,/1:3,/1:9)".
Proof.
  destruct (@fromCalibreHighlight_paths 1
              [newPart (Num 4); stepWithOffset 1 3] [newPart (Num 4); stepWithOffset 1 9]
              "/" "2" "/" "2" eq_refl
              ltac:(repeat constructor) ltac:(repeat constructor))
    as (g & r & G & R & E).
  vm_compute in G, R. injection G as <-. injection R as <-.
  exact E.
Defined.

(* ------------------------------------------------------------------ *)
(** ** The identifier that holds a UUID *)

Lemma splitOn_nonempty (sep : ascii) (s : string) : splitOn sep s <> [].
Proof.
  induction s as [|c r IH]; [discriminate|]. cbn [splitOn].
  destruct (Ascii.eqb c sep); [discriminate|]. destruct (splitOn sep r); discriminate.
Qed.

Lemma slice_last {A} (l : list A) (d : A) :
  l <> [] -> slice l (-1) (Z.of_nat (length l)) = [last l d].
Proof.
  intros NE. rewrite slice_to_end. change (-1 <? 0)%Z with true. cbv iota.
  destruct (@exists_last _ l NE) as (l' & x & ->).
  rewrite last_last, length_app. cbn [length].
  replace (Z.to_nat (Z.of_nat (length l' + 1) + -1)) with (length l' + 0)%nat by lia.
  rewrite skipn_app, Nat.add_0_r, skipn_all, Nat.sub_diag. reflexivity.
Qed.

Lemma getUUIDFrom_spec (els : list Element) :
  (getUUIDFrom els = Some ""%string /\
   Forall (fun el => testUUID (lastSegment el) = false) els)
  \/ exists pre el post,
       els = pre ++ el :: post /\
       Forall (fun x => testUUID (lastSegment x) = false) pre /\
       testUUID (lastSegment el) = true /\
       getUUIDFrom els = Some (lastSegment el).
Proof.
  induction els as [|el rest IH].
  - left. split; [reflexivity|constructor].
  - cbn [getUUIDFrom].
    rewrite (@slice_last _ (splitOn ":" (getElementText (Some el))) ""%string
               (splitOn_nonempty _ _)).
    cbn [hd_error]. fold (lastSegment el).
    destruct (testUUID (lastSegment el)) eqn:T.
    + right. exists [], el, rest. repeat split; trivial.
    + destruct IH as [[E F] | (pre & x & post & -> & F & Tx & E)].
      * left. split; [exact E|now constructor].
      * right. exists (el :: pre), x, post. repeat split; trivial. now constructor.
Qed.

Lemma getUUIDFrom_cons (el : Element) (rest : list Element) :
  getUUIDFrom (el :: rest)
  = if testUUID (lastSegment el) then Some (lastSegment el) else getUUIDFrom rest.
Proof.
  cbn [getUUIDFrom].
  rewrite (@slice_last _ (splitOn ":" (getElementText (Some el))) ""%string
             (splitOn_nonempty _ _)).
  reflexivity.
Qed.

Lemma testUUID_head (s : string) : matchUUIDAt s = true -> testUUID s = true.
Proof. intros H. destruct s; cbn [testUUID]; now rewrite H. Qed.

Lemma testUUID_app (a s : string) : testUUID s = true -> testUUID (a ++ s) = true.
Proof.
  intros H. induction a as [|c a IH]; [exact H|].
  cbn [append testUUID]. rewrite IH. apply orb_true_r.
Qed.

(* ------------------------------------------------------------------ *)
(** ** The digits of a byte *)

Lemma hex_lower (b : Byte.byte) : isHexLower (hexHi b) = true /\ isHexLower (hexLo b) = true.
Proof. destruct b; split; reflexivity. Qed.

Lemma hex_not_dash (b : Byte.byte) :
  Ascii.eqb (hexHi b) "-" = false /\ Ascii.eqb (hexLo b) "-" = false.
Proof. destruct b; split; reflexivity. Qed.

Lemma hex_not_colon (b : Byte.byte) :
  Ascii.eqb (hexHi b) ":" = false /\ Ascii.eqb (hexLo b) ":" = false.
Proof. destruct b; split; reflexivity. Qed.

Lemma hex_not_space (b : Byte.byte) :
  isAsciiWhitespace (hexHi b) = false /\ isAsciiWhitespace (hexLo b) = false.
Proof. destruct b; split; reflexivity. Qed.

Lemma parseInt16_hexOf (b : Byte.byte) :
  toUint8 (parseInt16 (String (hexHi b) (String (hexLo b) ""))) = b.
Proof. destruct b; reflexivity. Qed.

Lemma xorByte_zero (b : Byte.byte) : xorByte b Byte.x00 = b.
Proof. destruct b; reflexivity. Qed.

Lemma hexHi_lower (b : Byte.byte) : isHexLower (hexHi b) = true.
Proof. apply hex_lower. Qed.

Lemma hexLo_lower (b : Byte.byte) : isHexLower (hexLo b) = true.
Proof. apply hex_lower. Qed.

Lemma hexHi_dash (b : Byte.byte) : Ascii.eqb (hexHi b) "-" = false.
Proof. apply hex_not_dash. Qed.

Lemma hexLo_dash (b : Byte.byte) : Ascii.eqb (hexLo b) "-" = false.
Proof. apply hex_not_dash. Qed.

Lemma hexHi_colon (b : Byte.byte) : Ascii.eqb (hexHi b) ":" = false.
Proof. apply hex_not_colon. Qed.

Lemma hexLo_colon (b : Byte.byte) : Ascii.eqb (hexLo b) ":" = false.
Proof. apply hex_not_colon. Qed.

Lemma hexHi_space (b : Byte.byte) : isAsciiWhitespace (hexHi b) = false.
Proof. apply hex_not_space. Qed.

Lemma hexLo_space (b : Byte.byte) : isAsciiWhitespace (hexLo b) = false.
Proof. apply hex_not_space. Qed.

Lemma removeChar_hexOf (b : Byte.byte) (r : string) :
  removeChar "-" (String (hexHi b) (String (hexLo b) r))
  = String (hexHi b) (String (hexLo b) (removeChar "-" r)).
Proof. cbn [removeChar]. now rewrite hexHi_dash, hexLo_dash. Qed.

Lemma removeChar_same (c : ascii) (r : string) : removeChar c (String c r) = removeChar c r.
Proof. cbn [removeChar]. now rewrite Ascii.eqb_refl. Qed.

(** A list of 16 bytes, written out. *)
Ltac sixteen bs H :=
  do 16 (destruct bs as [|? bs]; [discriminate H|]);
  destruct bs; [clear H|discriminate H].

Ltac flat :=
  cbn [formatUUID hexOfAll firstn skipn map fold_right hexOf append].

Lemma matchUUIDAt_formatUUID (bs : list Byte.byte) (rest : string) :
  length bs = 16%nat -> matchUUIDAt (formatUUID bs ++ rest) = true.
Proof.
  intros H. sixteen bs H. flat. unfold matchUUIDAt.
  repeat (progress (cbn [hexRun dashThen]; rewrite ?hexHi_lower, ?hexLo_lower)).
  reflexivity.
Qed.

Lemma lacks_formatUUID (bs : list Byte.byte) :
  length bs = 16%nat -> lacks ":" (formatUUID bs) = true.
Proof.
  intros H. sixteen bs H. flat.
  cbn [lacks]. rewrite ?hexHi_colon, ?hexLo_colon. reflexivity.
Qed.

Lemma noWhitespace_formatUUID (bs : list Byte.byte) :
  length bs = 16%nat -> noWhitespace (formatUUID bs) = true.
Proof.
  intros H. sixteen bs H. flat.
  cbn [noWhitespace]. rewrite ?hexHi_space, ?hexLo_space. reflexivity.
Qed.

Lemma removeChar_formatUUID (bs : list Byte.byte) :
  length bs = 16%nat -> removeChar "-" (formatUUID bs) = hexOfAll bs.
Proof.
  intros H. sixteen bs H. flat.
  repeat (rewrite removeChar_hexOf || rewrite removeChar_same). reflexivity.
Qed.

Lemma key_of_hex (bs : list Byte.byte) :
  length bs = 16%nat ->
  map (fun i => toUint8 (parseInt16 (substring (i * 2) (i * 2 + 2 - i * 2) (hexOfAll bs))))
      (seq 0 16)
  = bs.
Proof.
  intros H. sixteen bs H. flat.
  cbn [seq map Nat.mul Nat.add Nat.sub substring].
  now rewrite !parseInt16_hexOf.
Qed.

(* ------------------------------------------------------------------ *)
(** ** Text without white space, and its last segment *)

Lemma noWhitespace_spaced (t : string) :
  noWhitespace t = true -> forall b, spaced b t = true.
Proof.
  induction t as [|c t IH]; intros H b; [reflexivity|].
  cbn [noWhitespace] in H. apply andb_true_iff in H as [Hc Ht].
  apply negb_true_iff in Hc. cbn [spaced]. rewrite Hc. now apply IH.
Qed.

Lemma noWhitespace_ends (t : string) : noWhitespace t = true -> endsInWhitespace t = false.
Proof.
  induction t as [|c t IH]; intros H; [reflexivity|].
  cbn [noWhitespace] in H. apply andb_true_iff in H as [Hc Ht].
  apply negb_true_iff in Hc. cbn [endsInWhitespace]. destruct t; [exact Hc|now apply IH].
Qed.

Lemma noWhitespace_app (a b : string) :
  noWhitespace (a ++ b) = noWhitespace a && noWhitespace b.
Proof.
  induction a as [|c a IH]; [reflexivity|]. cbn [append noWhitespace].
  now rewrite IH, andb_assoc.
Qed.

Lemma normalizeWhitespace_fixed (t : string) :
  noWhitespace t = true -> normalizeWhitespace (Some t) = t.
Proof.
  intros H. destruct t as [|c t]; [reflexivity|]. unfold normalizeWhitespace.
  rewrite (collapseRuns_fixed _ _ (noWhitespace_spaced _ H false)).
  rewrite (stripLeading_fixed _ (noWhitespace_spaced _ H true)).
  apply stripTrailing_fixed. now apply noWhitespace_ends.
Qed.

Lemma splitOn_lacks (sep : ascii) (u : string) :
  lacks sep u = true -> splitOn sep u = [u].
Proof.
  induction u as [|c u IH]; intros H; [reflexivity|].
  cbn [lacks] in H. apply andb_true_iff in H as [Hc Hu]. apply negb_true_iff in Hc.
  cbn [splitOn]. now rewrite Hc, (IH Hu).
Qed.

Lemma splitOn_last (sep : ascii) (u : string) (p : string) :
  lacks sep u = true ->
  exists x l, splitOn sep (p ++ String sep u) = x :: l ++ [u].
Proof.
  intros Hu. induction p as [|c p (x & l & IH)]; cbn [append splitOn].
  - rewrite Ascii.eqb_refl, (splitOn_lacks _ _ Hu). now exists ""%string, [].
  - rewrite IH. destruct (Ascii.eqb c sep).
    + now exists ""%string, (x :: l).
    + now exists (String c x), l.
Qed.

Lemma lastSegment_uuid (p u : string) :
  noWhitespace p = true -> noWhitespace u = true -> lacks ":" u = true ->
  lastSegment (mkElement (p ++ ":" ++ u)) = u.
Proof.
  intros Hp Hw Hu. unfold lastSegment, getElementText. cbn [textContent].
  rewrite normalizeWhitespace_fixed.
  - change (p ++ ":" ++ u)%string with (p ++ String ":" u)%string.
    destruct (@splitOn_last ":" u p Hu) as (x & l & ->).
    change (x :: l ++ [u]) with ((x :: l) ++ [u]). apply last_last.
  - rewrite noWhitespace_app, Hp. cbn [append noWhitespace isAsciiWhitespace negb andb].
    exact Hw.
Qed.

(* ------------------------------------------------------------------ *)
(** ** The keys *)

Lemma xorFrom_zero (key : list Byte.byte) :
  (forall i, keyAt key i = Byte.x00) ->
  forall l i, xorFrom key i l = l.
Proof.
  intros K l. induction l as [|b l IH]; intros i; [reflexivity|].
  cbn [xorFrom]. now rewrite K, xorByte_zero, IH.
Qed.

Lemma deobfuscate_zero (key : list Byte.byte) (n : Z) (blob : Blob) :
  (forall i, keyAt key i = Byte.x00) -> deobfuscate key n blob = blob.
Proof.
  intros K. pose proof (deobfuscate_bytes_eq key n blob) as E.
  destruct blob as [t bs]. cbn [blobBytes] in E.
  change (deobfuscate key n (mkBlob t bs))
    with (mkBlob t (blobBytes (deobfuscate key n (mkBlob t bs)))).
  rewrite E. destruct (n <? 0)%Z; [reflexivity|].
  now rewrite (@xorFrom_zero key K), firstn_skipn.
Qed.

Lemma removeSpaces_spaced (r : string) :
  forall b, spaced b r = true -> removeSpaces r = inkOf r.
Proof.
  induction r as [|c r IH]; intros b H; [reflexivity|].
  cbn [spaced] in H. cbn [removeSpaces inkOf].
  destruct (isAsciiWhitespace c) eqn:W.
  - apply andb_true_iff in H as [H Hr]. apply andb_true_iff in H as [Hc _].
    apply Ascii.eqb_eq in Hc. subst c. now apply (IH true).
  - rewrite <- (IH false H).
    destruct c as [[] [] [] [] [] [] [] []]; try discriminate W; reflexivity.
Qed.

(** X27: [getUUID] always returns a string.  It looks at each
    [dc:identifier] in document order, at what follows the last colon
    of its normalised text, and returns the first such segment in which
    [isUUIDReg] finds a match, whole; when there is none it returns the
    empty string.  The expression has no anchors: every text that
    holds the lower-case form of a UUID somewhere passes, whatever
    stands before and after it, and [getUUID] then returns the text
    with these extra characters. *)
Theorem getUUID_first_match (opf : Package) :
  ((getUUID opf = Some ""%string /\
    Forall (fun el => testUUID (lastSegment el) = false) (dcIdentifiers opf))
   \/ exists pre el post,
        dcIdentifiers opf = pre ++ el :: post /\
        Forall (fun x => testUUID (lastSegment x) = false) pre /\
        testUUID (lastSegment el) = true /\
        getUUID opf = Some (lastSegment el)) /\
  (forall (bs : list Byte.byte) (a b : string),
      length bs = 16%nat -> testUUID (a ++ formatUUID bs ++ b) = true) /\
  (forall (bs : list Byte.byte) (p a b : string) rest,
      length bs = 16%nat ->
      noWhitespace (p ++ a ++ b) = true -> lacks ":" (a ++ b) = true ->
      getUUIDFrom (mkElement (p ++ ":" ++ a ++ formatUUID bs ++ b) :: rest)
      = Some (a ++ formatUUID bs ++ b)%string).
Proof.
  split; [apply getUUIDFrom_spec|]. split.
  - intros bs a b H. apply testUUID_app, testUUID_head. now apply matchUUIDAt_formatUUID.
  - intros bs p a b rest H Hw Hc.
    rewrite !noWhitespace_app in Hw. apply andb_true_iff in Hw as [Hp Hw].
    apply andb_true_iff in Hw as [Ha Hb].
    assert (LA : forall x y, lacks ":" (x ++ y) = lacks ":" x && lacks ":" y).
    { induction x as [|c x IH]; intros y; [reflexivity|]. cbn [append lacks].
      now rewrite IH, andb_assoc. }
    rewrite LA in Hc. apply andb_true_iff in Hc as [Ca Cb].
    rewrite getUUIDFrom_cons, lastSegment_uuid.
    + rewrite testUUID_app; [reflexivity|].
      apply testUUID_head. now apply matchUUIDAt_formatUUID.
    + exact Hp.
    + now rewrite !noWhitespace_app, Ha, Hb, (@noWhitespace_formatUUID bs H).
    + now rewrite !LA, Ca, Cb, (@lacks_formatUUID bs H).
Qed.

(** X28: the key of the Adobe deobfuscator.  When [getUUID] finds no
    identifier with a UUID, the key is 16 zero bytes, and [decode]
    with this key returns every blob unchanged.  When the first
    [dc:identifier] has the text [p:u] with [u] the lower-case form of
    a UUID of 16 bytes and [p] free of white space (as in
    [urn:uuid:...]), the key is these 16 bytes, in order. *)
Theorem keyAdobe_bytes (opf : Package) :
  (getUUID opf = Some ""%string ->
     keyAdobe opf = repeat Byte.x00 16 /\
     forall blob, decodeAdobe (keyAdobe opf) blob = blob) /\
  (forall (bs : list Byte.byte) (p : string) rest,
      length bs = 16%nat -> noWhitespace p = true ->
      dcIdentifiers opf = mkElement (p ++ ":" ++ formatUUID bs) :: rest ->
      getUUID opf = Some (formatUUID bs) /\ keyAdobe opf = bs).
Proof.
  split.
  - intros E.
    assert (K : keyAdobe opf = repeat Byte.x00 16) by (unfold keyAdobe; now rewrite E).
    split; [exact K|]. intros blob. rewrite K. apply deobfuscate_zero.
    intros i. unfold keyAt. apply nth_repeat.
  - intros bs p rest H Hp D.
    assert (U : getUUID opf = Some (formatUUID bs)).
    { assert (M : matchUUIDAt (formatUUID bs) = true).
      { rewrite <- (append_nil_r (formatUUID bs)). now apply matchUUIDAt_formatUUID. }
      unfold getUUID. rewrite D, getUUIDFrom_cons, lastSegment_uuid.
      - now rewrite (testUUID_head _ M).
      - exact Hp.
      - now apply noWhitespace_formatUUID.
      - now apply lacks_formatUUID. }
    split; [exact U|]. unfold keyAdobe. rewrite U. cbn [option_map].
    rewrite (@removeChar_formatUUID bs H). now apply key_of_hex.
Qed.

Lemma keyAdobe_bytes_witness :
  keyAdobe (mkPackage [mkElement "urn:uuid:00112233-4455-6677-8899-aabbccddeeff"] None)
  = [Byte.x00; Byte.x11; Byte.x22; Byte.x33; Byte.x44; Byte.x55; Byte.x66; Byte.x77;
     Byte.x88; Byte.x99; Byte.xaa; Byte.xbb; Byte.xcc; Byte.xdd; Byte.xee; Byte.xff]
  /\ keyAdobe (mkPackage [mkElement "urn:uuid:00112233-4455-6677-8899-AABBCCDDEEFF"] None)
     = repeat Byte.x00 16.
Proof.
  split.
  - exact (proj2 (proj2 (keyAdobe_bytes
             (mkPackage [mkElement "urn:uuid:00112233-4455-6677-8899-aabbccddeeff"] None))
             [Byte.x00; Byte.x11; Byte.x22; Byte.x33; Byte.x44; Byte.x55; Byte.x66;
              Byte.x77; Byte.x88; Byte.x99; Byte.xaa; Byte.xbb; Byte.xcc; Byte.xdd;
              Byte.xee; Byte.xff] "urn:uuid" [] eq_refl eq_refl eq_refl)).
  - exact (proj1 (proj1 (keyAdobe_bytes
             (mkPackage [mkElement "urn:uuid:00112233-4455-6677-8899-AABBCCDDEEFF"] None))
             eq_refl)).
Defined.

(** X29: the key of the IDPF deobfuscator is [sha1] of the text of the
    element that the [unique-identifier] attribute names, or of the
    first [dc:identifier] when there is no such element, or of the
    empty string when there is neither, with every white-space
    character removed: spaces, tabs, line feeds and carriage returns,
    and form feeds as well, which [getElementText] has turned into
    spaces before. *)
Theorem keyIDPF_input (sha1 : string -> list Byte.byte) (opf : Package) :
  keyIDPF sha1 opf
  = sha1 (inkOf (match uniqueIdentifier opf, dcIdentifiers opf with
                 | Some u, _ => textContent u
                 | None, el :: _ => textContent el
                 | None, [] => ""
                 end)).
Proof.
  unfold keyIDPF, getIdentifier. f_equal.
  assert (T : forall t, removeSpaces (normalizeWhitespace (Some t)) = inkOf t).
  { intros t. destruct t as [|c t]; [reflexivity|]. unfold normalizeWhitespace.
    rewrite (@removeSpaces_spaced _ true).
    - now rewrite inkOf_stripTrailing, inkOf_stripLeading, inkOf_collapseRuns.
    - apply stripTrailing_spaced, (@stripLeading_spaced _ false), collapseRuns_spaced. }
  destruct (uniqueIdentifier opf) as [u|]; [apply T|].
  destruct (dcIdentifiers opf) as [|el r]; [reflexivity|apply T].
Qed.

(* ------------------------------------------------------------------ *)
(** ** Maps *)

Lemma mapGet_set {A} (m : smap A) (k : string) (v : A) (x : string) :
  mapGet (mapSet m k v) x = if String.eqb k x then Some v else mapGet m x.
Proof.
  induction m as [|[k' v'] r IH]; cbn [mapSet mapGet]; [reflexivity|].
  destruct (String.eqb_spec k' k) as [->|N]; cbn [mapGet].
  - destruct (String.eqb k x); reflexivity.
  - rewrite IH. destruct (String.eqb_spec k' x) as [->|N']; [|reflexivity].
    destruct (String.eqb_spec k x) as [->|]; [contradiction|reflexivity].
Qed.

Lemma mapGet_delete {A} (m : smap A) (k x : string) :
  mapGet (mapDelete m k) x = if String.eqb k x then None else mapGet m x.
Proof.
  induction m as [|[k' v'] r IH]; cbn [mapDelete mapGet].
  - now destruct (String.eqb k x).
  - destruct (String.eqb_spec k' k) as [->|N]; cbn [mapGet]; rewrite IH.
    + destruct (String.eqb k x); reflexivity.
    + destruct (String.eqb_spec k' x) as [->|N']; [|reflexivity].
      destruct (String.eqb_spec k x) as [->|]; [contradiction|reflexivity].
Qed.

Lemma length_mapDelete {A} (m : smap A) (k : string) :
  (length (mapDelete m k) <= length m)%nat /\
  (mapGet m k <> None -> length (mapDelete m k) < length m)%nat.
Proof.
  induction m as [|[k' v'] r [IH1 IH2]]; cbn [mapDelete mapGet length].
  - split; [lia|congruence].
  - destruct (String.eqb k' k); cbn [length]; split; try intros H; try lia.
    apply IH2 in H. lia.
Qed.

Lemma length_mapSet {A} (m : smap A) (k : string) (v w : A) :
  mapGet m k = Some w -> length (mapSet m k v) = length m.
Proof.
  induction m as [|[k' v'] r IH]; cbn [mapSet mapGet length]; [discriminate|].
  destruct (String.eqb k' k); cbn [length]; [reflexivity|]. intros H. now rewrite IH.
Qed.

Lemma listed_delete (m : smap (list string)) (k : string) :
  (listed (mapDelete m k) <= listed m)%nat.
Proof.
  unfold listed. induction m as [|[k' v'] r IH]; simpl; [lia|].
  destruct (String.eqb k' k); simpl; lia.
Qed.

Lemma listed_set (m : smap (list string)) (k : string) (v w : list string) :
  mapGet m k = Some w ->
  (listed (mapSet m k v) + length w = listed m + length v)%nat.
Proof.
  unfold listed. induction m as [|[k' v'] r IH]; simpl; [discriminate|].
  destruct (String.eqb k' k); simpl.
  - intros E. injection E as ->. lia.
  - intros E. specialize (IH E). lia.
Qed.

Lemma listed_get (m : smap (list string)) (k : string) (w : list string) :
  mapGet m k = Some w -> (length w <= listed m)%nat.
Proof.
  unfold listed. induction m as [|[k' v'] r IH]; simpl; [discriminate|].
  destruct (String.eqb k' k); simpl.
  - intros E. injection E as ->. lia.
  - intros E. specialize (IH E). lia.
Qed.

(* ------------------------------------------------------------------ *)
(** ** What a call of [unref] changes *)

Lemma shrinksBut_refl (but : option string) (st : Loader) : shrinksBut but st st.
Proof.
  constructor; auto.
  - intros k c' E. exists c'. split; [exact E|lia].
  - exists []. now rewrite app_nil_r.
Qed.

Lemma shrinks_uncounted (but : option string) (st st' : Loader) (k : string) :
  shrinksBut but st st' -> mapGet (refCount st) k = None -> mapGet (refCount st') k = None.
Proof.
  intros H E. destruct (mapGet (refCount st') k) as [c'|] eqn:E'; [|reflexivity].
  destruct (@shrinks_count _ _ _ H k c' E') as (c & Ec & _). congruence.
Qed.

Lemma shrinksBut_trans (but : option string) (a b c : Loader) :
  shrinksBut but a b -> shrinksBut but b c -> shrinksBut but a c.
Proof.
  intros H1 H2. constructor.
  - pose proof (shrinks_weight H1). pose proof (shrinks_weight H2). lia.
  - intros k c' E. destruct (@shrinks_count _ _ _ H2 k c' E) as (c1 & E1 & L1).
    destruct (@shrinks_count _ _ _ H1 k c1 E1) as (c0 & E0 & L0).
    exists c0. split; [exact E0|lia].
  - intros k. destruct (@shrinks_cache _ _ _ H2 k) as [N|E]; [now left|].
    rewrite E. apply (@shrinks_cache _ _ _ H1).
  - intros k Nk E.
    rewrite (@shrinks_children _ _ _ H2 k Nk (@shrinks_uncounted but a b k H1 E)).
    now apply (@shrinks_children _ _ _ H1).
  - destruct (@shrinks_revoked _ _ _ H1) as [m1 E1].
    destruct (@shrinks_revoked _ _ _ H2) as [m2 E2].
    exists (m1 ++ m2). now rewrite E2, E1, app_assoc.
  - intros S. apply (@shrinks_synced _ _ _ H2), (@shrinks_synced _ _ _ H1), S.
Qed.

Lemma shrinks_weaken (but : option string) (st st' : Loader) :
  shrinks st st' -> shrinksBut but st st'.
Proof.
  intros H. constructor; try apply H.
  intros k _ E. apply (@shrinks_children _ _ _ H); [discriminate|exact E].
Qed.

Lemma shrinks_counted (h : string) (st st' : Loader) :
  shrinksBut (Some h) st st' -> mapGet (refCount st) h <> None -> shrinks st st'.
Proof.
  intros H C. constructor; try apply H.
  intros k _ E. apply (@shrinks_children _ _ _ H); [|exact E]. intros K.
  injection K as ->. contradiction.
Qed.

(** One [pop] from the list of [href]. *)
Lemma pop_shrinks (st : Loader) (href : string) (l r : list string) (c : string) :
  mapGet (children st) href = Some l -> rev l = c :: r ->
  let st' := mkLoader (cache st) (mapSet (children st) href (rev r)) (refCount st)
                      (revoked st) in
  shrinksBut (Some href) st st' /\ (weight st' < weight st)%nat /\
  mapGet (children st') href = Some (rev r) /\ length (rev r) = (length l - 1)%nat.
Proof.
  intros E R st'.
  assert (Ll : length l = S (length (rev r))).
  { rewrite <- (length_rev l), R. cbn [length]. now rewrite length_rev. }
  assert (W : (weight st' < weight st)%nat).
  { unfold weight, st'. cbn [refCount children].
    pose proof (@listed_set (children st) href (rev r) l E). lia. }
  split; [|split; [exact W|split; [|lia]]].
  - constructor; unfold st'; cbn [cache refCount revoked children]; auto.
    + fold st'. lia.
    + intros k c' Ek. exists c'. split; [exact Ek|lia].
    + intros k Nk _. rewrite mapGet_set.
      destruct (String.eqb_spec href k) as [->|]; [now contradiction Nk|reflexivity].
    + exists []. now rewrite app_nil_r.
  - unfold st'. cbn [children]. now rewrite mapGet_set, String.eqb_refl.
Qed.

Section Calls.

Variable f : nat.
Variable call : string -> Loader -> option Loader.
Hypothesis call_spec :
  forall h s, (weight s < f)%nat -> exists s', call h s = Some s' /\ shrinks s s'.

Variable href : string.

Lemma unrefLoop_spec (n : nat) :
  forall s,
    mapGet (refCount s) href = None ->
    (forall l, mapGet (children s) href = Some l -> (length l <= n)%nat) ->
    (weight s <= f)%nat ->
    exists s', unrefLoop call n href s = Some s' /\ shrinksBut (Some href) s s'.
Proof.
  induction n as [|n IH]; intros s C Ln W.
  - cbn [unrefLoop]. destruct (mapGet (children s) href) as [l|] eqn:E.
    + specialize (Ln l eq_refl). destruct l; [|cbn in Ln; lia].
      exists s. split; [reflexivity|apply shrinksBut_refl].
    + exists s. split; [reflexivity|apply shrinksBut_refl].
  - cbn [unrefLoop]. destruct (mapGet (children s) href) as [l|] eqn:E.
    + destruct (rev l) as [|c r] eqn:R.
      * exists s. split; [reflexivity|apply shrinksBut_refl].
      * destruct (@pop_shrinks s href l r c E R) as (P1 & P2 & P3 & P4).
        set (sp := mkLoader (cache s) (mapSet (children s) href (rev r)) (refCount s)
                            (revoked s)) in *.
        destruct (call_spec c sp ltac:(lia)) as (s1 & E1 & S1). rewrite E1.
        destruct (IH s1) as (s2 & E2 & S2).
        -- apply (@shrinks_uncounted None sp s1 href S1). exact C.
        -- intros l1 El1. rewrite (@shrinks_children _ _ _ S1 href) in El1.
           ++ rewrite P3 in El1. injection El1 as <-. specialize (Ln l eq_refl). lia.
           ++ discriminate.
           ++ exact C.
        -- pose proof (@shrinks_weight _ _ _ S1). lia.
        -- exists s2. split; [exact E2|].
           eapply shrinksBut_trans; [exact P1|].
           eapply shrinksBut_trans; [apply shrinks_weaken; exact S1|exact S2].
    + exists s. split; [reflexivity|apply shrinksBut_refl].
Qed.

End Calls.

(* ------------------------------------------------------------------ *)
(** ** Every call of [unref] returns *)

Lemma unref_S (f : nat) (href : string) (st : Loader) :
  unref (S f) href st
  = match mapGet (refCount st) href with
    | None => Some st
    | Some c =>
        if (c - 1 <? 1)%Z then
          match unrefLoop (unref f) f href
                  (mkLoader (mapDelete (cache st) href) (children st)
                            (mapDelete (refCount st) href)
                            (revoked st ++ [match mapGet (cache st) href with
                                            | Some u => if nonEmpty u then u else ""
                                            | None => ""
                                            end])) with
          | Some st2 =>
              Some (mkLoader (cache st2) (mapDelete (children st2) href)
                             (refCount st2) (revoked st2))
          | None => None
          end
        else Some (mkLoader (cache st) (children st)
                            (mapSet (refCount st) href (c - 1)%Z) (revoked st))
    end.
Proof. reflexivity. Qed.

Lemma lower_shrinks (st : Loader) (href : string) (c : Z) :
  mapGet (refCount st) href = Some c ->
  shrinks st (mkLoader (cache st) (children st) (mapSet (refCount st) href (c - 1)%Z)
                       (revoked st)).
Proof.
  intros E. constructor; cbn [cache children refCount revoked]; auto.
  - unfold weight. cbn [refCount children]. rewrite (length_mapSet _ _ _ E). lia.
  - intros k c'. rewrite mapGet_set. destruct (String.eqb_spec href k) as [<-|].
    + intros K. injection K as <-. exists c. split; [exact E|lia].
    + intros K. exists c'. split; [exact K|lia].
  - exists []. now rewrite app_nil_r.
  - intros S k. cbn [cache refCount]. rewrite mapGet_set.
    destruct (String.eqb_spec href k) as [<-|]; [|apply S].
    split; [|discriminate]. intros K. apply S in K. congruence.
Qed.

Lemma drop_shrinks (st : Loader) (href url : string) (c : Z) :
  mapGet (refCount st) href = Some c ->
  let st1 := mkLoader (mapDelete (cache st) href) (children st)
                      (mapDelete (refCount st) href) (revoked st ++ [url]) in
  shrinks st st1 /\ (weight st1 < weight st)%nat.
Proof.
  intros E st1.
  assert (W : (weight st1 < weight st)%nat).
  { unfold weight, st1. cbn [refCount children].
    destruct (length_mapDelete (refCount st) href) as [_ L].
    assert (mapGet (refCount st) href <> None) by congruence. specialize (L H). lia. }
  split; [|exact W].
  constructor; unfold st1; cbn [cache children refCount revoked]; auto.
  - fold st1. lia.
  - intros k c'. rewrite mapGet_delete. destruct (String.eqb href k); [discriminate|].
    intros K. exists c'. split; [exact K|lia].
  - intros k. rewrite mapGet_delete. destruct (String.eqb href k); auto.
  - now exists [url].
  - intros S k. cbn [cache refCount]. rewrite !mapGet_delete.
    destruct (String.eqb href k); [tauto|apply S].
Qed.

Lemma forget_shrinks (st : Loader) (href : string) :
  shrinksBut (Some href) st
             (mkLoader (cache st) (mapDelete (children st) href) (refCount st) (revoked st)).
Proof.
  constructor; cbn [cache children refCount revoked]; auto.
  - unfold weight. cbn [refCount children]. pose proof (listed_delete (children st) href). lia.
  - intros k c' K. exists c'. split; [exact K|lia].
  - intros k Nk _. rewrite mapGet_delete.
    destruct (String.eqb_spec href k) as [->|]; [now contradiction Nk|reflexivity].
  - exists []. now rewrite app_nil_r.
Qed.

Lemma unref_total (fuel : nat) :
  forall href st,
    (weight st < fuel)%nat ->
    exists st', unref fuel href st = Some st' /\ shrinks st st' /\ released st href st'.
Proof.
  induction fuel as [|f IH]; intros href st W; [lia|].
  rewrite unref_S. unfold released.
  destruct (mapGet (refCount st) href) as [c|] eqn:E.
  - destruct (c - 1 <? 1)%Z eqn:Low.
    + set (url := match mapGet (cache st) href with
                  | Some u => if nonEmpty u then u else ""
                  | None => ""
                  end).
      assert (U : url = addressOf st href).
      { unfold url, addressOf. destruct (mapGet (cache st) href) as [[|]|]; reflexivity. }
      destruct (@drop_shrinks st href url c E) as [D1 D2].
      set (st1 := mkLoader (mapDelete (cache st) href) (children st)
                           (mapDelete (refCount st) href) (revoked st ++ [url])) in *.
      assert (C1 : mapGet (refCount st1) href = None).
      { unfold st1. cbn [refCount]. now rewrite mapGet_delete, String.eqb_refl. }
      destruct (@unrefLoop_spec f (unref f)
                  (fun h s Hs => match IH h s Hs with
                                 | ex_intro _ s' (conj A (conj B _)) =>
                                     ex_intro _ s' (conj A B)
                                 end)
                  href f st1 C1) as (st2 & E2 & S2).
      * intros l El. pose proof (listed_get (children st1) href El).
        unfold weight in D2, W. lia.
      * lia.
      * rewrite E2. eexists. split; [reflexivity|].
        pose proof (@forget_shrinks st2 href) as F.
        set (st3 := mkLoader (cache st2) (mapDelete (children st2) href) (refCount st2)
                             (revoked st2)) in *.
        assert (S13 : shrinksBut (Some href) st1 st3)
          by (eapply shrinksBut_trans; [exact S2|exact F]).
        split.
        -- apply (@shrinks_counted href); [|congruence].
           eapply shrinksBut_trans; [apply shrinks_weaken; exact D1|exact S13].
        -- repeat split.
           ++ destruct (@shrinks_cache _ _ _ S13 href) as [N|N]; [exact N|].
              rewrite N. unfold st1. cbn [cache].
              now rewrite mapGet_delete, String.eqb_refl.
           ++ apply (@shrinks_uncounted (Some href) st1 st3 href S13 C1).
           ++ unfold st3. cbn [children]. now rewrite mapGet_delete, String.eqb_refl.
           ++ destruct (@shrinks_revoked _ _ _ S13) as [more M]. exists more.
              rewrite M. unfold st1. cbn [revoked]. rewrite <- app_assoc, U. reflexivity.
    + eexists. split; [reflexivity|]. split; [now apply lower_shrinks|reflexivity].
  - exists st. split; [reflexivity|]. split; [apply shrinksBut_refl|reflexivity].
Qed.

Lemma unrefLoop_mono (call call' : string -> Loader -> option Loader) (href : string) :
  (forall h s r, call h s = Some r -> call' h s = Some r) ->
  forall n s r, unrefLoop call n href s = Some r -> unrefLoop call' (S n) href s = Some r.
Proof.
  intros Hc. induction n as [|n IH]; intros s r.
  - cbn [unrefLoop]. destruct (mapGet (children s) href) as [l|]; [|trivial].
    destruct (rev l); [trivial|discriminate].
  - intros H. cbn [unrefLoop] in H.
    change (unrefLoop call' (S (S n)) href s)
      with (match mapGet (children s) href with
            | Some l =>
                match rev l with
                | [] => Some s
                | c :: r0 =>
                    match call' c (mkLoader (cache s) (mapSet (children s) href (rev r0))
                                            (refCount s) (revoked s)) with
                    | Some st' => unrefLoop call' (S n) href st'
                    | None => None
                    end
                end
            | None => Some s
            end).
    destruct (mapGet (children s) href) as [l|]; [|exact H].
    destruct (rev l) as [|c r0]; [exact H|].
    destruct (call c _) as [s1|] eqn:E1; [|discriminate].
    rewrite (Hc _ _ _ E1). now apply IH.
Qed.

Lemma unref_mono (f : nat) :
  forall h s r, unref f h s = Some r -> unref (S f) h s = Some r.
Proof.
  induction f as [|f IH]; intros h s r H; [discriminate|].
  rewrite unref_S in H. rewrite unref_S.
  destruct (mapGet (refCount s) h) as [c|]; [|exact H].
  destruct (c - 1 <? 1)%Z; [|exact H].
  destruct (unrefLoop (unref f) f h _) as [s2|] eqn:E2; [|discriminate].
  now rewrite (unrefLoop_mono (unref f) (unref (S f)) h IH _ _ E2).
Qed.

Lemma unref_more (f : nat) (h : string) (s r : Loader) :
  unref f h s = Some r -> forall g, (f <= g)%nat -> unref g h s = Some r.
Proof.
  intros H g L. induction L as [|g L IH]; [exact H|]. now apply unref_mono.
Qed.

(* ------------------------------------------------------------------ *)
(** ** References *)

Lemma ref_state (href parent : string) (st : Loader) :
  fst (ref href parent st)
  = if lists st parent href then st
    else mkLoader (cache st)
                  (mapSet (children st) parent (childrenOf st parent ++ [href]))
                  (mapSet (refCount st) href (countOf st href + 1)%Z)
                  (revoked st).
Proof.
  unfold ref, lists, childrenOf, countOf. cbn [fst].
  destruct (mapGet (children st) parent) as [l|]; [|reflexivity].
  destruct (existsb (String.eqb href) l); reflexivity.
Qed.

Lemma lists_ref (href parent : string) (st : Loader) :
  lists (fst (ref href parent st)) parent href = true.
Proof.
  rewrite ref_state. destruct (lists st parent href) eqn:L; [exact L|].
  unfold lists. cbn [children]. rewrite mapGet_set, String.eqb_refl.
  rewrite existsb_app. cbn [existsb]. rewrite String.eqb_refl. apply orb_true_r.
Qed.

(** X30: the reference counts of the loader.  [ref] returns the cached
    address of the resource.  When the list of the parent holds the
    resource already, [ref] changes nothing, so a parent counts once
    however often it refers to a resource; otherwise the count goes up
    by one, from 0 for a resource without count, and the parent lists
    the resource from then on.  [unref] returns for every state of the
    loader, lists of children with cycles included: a bound above the
    number of counted resources plus the number of listed children is
    never reached, and the result is the same for every bound that is
    not reached.  A resource without count is left alone; a count of 2
    or more is lowered by one; with a count of 1 or less the resource
    loses its count, its cached address, which is revoked, and its list
    of children.  No call adds a count or a cached address, raises a
    count, or touches the list of a resource that has no count. *)
Theorem loader_counts (st : Loader) (href parent : string) :
  (snd (ref href parent st) = mapGet (cache st) href /\
   lists (fst (ref href parent st)) parent href = true /\
   fst (ref href parent (fst (ref href parent st))) = fst (ref href parent st) /\
   (lists st parent href = true -> fst (ref href parent st) = st) /\
   (lists st parent href = false ->
      countOf (fst (ref href parent st)) href = (countOf st href + 1)%Z /\
      childrenOf (fst (ref href parent st)) parent = childrenOf st parent ++ [href] /\
      (forall k, k <> href ->
                 mapGet (refCount (fst (ref href parent st))) k = mapGet (refCount st) k) /\
      (forall k, k <> parent ->
                 mapGet (children (fst (ref href parent st))) k = mapGet (children st) k)))
  /\
  exists st',
    (forall fuel, (weight st < fuel)%nat -> unref fuel href st = Some st') /\
    (forall fuel r, unref fuel href st = Some r -> r = st') /\
    released st href st' /\
    shrinks st st'.
Proof.
  split.
  - split; [|split; [apply lists_ref|split; [|split]]].
    + unfold ref. cbn [snd fst].
      destruct (mapGet (children st) parent) as [l|];
        [destruct (existsb (String.eqb href) l)|]; reflexivity.
    + rewrite (ref_state href parent (fst (ref href parent st))). now rewrite lists_ref.
    + intros L. now rewrite ref_state, L.
    + intros L. rewrite ref_state, L. unfold countOf, childrenOf.
      cbn [refCount children]. rewrite !mapGet_set, !String.eqb_refl.
      repeat split.
      * intros k N. rewrite mapGet_set.
        destruct (String.eqb_spec href k) as [->|]; [contradiction|reflexivity].
      * intros k N. rewrite mapGet_set.
        destruct (String.eqb_spec parent k) as [->|]; [contradiction|reflexivity].
  - destruct (@unref_total (S (weight st)) href st (Nat.lt_succ_diag_r _))
      as (st' & E & Sh & R).
    exists st'. split; [|split; [|split; assumption]].
    + intros fuel W. apply (unref_more _ _ E). lia.
    + intros fuel r Er.
      pose proof (unref_more _ _ E (Nat.le_max_l (S (weight st)) fuel)) as A.
      pose proof (unref_more _ _ Er (Nat.le_max_r (S (weight st)) fuel)) as B.
      congruence.
Qed.
